(** * Fusync: the DAG scheduling engine of [sequenceBuilderV5.ts]

    A shallow embedding of the graph builder ([Graph.addTask]), the planner
    ([topologicalSortWithPriority]), the [Semaphore], the task runner
    ([executeTaskWithRetries]), the level-barrier driver
    ([executeTasksWithConcurrencyLimit]) and [Sequence.build], followed by
    the properties of the engine.

    Conventions.
    - A JavaScript [number] that the engine only uses as a counter, a level,
      a priority or a millisecond reading is a [Z].
    - A [GraphNode] reference is the node's key in [Graph.nodes]; the [Map]
      is an association list in insertion order, which is the order
      [Map.forEach] visits.
    - An [async] function is a [Script]: the effects it performs, cut at
      every [await] that waits for the environment (an action's promise or a
      timer).  The environment decides which suspended script is resumed
      next; that choice is the schedule. *)

From Stdlib Require Import ZArith List String Bool Lia Permutation Arith.
From Stdlib Require Import DecimalString Sorted.
Import ListNotations.

Local Open Scope string_scope.
Local Open Scope list_scope.
Local Open Scope Z_scope.

(* ===================================================================== *)
(** ** Values, tasks and errors *)
(* ===================================================================== *)

(** The [any] values that flow between actions.  A [BigInt] stands for the
    values [JSON.stringify] throws on (an object that contains itself is
    another). *)
Inductive any : Type :=
| Undefined
| Null
| Str (s : string)
| Num (n : Z)
| BigInt (n : Z).

(** How the promise of one call of [task.action] settles.  [Rejected]
    carries what [error.message] reads on the reason of the rejection;
    [RejectedNullish] is a rejection whose reason is [null] ([true]) or
    [undefined] ([false]), as [Promise.reject()] gives, on which
    [error.message] throws. *)
Inductive Outcome : Type :=
| Resolved (result : any)
| Rejected (message : string)
| RejectedNullish (isNull : bool).

Inductive OnError : Type := Continue | Abort.

Inductive Status : Type := Success | Failed.

Record ExecutionMetrics : Type := mkMetrics {
  startTime : Z;
  endTime : Z;
  duration : Z
}.

(** [action k args] is what the [k]-th call (counted from 0) of the user's
    function does when called with [args]; the runner calls it once per
    attempt, so [k] is the value of [attempts] at the call. *)
Definition Action : Type := Z -> list any -> Outcome.

(** [interface Task]; an optional field that is absent is [None], and the
    [artifact] slot of a fresh task reads [undefined]. *)
Record Task : Type := mkTask {
  id : string;
  action : Action;
  dependencies : option (list string);
  artifact : any;
  retryCount : option Z;
  retryDelay : option Z;
  onError : option OnError;
  priority : option Z;
  metrics : option ExecutionMetrics;
  status : option Status
}.

(** [interface LayerConfig] and the task [Sequence.addLayer] makes of it. *)
Record LayerConfig : Type := mkLayer {
  name : string;
  execute : Action;
  dependsOn : option (list string);
  retries : option Z;
  layerRetryDelay : option Z;
  layerOnError : option OnError;
  layerPriority : option Z
}.

Definition addLayer (taskConfig : LayerConfig) : Task :=
  {| id := name taskConfig;
     action := execute taskConfig;
     dependencies := dependsOn taskConfig;
     artifact := Undefined;
     retryCount := retries taskConfig;
     retryDelay := layerRetryDelay taskConfig;
     onError := layerOnError taskConfig;
     priority := layerPriority taskConfig;
     metrics := None;
     status := None |}.

(** What can be thrown: the three [throw new Error(...)] sites of the
    engine, the reason of a rejected action rethrown by the runner (an
    error with a message, or [null] or [undefined] itself), and a
    [TypeError] of the runtime. *)
Inductive Error : Type :=
| DependencyNotFound (depId taskId : string)
| GraphHasCycle
| ActionError (message : string)
| AbortingExecution (nodeId : string)
| TypeError (message : string)
| Nullish (isNull : bool).

(** The messages of the two [TypeError]s the runner can meet (as Node.js
    words them). *)
Definition cannotReadMessage (isNull : bool) : string :=
  if isNull then "Cannot read properties of null (reading 'message')"
  else "Cannot read properties of undefined (reading 'message')".

Definition cannotSerialize : string := "Do not know how to serialize a BigInt".

(** [error.message]: the message, or the [TypeError] that reading it
    throws. *)
Definition messageOf (e : Error) : string + Error :=
  match e with
  | DependencyNotFound depId taskId =>
      inl ("Dependency " ++ depId ++ " not found for task " ++ taskId)%string
  | GraphHasCycle =>
      inl "Graph has at least one cycle; topological sort not possible."
  | ActionError m => inl m
  | AbortingExecution nodeId =>
      inl ("Aborting execution due to failure in task " ++ nodeId)%string
  | TypeError m => inl m
  | Nullish isNull => inr (TypeError (cannotReadMessage isNull))
  end.

(** [error.message] where it is read off an [Error] object. *)
Definition errorMessage (e : Error) : string :=
  match messageOf e with
  | inl m => m
  | inr _ => ""
  end.

(** [x ?? d] *)
Definition orElse {A : Type} (x : option A) (d : A) : A :=
  match x with Some v => v | None => d end.

(* ===================================================================== *)
(** ** GraphNode and Graph *)
(* ===================================================================== *)

(** [class GraphNode]; [nodeDependencies] and [dependents] hold node
    references, that is, keys of [Graph.nodes]. *)
Record GraphNode : Type := mkNode {
  nodeId : string;
  task : Task;
  nodeDependencies : list string;
  dependents : list string;
  inDegree : Z
}.

(** [new GraphNode(task)] *)
Definition newGraphNode (t : Task) : GraphNode :=
  {| nodeId := id t; task := t; nodeDependencies := [];
     dependents := []; inDegree := 0 |}.

(** [Graph.nodes : Map<string, GraphNode>], in insertion order. *)
Definition Graph : Type := list GraphNode.

Definition emptyGraph : Graph := [].

Definition nodeIds (g : Graph) : list string := map nodeId g.

(** [nodes.get(k)] *)
Fixpoint get (g : Graph) (k : string) : option GraphNode :=
  match g with
  | [] => None
  | n :: g' => if String.eqb (nodeId n) k then Some n else get g' k
  end.

(** In-place mutation of the node stored under [k]. *)
Fixpoint update (g : Graph) (k : string) (f : GraphNode -> GraphNode) : Graph :=
  match g with
  | [] => []
  | n :: g' =>
      if String.eqb (nodeId n) k then f n :: g' else n :: update g' k f
  end.

Definition pushDependency (depId : string) (n : GraphNode) : GraphNode :=
  {| nodeId := nodeId n; task := task n;
     nodeDependencies := nodeDependencies n ++ [depId];
     dependents := dependents n;
     inDegree := inDegree n + 1 |}.

Definition pushDependent (childId : string) (n : GraphNode) : GraphNode :=
  {| nodeId := nodeId n; task := task n;
     nodeDependencies := nodeDependencies n;
     dependents := dependents n ++ [childId];
     inDegree := inDegree n |}.

(** One turn of the [task.dependencies.forEach] callback of [addTask]. *)
Definition linkDependency (taskId : string) (g : Graph) (depId : string)
  : Graph + Error :=
  match get g depId with
  | None => inr (DependencyNotFound depId taskId)
  | Some _ =>
      inl (update (update g taskId (pushDependency depId))
                  depId (pushDependent taskId))
  end.

(** [forEach] with a callback that may throw: the first throw ends it. *)
Fixpoint forEachM {A S : Type} (f : S -> A -> S + Error) (l : list A) (s : S)
  : S + Error :=
  match l with
  | [] => inl s
  | x :: l' =>
      match f s x with
      | inl s' => forEachM f l' s'
      | inr e => inr e
      end
  end.

(** [Graph.addTask] *)
Definition addTask (g : Graph) (t : Task) : Graph + Error :=
  let g1 := match get g (id t) with
            | Some _ => g
            | None => g ++ [newGraphNode t]
            end in
  match dependencies t with
  | Some deps => forEachM (linkDependency (id t)) deps g1
  | None => inl g1
  end.

(** [this.tasks.forEach((task) => this.dag.addTask(task))] on a fresh
    [Graph]. *)
Definition buildGraph (tasks : list Task) : Graph + Error :=
  forEachM addTask tasks emptyGraph.

(* ===================================================================== *)
(** ** The planner: [topologicalSortWithPriority] *)
(* ===================================================================== *)

Definition priorityOf (g : Graph) (k : string) : Z :=
  match get g k with
  | Some n => orElse (priority (task n)) 0
  | None => 0
  end.

Definition dependentsOf (g : Graph) (k : string) : list string :=
  match get g k with
  | Some n => dependents n
  | None => []
  end.

Definition dependenciesOf (g : Graph) (k : string) : list string :=
  match get g k with
  | Some n => nodeDependencies n
  | None => []
  end.

(** [queue.sort((a, b) => (b.task.priority ?? 0) - (a.task.priority ?? 0))]:
    [Array.prototype.sort] is stable, so the result is the one stable
    arrangement by descending priority; insertion from the right computes
    it. *)
Fixpoint insertByPriority (g : Graph) (x : string) (l : list string)
  : list string :=
  match l with
  | [] => [x]
  | y :: l' =>
      if priorityOf g x <? priorityOf g y
      then y :: insertByPriority g x l'
      else x :: y :: l'
  end.

Definition sortByPriority (g : Graph) (l : list string) : list string :=
  fold_right (insertByPriority g) [] l.

(** The variables of the [while] loop.  [pushLog] is not a variable of the
    source: it lists the arguments of every [queue.push] in the order of
    the calls, and nothing reads it. *)
Record SortState : Type := mkSortState {
  sortGraph : Graph;
  queue : list string;
  sortedNodes : list string;
  pushLog : list string
}.

Definition decrementInDegree (n : GraphNode) : GraphNode :=
  {| nodeId := nodeId n; task := task n;
     nodeDependencies := nodeDependencies n;
     dependents := dependents n;
     inDegree := inDegree n - 1 |}.

(** One turn of [node.dependents.forEach]; the accumulator carries the
    graph, the queue and the push log. *)
Definition visitDependent (acc : Graph * list string * list string)
  (dependent : string) : Graph * list string * list string :=
  let '(g, q, lg) := acc in
  let g' := update g dependent decrementInDegree in
  match get g' dependent with
  | Some n =>
      if inDegree n =? 0
      then (g', q ++ [dependent], lg ++ [dependent])
      else (g', q, lg)
  | None => (g', q, lg)
  end.

(** The body of the [while] loop; with an empty queue it is not entered. *)
Definition sortStep (st : SortState) : SortState :=
  match sortByPriority (sortGraph st) (queue st) with
  | [] => st
  | node :: rest =>
      let '(g', q', lg') :=
        fold_left visitDependent (dependentsOf (sortGraph st) node)
                  (sortGraph st, rest, pushLog st) in
      {| sortGraph := g'; queue := q';
         sortedNodes := sortedNodes st ++ [node]; pushLog := lg' |}
  end.

(** The state before the loop: the nodes of in-degree 0, in map order. *)
Definition sortInit (g : Graph) : SortState :=
  let roots := nodeIds (filter (fun n => inDegree n =? 0) g) in
  {| sortGraph := g; queue := roots; sortedNodes := []; pushLog := roots |}.

(** [while (queue.length > 0) { ... }], unrolled [fuel] times. *)
Fixpoint sortLoop (fuel : nat) (st : SortState) : SortState :=
  match fuel with
  | O => st
  | S fuel' =>
      match queue st with
      | [] => st
      | _ :: _ => sortLoop fuel' (sortStep st)
      end
  end.

(** Nodes whose in-degree is still positive. *)
Definition positives (g : Graph) : nat :=
  List.length (filter (fun n => 0 <? inDegree n) g).

(** A bound on the number of turns of the loop (see [sortLoop_finishes]). *)
Definition sortMeasure (st : SortState) : nat :=
  (List.length (queue st) + positives (sortGraph st))%nat.

(** [topologicalSortWithPriority]: the sorted node references, together
    with the graph whose [inDegree] fields the loop has consumed. *)
Definition topologicalSortWithPriority (g : Graph)
  : (Graph * list string) + Error :=
  let st := sortLoop (sortMeasure (sortInit g)) (sortInit g) in
  if (List.length (sortedNodes st) =? List.length g)%nat
  then inl (sortGraph st, sortedNodes st)
  else inr GraphHasCycle.

(* ===================================================================== *)
(** ** [class Semaphore] *)
(* ===================================================================== *)

(** [tasks] holds the [resolve] callbacks of the suspended [acquire] calls;
    a callback is named by the launch that waits on it. *)
Record Semaphore : Type := mkSemaphore {
  tasks : list string;
  counter : Z
}.

(** [new Semaphore(maxConcurrency)] *)
Definition newSemaphore (maxConcurrency : Z) : Semaphore :=
  {| tasks := []; counter := maxConcurrency |}.

(** [acquire()]: the boolean tells whether the returned promise is already
    resolved. *)
Definition acquire (s : Semaphore) (resolve : string) : Semaphore * bool :=
  if 0 <? counter s
  then ({| tasks := tasks s; counter := counter s - 1 |}, true)
  else ({| tasks := tasks s ++ [resolve]; counter := counter s |}, false).

(** [release()]: the option is the callback [nextTask] it calls, if any. *)
Definition release (s : Semaphore) : Semaphore * option string :=
  let c := counter s + 1 in
  match tasks s with
  | [] => ({| tasks := []; counter := c |}, None)
  | nextTask :: rest => ({| tasks := rest; counter := c - 1 |}, Some nextTask)
  end.

(* ===================================================================== *)
(** ** Effects and scripts *)
(* ===================================================================== *)

(** What a launch does to the world, in the order it does it. *)
Inductive Event : Type :=
| Invoke (taskId : string) (attempt : Z) (args : list any)
    (* [task.action(...args)] is called *)
| Settle (taskId : string) (attempt : Z) (o : Outcome)
    (* the awaited call resolved or rejected *)
| SpanEvent (taskId : string) (attempts : Z) (message : string)
    (* [span.addEvent(`Attempt ${attempts} failed: ${error.message}`)] *)
| Delay (taskId : string) (ms : Z)
    (* [delay(retryDelay)] is called *)
| SetMetrics (taskId : string) (m : ExecutionMetrics)
    (* [task.metrics = {...}] *)
| SetStatus (taskId : string) (s : Status)
    (* [task.status = ...] *)
| SetArtifact (taskId : string) (v : any).
    (* [node.task.artifact = ...] *)

Definition eventTask (e : Event) : string :=
  match e with
  | Invoke k _ _ | Settle k _ _ | SpanEvent k _ _ | Delay k _
  | SetMetrics k _ | SetStatus k _ | SetArtifact k _ => k
  end.

(** The rest of an [async] function body. *)
Inductive Script : Type :=
| Return (v : any)
| Throw (e : Error)
| Await (k : Script)
| Emit (e : Event) (k : Script).

(** [try { s } catch (error) { onThrow error }], continued by [onReturn]
    when [s] returns. *)
Fixpoint tryCatch (s : Script) (onReturn : any -> Script)
  (onThrow : Error -> Script) : Script :=
  match s with
  | Return v => onReturn v
  | Throw e => onThrow e
  | Await k => Await (tryCatch k onReturn onThrow)
  | Emit ev k => Emit ev (tryCatch k onReturn onThrow)
  end.

(* ===================================================================== *)
(** ** The task runner: [executeTaskWithRetries] *)
(* ===================================================================== *)

(** The two [Date.now()] readings of an attempt: before the action is
    called, and after its promise resolved. *)
Definition Clock : Type := Z -> Z * Z.

(** [if (data)] *)
Definition truthy (v : any) : bool :=
  match v with
  | Undefined | Null => false
  | Str s => negb (String.eqb s "")
  | Num n | BigInt n => negb (n =? 0)
  end.

(** Whether [JSON.stringify(v)] throws. *)
Definition stringifyThrows (v : any) : bool :=
  match v with BigInt _ => true | _ => false end.

(** Whether [log(type, message, data)] throws: it prints
    [JSON.stringify(data, null, 2)] when [data] is truthy. *)
Definition logThrows (data : any) : bool := truthy data && stringifyThrows data.

(** The same for [log("info", ..., args)], whose [data] is the array of the
    arguments: an array is truthy, and [JSON.stringify] throws on it when
    it does on one of its elements. *)
Definition logArgsThrows (args : list any) : bool :=
  existsb stringifyThrows args.

(** The [catch (error)] block of the loop, entered with the value [attempts]
    and followed, after [await delay(retryDelay)], by [next].  Reading
    [error.message] comes first and may throw. *)
Definition catchBlock (t : Task) (attempts : Z) (error : Error)
  (next : Script) : Script :=
  let maxAttempts := orElse (retryCount t) 0 in
  let retryDelay := orElse (retryDelay t) 0 in
  let attempts' := attempts + 1 in
  match messageOf error with
  | inr typeError => Throw typeError
  | inl message =>
      Emit (SpanEvent (id t) attempts' message)
        (if maxAttempts <? attempts'
         then Emit (SetStatus (id t) Failed) (Throw error)
         else Emit (Delay (id t) retryDelay) (Await next))
  end.

(** The [while (attempts <= maxAttempts)] loop, from the value [attempts]
    on, unrolled [fuel] times.  Of the [log] calls only what they can throw
    is part of the model, and the span status is not. *)
Fixpoint retryLoop (fuel : nat) (now : Clock) (t : Task) (args : list any)
  (attempts : Z) : Script :=
  let maxAttempts := orElse (retryCount t) 0 in
  match fuel with
  | O => Return Undefined
  | S fuel' =>
      if attempts <=? maxAttempts then
        let next := retryLoop fuel' now t args (attempts + 1) in
        if logArgsThrows args
        then catchBlock t attempts (TypeError cannotSerialize) next
        else
          Emit (Invoke (id t) attempts args) (Await
            match action t attempts args with
            | Resolved result =>
                let startTime := fst (now attempts) in
                let endTime := snd (now attempts) in
                Emit (Settle (id t) attempts (Resolved result))
               (Emit (SetMetrics (id t)
                        {| startTime := startTime; endTime := endTime;
                           duration := endTime - startTime |})
               (Emit (SetStatus (id t) Success)
               (if logThrows result
                then catchBlock t attempts (TypeError cannotSerialize) next
                else Return result)))
            | Rejected message =>
                Emit (Settle (id t) attempts (Rejected message))
                     (catchBlock t attempts (ActionError message) next)
            | RejectedNullish isNull =>
                Emit (Settle (id t) attempts (RejectedNullish isNull))
                     (catchBlock t attempts (Nullish isNull) next)
            end)
      else Return Undefined
  end.

(** Turns of the loop that can happen when [attempts] starts at 0. *)
Definition retryFuel (t : Task) : nat :=
  Z.to_nat (orElse (retryCount t) 0 + 1).

Definition executeTaskWithRetries (now : Clock) (t : Task) (args : list any)
  : Script :=
  retryLoop (retryFuel t) now t args 0.

(* ===================================================================== *)
(** ** The driver: [executeTasksWithConcurrencyLimit] *)
(* ===================================================================== *)

(** The values [Math.max] can return here. *)
Inductive JsNumber : Type := NaN | NegInfinity | Int (z : Z).

Definition max2 (a b : JsNumber) : JsNumber :=
  match a, b with
  | NaN, _ | _, NaN => NaN
  | NegInfinity, x | x, NegInfinity => x
  | Int x, Int y => Int (Z.max x y)
  end.

(** [Math.max(...xs)] *)
Definition mathMax (xs : list JsNumber) : JsNumber :=
  fold_left max2 xs NegInfinity.

Definition plusOne (a : JsNumber) : JsNumber :=
  match a with Int z => Int (z + 1) | other => other end.

(** [nodeLevels : Map<GraphNode, number>] *)
Definition Levels : Type := list (string * JsNumber).

Fixpoint levelsGet (m : Levels) (k : string) : option JsNumber :=
  match m with
  | [] => None
  | (k', v) :: m' => if String.eqb k' k then Some v else levelsGet m' k
  end.

Fixpoint levelsSet (m : Levels) (k : string) (v : JsNumber) : Levels :=
  match m with
  | [] => [(k, v)]
  | (k', v') :: m' =>
      if String.eqb k' k then (k', v) :: m' else (k', v') :: levelsSet m' k v
  end.

(** One turn of the level-assigning [sortedNodes.forEach]; a dependency
    that has no level yet reads [undefined], which [Math.max] turns into
    [NaN]. *)
Definition assignLevel (g : Graph) (nodeLevels : Levels) (node : string)
  : Levels :=
  let level :=
    match dependenciesOf g node with
    | [] => Int 0
    | deps =>
        plusOne (mathMax (map (fun dep => orElse (levelsGet nodeLevels dep) NaN)
                              deps))
    end in
  levelsSet nodeLevels node level.

Definition assignLevels (g : Graph) (sorted : list string) : Levels :=
  fold_left (assignLevel g) sorted [].

(** The values [level] takes in [for (level = 0; level <= maxLevel; level++)]. *)
Definition levelRange (maxLevel : JsNumber) : list Z :=
  match maxLevel with
  | Int m => map Z.of_nat (seq 0 (Z.to_nat (m + 1)))
  | _ => []
  end.

Definition nodesAtLevel (sorted : list string) (nodeLevels : Levels)
  (level : Z) : list string :=
  filter (fun node => match levelsGet nodeLevels node with
                      | Some (Int z) => z =? level
                      | _ => false
                      end) sorted.

Definition setArtifact (v : any) (n : GraphNode) : GraphNode :=
  let t := task n in
  {| nodeId := nodeId n;
     task := {| id := id t; action := action t;
                dependencies := dependencies t; artifact := v;
                retryCount := retryCount t; retryDelay := retryDelay t;
                onError := onError t; priority := priority t;
                metrics := metrics t; status := status t |};
     nodeDependencies := nodeDependencies n;
     dependents := dependents n; inDegree := inDegree n |}.

Definition setMetrics (m : ExecutionMetrics) (n : GraphNode) : GraphNode :=
  let t := task n in
  {| nodeId := nodeId n;
     task := {| id := id t; action := action t;
                dependencies := dependencies t; artifact := artifact t;
                retryCount := retryCount t; retryDelay := retryDelay t;
                onError := onError t; priority := priority t;
                metrics := Some m; status := status t |};
     nodeDependencies := nodeDependencies n;
     dependents := dependents n; inDegree := inDegree n |}.

Definition setStatus (s : Status) (n : GraphNode) : GraphNode :=
  let t := task n in
  {| nodeId := nodeId n;
     task := {| id := id t; action := action t;
                dependencies := dependencies t; artifact := artifact t;
                retryCount := retryCount t; retryDelay := retryDelay t;
                onError := onError t; priority := priority t;
                metrics := metrics t; status := Some s |};
     nodeDependencies := nodeDependencies n;
     dependents := dependents n; inDegree := inDegree n |}.

(** The write an event makes to the task objects. *)
Definition applyEvent (g : Graph) (e : Event) : Graph :=
  match e with
  | SetMetrics k m => update g k (setMetrics m)
  | SetStatus k s => update g k (setStatus s)
  | SetArtifact k v => update g k (setArtifact v)
  | _ => g
  end.

Definition artifactOf (g : Graph) (k : string) : any :=
  match get g k with
  | Some n => artifact (task n)
  | None => Undefined
  end.

(** The body of the closure of [nodesAtLevel.map], after
    [await semaphore.acquire()] and up to the [finally]. *)
Definition launchBody (now : string -> Clock) (g : Graph) (node : GraphNode)
  : Script :=
  let dependencyResults := map (artifactOf g) (nodeDependencies node) in
  tryCatch
    (executeTaskWithRetries (now (nodeId node)) (task node) dependencyResults)
    (fun result => Emit (SetArtifact (nodeId node) result) (Return Undefined))
    (fun _ =>
       match onError (task node) with
       | Some Abort => Throw (AbortingExecution (nodeId node))
       | _ => Emit (SetArtifact (nodeId node) Null) (Return Undefined)
       end).

(** Where a script stops when it runs without waiting. *)
Inductive Suspension : Type :=
| AtAwait (k : Script)
| AtEnd (r : option Error).

(** Run a script up to its next [await], or to its end. *)
Fixpoint runSync (s : Script) (g : Graph) (tr : list Event)
  : Graph * list Event * Suspension :=
  match s with
  | Return _ => (g, tr, AtEnd None)
  | Throw e => (g, tr, AtEnd (Some e))
  | Await k => (g, tr, AtAwait k)
  | Emit ev k => runSync k (applyEvent g ev) (tr ++ [ev])
  end.

(** Where the closure of one node is suspended. *)
Inductive Launch : Type :=
| Parked                       (* in [await semaphore.acquire()], queued *)
| Granted                      (* [acquire()] resolved, body not yet run *)
| Active (k : Script)          (* inside the runner, at an [await] *)
| Finished (r : option Error). (* the closure's promise settled *)

(** The promise of an [async] function. *)
Inductive Promise : Type :=
| Pending
| Fulfilled
| RejectedWith (e : Error).

(** The driver between two resumptions. *)
Record Driver : Type := mkDriver {
  graph : Graph;
  plan : list string;
  nodeLevels : Levels;
  semaphore : Semaphore;
  level : Z;
  laterLevels : list Z;
  launches : list (string * Launch);
  promise : Promise;
  trace : list Event
}.

Fixpoint launchOf (ls : list (string * Launch)) (k : string) : option Launch :=
  match ls with
  | [] => None
  | (k', l) :: ls' => if String.eqb k' k then Some l else launchOf ls' k
  end.

Fixpoint setLaunch (ls : list (string * Launch)) (k : string) (l : Launch)
  : list (string * Launch) :=
  match ls with
  | [] => []
  | (k', l') :: ls' =>
      if String.eqb k' k then (k', l) :: ls' else (k', l') :: setLaunch ls' k l
  end.

(** [nodesAtLevel.map(async (node) => { await semaphore.acquire(); ... })]:
    every closure runs up to its [acquire], in array order. *)
Fixpoint startLaunches (nodes : list string) (s : Semaphore)
  : Semaphore * list (string * Launch) :=
  match nodes with
  | [] => (s, [])
  | node :: nodes' =>
      let '(s1, granted) := acquire s node in
      let '(s2, ls) := startLaunches nodes' s1 in
      (s2, (node, if granted then Granted else Parked) :: ls)
  end.

(** The head of the [for] loop with the levels [ls] still to run.
    [Promise.all([])] is fulfilled without waiting for the environment. *)
Fixpoint enterLevels (ls : list Z) (st : Driver) : Driver :=
  match ls with
  | [] =>
      {| graph := graph st; plan := plan st; nodeLevels := nodeLevels st;
         semaphore := semaphore st; level := level st; laterLevels := [];
         launches := launches st; promise := Fulfilled; trace := trace st |}
  | l :: rest =>
      let '(s', started) :=
        startLaunches (nodesAtLevel (plan st) (nodeLevels st) l)
                      (semaphore st) in
      let st' :=
        {| graph := graph st; plan := plan st; nodeLevels := nodeLevels st;
           semaphore := s'; level := l; laterLevels := rest;
           launches := started; promise := Pending; trace := trace st |} in
      match started with
      | [] => enterLevels rest st'
      | _ :: _ => st'
      end
  end.

Fixpoint firstRejection (ls : list (string * Launch)) : option Error :=
  match ls with
  | [] => None
  | (_, Finished (Some e)) :: _ => Some e
  | _ :: ls' => firstRejection ls'
  end.

Definition isFulfilled (l : Launch) : bool :=
  match l with Finished None => true | _ => false end.

(** [await Promise.all(...)] looked at after a resumption: it rejects with
    the first rejection, and is fulfilled when every closure is. *)
Definition awaitAll (st : Driver) : Driver :=
  match promise st with
  | Pending =>
      match firstRejection (launches st) with
      | Some e =>
          {| graph := graph st; plan := plan st; nodeLevels := nodeLevels st;
             semaphore := semaphore st; level := level st;
             laterLevels := laterLevels st; launches := launches st;
             promise := RejectedWith e; trace := trace st |}
      | None =>
          if forallb (fun kl => isFulfilled (snd kl)) (launches st)
          then enterLevels (laterLevels st) st
          else st
      end
  | _ => st
  end.

(** Run the script [s] of launch [k] to its next stop; at its end the
    [finally] releases the permit, which may grant the oldest waiter. *)
Definition continueLaunch (k : string) (s : Script) (st : Driver) : Driver :=
  let '(g', tr', stop) := runSync s (graph st) (trace st) in
  match stop with
  | AtAwait rest =>
      {| graph := g'; plan := plan st; nodeLevels := nodeLevels st;
         semaphore := semaphore st; level := level st;
         laterLevels := laterLevels st;
         launches := setLaunch (launches st) k (Active rest);
         promise := promise st; trace := tr' |}
  | AtEnd r =>
      let '(s', nextTask) := release (semaphore st) in
      let finished := setLaunch (launches st) k (Finished r) in
      {| graph := g'; plan := plan st; nodeLevels := nodeLevels st;
         semaphore := s'; level := level st;
         laterLevels := laterLevels st;
         launches := match nextTask with
                     | Some w => setLaunch finished w Granted
                     | None => finished
                     end;
         promise := promise st; trace := tr' |}
  end.

(** Resume launch [k]. *)
Definition resumeLaunch (now : string -> Clock) (k : string) (st : Driver)
  : Driver :=
  match launchOf (launches st) k with
  | Some Granted =>
      match get (graph st) k with
      | Some node => continueLaunch k (launchBody now (graph st) node) st
      | None => st
      end
  | Some (Active s) => continueLaunch k s st
  | _ => st
  end.

Definition isResumable (l : Launch) : bool :=
  match l with Granted | Active _ => true | _ => false end.

Definition resumable (st : Driver) : list string :=
  map fst (filter (fun kl => isResumable (snd kl)) (launches st)).

(** One move of the environment: among the launches that can go on, the
    one numbered [choice] does. *)
Definition step (now : string -> Clock) (choice : nat) (st : Driver) : Driver :=
  match resumable st with
  | [] => st
  | k :: ks =>
      awaitAll (resumeLaunch now
                  (nth (choice mod List.length (k :: ks)) (k :: ks) k) st)
  end.

Definition runSchedule (now : string -> Clock) (schedule : list nat)
  (st : Driver) : Driver :=
  fold_left (fun s choice => step now choice s) schedule st.

(** The driver up to its first wait. *)
Definition startDriver (g : Graph) (sorted : list string) (maxConcurrency : Z)
  : Driver :=
  let levels := assignLevels g sorted in
  let maxLevel := mathMax (map snd levels) in
  enterLevels (levelRange maxLevel)
    {| graph := g; plan := sorted; nodeLevels := levels;
       semaphore := newSemaphore maxConcurrency; level := 0;
       laterLevels := []; launches := []; promise := Pending; trace := [] |}.

(** [executeTasksWithConcurrencyLimit] under a schedule. *)
Definition executeTasksWithConcurrencyLimit (now : string -> Clock)
  (g : Graph) (sorted : list string) (maxConcurrency : Z)
  (schedule : list nat) : Driver :=
  runSchedule now schedule (startDriver g sorted maxConcurrency).

(* ===================================================================== *)
(** ** [class Sequence] *)
(* ===================================================================== *)

Record SequenceConfig : Type := mkConfig {
  verbose : option bool;
  maxConcurrency : option Z
}.

(** The status [Sequence.build] sets on the span "Execute Sequence" when
    the driver settles. *)
Inductive SpanStatus : Type :=
| SpanOk
| SpanError (message : string).

(** What a call of [build] has come to when the schedule is used up. *)
Record BuildResult : Type := mkBuild {
  buildPromise : Promise;
  mainSpan : option SpanStatus;
  driver : option Driver
}.

(** [Sequence.build].  The graph is built and sorted outside the [try]; the
    driver runs inside it, and the [catch] records the error on the span,
    logs it and does not rethrow.  The reports after a fulfilled run
    (timeline, metrics, traces) are inside the same [try] and are not part
    of the model: whatever they throw is swallowed by the same [catch], so
    they do not change how the promise of [build] settles, and [mainSpan]
    is the status set when the driver settles, before they run. *)
Definition build (now : string -> Clock) (config : SequenceConfig)
  (tasks : list Task) (schedule : list nat) : BuildResult :=
  match buildGraph tasks with
  | inr e => {| buildPromise := RejectedWith e; mainSpan := None;
                driver := None |}
  | inl dag =>
      match topologicalSortWithPriority dag with
      | inr e => {| buildPromise := RejectedWith e; mainSpan := None;
                    driver := None |}
      | inl (dag', sorted) =>
          let d := executeTasksWithConcurrencyLimit now dag' sorted
                     (orElse (maxConcurrency config) 2) schedule in
          match promise d with
          | Pending =>
              {| buildPromise := Pending; mainSpan := None;
                 driver := Some d |}
          | Fulfilled =>
              {| buildPromise := Fulfilled; mainSpan := Some SpanOk;
                 driver := Some d |}
          | RejectedWith e =>
              {| buildPromise := Fulfilled;
                 mainSpan := Some (SpanError (errorMessage e));
                 driver := Some d |}
          end
      end
  end.

(* ===================================================================== *)
(** ** Reading scripts and traces *)
(* ===================================================================== *)

(** Every event of a script, in order, through its [await]s. *)
Fixpoint scriptEvents (s : Script) : list Event :=
  match s with
  | Return _ | Throw _ => []
  | Await k => scriptEvents k
  | Emit e k => e :: scriptEvents k
  end.

(** How the script ends: the value returned or the error thrown. *)
Fixpoint scriptResult (s : Script) : any + Error :=
  match s with
  | Return v => inl v
  | Throw e => inr e
  | Await k | Emit _ k => scriptResult k
  end.

(** The number of [await]s of a script. *)
Fixpoint scriptAwaits (s : Script) : nat :=
  match s with
  | Return _ | Throw _ => 0
  | Await k => S (scriptAwaits k)
  | Emit _ k => scriptAwaits k
  end.

Definition isInvoke (e : Event) : bool :=
  match e with Invoke _ _ _ => true | _ => false end.

Definition isSetMetrics (e : Event) : bool :=
  match e with SetMetrics _ _ => true | _ => false end.

Definition isSpanEvent (e : Event) : bool :=
  match e with SpanEvent _ _ _ => true | _ => false end.

(** The calls of actions in a trace, and the metrics writes. *)
Definition invocations (tr : list Event) : list Event := filter isInvoke tr.

Definition metricsWrites (tr : list Event) : list Event :=
  filter isSetMetrics tr.

(** The tasks whose action is called, in the order of the calls. *)
Definition launchOrder (tr : list Event) : list string :=
  map eventTask (invocations tr).

(** [x] occurs before [y] in [l]. *)
Definition before {A : Type} (l : list A) (x y : A) : Prop :=
  exists l1 l2, l = l1 ++ x :: l2 /\ In y l2.

(** The launches whose action has been called and has not settled, or that
    wait on a retry timer: the task actions that are running. *)
Definition isActive (l : Launch) : bool :=
  match l with Active _ => true | _ => false end.

Definition running (st : Driver) : list string :=
  map fst (filter (fun kl => isActive (snd kl)) (launches st)).

(** The launches that hold a permit. *)
Definition holders (st : Driver) : list string := resumable st.

Definition driverOf (r : BuildResult) : Driver :=
  match driver r with
  | Some d => d
  | None =>
      {| graph := []; plan := []; nodeLevels := [];
         semaphore := newSemaphore 0; level := 0; laterLevels := [];
         launches := []; promise := Pending; trace := [] |}
  end.

(* ===================================================================== *)
(** ** The semaphore under its protocol *)
(* ===================================================================== *)

(** The semaphore with the history of its use: who holds a permit, the
    order of the [acquire] calls and the order in which callers were
    admitted. *)
Record Gate : Type := mkGate {
  gateSemaphore : Semaphore;
  permitHolders : list string;
  arrivals : list string;
  admissions : list string
}.

Definition newGate (maxConcurrency : Z) : Gate :=
  {| gateSemaphore := newSemaphore maxConcurrency; permitHolders := [];
     arrivals := []; admissions := [] |}.

Inductive GateOp : Type :=
| Acquire (who : string)
| Release (who : string).

Fixpoint removeFirst (w : string) (l : list string) : list string :=
  match l with
  | [] => []
  | x :: l' => if String.eqb x w then l' else x :: removeFirst w l'
  end.

Definition memberOf (w : string) (l : list string) : bool :=
  existsb (String.eqb w) l.

(** One call on the semaphore.  The protocol of the driver: a closure calls
    [acquire] once, and calls [release] only while it holds a permit. *)
Definition gateStep (g : Gate) (op : GateOp) : option Gate :=
  match op with
  | Acquire w =>
      if memberOf w (arrivals g) then None
      else
        let '(s', granted) := acquire (gateSemaphore g) w in
        Some {| gateSemaphore := s';
                permitHolders := if granted then permitHolders g ++ [w]
                                 else permitHolders g;
                arrivals := arrivals g ++ [w];
                admissions := if granted then admissions g ++ [w]
                              else admissions g |}
  | Release w =>
      if memberOf w (permitHolders g) then
        let '(s', nextTask) := release (gateSemaphore g) in
        let next := match nextTask with Some x => [x] | None => [] end in
        Some {| gateSemaphore := s';
                permitHolders := removeFirst w (permitHolders g) ++ next;
                arrivals := arrivals g;
                admissions := admissions g ++ next |}
      else None
  end.

Fixpoint gateRun (ops : list GateOp) (g : Gate) : option Gate :=
  match ops with
  | [] => Some g
  | op :: ops' =>
      match gateStep g op with
      | Some g' => gateRun ops' g'
      | None => None
      end
  end.

(* ===================================================================== *)
(** ** Sample sequences *)
(* ===================================================================== *)

(** [String(v)] *)
Definition toString (v : any) : string :=
  match v with
  | Undefined => "undefined"
  | Null => "null"
  | Str s => s
  | Num z | BigInt z => NilZero.string_of_int (Z.to_int z)
  end.

(** A descriptor with every policy spelled out. *)
Definition descriptor (k : string) (deps : list string) (a : Action)
  (r d : Z) (e : OnError) (p : Z) : Task :=
  addLayer {| name := k; execute := a; dependsOn := Some deps;
              retries := Some r; layerRetryDelay := Some d;
              layerOnError := Some e; layerPriority := Some p |}.

(** [() => v] *)
Definition constant (v : any) : Action := fun _ _ => Resolved v.

(** [(x) => x + suffix] *)
Definition appendTo (suffix : string) : Action :=
  fun _ args => Resolved (Str (toString (nth 0 args Undefined) ++ suffix)).

(** [() => { throw new Error(message) }] *)
Definition failing (message : string) : Action := fun _ _ => Rejected message.

(** An action that fails on its first [n] calls and then returns [v]. *)
Definition failingFirst (n : Z) (message : string) (v : any) : Action :=
  fun k _ => if k <? n then Rejected message else Resolved v.

(** A clock: the attempts of a task start 15 ms apart and each takes
    3 ms. *)
Definition sampleClock : string -> Clock :=
  fun _ attempt => (15 * attempt, 15 * attempt + 3).

Definition defaultConfig : SequenceConfig :=
  {| verbose := None; maxConcurrency := None |}.

Definition serialConfig : SequenceConfig :=
  {| verbose := None; maxConcurrency := Some 1 |}.

(** A, then B on A, then C on B. *)
Definition chainTasks : list Task :=
  [ descriptor "A" [] (constant (Str "a")) 0 0 Continue 0;
    descriptor "B" ["A"] (appendTo "b") 0 0 Continue 0;
    descriptor "C" ["B"] (appendTo "c") 0 0 Continue 0 ].

(** Three roots with priorities 1, 5 and 3. *)
Definition rootTasks : list Task :=
  [ descriptor "A" [] (constant (Str "a")) 0 0 Continue 1;
    descriptor "B" [] (constant (Str "b")) 0 0 Continue 5;
    descriptor "C" [] (constant (Str "c")) 0 0 Continue 3 ].

(** B declared before the A it depends on. *)
Definition childFirstTasks : list Task :=
  [ descriptor "B" ["A"] (appendTo "b") 0 0 Continue 0;
    descriptor "A" [] (constant (Str "a")) 0 0 Continue 0 ].

(** Two descriptors named A. *)
Definition duplicateTasks : list Task :=
  [ descriptor "A" [] (constant (Str "first")) 0 0 Continue 0;
    descriptor "A" [] (constant (Str "second")) 0 0 Continue 0 ].

(** A fails and aborts; B depends on it. *)
Definition abortTasks : list Task :=
  [ descriptor "A" [] (failing "boom") 0 0 Abort 0;
    descriptor "B" ["A"] (appendTo "b") 0 0 Continue 0 ].

(** A fails and continues; B depends on it. *)
Definition continueTasks : list Task :=
  [ descriptor "A" [] (failing "boom") 0 0 Continue 0;
    descriptor "B" ["A"] (appendTo "b") 0 0 Continue 0 ].

(** A task that fails twice and cannot succeed within one retry, and one
    that succeeds on its second attempt. *)
Definition exhaustedTask : Task :=
  descriptor "T" [] (failing "boom") 1 10 Continue 0.

Definition recoveringTask : Task :=
  descriptor "T" [] (failingFirst 1 "boom" (Str "ok")) 1 10 Continue 0.

(** [() => Promise.reject()] *)
Definition rejecting : Action := fun _ _ => RejectedNullish false.

(** A task with two retries whose action rejects without a reason. *)
Definition nullishTask : Task :=
  descriptor "T" [] rejecting 2 10 Continue 0.


(** A, then B (priority 1) and C (priority 5) on A, then D on both. *)
Definition diamondTasks : list Task :=
  [ descriptor "A" [] (constant (Str "a")) 0 0 Continue 0;
    descriptor "B" ["A"] (appendTo "b") 0 0 Continue 1;
    descriptor "C" ["A"] (appendTo "c") 0 0 Continue 5;
    descriptor "D" ["B"; "C"] (appendTo "d") 0 0 Continue 0 ].

(* ===================================================================== *)
(** ** Invariants *)
(* ===================================================================== *)

Definition inDegreeOf (g : Graph) (k : string) : Z :=
  match get g k with
  | Some n => inDegree n
  | None => 0
  end.

Definition taskOf (g : Graph) (k : string) : option Task :=
  match get g k with
  | Some n => Some (task n)
  | None => None
  end.

(** The mutations of the engine never change the key of a node. *)
Definition keepsId (f : GraphNode -> GraphNode) : Prop :=
  forall n, nodeId (f n) = nodeId n.

(** What [addTask] maintains: one node per key, [inDegree] counts the
    dependency entries, and the two edge lists mirror each other. *)
Definition linked (g : Graph) : Prop :=
  NoDup (nodeIds g) /\
  (forall k, inDegreeOf g k = Z.of_nat (List.length (dependenciesOf g k))) /\
  (forall a b, count_occ string_dec (dependenciesOf g b) a
               = count_occ string_dec (dependentsOf g a) b) /\
  (forall k d, In d (dependenciesOf g k) -> In d (nodeIds g)) /\
  (forall k c, In c (dependentsOf g k) -> In c (nodeIds g)).

(** Two graphs that differ at most in the [inDegree] fields and in the
    mutable fields of the tasks. *)
Definition sameEdges (g g' : Graph) : Prop :=
  nodeIds g' = nodeIds g /\
  (forall k, dependenciesOf g' k = dependenciesOf g k) /\
  (forall k, dependentsOf g' k = dependentsOf g k) /\
  (forall k, priorityOf g' k = priorityOf g k).

(** The dependency entries of [k] that point to nodes outside [done]. *)
Definition pendingDependencies (g : Graph) (done : list string) (k : string)
  : list string :=
  filter (fun d => negb (memberOf d done)) (dependenciesOf g k).

(** Every member of [l] comes after all its dependencies. *)
Definition dependencyRespecting (g : Graph) (l : list string) : Prop :=
  forall l1 x l2, l = l1 ++ x :: l2 ->
  forall d, In d (dependenciesOf g x) -> In d l1.

(** The invariant of the [while] loop of the planner on the graph [g0]. *)
Definition sortInvariant (g0 : Graph) (st : SortState) : Prop :=
  sameEdges g0 (sortGraph st) /\
  NoDup (sortedNodes st ++ queue st) /\
  incl (sortedNodes st ++ queue st) (nodeIds g0) /\
  (forall k, In k (nodeIds g0) ->
     inDegreeOf (sortGraph st) k
     = Z.of_nat (List.length (pendingDependencies g0 (sortedNodes st) k))) /\
  (forall k, In k (nodeIds g0) ->
     (inDegreeOf (sortGraph st) k = 0 <-> In k (sortedNodes st ++ queue st))) /\
  dependencyRespecting g0 (sortedNodes st) /\
  incl (queue st) (pushLog st) /\
  (forall x y, before (queue st) x y -> priorityOf g0 x = priorityOf g0 y ->
               before (pushLog st) x y).

(** Descriptors with distinct ids, each depending only on earlier ones. *)
Fixpoint declaredInOrder (seen : list string) (tasks : list Task) : Prop :=
  match tasks with
  | [] => True
  | t :: tasks' =>
      ~ In (id t) seen /\
      (forall d, In d (orElse (dependencies t) []) -> In d seen) /\
      declaredInOrder (seen ++ [id t]) tasks'
  end.

(** Every node of the graph comes after its dependencies in map order. *)
Definition insertedInOrder (g : Graph) : Prop :=
  dependencyRespecting g (nodeIds g).

(** Priorities never increase along [l]. *)
Definition descending (g : Graph) (l : list string) : Prop :=
  StronglySorted (fun x y => priorityOf g y <= priorityOf g x) l.

(** The level of a node, when it has one that is a number. *)
Definition levelOf (lv : Levels) (k : string) : option Z :=
  match levelsGet lv k with
  | Some (Int z) => Some z
  | _ => None
  end.

(** Every member of [done] has a level, above the levels of its
    dependencies. *)
Definition levelled (g : Graph) (lv : Levels) (done : list string) : Prop :=
  map fst lv = done /\
  forall c, In c done ->
    exists lc, levelOf lv c = Some lc /\ 0 <= lc /\
      forall d, In d (dependenciesOf g c) ->
        exists ld, levelOf lv d = Some ld /\ ld < lc.

(** What the protocol maintains on a semaphore of capacity [K]. *)
Definition gateInvariant (K : Z) (g : Gate) : Prop :=
  let s := gateSemaphore g in
  0 <= counter s /\
  counter s + Z.of_nat (List.length (permitHolders g)) = K /\
  (tasks s <> [] -> counter s = 0) /\
  arrivals g = admissions g ++ tasks s /\
  NoDup (arrivals g) /\
  incl (permitHolders g) (admissions g).

(* ===================================================================== *)
(** ** Invariants of the driver *)
(* ===================================================================== *)

(** The part of a node that no step of the engine writes after the graph
    is built: its key, its descriptor and its edges. *)
Definition staticOf (n : GraphNode)
  : string * string * Action * option Z * option Z * option OnError
    * option Z * list string * list string :=
  (nodeId n, id (task n), action (task n), retryCount (task n),
   retryDelay (task n), onError (task n), priority (task n),
   nodeDependencies n, dependents n).

Definition sameStatic (g g' : Graph) : Prop :=
  map staticOf g' = map staticOf g.

(** A node carries the task it was created from. *)
Definition taskIdsAgree (g : Graph) : Prop :=
  forall n, In n g -> id (task n) = nodeId n.

Definition policyOf (g : Graph) (k : string) : option OnError :=
  match get g k with
  | Some n => onError (task n)
  | None => None
  end.

(** [node.dependencies.map((depNode) => depNode.task.artifact)] *)
Definition gatheredArgs (g : Graph) (k : string) : list any :=
  map (artifactOf g) (dependenciesOf g k).

Definition levelAt (lv : Levels) (k : string) : Z :=
  match levelOf lv k with
  | Some z => z
  | None => -1
  end.

(** The highest level, or -1 when there is none. *)
Definition topLevel (lv : Levels) : Z :=
  match mathMax (map snd lv) with
  | Int m => m
  | _ => -1
  end.

(** What a launch leaves as artifact when the runner ends with [r]. *)
Definition valueOf (r : any + Error) : any :=
  match r with
  | inl v => v
  | inr _ => Null
  end.

(** The artifact the launch of [k] leaves when its closure is fulfilled:
    what the runner makes of the arguments gathered in [graph]. *)
Definition expectedArtifact (now : string -> Clock) (g graph : Graph)
  (k : string) : any :=
  match get g k with
  | Some n =>
      valueOf (scriptResult
                 (executeTaskWithRetries (now k) (task n)
                    (gatheredArgs graph k)))
  | None => Undefined
  end.

(** The runner of task [k] has thrown: the task was marked failed after its
    last attempt, or an attempt was rejected with [null] or [undefined], for
    which the [catch] block throws before it marks anything. *)
Definition runnerThrew (k : string) (es : list Event) : Prop :=
  In (SetStatus k Failed) es \/
  exists a isNull, In (Settle k a (RejectedNullish isNull)) es.

(** The shape of the rest of the closure of launch [k], given the events
    [emitted] since its last [await]: its events are about [k], it calls
    the action with [args], it writes the artifact exactly once, as its
    last event before it returns, and that artifact is [expected], a
    failure is either rethrown as an abort or followed by the [null]
    artifact, and it never waits between marking the task failed and its
    end. *)
Fixpoint launchOk (k : string) (policy : option OnError) (args : list any)
  (expected : any) (emitted : list Event) (s : Script) : Prop :=
  match s with
  | Return _ =>
      exists pre v, emitted = pre ++ [SetArtifact k v] /\
        (forall v', ~ In (SetArtifact k v') pre) /\
        (In (SetStatus k Failed) pre -> policy <> Some Abort /\ v = Null) /\
        v = expected
  | Throw e =>
      e = AbortingExecution k /\ policy = Some Abort /\
      runnerThrew k emitted /\
      (forall v, ~ In (SetArtifact k v) emitted)
  | Await s' =>
      ~ In (SetStatus k Failed) emitted /\
      (forall v, ~ In (SetArtifact k v) emitted) /\
      launchOk k policy args expected [] s'
  | Emit e s' =>
      eventTask e = k /\
      (forall a args', e = Invoke k a args' -> args' = args) /\
      launchOk k policy args expected (emitted ++ [e]) s'
  end.

Definition isParked (l : Launch) : bool :=
  match l with Parked => true | _ => false end.

Definition parked (ls : list (string * Launch)) : list string :=
  map fst (filter (fun kl => isParked (snd kl)) ls).

Definition resumableOf (ls : list (string * Launch)) : list string :=
  map fst (filter (fun kl => isResumable (snd kl)) ls).

(** The semaphore against the launches: the permits out are the launches
    that can go on, and the queue is the parked launches in order. *)
Definition permitsInvariant (K : Z) (s : Semaphore)
  (ls : list (string * Launch)) : Prop :=
  (0 <= K -> 0 <= counter s) /\
  counter s + Z.of_nat (List.length (resumableOf ls)) = K /\
  (tasks s <> [] -> counter s <= 0) /\
  tasks s = parked ls.

(** What the driver knows about a node whose closure is fulfilled: its
    artifact is written, it is [null] after a failure, and it is the
    artifact expected from the artifacts of its dependencies. *)
Definition doneInvariant (now : string -> Clock) (g : Graph) (st : Driver)
  (k : string) : Prop :=
  (exists v, In (SetArtifact k v) (trace st)) /\
  (In (SetStatus k Failed) (trace st) ->
   policyOf g k <> Some Abort /\ artifactOf (graph st) k = Null) /\
  artifactOf (graph st) k = expectedArtifact now g (graph st) k.

(** What the driver knows about one launch. *)
Definition launchInvariant (now : string -> Clock) (g : Graph) (st : Driver)
  (k : string) (l : Launch) : Prop :=
  match l with
  | Parked | Granted => forall e, In e (trace st) -> eventTask e <> k
  | Active s =>
      launchOk k (policyOf g k) (gatheredArgs (graph st) k)
        (expectedArtifact now g (graph st) k) [] s /\
      ~ In (SetStatus k Failed) (trace st) /\
      (forall v, ~ In (SetArtifact k v) (trace st))
  | Finished None => doneInvariant now g st k
  | Finished (Some e) =>
      e = AbortingExecution k /\ policyOf g k = Some Abort /\
      runnerThrew k (trace st)
  end.

(** What holds of the driver on the graph [g] with the plan [sorted] and
    [K] permits after any resumption, before [Promise.all] is looked at. *)
Record coreInvariant (now : string -> Clock) (g : Graph)
  (sorted : list string) (K : Z) (st : Driver) : Prop := mkCoreInvariant {
  inv_plan : plan st = sorted;
  inv_levels : nodeLevels st = assignLevels g sorted;
  inv_static : sameStatic g (graph st);
  inv_keys : map fst (launches st)
             = nodesAtLevel sorted (assignLevels g sorted) (level st);
  inv_level : 0 <= level st;
  inv_later : exists n,
      laterLevels st
      = map Z.of_nat (seq (S (Z.to_nat (level st))) n) /\
      (sorted <> [] ->
       level st + Z.of_nat n = topLevel (assignLevels g sorted));
  inv_permits : permitsInvariant K (semaphore st) (launches st);
  inv_launch : forall k l, In (k, l) (launches st) ->
      launchInvariant now g st k l;
  inv_trace_level : forall e, In e (trace st) ->
      In (eventTask e) sorted /\
      levelAt (assignLevels g sorted) (eventTask e) <= level st;
  inv_trace_order : forall e1 e2, before (trace st) e1 e2 ->
      levelAt (assignLevels g sorted) (eventTask e1)
      <= levelAt (assignLevels g sorted) (eventTask e2);
  inv_below : forall k, In k sorted ->
      levelAt (assignLevels g sorted) k < level st ->
      doneInvariant now g st k;
  inv_args : forall c a args, In (Invoke c a args) (trace st) ->
      args = gatheredArgs (graph st) c;
  inv_fulfilled : promise st = Fulfilled ->
      laterLevels st = [] /\
      forallb (fun kl => isFulfilled (snd kl)) (launches st) = true;
  inv_rejected : forall e, promise st = RejectedWith e ->
      exists k, In (k, Finished (Some e)) (launches st)
}.

(** The invariant of a run of the driver between two moves of the
    environment. *)
Record driverInvariant (now : string -> Clock) (g : Graph)
  (sorted : list string) (K : Z) (st : Driver) : Prop := mkDriverInvariant {
  inv_core : coreInvariant now g sorted K st;
  inv_pending : promise st = Pending ->
      firstRejection (launches st) = None /\
      forallb (fun kl => isFulfilled (snd kl)) (launches st) = false;
  inv_abort : forall k e, In (k, Finished (Some e)) (launches st) ->
      exists e', promise st = RejectedWith e'
}.

(** The state at the head of the [for] loop, about to enter the levels
    [ls], the first of which is [b]: everything below [b] is done and
    every permit is back. *)
Record headInvariant (now : string -> Clock) (g : Graph)
  (sorted : list string) (K : Z) (b : Z) (ls : list Z) (st : Driver)
  : Prop := mkHeadInvariant {
  head_plan : plan st = sorted;
  head_levels : nodeLevels st = assignLevels g sorted;
  head_static : sameStatic g (graph st);
  head_base : 0 <= b;
  head_range : ls = map Z.of_nat (seq (Z.to_nat b) (List.length ls));
  head_top : sorted <> [] ->
      b + Z.of_nat (List.length ls)
      = topLevel (assignLevels g sorted) + 1;
  head_semaphore : semaphore st = {| tasks := []; counter := K |};
  head_trace_level : forall e, In e (trace st) ->
      In (eventTask e) sorted /\
      levelAt (assignLevels g sorted) (eventTask e) < b;
  head_trace_order : forall e1 e2, before (trace st) e1 e2 ->
      levelAt (assignLevels g sorted) (eventTask e1)
      <= levelAt (assignLevels g sorted) (eventTask e2);
  head_below : forall k, In k sorted ->
      levelAt (assignLevels g sorted) k < b ->
      doneInvariant now g st k;
  head_args : forall c a args, In (Invoke c a args) (trace st) ->
      args = gatheredArgs (graph st) c
}.

(** What the planner hands to the driver. *)
Record planned (g : Graph) (sorted : list string) : Prop := mkPlanned {
  planned_nodup : NoDup sorted;
  planned_nodes : NoDup (nodeIds g) /\
                  forall k, In k sorted -> In k (nodeIds g);
  planned_order : dependencyRespecting g sorted;
  planned_closed : forall k d, In k sorted -> In d (dependenciesOf g k) ->
                   In d sorted;
  planned_ids : taskIdsAgree g
}.

(** A bound on the resumptions a launch of [k] can take: one to gather the
    arguments and call the action, and two for each turn of the retry
    loop. *)
Definition launchCost (g : Graph) (k : string) : nat :=
  match get g k with
  | Some n => S (2 * retryFuel (task n))
  | None => 1
  end.

Definition launchRemaining (g : Graph) (kl : string * Launch) : nat :=
  match snd kl with
  | Parked | Granted => launchCost g (fst kl)
  | Active s => S (scriptAwaits s)
  | Finished _ => 0
  end.

Definition sumOf {A : Type} (f : A -> nat) (l : list A) : nat :=
  fold_right (fun x acc => (f x + acc)%nat) 0%nat l.

(** A bound on the resumptions left in a run. *)
Definition driverRemaining (g : Graph) (st : Driver) : nat :=
  (sumOf (launchRemaining g) (launches st)
   + sumOf (fun l => sumOf (launchCost g)
                       (nodesAtLevel (plan st) (nodeLevels st) l))
           (laterLevels st))%nat.

(** A schedule of this length lets [executeTasksWithConcurrencyLimit]
    settle. *)
Definition driverBudget (g : Graph) (sorted : list string) : nat :=
  let lv := assignLevels g sorted in
  sumOf (fun l => sumOf (launchCost g) (nodesAtLevel sorted lv l))
        (levelRange (mathMax (map snd lv))).

(** The graph and the order [Sequence.build] hands to the driver, when the
    build gets that far. *)
Definition plannedGraph (tasks : list Task) : Graph :=
  match buildGraph tasks with
  | inl dag =>
      match topologicalSortWithPriority dag with
      | inl (dag', _) => dag'
      | inr _ => []
      end
  | inr _ => []
  end.

Definition plannedOrder (tasks : list Task) : list string :=
  match buildGraph tasks with
  | inl dag =>
      match topologicalSortWithPriority dag with
      | inl (_, sorted) => sorted
      | inr _ => []
      end
  | inr _ => []
  end.

(** The capacity [Sequence.build] gives the semaphore. *)
Definition concurrencyOf (config : SequenceConfig) : Z :=
  orElse (maxConcurrency config) 2.

(** The dependency ids the descriptors of [tasks] with id [k] declare, in
    the order [addTask] meets them. *)
Definition declaredDependencies (tasks : list Task) (k : string)
  : list string :=
  flat_map (fun t => if String.eqb (id t) k
                     then orElse (dependencies t) [] else []) tasks.

(** The first descriptor of [tasks] with id [k]. *)
Definition firstDescriptor (tasks : list Task) (k : string) : option Task :=
  find (fun t => String.eqb (id t) k) tasks.

(** Whether [Sequence.build] gets as far as calling the driver. *)
Definition isPlanned (tasks : list Task) : bool :=
  match buildGraph tasks with
  | inl dag =>
      match topologicalSortWithPriority dag with
      | inl _ => true
      | inr _ => false
      end
  | inr _ => false
  end.

(** The [await delay(retryDelay)] calls in a trace. *)
Definition isDelay (e : Event) : bool :=
  match e with Delay _ _ => true | _ => false end.

Definition delays (tr : list Event) : list Event := filter isDelay tr.

(** The graph [addTask] has built from [tasks], empty when it threw. *)
Definition builtGraph (tasks : list Task) : Graph :=
  match buildGraph tasks with
  | inl g => g
  | inr _ => []
  end.

(** One turn of [sortedNodes.forEach] in the function [assignLevels] that
    [visualizeGraph] calls: the map is keyed by [node.id], and the [+ 1] is
    inside [Math.max]. *)
Definition assignLevelById (g : Graph) (levels : Levels) (node : string)
  : Levels :=
  match dependenciesOf g node with
  | [] => levelsSet levels node (Int 0)
  | deps =>
      let maxLevel :=
        mathMax (map (fun dep => plusOne (orElse (levelsGet levels dep) NaN))
                     deps) in
      levelsSet levels node maxLevel
  end.

(** [assignLevels(graph)], the function of that name: it sorts the graph
    itself, which uses up the [inDegree] counters of the graph. *)
Definition assignLevelsOf (g : Graph) : (Graph * Levels) + Error :=
  match topologicalSortWithPriority g with
  | inl (g', sortedNodes) =>
      inl (g', fold_left (assignLevelById g') sortedNodes [])
  | inr e => inr e
  end.

(* ===================================================================== *)
(** * Properties *)
(* ===================================================================== *)

(** ** The map operations *)

Lemma get_app (g1 g2 : Graph) (k : string) :
  get (g1 ++ g2) k
  = match get g1 k with Some n => Some n | None => get g2 k end.
Proof.
  induction g1 as [|n g1 IH]; simpl; [reflexivity|].
  destruct (String.eqb (nodeId n) k); [reflexivity|exact IH].
Qed.

Lemma get_Some_id (g : Graph) (k : string) (n : GraphNode) :
  get g k = Some n -> nodeId n = k /\ In n g.
Proof.
  induction g as [|m g IH]; simpl; [discriminate|].
  destruct (String.eqb (nodeId m) k) eqn:E.
  - intros H; inversion H; subst. apply String.eqb_eq in E. auto.
  - intros H. destruct (IH H). auto.
Qed.

Lemma get_None_iff (g : Graph) (k : string) :
  get g k = None <-> ~ In k (nodeIds g).
Proof.
  induction g as [|m g IH]; simpl.
  - split; auto.
  - destruct (String.eqb (nodeId m) k) eqn:E.
    + apply String.eqb_eq in E. split; [discriminate|]. intros H. exfalso; auto.
    + apply String.eqb_neq in E. rewrite IH. split.
      * intros H [H1|H1]; auto.
      * intros H H1. apply H. auto.
Qed.

Lemma get_Some_iff (g : Graph) (k : string) :
  (exists n, get g k = Some n) <-> In k (nodeIds g).
Proof.
  destruct (get g k) eqn:E.
  - split; [intros _|eauto].
    destruct (in_dec string_dec k (nodeIds g)) as [H|H]; [exact H|].
    apply get_None_iff in H. congruence.
  - split; [intros [n H]; discriminate|].
    intros H. apply get_None_iff in E. contradiction.
Qed.

Lemma nodeIds_update (g : Graph) (k : string) (f : GraphNode -> GraphNode) :
  keepsId f -> nodeIds (update g k f) = nodeIds g.
Proof.
  intros Hf. induction g as [|m g IH]; simpl; [reflexivity|].
  destruct (String.eqb (nodeId m) k); simpl.
  - rewrite Hf. reflexivity.
  - rewrite IH. reflexivity.
Qed.

Lemma length_update (g : Graph) (k : string) (f : GraphNode -> GraphNode) :
  List.length (update g k f) = List.length g.
Proof.
  induction g as [|m g IH]; simpl; [reflexivity|].
  destruct (String.eqb (nodeId m) k); simpl; congruence.
Qed.

Lemma get_update_same (g : Graph) (k : string) (f : GraphNode -> GraphNode) :
  keepsId f -> get (update g k f) k = option_map f (get g k).
Proof.
  intros Hf. induction g as [|m g IH]; simpl; [reflexivity|].
  destruct (String.eqb (nodeId m) k) eqn:E; simpl.
  - rewrite Hf, E. reflexivity.
  - rewrite E. exact IH.
Qed.

Lemma get_update_other (g : Graph) (k k' : string) (f : GraphNode -> GraphNode) :
  keepsId f -> k <> k' -> get (update g k f) k' = get g k'.
Proof.
  intros Hf Hne. induction g as [|m g IH]; simpl; [reflexivity|].
  destruct (String.eqb (nodeId m) k) eqn:E; simpl.
  - rewrite Hf. apply String.eqb_eq in E.
    destruct (String.eqb (nodeId m) k') eqn:E'; [|reflexivity].
    apply String.eqb_eq in E'. congruence.
  - rewrite IH. reflexivity.
Qed.

Lemma update_absent (g : Graph) (k : string) (f : GraphNode -> GraphNode) :
  get g k = None -> update g k f = g.
Proof.
  induction g as [|m g IH]; simpl; [reflexivity|].
  destruct (String.eqb (nodeId m) k); [discriminate|].
  intros H. rewrite IH by assumption. reflexivity.
Qed.

Lemma keepsId_pushDependency d : keepsId (pushDependency d).
Proof. intros n; reflexivity. Qed.

Lemma keepsId_pushDependent c : keepsId (pushDependent c).
Proof. intros n; reflexivity. Qed.

Lemma keepsId_decrement : keepsId decrementInDegree.
Proof. intros n; reflexivity. Qed.

Lemma keepsId_setArtifact v : keepsId (setArtifact v).
Proof. intros n; reflexivity. Qed.

Lemma keepsId_setMetrics m : keepsId (setMetrics m).
Proof. intros n; reflexivity. Qed.

Lemma keepsId_setStatus s : keepsId (setStatus s).
Proof. intros n; reflexivity. Qed.

#[local] Hint Resolve keepsId_pushDependency keepsId_pushDependent
  keepsId_decrement keepsId_setArtifact keepsId_setMetrics keepsId_setStatus
  : core.

Lemma memberOf_In (w : string) (l : list string) :
  memberOf w l = true <-> In w l.
Proof.
  unfold memberOf. rewrite existsb_exists. split.
  - intros [x [Hx E]]. apply String.eqb_eq in E. subst. exact Hx.
  - intros H. exists w. split; [exact H|apply String.eqb_refl].
Qed.

Lemma memberOf_not_In (w : string) (l : list string) :
  memberOf w l = false <-> ~ In w l.
Proof.
  rewrite <- memberOf_In. destruct (memberOf w l); split; congruence.
Qed.

(** ** The graph builder *)

Lemma forEachM_app {A S : Type} (f : S -> A -> S + Error) (l1 l2 : list A)
  (s : S) :
  forEachM f (l1 ++ l2) s
  = match forEachM f l1 s with
    | inl s' => forEachM f l2 s'
    | inr e => inr e
    end.
Proof.
  revert s. induction l1 as [|x l1 IH]; intros s; simpl; [reflexivity|].
  destruct (f s x); [apply IH|reflexivity].
Qed.

(** The edge lists and in-degrees after one [linkDependency]. *)
Lemma linkDependency_spec (taskId depId : string) (g g' : Graph) :
  In taskId (nodeIds g) ->
  linkDependency taskId g depId = inl g' ->
  In depId (nodeIds g) /\
  nodeIds g' = nodeIds g /\
  (forall k, dependenciesOf g' k
             = if String.eqb k taskId then dependenciesOf g k ++ [depId]
               else dependenciesOf g k) /\
  (forall k, dependentsOf g' k
             = if String.eqb k depId then dependentsOf g k ++ [taskId]
               else dependentsOf g k) /\
  (forall k, inDegreeOf g' k
             = if String.eqb k taskId then inDegreeOf g k + 1
               else inDegreeOf g k) /\
  (forall k, taskOf g' k = taskOf g k).
Proof.
  intros Hin. unfold linkDependency.
  destruct (get g depId) as [dn|] eqn:Ed; [|discriminate].
  intros H; inversion H; subst g'; clear H.
  apply get_Some_iff in Hin. destruct Hin as [tn Et].
  assert (Hd : In depId (nodeIds g)) by (apply get_Some_iff; eauto).
  split; [exact Hd|].
  split; [rewrite !nodeIds_update; auto|].
  assert (G : forall k,
    get (update (update g taskId (pushDependency depId)) depId
                (pushDependent taskId)) k
    = option_map (fun n =>
        let n1 := if String.eqb k taskId then pushDependency depId n else n in
        if String.eqb k depId then pushDependent taskId n1 else n1) (get g k)).
  { intros k.
    destruct (String.eqb k depId) eqn:E1.
    - apply String.eqb_eq in E1; subst k.
      rewrite get_update_same by auto.
      destruct (String.eqb depId taskId) eqn:E2.
      + apply String.eqb_eq in E2; subst depId.
        rewrite get_update_same by auto. destruct (get g taskId); reflexivity.
      + apply String.eqb_neq in E2.
        rewrite get_update_other by auto. destruct (get g depId); reflexivity.
    - apply String.eqb_neq in E1.
      rewrite get_update_other by auto.
      destruct (String.eqb k taskId) eqn:E2.
      + apply String.eqb_eq in E2; subst k.
        rewrite get_update_same by auto. destruct (get g taskId); reflexivity.
      + apply String.eqb_neq in E2.
        rewrite get_update_other by auto. destruct (get g k); reflexivity. }
  repeat split; intros k;
    unfold dependenciesOf, dependentsOf, inDegreeOf, taskOf; rewrite G;
    destruct (String.eqb k taskId) eqn:E2, (String.eqb k depId) eqn:E1;
    try (apply String.eqb_eq in E2; subst k);
    try (apply String.eqb_eq in E1; subst k);
    try rewrite Et; try rewrite Ed;
    try (destruct (get g k)); simpl; try reflexivity.
Qed.

Lemma linkDependency_error (taskId depId : string) (g : Graph) (e : Error) :
  linkDependency taskId g depId = inr e ->
  e = DependencyNotFound depId taskId /\ ~ In depId (nodeIds g).
Proof.
  unfold linkDependency. destruct (get g depId) eqn:E; [discriminate|].
  intros H; inversion H. split; [reflexivity|]. apply get_None_iff. exact E.
Qed.

Lemma count_occ_snoc (l : list string) (x y : string) :
  count_occ string_dec (l ++ [x]) y
  = (count_occ string_dec l y + if String.eqb x y then 1 else 0)%nat.
Proof.
  rewrite count_occ_app. simpl.
  destruct (string_dec x y) as [E|E].
  - subst. rewrite String.eqb_refl. reflexivity.
  - apply String.eqb_neq in E. rewrite E. reflexivity.
Qed.

Lemma linkDependency_linked (taskId depId : string) (g g' : Graph) :
  linked g -> In taskId (nodeIds g) ->
  linkDependency taskId g depId = inl g' -> linked g'.
Proof.
  intros (Hnd & Hdeg & Hcnt & Hdeps & Hdpts) Hin H.
  destruct (linkDependency_spec _ _ _ _ Hin H)
    as (Hd & Hids & Sdeps & Sdpts & Sdeg & _).
  unfold linked. rewrite Hids. split; [exact Hnd|]. repeat split.
  - intros k. rewrite Sdeg, Sdeps.
    destruct (String.eqb k taskId).
    + rewrite length_app. simpl. rewrite Hdeg. lia.
    + apply Hdeg.
  - intros a b. rewrite Sdeps, Sdpts.
    destruct (String.eqb b taskId) eqn:E1, (String.eqb a depId) eqn:E2;
      rewrite ?count_occ_snoc, ?Hcnt;
      try (apply String.eqb_eq in E1; subst b);
      try (apply String.eqb_eq in E2; subst a);
      rewrite ?String.eqb_refl; try reflexivity.
    * rewrite String.eqb_sym, E2. lia.
    * rewrite String.eqb_sym, E1. lia.
  - intros k d. rewrite Sdeps. destruct (String.eqb k taskId).
    + rewrite in_app_iff. simpl. intros [H1|[H1|[]]]; subst; eauto.
    + eauto.
  - intros k c. rewrite Sdpts. destruct (String.eqb k depId).
    + rewrite in_app_iff. simpl. intros [H1|[H1|[]]]; subst; eauto.
    + eauto.
Qed.

Lemma linkAll_linked (taskId : string) (deps : list string) (g g' : Graph) :
  linked g -> In taskId (nodeIds g) ->
  forEachM (linkDependency taskId) deps g = inl g' ->
  linked g' /\ nodeIds g' = nodeIds g.
Proof.
  revert g. induction deps as [|d deps IH]; intros g Hl Hin; simpl.
  - intros H; inversion H; subst. auto.
  - destruct (linkDependency taskId g d) as [g1|e] eqn:E; [|discriminate].
    intros H.
    destruct (linkDependency_spec _ _ _ _ Hin E) as (_ & Hids & _).
    destruct (IH g1) as [H1 H2]; auto.
    + eapply linkDependency_linked; eauto.
    + rewrite Hids. exact Hin.
    + split; [exact H1|congruence].
Qed.

Lemma linked_empty : linked emptyGraph.
Proof.
  unfold linked, emptyGraph; simpl. split; [constructor|].
  repeat split; intros; try reflexivity; contradiction.
Qed.

Lemma linked_add_node (g : Graph) (t : Task) :
  linked g -> get g (id t) = None -> linked (g ++ [newGraphNode t]).
Proof.
  intros (Hnd & Hdeg & Hcnt & Hdeps & Hdpts) Hnone.
  assert (Hnot : ~ In (id t) (nodeIds g)) by (apply get_None_iff; exact Hnone).
  assert (G : forall k, get (g ++ [newGraphNode t]) k
                        = match get g k with
                          | Some n => Some n
                          | None => if String.eqb (id t) k
                                    then Some (newGraphNode t) else None
                          end).
  { intros k. rewrite get_app. simpl. reflexivity. }
  assert (D : forall k, dependenciesOf (g ++ [newGraphNode t]) k
                        = dependenciesOf g k).
  { intros k. unfold dependenciesOf. rewrite G.
    destruct (get g k); [reflexivity|].
    destruct (String.eqb (id t) k); reflexivity. }
  assert (P : forall k, dependentsOf (g ++ [newGraphNode t]) k
                        = dependentsOf g k).
  { intros k. unfold dependentsOf. rewrite G.
    destruct (get g k); [reflexivity|].
    destruct (String.eqb (id t) k); reflexivity. }
  assert (I : forall k, inDegreeOf (g ++ [newGraphNode t]) k = inDegreeOf g k).
  { intros k. unfold inDegreeOf. rewrite G.
    destruct (get g k); [reflexivity|].
    destruct (String.eqb (id t) k); reflexivity. }
  unfold linked, nodeIds. rewrite map_app. simpl. split.
  - apply NoDup_app; [exact Hnd|repeat constructor; simpl; tauto|].
    intros x Hx [E|[]]. subst. contradiction.
  - repeat split.
    + intros k. rewrite I, D. apply Hdeg.
    + intros a b. rewrite D, P. apply Hcnt.
    + intros k d. rewrite D, in_app_iff. intros H. left. eapply Hdeps; eauto.
    + intros k c. rewrite P, in_app_iff. intros H. left. eapply Hdpts; eauto.
Qed.

(** [addTask] keeps the graph linked, and adds at most the key of the
    task. *)
Lemma addTask_linked (g g' : Graph) (t : Task) :
  linked g -> addTask g t = inl g' ->
  linked g' /\
  nodeIds g' = (if memberOf (id t) (nodeIds g) then nodeIds g
                else nodeIds g ++ [id t]).
Proof.
  intros Hl. unfold addTask.
  destruct (get g (id t)) as [n|] eqn:E.
  - assert (Hin : In (id t) (nodeIds g)) by (apply get_Some_iff; eauto).
    assert (M : memberOf (id t) (nodeIds g) = true) by (apply memberOf_In; auto).
    rewrite M. destruct (dependencies t) as [deps|].
    + intros H. eapply linkAll_linked; eauto.
    + intros H; inversion H; subst. auto.
  - assert (Hnot : ~ In (id t) (nodeIds g)) by (apply get_None_iff; auto).
    assert (M : memberOf (id t) (nodeIds g) = false)
      by (apply memberOf_not_In; auto).
    rewrite M.
    assert (Hl' := linked_add_node g t Hl E).
    assert (Hids : nodeIds (g ++ [newGraphNode t]) = nodeIds g ++ [id t]).
    { unfold nodeIds. rewrite map_app. reflexivity. }
    destruct (dependencies t) as [deps|].
    + intros H.
      assert (Hin : In (id t) (nodeIds (g ++ [newGraphNode t]))).
      { rewrite Hids. apply in_or_app. right. left. reflexivity. }
      destruct (linkAll_linked (id t) deps _ _ Hl' Hin H).
      split; [assumption|congruence].
    + intros H; inversion H; subst. auto.
Qed.

Lemma forEachM_addTask_linked (tasks : list Task) (g g' : Graph) :
  linked g -> forEachM addTask tasks g = inl g' -> linked g'.
Proof.
  revert g. induction tasks as [|t tasks IH]; intros g Hl; simpl.
  - intros H; inversion H; subst; exact Hl.
  - destruct (addTask g t) as [g1|e] eqn:E; [|discriminate].
    apply IH. eapply addTask_linked; eauto.
Qed.

(** Every graph [buildGraph] returns is linked. *)
Lemma buildGraph_linked (tasks : list Task) (g : Graph) :
  buildGraph tasks = inl g -> linked g.
Proof. apply forEachM_addTask_linked, linked_empty. Qed.

(** ** The stable sort of the queue *)

Lemma insertByPriority_In (g : Graph) (x y : string) (l : list string) :
  In y (insertByPriority g x l) <-> y = x \/ In y l.
Proof.
  induction l as [|z l IH]; simpl.
  - split; intros [H|H]; auto; contradiction.
  - destruct (priorityOf g x <? priorityOf g z); simpl.
    + rewrite IH. tauto.
    + split; intros H; intuition (subst; auto).
Qed.

Lemma sortByPriority_In (g : Graph) (y : string) (l : list string) :
  In y (sortByPriority g l) <-> In y l.
Proof.
  induction l as [|x l IH]; simpl; [tauto|].
  rewrite insertByPriority_In, IH. intuition (subst; auto).
Qed.

Lemma insertByPriority_perm (g : Graph) (x : string) (l : list string) :
  Permutation (insertByPriority g x l) (x :: l).
Proof.
  induction l as [|z l IH]; simpl; [apply Permutation_refl|].
  destruct (priorityOf g x <? priorityOf g z).
  - eapply perm_trans; [apply perm_skip, IH|apply perm_swap].
  - apply Permutation_refl.
Qed.

Lemma sortByPriority_perm (g : Graph) (l : list string) :
  Permutation (sortByPriority g l) l.
Proof.
  induction l as [|x l IH]; simpl; [constructor|].
  eapply perm_trans; [apply insertByPriority_perm|apply perm_skip, IH].
Qed.

Lemma insertByPriority_descending (g : Graph) (x : string) (l : list string) :
  descending g l -> descending g (insertByPriority g x l).
Proof.
  unfold descending. induction l as [|z l IH]; intros H; simpl.
  - repeat constructor.
  - inversion H as [|? ? Hl Hz]; subst.
    destruct (priorityOf g x <? priorityOf g z) eqn:E.
    + apply Z.ltb_lt in E. constructor; [auto|].
      apply Forall_forall. intros y Hy.
      apply insertByPriority_In in Hy. destruct Hy as [->|Hy]; [lia|].
      rewrite Forall_forall in Hz. auto.
    + apply Z.ltb_ge in E. constructor; [exact H|].
      constructor; [exact E|].
      rewrite Forall_forall in Hz |- *. intros y Hy.
      specialize (Hz y Hy). lia.
Qed.

Lemma sortByPriority_descending (g : Graph) (l : list string) :
  descending g (sortByPriority g l).
Proof.
  induction l as [|x l IH]; simpl; [constructor|].
  apply insertByPriority_descending, IH.
Qed.

(** [queue.shift()] after the sort takes a node of the highest priority in
    the queue. *)
Lemma sorted_head_highest (g : Graph) (q rest : list string) (node : string) :
  sortByPriority g q = node :: rest ->
  forall y, In y q -> priorityOf g y <= priorityOf g node.
Proof.
  intros E y Hy. apply (sortByPriority_In g) in Hy. rewrite E in Hy.
  pose proof (sortByPriority_descending g q) as D. rewrite E in D.
  inversion D as [|? ? _ Hall]; subst.
  destruct Hy as [->|Hy]; [lia|].
  rewrite Forall_forall in Hall. auto.
Qed.

(** *** Positions in a list *)

Lemma before_cons {A : Type} (a x y : A) (l : list A) :
  before l x y -> before (a :: l) x y.
Proof. intros (l1 & l2 & E & H). exists (a :: l1), l2. subst. auto. Qed.

Lemma before_head {A : Type} (x y : A) (l : list A) :
  In y l -> before (x :: l) x y.
Proof. intros H. exists [], l. auto. Qed.

Lemma before_cons_inv {A : Type} (a x y : A) (l : list A) :
  before (a :: l) x y -> (x = a /\ In y l) \/ before l x y.
Proof.
  intros (l1 & l2 & E & H). destruct l1 as [|b l1]; simpl in E.
  - inversion E; subst. auto.
  - inversion E; subst. right. exists l1, l2. auto.
Qed.

Lemma before_app_l {A : Type} (x y : A) (l l' : list A) :
  before l x y -> before (l ++ l') x y.
Proof.
  intros (l1 & l2 & E & H). exists l1, (l2 ++ l'). subst.
  rewrite <- app_assoc. simpl. split; [reflexivity|].
  apply in_or_app. auto.
Qed.

Lemma before_app_r {A : Type} (x y : A) (l l' : list A) :
  before l' x y -> before (l ++ l') x y.
Proof.
  intros (l1 & l2 & E & H). exists (l ++ l1), l2. subst.
  rewrite <- app_assoc. auto.
Qed.

Lemma before_app_lr {A : Type} (x y : A) (l l' : list A) :
  In x l -> In y l' -> before (l ++ l') x y.
Proof.
  intros Hx Hy. apply in_split in Hx. destruct Hx as (l1 & l2 & ->).
  exists l1, (l2 ++ l'). rewrite <- app_assoc. simpl.
  split; [reflexivity|]. apply in_or_app. auto.
Qed.

Lemma before_app_inv {A : Type} (x y : A) (l l' : list A) :
  before (l ++ l') x y ->
  before l x y \/ before l' x y \/ (In x l /\ In y l').
Proof.
  induction l as [|a l IH]; simpl; intros H; [auto|].
  apply before_cons_inv in H. destruct H as [[-> Hy]|H].
  - apply in_app_or in Hy. destruct Hy as [Hy|Hy].
    + left. apply before_head. exact Hy.
    + right. right. auto.
  - destruct (IH H) as [H1|[H1|[H1 H2]]].
    + left. apply before_cons. exact H1.
    + auto.
    + right. right. simpl. auto.
Qed.

Lemma before_In {A : Type} (x y : A) (l : list A) :
  before l x y -> In x l /\ In y l.
Proof.
  intros (l1 & l2 & -> & H). split; apply in_or_app; right; simpl; auto.
Qed.

Lemma before_insertByPriority (g : Graph) (a x y : string) (l : list string) :
  before (insertByPriority g a l) x y ->
  before l x y \/ (x = a /\ In y l) \/
  (y = a /\ In x l /\ priorityOf g a < priorityOf g x).
Proof.
  induction l as [|z l IH]; simpl; intros H.
  - apply before_cons_inv in H. destruct H as [[_ []]|(l1 & l2 & E & _)].
    destruct l1; discriminate.
  - destruct (priorityOf g a <? priorityOf g z) eqn:E.
    + apply Z.ltb_lt in E. apply before_cons_inv in H.
      destruct H as [[-> Hy]|H].
      * apply insertByPriority_In in Hy. destruct Hy as [->|Hy].
        -- right. right. simpl. auto.
        -- left. apply before_head. exact Hy.
      * destruct (IH H) as [H1|[[-> H1]|(-> & H1 & H2)]].
        -- left. apply before_cons. exact H1.
        -- right. left. simpl. auto.
        -- right. right. simpl. auto.
    + apply before_cons_inv in H. destruct H as [[-> Hy]|H]; auto.
Qed.

(** The sort is stable: nodes of equal priority keep their order. *)
Lemma sortByPriority_stable (g : Graph) (q : list string) (x y : string) :
  before (sortByPriority g q) x y -> priorityOf g x = priorityOf g y ->
  before q x y.
Proof.
  induction q as [|a q IH]; simpl; intros H E.
  - destruct H as (l1 & l2 & H & _). destruct l1; discriminate.
  - apply before_insertByPriority in H.
    destruct H as [H|[[-> H]|(-> & _ & H)]].
    + apply before_cons. auto.
    + apply before_head. apply (sortByPriority_In g). exact H.
    + lia.
Qed.

(** ** The loop over the dependents *)

Lemma sameEdges_refl (g : Graph) : sameEdges g g.
Proof. unfold sameEdges. auto. Qed.

Lemma sameEdges_trans (g1 g2 g3 : Graph) :
  sameEdges g1 g2 -> sameEdges g2 g3 -> sameEdges g1 g3.
Proof.
  intros (A1 & A2 & A3 & A4) (B1 & B2 & B3 & B4). unfold sameEdges.
  repeat split; intros; congruence.
Qed.

(** A mutation that leaves the edges and the priority of a node alone. *)
Lemma sameEdges_update (g : Graph) (k : string) (f : GraphNode -> GraphNode) :
  keepsId f ->
  (forall n, nodeDependencies (f n) = nodeDependencies n) ->
  (forall n, dependents (f n) = dependents n) ->
  (forall n, priority (task (f n)) = priority (task n)) ->
  sameEdges g (update g k f).
Proof.
  intros Hid Hd Hp Hpr. unfold sameEdges.
  split; [apply nodeIds_update; exact Hid|].
  repeat split; intros k';
    unfold dependenciesOf, dependentsOf, priorityOf;
    (destruct (string_dec k k') as [<-|Hne];
     [rewrite get_update_same by exact Hid; destruct (get g k); simpl;
      rewrite ?Hd, ?Hp, ?Hpr; reflexivity
     |rewrite get_update_other by assumption; reflexivity]).
Qed.

Lemma inDegreeOf_decrement (g : Graph) (d k : string) :
  In d (nodeIds g) ->
  inDegreeOf (update g d decrementInDegree) k
  = if String.eqb d k then inDegreeOf g k - 1 else inDegreeOf g k.
Proof.
  intros Hin. apply get_Some_iff in Hin. destruct Hin as [n Hn].
  unfold inDegreeOf. destruct (String.eqb d k) eqn:E.
  - apply String.eqb_eq in E; subst k.
    rewrite get_update_same by auto. rewrite Hn. reflexivity.
  - apply String.eqb_neq in E. rewrite get_update_other by auto. reflexivity.
Qed.

Lemma visitDependent_spec (g : Graph) (q lg : list string) (d : string) :
  In d (nodeIds g) ->
  visitDependent (g, q, lg) d
  = (update g d decrementInDegree,
     if inDegreeOf g d - 1 =? 0 then q ++ [d] else q,
     if inDegreeOf g d - 1 =? 0 then lg ++ [d] else lg).
Proof.
  intros Hin. unfold visitDependent.
  pose proof (inDegreeOf_decrement g d d Hin) as H.
  rewrite String.eqb_refl in H. unfold inDegreeOf in H at 1.
  destruct (get (update g d decrementInDegree) d) as [n|] eqn:E.
  - rewrite H. destruct (inDegreeOf g d - 1 =? 0); reflexivity.
  - exfalso. apply get_None_iff in E.
    rewrite nodeIds_update in E by auto. contradiction.
Qed.


(** What [node.dependents.forEach] does with the list [l] of dependents:
    it lowers each in-degree by the number of entries, and pushes, once,
    exactly the dependents that end at 0. *)
Lemma visitDependents_spec (l : list string) :
  forall (g : Graph) (q lg : list string) g' q' lg',
  fold_left visitDependent l (g, q, lg) = (g', q', lg') ->
  (forall k, In k l -> In k (nodeIds g)) ->
  (forall k, In k l ->
     Z.of_nat (count_occ string_dec l k) <= inDegreeOf g k) ->
  exists p,
    q' = q ++ p /\ lg' = lg ++ p /\ NoDup p /\ sameEdges g g' /\
    (forall k, inDegreeOf g' k
               = inDegreeOf g k - Z.of_nat (count_occ string_dec l k)) /\
    (forall x, In x p <-> In x l /\ inDegreeOf g' x = 0).
Proof.
  induction l as [|d l IH]; intros g q lg g' q' lg' H Hin Hcnt.
  - simpl in H. inversion H; subst. exists []. rewrite !app_nil_r.
    split; [reflexivity|]. split; [reflexivity|]. split; [constructor|].
    split; [apply sameEdges_refl|]. split.
    + intros k. simpl. lia.
    + intros x. simpl. tauto.
  - cbn [fold_left] in H.
    rewrite visitDependent_spec in H by (apply Hin; simpl; auto).
    set (g1 := update g d decrementInDegree) in *.
    assert (Hids : nodeIds g1 = nodeIds g) by (apply nodeIds_update; auto).
    assert (Hdeg : forall k, inDegreeOf g1 k
              = if String.eqb d k then inDegreeOf g k - 1 else inDegreeOf g k).
    { intros k. apply inDegreeOf_decrement. apply Hin. simpl. auto. }
    assert (He : sameEdges g g1).
    { apply sameEdges_update; auto; intros n; reflexivity. }
    assert (Hin1 : forall k, In k l -> In k (nodeIds g1)).
    { intros k Hk. rewrite Hids. apply Hin. simpl. auto. }
    assert (Hcnt1 : forall k, In k l ->
              Z.of_nat (count_occ string_dec l k) <= inDegreeOf g1 k).
    { intros k Hk. specialize (Hcnt k (or_intror Hk)). rewrite Hdeg.
      simpl in Hcnt. destruct (string_dec d k) as [->|Hne].
      - rewrite String.eqb_refl. lia.
      - apply String.eqb_neq in Hne. rewrite Hne. lia. }
    destruct (IH _ _ _ _ _ _ H Hin1 Hcnt1)
      as (p & Eq & Elg & Hnd & He' & Hdeg' & Hp).
    assert (Hcount : forall k, Z.of_nat (count_occ string_dec (d :: l) k)
              = Z.of_nat (count_occ string_dec l k)
                + if String.eqb d k then 1 else 0).
    { intros k. simpl. destruct (string_dec d k) as [->|Hne].
      - rewrite String.eqb_refl. lia.
      - apply String.eqb_neq in Hne. rewrite Hne. lia. }
    assert (Hdegfin : forall k, inDegreeOf g' k
              = inDegreeOf g k - Z.of_nat (count_occ string_dec (d :: l) k)).
    { intros k. rewrite Hdeg', Hdeg, Hcount.
      destruct (String.eqb d k); lia. }
    assert (Hd0 : inDegreeOf g1 d = inDegreeOf g d - 1).
    { rewrite Hdeg, String.eqb_refl. reflexivity. }
    assert (Hse : sameEdges g g') by (eapply sameEdges_trans; eauto).
    destruct (inDegreeOf g d - 1 =? 0) eqn:Ez.
    + apply Z.eqb_eq in Ez.
      assert (Hnl : ~ In d l).
      { intros Hd. specialize (Hcnt1 d Hd).
        apply (count_occ_In string_dec) in Hd. lia. }
      assert (Hnp : ~ In d p) by (intros Hd; apply Hp in Hd; tauto).
      exists (d :: p). rewrite Eq, Elg, <- !app_assoc. simpl.
      split; [reflexivity|]. split; [reflexivity|].
      split; [constructor; assumption|].
      split; [exact Hse|]. split; [exact Hdegfin|].
      intros x. split.
      * intros [<-|Hx].
        -- split; [auto|]. rewrite Hdeg', Hd0.
           apply (count_occ_not_In string_dec) in Hnl. lia.
        -- apply Hp in Hx. tauto.
      * intros [[<-|Hx] Hz]; [left; reflexivity|].
        right. apply Hp. auto.
    + apply Z.eqb_neq in Ez.
      exists p.
      split; [exact Eq|]. split; [exact Elg|]. split; [exact Hnd|].
      split; [exact Hse|]. split; [exact Hdegfin|].
      intros x. split.
      * intros Hx. apply Hp in Hx. simpl. tauto.
      * intros [[<-|Hx] Hz]; [|apply Hp; auto].
        destruct (in_dec string_dec d l) as [Hd|Hd]; [apply Hp; auto|].
        exfalso. rewrite Hdeg', Hd0 in Hz.
        apply (count_occ_not_In string_dec) in Hd. lia.
Qed.

(** ** The invariant of the planner's loop *)

Lemma memberOf_snoc (d x : string) (done : list string) :
  memberOf d (done ++ [x]) = memberOf d done || String.eqb d x.
Proof.
  unfold memberOf. rewrite existsb_app. simpl. rewrite orb_false_r.
  reflexivity.
Qed.

(** Moving [x] into [done] removes its entries from the pending ones. *)
Lemma pending_snoc (done l : list string) (x : string) :
  ~ In x done ->
  List.length (filter (fun d => negb (memberOf d done)) l)
  = (List.length (filter (fun d => negb (memberOf d (done ++ [x]))) l)
     + count_occ string_dec l x)%nat.
Proof.
  intros Hx. induction l as [|a l IH]; simpl; [reflexivity|].
  rewrite memberOf_snoc.
  destruct (string_dec a x) as [->|Hne].
  - rewrite String.eqb_refl, orb_true_r. simpl.
    apply memberOf_not_In in Hx. rewrite Hx. simpl. lia.
  - apply String.eqb_neq in Hne. rewrite Hne, orb_false_r.
    destruct (memberOf a done); simpl; lia.
Qed.

Lemma pending_nil (g : Graph) (k : string) :
  pendingDependencies g [] k = dependenciesOf g k.
Proof.
  unfold pendingDependencies. induction (dependenciesOf g k) as [|a l IH];
    simpl; [reflexivity|]. f_equal. exact IH.
Qed.

Lemma pending_empty_all_done (g : Graph) (done : list string) (k : string) :
  List.length (pendingDependencies g done k) = 0%nat ->
  forall d, In d (dependenciesOf g k) -> In d done.
Proof.
  unfold pendingDependencies. intros H d Hd.
  destruct (memberOf d done) eqn:E; [apply memberOf_In; exact E|].
  assert (Hin : In d (filter (fun d => negb (memberOf d done))
                             (dependenciesOf g k))).
  { apply filter_In. rewrite E. auto. }
  destruct (filter _ _); [contradiction|discriminate].
Qed.

Lemma all_done_pending_empty (g : Graph) (done : list string) (k : string) :
  (forall d, In d (dependenciesOf g k) -> In d done) ->
  pendingDependencies g done k = [].
Proof.
  unfold pendingDependencies. intros H.
  induction (dependenciesOf g k) as [|a l IH]; simpl; [reflexivity|].
  assert (Ha : memberOf a done = true) by (apply memberOf_In, H; simpl; auto).
  rewrite Ha. simpl. apply IH. intros d Hd. apply H. simpl. auto.
Qed.

Lemma In_filter_ids (g : Graph) (p : GraphNode -> bool) (k : string) :
  NoDup (nodeIds g) ->
  (In k (nodeIds (filter p g))
   <-> exists n, get g k = Some n /\ p n = true).
Proof.
  induction g as [|m g IH]; simpl; intros Hnd.
  - split; [intros []|intros [n [H _]]; discriminate].
  - inversion Hnd as [|? ? Hm Hnd']; subst.
    destruct (String.eqb (nodeId m) k) eqn:E.
    + apply String.eqb_eq in E. subst k. destruct (p m) eqn:Ep; simpl.
      * split; [intros _; eauto|auto].
      * split.
        -- intros H. exfalso. apply Hm.
           unfold nodeIds in *. apply in_map_iff in H.
           destruct H as (n & En & Hn). apply filter_In in Hn.
           apply in_map_iff. exists n. tauto.
        -- intros [n [H1 H2]]. inversion H1; subst. congruence.
    + apply String.eqb_neq in E. destruct (p m); simpl; rewrite IH by assumption.
      * split; [intros [H|H]; [contradiction|exact H]|auto].
      * reflexivity.
Qed.

Lemma NoDup_filter_ids (g : Graph) (p : GraphNode -> bool) :
  NoDup (nodeIds g) -> NoDup (nodeIds (filter p g)).
Proof.
  induction g as [|m g IH]; simpl; intros Hnd; [constructor|].
  inversion Hnd as [|? ? Hm Hnd']; subst.
  destruct (p m); simpl; [|auto].
  constructor; [|auto]. intros H. apply Hm.
  unfold nodeIds in *. apply in_map_iff in H.
  destruct H as (n & En & Hn). apply filter_In in Hn.
  apply in_map_iff. exists n. tauto.
Qed.

Lemma incl_filter_ids (g : Graph) (p : GraphNode -> bool) :
  incl (nodeIds (filter p g)) (nodeIds g).
Proof.
  intros k H. unfold nodeIds in *. apply in_map_iff in H.
  destruct H as (n & En & Hn). apply filter_In in Hn.
  apply in_map_iff. exists n. tauto.
Qed.

(** The state before the loop satisfies the invariant. *)
Lemma sortInit_invariant (g : Graph) :
  linked g -> sortInvariant g (sortInit g).
Proof.
  intros (Hnd & Hdeg & Hcnt & Hdeps & Hdpts).
  unfold sortInvariant, sortInit; simpl.
  split; [apply sameEdges_refl|].
  split; [apply NoDup_filter_ids; exact Hnd|].
  split; [apply incl_filter_ids|].
  split; [intros k _; rewrite pending_nil; apply Hdeg|].
  split.
  { intros k Hk. rewrite In_filter_ids by exact Hnd.
    apply get_Some_iff in Hk. destruct Hk as [n Hn].
    unfold inDegreeOf. rewrite Hn. split.
    - intros H. exists n. split; [reflexivity|]. apply Z.eqb_eq. exact H.
    - intros [n' [H1 H2]]. inversion H1; subst. apply Z.eqb_eq. exact H2. }
  split.
  { intros l1 x l2 H. destruct l1; discriminate. }
  split; [apply incl_refl|auto].
Qed.

Lemma app_snoc_split {A : Type} (l l1 l2 : list A) (a x : A) :
  l ++ [a] = l1 ++ x :: l2 ->
  (l2 = [] /\ l1 = l /\ x = a) \/
  (exists l2', l2 = l2' ++ [a] /\ l = l1 ++ x :: l2').
Proof.
  destruct l2 as [|b l2] using rev_ind.
  - intros H. apply app_inj_tail in H. destruct H; subst. left. auto.
  - clear IHl2. intros H.
    change (l1 ++ x :: l2 ++ [b]) with (l1 ++ (x :: l2) ++ [b]) in H.
    rewrite app_assoc in H. apply app_inj_tail in H. destruct H as [H1 H2].
    subst. right. eauto.
Qed.

Lemma NoDup_app_disjoint {A : Type} (l l' : list A) (x : A) :
  NoDup (l ++ l') -> In x l -> In x l' -> False.
Proof.
  intros Hnd Hx Hx'. apply in_split in Hx'. destruct Hx' as (l1 & l2 & ->).
  rewrite app_assoc in Hnd. apply NoDup_remove_2 in Hnd. apply Hnd.
  rewrite <- app_assoc. apply in_or_app. auto.
Qed.

(** One turn of the loop keeps the invariant. *)
Lemma sortStep_invariant (g0 : Graph) (st : SortState) :
  linked g0 -> sortInvariant g0 st -> sortInvariant g0 (sortStep st).
Proof.
  intros Hl (He & Hnd & Hincl & Hdeg & Hzero & Htopo & Hlog & Hord).
  pose proof Hl as (Gnd & Gdeg & Gcnt & Gdeps & Gdpts).
  unfold sortStep.
  destruct (sortByPriority (sortGraph st) (queue st)) as [|node rest] eqn:Es.
  { unfold sortInvariant. tauto. }
  pose proof (sortByPriority_perm (sortGraph st) (queue st)) as Hperm.
  rewrite Es in Hperm.
  destruct He as (Eids & Edeps & Edpts & Eprio).
  assert (Hnq : In node (queue st)).
  { eapply Permutation_in; [exact Hperm|]. simpl. auto. }
  assert (Hrq : forall x, In x rest -> In x (queue st)).
  { intros x Hx. eapply Permutation_in; [exact Hperm|]. simpl. auto. }
  assert (Hns : ~ In node (sortedNodes st)).
  { intros H. exact (NoDup_app_disjoint _ _ _ Hnd H Hnq). }
  rewrite Edpts.
  set (l := dependentsOf g0 node).
  assert (Hcount : forall k, count_occ string_dec l k
                             = count_occ string_dec (dependenciesOf g0 k) node).
  { intros k. unfold l. symmetry. apply Gcnt. }
  assert (Hlin : forall k, In k l -> In k (nodeIds g0))
    by (intros k Hk; eapply Gdpts; exact Hk).
  assert (Hbound : forall k, In k (nodeIds g0) ->
            Z.of_nat (count_occ string_dec l k)
            <= inDegreeOf (sortGraph st) k).
  { intros k Hk. rewrite Hdeg by exact Hk. rewrite Hcount.
    unfold pendingDependencies.
    rewrite (pending_snoc _ (dependenciesOf g0 k) node Hns). lia. }
  destruct (fold_left visitDependent l (sortGraph st, rest, pushLog st))
    as [[g' q'] lg'] eqn:Ef.
  destruct (visitDependents_spec l _ _ _ _ _ _ Ef)
    as (p & -> & -> & Pnd & Pe & Pdeg & Pin).
  { intros k Hk. rewrite Eids. auto. }
  { intros k Hk. auto. }
  assert (Hnotl : forall k, In k (sortedNodes st ++ queue st) -> ~ In k l).
  { intros k Hk Hkl.
    assert (Hk' : In k (nodeIds g0)) by auto.
    pose proof (Hbound k Hk') as B.
    apply (proj2 (Hzero k Hk')) in Hk.
    apply (count_occ_In string_dec) in Hkl. lia. }
  assert (Hperm2 : Permutation ((sortedNodes st ++ [node]) ++ rest ++ p)
                               ((sortedNodes st ++ queue st) ++ p)).
  { rewrite <- !app_assoc. apply Permutation_app_head. simpl.
    rewrite app_comm_cons. apply Permutation_app_tail. exact Hperm. }
  unfold sortInvariant; simpl.
  split; [eapply sameEdges_trans; [|exact Pe]; unfold sameEdges; auto|].
  split.
  { eapply Permutation_NoDup; [apply Permutation_sym, Hperm2|].
    apply NoDup_app; [exact Hnd|exact Pnd|].
    intros x Hx Hp. apply Pin in Hp. exact (Hnotl x Hx (proj1 Hp)). }
  split.
  { intros x Hx. eapply Permutation_in in Hx; [|exact Hperm2].
    apply in_app_or in Hx. destruct Hx as [Hx|Hx]; [auto|].
    apply Pin in Hx. apply Hlin. tauto. }
  split.
  { intros k Hk. rewrite Pdeg, Hdeg by exact Hk. rewrite Hcount.
    unfold pendingDependencies.
    rewrite (pending_snoc _ (dependenciesOf g0 k) node Hns). lia. }
  split.
  { intros k Hk. rewrite Pdeg. split.
    - intros Hz. eapply Permutation_in; [apply Permutation_sym, Hperm2|].
      apply in_or_app.
      destruct (in_dec string_dec k l) as [Hkl|Hkl].
      + right. apply Pin. split; [exact Hkl|]. rewrite Pdeg. exact Hz.
      + left. apply Hzero; [exact Hk|].
        apply (count_occ_not_In string_dec) in Hkl. lia.
    - intros Hin. eapply Permutation_in in Hin; [|exact Hperm2].
      apply in_app_or in Hin. destruct Hin as [Hin|Hin].
      + pose proof (Hnotl k Hin) as Hkl.
        apply (count_occ_not_In string_dec) in Hkl.
        apply (proj2 (Hzero k Hk)) in Hin. lia.
      + apply Pin in Hin. rewrite Pdeg in Hin. tauto. }
  split.
  { intros l1 x l2 E d Hd. apply app_snoc_split in E.
    destruct E as [(-> & -> & ->)|(l2' & -> & E)].
    - assert (Hk : In node (nodeIds g0)).
      { apply Hincl. apply in_or_app. auto. }
      assert (Hz : inDegreeOf (sortGraph st) node = 0).
      { apply Hzero; [exact Hk|]. apply in_or_app. auto. }
      rewrite Hdeg in Hz by exact Hk.
      eapply pending_empty_all_done; [|exact Hd]. lia.
    - eapply Htopo; eauto. }
  split.
  { intros x Hx. apply in_app_or in Hx. apply in_or_app.
    destruct Hx as [Hx|Hx]; auto. }
  intros x y Hb Hpr. apply before_app_inv in Hb.
  destruct Hb as [Hb|[Hb|[Hx Hy]]].
  - apply before_app_l. apply Hord; [|exact Hpr].
    apply (sortByPriority_stable (sortGraph st)).
    + rewrite Es. apply before_cons. exact Hb.
    + rewrite !Eprio. exact Hpr.
  - apply before_app_r. exact Hb.
  - apply before_app_lr; auto.
Qed.

(** ** The loop ends *)

Lemma positives_update (g : Graph) (k : string) (f : GraphNode -> GraphNode)
  (n : GraphNode) :
  get g k = Some n ->
  (positives (update g k f) + (if (0 <? inDegree n)%Z then 1 else 0)
   = positives g + (if (0 <? inDegree (f n))%Z then 1 else 0))%nat.
Proof.
  unfold positives. induction g as [|m g IH]; simpl; [discriminate|].
  destruct (String.eqb (nodeId m) k).
  - intros H; inversion H; subst. simpl.
    destruct (0 <? inDegree n), (0 <? inDegree (f n)); simpl; lia.
  - intros H. specialize (IH H). simpl.
    destruct (0 <? inDegree m); simpl; lia.
Qed.

Lemma visitDependent_measure (g : Graph) (q lg : list string) (d : string) :
  forall g' q' lg', visitDependent (g, q, lg) d = (g', q', lg') ->
  (List.length q' + positives g' <= List.length q + positives g)%nat.
Proof.
  intros g' q' lg'. unfold visitDependent.
  destruct (get g d) as [n|] eqn:E.
  - rewrite get_update_same by auto. rewrite E. simpl.
    pose proof (positives_update g d decrementInDegree n E) as P.
    simpl in P.
    destruct (inDegree n - 1 =? 0) eqn:Ez; intros H; inversion H; subst.
    + apply Z.eqb_eq in Ez. rewrite length_app. simpl.
      assert (A : (0 <? inDegree n) = true) by (apply Z.ltb_lt; lia).
      assert (B : (0 <? inDegree n - 1) = false) by (apply Z.ltb_ge; lia).
      rewrite A, B in P. lia.
    + destruct (0 <? inDegree n) eqn:A, (0 <? inDegree n - 1) eqn:B;
        try lia.
  - rewrite update_absent by exact E. rewrite E.
    intros H; inversion H; subst. lia.
Qed.

Lemma visitDependents_measure (l : list string) :
  forall g q lg g' q' lg',
  fold_left visitDependent l (g, q, lg) = (g', q', lg') ->
  (List.length q' + positives g' <= List.length q + positives g)%nat.
Proof.
  induction l as [|d l IH]; intros g q lg g' q' lg' H.
  - simpl in H. inversion H; subst. lia.
  - cbn [fold_left] in H.
    destruct (visitDependent (g, q, lg) d) as [[g1 q1] lg1] eqn:E.
    apply visitDependent_measure in E. apply IH in H. lia.
Qed.

Lemma sortByPriority_length (g : Graph) (l : list string) :
  List.length (sortByPriority g l) = List.length l.
Proof. apply Permutation_length, sortByPriority_perm. Qed.

(** Each turn of the loop lowers the measure. *)
Lemma sortStep_measure (st : SortState) :
  queue st <> [] -> (sortMeasure (sortStep st) < sortMeasure st)%nat.
Proof.
  intros Hq. unfold sortStep, sortMeasure.
  pose proof (sortByPriority_length (sortGraph st) (queue st)) as Hlen.
  destruct (sortByPriority (sortGraph st) (queue st)) as [|node rest] eqn:Es.
  - destruct (queue st); [congruence|discriminate].
  - destruct (fold_left visitDependent _ _) as [[g' q'] lg'] eqn:Ef.
    apply visitDependents_measure in Ef. simpl in *. lia.
Qed.

(** With the fuel of [topologicalSortWithPriority] the loop has left the
    [while]: the queue is empty. *)
Lemma sortLoop_finishes (fuel : nat) :
  forall st, (sortMeasure st <= fuel)%nat -> queue (sortLoop fuel st) = [].
Proof.
  induction fuel as [|fuel IH]; intros st Hm; simpl.
  - unfold sortMeasure in Hm. destruct (queue st); [reflexivity|simpl in Hm; lia].
  - destruct (queue st) as [|x q] eqn:Eq; [exact Eq|].
    apply IH.
    assert (Hne : queue st <> []) by congruence.
    pose proof (sortStep_measure st Hne). lia.
Qed.

(** More fuel than needed changes nothing. *)
Lemma sortLoop_stable (fuel : nat) :
  forall st, queue st = [] -> sortLoop fuel st = st.
Proof. destruct fuel; intros st H; simpl; [|rewrite H]; reflexivity. Qed.

Lemma sortLoop_invariant (g0 : Graph) (fuel : nat) :
  linked g0 ->
  forall st, sortInvariant g0 st -> sortInvariant g0 (sortLoop fuel st).
Proof.
  intros Hl. induction fuel as [|fuel IH]; intros st Hi; simpl; [exact Hi|].
  destruct (queue st); [exact Hi|].
  apply IH, sortStep_invariant; assumption.
Qed.

Lemma NoDup_incl_length_perm (l l' : list string) :
  NoDup l -> NoDup l' -> incl l l' -> List.length l = List.length l' ->
  Permutation l l'.
Proof.
  intros H1 H2 Hi Hlen.
  apply NoDup_Permutation; [assumption|assumption|].
  intros x. split; [apply Hi|].
  apply NoDup_length_incl; [exact H1|lia|exact Hi].
Qed.

(** What the planner returns for a linked graph: every node once, each
    after all its dependencies, in a graph with the same edges. *)
Lemma topologicalSort_sound (g g' : Graph) (sorted : list string) :
  linked g -> topologicalSortWithPriority g = inl (g', sorted) ->
  Permutation sorted (nodeIds g) /\ NoDup sorted /\
  dependencyRespecting g sorted /\ sameEdges g g'.
Proof.
  intros Hl. unfold topologicalSortWithPriority.
  set (st := sortLoop (sortMeasure (sortInit g)) (sortInit g)).
  destruct (List.length (sortedNodes st) =? List.length g)%nat eqn:El;
    [|discriminate].
  intros H; inversion H; subst g' sorted; clear H.
  apply Nat.eqb_eq in El.
  pose proof (sortLoop_invariant g (sortMeasure (sortInit g)) Hl _
                (sortInit_invariant g Hl)) as Hi.
  fold st in Hi.
  destruct Hi as (He & Hnd & Hincl & _ & _ & Htopo & _).
  assert (Hq : queue st = []) by (apply sortLoop_finishes; lia).
  rewrite Hq, app_nil_r in Hnd, Hincl.
  destruct Hl as (Gnd & _).
  assert (Hp : Permutation (sortedNodes st) (nodeIds g)).
  { apply NoDup_incl_length_perm; auto.
    unfold nodeIds. rewrite length_map. exact El. }
  auto.
Qed.

(** The planner fails only with the cycle error. *)
Lemma topologicalSort_error (g : Graph) (e : Error) :
  topologicalSortWithPriority g = inr e -> e = GraphHasCycle.
Proof.
  unfold topologicalSortWithPriority.
  destruct (_ =? _)%nat; [discriminate|]. intros H; inversion H; reflexivity.
Qed.

(** Every state of the loop, after any number of turns. *)
Lemma sortLoop_reaches_invariant (g : Graph) (turns : nat) :
  linked g -> sortInvariant g (sortLoop turns (sortInit g)).
Proof.
  intros Hl. apply sortLoop_invariant; [exact Hl|].
  apply sortInit_invariant, Hl.
Qed.

(** In a state that satisfies the invariant, the node the loop extracts
    next has the highest priority in the queue, and was pushed before
    every other queued node of that priority. *)
Lemma extraction_highest_earliest (g0 : Graph) (st : SortState)
  (node : string) (rest : list string) :
  sortInvariant g0 st ->
  sortByPriority (sortGraph st) (queue st) = node :: rest ->
  In node (queue st) /\
  (forall y, In y (queue st) -> priorityOf g0 y <= priorityOf g0 node) /\
  (forall y, In y rest -> priorityOf g0 y = priorityOf g0 node ->
             before (pushLog st) node y).
Proof.
  intros (He & Hnd & _ & _ & _ & _ & Hlog & Hord) Es.
  destruct He as (_ & _ & _ & Eprio).
  split.
  { apply (sortByPriority_In (sortGraph st)). rewrite Es. simpl. auto. }
  split.
  - intros y Hy. rewrite <- !Eprio.
    eapply sorted_head_highest; eauto.
  - intros y Hy Hpr. apply Hord; [|auto].
    apply (sortByPriority_stable (sortGraph st)).
    + rewrite Es. apply before_head. exact Hy.
    + rewrite !Eprio. auto.
Qed.

(** ** The levels *)

Lemma levelsGet_set (m : Levels) (k k' : string) (v : JsNumber) :
  levelsGet (levelsSet m k v) k'
  = if String.eqb k k' then Some v else levelsGet m k'.
Proof.
  induction m as [|[k0 v0] m IH]; simpl.
  - reflexivity.
  - destruct (String.eqb k0 k) eqn:E; simpl.
    + apply String.eqb_eq in E; subst k0.
      destruct (String.eqb k k'); reflexivity.
    + rewrite IH. destruct (String.eqb k k') eqn:E'; [|reflexivity].
      apply String.eqb_eq in E'; subst k'. rewrite E. reflexivity.
Qed.

Lemma levelsGet_None (m : Levels) (k : string) :
  ~ In k (map fst m) -> levelsGet m k = None.
Proof.
  induction m as [|[k0 v0] m IH]; simpl; [reflexivity|].
  intros H. destruct (String.eqb k0 k) eqn:E.
  - apply String.eqb_eq in E. exfalso. auto.
  - apply IH. auto.
Qed.

Lemma levelsSet_keys (m : Levels) (k : string) (v : JsNumber) :
  ~ In k (map fst m) -> map fst (levelsSet m k v) = map fst m ++ [k].
Proof.
  induction m as [|[k0 v0] m IH]; simpl; [reflexivity|].
  intros H. destruct (String.eqb k0 k) eqn:E.
  - apply String.eqb_eq in E. exfalso. auto.
  - simpl. rewrite IH by auto. reflexivity.
Qed.

(** [Math.max] of numbers, starting from a number. *)
Lemma fold_max2_ints (zs : list Z) :
  forall a, exists m,
    fold_left max2 (map Int zs) (Int a) = Int m /\ a <= m /\
    forall z, In z zs -> z <= m.
Proof.
  induction zs as [|z zs IH]; intros a; simpl.
  - exists a. split; [reflexivity|]. split; [lia|]. intros z [].
  - destruct (IH (Z.max a z)) as (m & E & Hm & Hall).
    exists m. split; [exact E|]. split; [lia|].
    intros z' [<-|Hz]; [lia|auto].
Qed.

Lemma mathMax_ints (zs : list Z) :
  zs <> [] ->
  exists m, mathMax (map Int zs) = Int m /\ forall z, In z zs -> z <= m.
Proof.
  destruct zs as [|z zs]; [congruence|]. intros _.
  unfold mathMax. simpl.
  destruct (fold_max2_ints zs z) as (m & E & Hm & Hall).
  exists m. split; [exact E|]. intros z' [<-|Hz]; auto.
Qed.

(** A list of levels that are all numbers. *)
Lemma levels_as_ints (lv : Levels) (deps : list string) :
  (forall d, In d deps -> exists ld, levelOf lv d = Some ld /\ 0 <= ld) ->
  exists zs, map (fun dep => orElse (levelsGet lv dep) NaN) deps = map Int zs
             /\ List.length zs = List.length deps
             /\ (forall z, In z zs -> 0 <= z)
             /\ (forall d, In d deps ->
                  exists ld, levelOf lv d = Some ld /\ In ld zs).
Proof.
  induction deps as [|d deps IH]; intros H.
  - exists []. simpl. repeat split; auto; intros ? [].
  - destruct IH as (zs & E & Hlen & Hpos & Hin).
    { intros d' Hd'. apply H. simpl. auto. }
    destruct (H d) as (ld & Eld & Hld); [simpl; auto|].
    exists (ld :: zs). simpl. rewrite E.
    unfold levelOf in Eld.
    destruct (levelsGet lv d) as [[| |z]|] eqn:Eg; try discriminate.
    inversion Eld; subst z. simpl.
    split; [reflexivity|]. split; [congruence|]. split.
    + intros z [<-|Hz]; auto.
    + intros d' [<-|Hd'].
      * exists ld. unfold levelOf. rewrite Eg. auto.
      * destruct (Hin d' Hd') as (l' & E1 & E2). eauto.
Qed.

(** One turn of the level loop on a node whose dependencies have their
    levels. *)
Lemma assignLevel_levelled (g : Graph) (lv : Levels) (done : list string)
  (x : string) :
  levelled g lv done -> ~ In x done ->
  (forall d, In d (dependenciesOf g x) -> In d done) ->
  levelled g (assignLevel g lv x) (done ++ [x]).
Proof.
  intros [Hkeys Hlv] Hx Hdeps. unfold levelled, assignLevel.
  split; [rewrite levelsSet_keys by (rewrite Hkeys; exact Hx); congruence|].
  assert (Hold : forall k v, k <> x ->
            levelOf (levelsSet lv x v) k = levelOf lv k).
  { intros k v Hne. unfold levelOf. rewrite levelsGet_set.
    apply not_eq_sym in Hne. apply String.eqb_neq in Hne.
    rewrite Hne. reflexivity. }
  assert (Hnew : forall z, levelOf (levelsSet lv x (Int z)) x = Some z).
  { intros z. unfold levelOf. rewrite levelsGet_set, String.eqb_refl.
    reflexivity. }
  assert (Hkeep : forall v c, In c done ->
            exists lc, levelOf (levelsSet lv x v) c = Some lc /\ 0 <= lc /\
              forall d, In d (dependenciesOf g c) ->
                exists ld, levelOf (levelsSet lv x v) d = Some ld /\ ld < lc).
  { intros v c Hc. destruct (Hlv c Hc) as (lc & E & Hpos & Hd).
    assert (Hcx : c <> x) by (intros ->; contradiction).
    exists lc. rewrite Hold by exact Hcx. split; [exact E|].
    split; [exact Hpos|]. intros d Hdin.
    destruct (Hd d Hdin) as (ld & Eld & Hlt).
    assert (Hdx : d <> x).
    { intros ->. unfold levelOf in Eld.
      rewrite levelsGet_None in Eld by (rewrite Hkeys; exact Hx).
      discriminate. }
    exists ld. rewrite Hold by exact Hdx. auto. }
  intros c Hc. apply in_app_or in Hc.
  destruct Hc as [Hc|[<-|[]]]; [apply Hkeep; exact Hc|].
  destruct (dependenciesOf g x) as [|d0 deps0] eqn:Ed.
  - exists 0. rewrite Hnew. split; [reflexivity|]. split; [lia|].
    intros d [].
  - destruct (levels_as_ints lv (d0 :: deps0)) as (zs & E & Hlen & Hpos & Hin).
    { intros d Hd. destruct (Hlv d (Hdeps d Hd)) as (ld & Eld & Hld & _).
      eauto. }
    rewrite E.
    destruct (mathMax_ints zs) as (m & Em & Hm).
    { destruct zs; [discriminate|congruence]. }
    rewrite Em. simpl plusOne. exists (m + 1). rewrite Hnew.
    split; [reflexivity|].
    assert (Hm0 : 0 <= m).
    { destruct zs as [|z zs]; [discriminate|].
      specialize (Hpos z (or_introl eq_refl)).
      specialize (Hm z (or_introl eq_refl)). lia. }
    split; [lia|]. intros d Hd.
    destruct (Hin d Hd) as (ld & Eld & Hz).
    assert (Hdx : d <> x) by (intros ->; apply Hx, Hdeps, Hd).
    exists ld. rewrite Hold by exact Hdx. split; [exact Eld|].
    specialize (Hm ld Hz). lia.
Qed.

Lemma assignLevels_from (g : Graph) (rest : list string) :
  forall done lv,
  levelled g lv done -> NoDup (done ++ rest) ->
  dependencyRespecting g (done ++ rest) ->
  levelled g (fold_left (assignLevel g) rest lv) (done ++ rest).
Proof.
  induction rest as [|x rest IH]; intros done lv Hl Hnd Htopo; simpl.
  - rewrite app_nil_r. exact Hl.
  - assert (E : done ++ x :: rest = (done ++ [x]) ++ rest).
    { rewrite <- app_assoc. reflexivity. }
    rewrite E in *. apply IH; [|exact Hnd|exact Htopo].
    apply assignLevel_levelled; [exact Hl| |].
    + rewrite <- app_assoc in Hnd. simpl in Hnd.
      apply NoDup_remove_2 in Hnd. intros H. apply Hnd.
      apply in_or_app. auto.
    + intros d Hd. eapply Htopo; [|exact Hd]. rewrite <- app_assoc.
      reflexivity.
Qed.

(** Along a dependency-respecting plan every node gets a level, and an edge
    goes from a lower level to a strictly higher one. *)
Lemma assignLevels_levelled (g : Graph) (sorted : list string) :
  NoDup sorted -> dependencyRespecting g sorted ->
  levelled g (assignLevels g sorted) sorted.
Proof.
  intros Hnd Htopo. unfold assignLevels.
  apply (assignLevels_from g sorted [] []); auto.
  split; [reflexivity|]. intros c [].
Qed.
(** ** The task runner *)

Section Runner.

Variable now : Clock.
Variable t : Task.
Variable args : list any.

Let r : Z := orElse (retryCount t) 0.
Let d : Z := orElse (retryDelay t) 0.

(** The events and the end of the [catch] block. *)
Lemma catchBlock_events (a : Z) (e : Error) (next : Script) :
  scriptEvents (catchBlock t a e next)
  = match messageOf e with
    | inr _ => []
    | inl m =>
        SpanEvent (id t) (a + 1) m ::
        (if r <? a + 1 then [SetStatus (id t) Failed]
         else Delay (id t) d :: scriptEvents next)
    end.
Proof.
  unfold catchBlock, r, d. destruct (messageOf e) as [m|te]; [|reflexivity].
  cbn [scriptEvents]. f_equal.
  destruct (orElse (retryCount t) 0 <? a + 1); reflexivity.
Qed.

Lemma catchBlock_result (a : Z) (e : Error) (next : Script) :
  scriptResult (catchBlock t a e next)
  = match messageOf e with
    | inr typeError => inr typeError
    | inl _ => if r <? a + 1 then inr e else scriptResult next
    end.
Proof.
  unfold catchBlock, r. destruct (messageOf e) as [m|te]; [|reflexivity].
  cbn [scriptResult].
  destruct (orElse (retryCount t) 0 <? a + 1); reflexivity.
Qed.

(** The events of the loop, one turn unrolled. *)
Lemma retryLoop_events (fuel : nat) (a : Z) :
  scriptEvents (retryLoop (S fuel) now t args a)
  = if a <=? r then
      let next := retryLoop fuel now t args (a + 1) in
      if logArgsThrows args
      then scriptEvents (catchBlock t a (TypeError cannotSerialize) next)
      else
        Invoke (id t) a args ::
        match action t a args with
        | Resolved v =>
            Settle (id t) a (Resolved v) ::
            SetMetrics (id t)
              {| startTime := fst (now a); endTime := snd (now a);
                 duration := snd (now a) - fst (now a) |} ::
            SetStatus (id t) Success ::
            (if logThrows v
             then scriptEvents
                    (catchBlock t a (TypeError cannotSerialize) next)
             else [])
        | Rejected m =>
            Settle (id t) a (Rejected m) ::
            scriptEvents (catchBlock t a (ActionError m) next)
        | RejectedNullish n =>
            Settle (id t) a (RejectedNullish n) ::
            scriptEvents (catchBlock t a (Nullish n) next)
        end
    else [].
Proof.
  unfold r. cbn [retryLoop].
  destruct (a <=? orElse (retryCount t) 0); [|reflexivity].
  cbv zeta. destruct (logArgsThrows args); [reflexivity|].
  cbn [scriptEvents]. f_equal.
  destruct (action t a args) as [v|m|n]; cbn [scriptEvents];
    [|reflexivity|reflexivity].
  destruct (logThrows v); reflexivity.
Qed.

(** The end of the loop, one turn unrolled. *)
Lemma retryLoop_result (fuel : nat) (a : Z) :
  scriptResult (retryLoop (S fuel) now t args a)
  = if a <=? r then
      let next := retryLoop fuel now t args (a + 1) in
      if logArgsThrows args
      then scriptResult (catchBlock t a (TypeError cannotSerialize) next)
      else
        match action t a args with
        | Resolved v =>
            if logThrows v
            then scriptResult
                   (catchBlock t a (TypeError cannotSerialize) next)
            else inl v
        | Rejected m => scriptResult (catchBlock t a (ActionError m) next)
        | RejectedNullish n =>
            scriptResult (catchBlock t a (Nullish n) next)
        end
    else inl Undefined.
Proof.
  unfold r. cbn [retryLoop].
  destruct (a <=? orElse (retryCount t) 0); [|reflexivity].
  cbv zeta. destruct (logArgsThrows args); [reflexivity|].
  cbn [scriptResult].
  destruct (action t a args) as [v|m|n]; cbn [scriptResult];
    [|reflexivity|reflexivity].
  destruct (logThrows v); reflexivity.
Qed.

(** The action is called at most once per turn of the loop. *)
Lemma retryLoop_invocations (fuel : nat) :
  forall a,
  (List.length (invocations (scriptEvents (retryLoop fuel now t args a)))
   <= fuel)%nat.
Proof.
  induction fuel as [|fuel IH]; intros a; [simpl; lia|].
  rewrite retryLoop_events. cbv zeta.
  specialize (IH (a + 1)). unfold invocations in *.
  destruct (a <=? r); [|simpl; lia].
  destruct (logArgsThrows args).
  - rewrite catchBlock_events. simpl.
    destruct (r <? a + 1); simpl; lia.
  - destruct (action t a args) as [v|m|n].
    + destruct (logThrows v); [|simpl; lia].
      rewrite catchBlock_events. simpl.
      destruct (r <? a + 1); simpl; lia.
    + rewrite catchBlock_events. simpl.
      destruct (r <? a + 1); simpl; lia.
    + rewrite catchBlock_events. simpl. lia.
Qed.

Lemma catchBlock_span_events (a : Z) (e : Error) (next : Script) (n : Z)
  (m : string) :
  a <= r ->
  (In (SpanEvent (id t) n m) (scriptEvents next) -> a + 2 <= n <= r + 1) ->
  In (SpanEvent (id t) n m) (scriptEvents (catchBlock t a e next)) ->
  a + 1 <= n <= r + 1.
Proof.
  intros Ha Hnext. rewrite catchBlock_events.
  destruct (messageOf e) as [m0|te]; [|intros []].
  intros [H|H]; [inversion H; subst; lia|].
  destruct (r <? a + 1).
  - destruct H as [H|[]]; discriminate.
  - destruct H as [H|H]; [discriminate|]. apply Hnext in H. lia.
Qed.

(** The attempt numbers the span records. *)
Lemma retryLoop_span_events (fuel : nat) :
  forall a n m,
  In (SpanEvent (id t) n m) (scriptEvents (retryLoop fuel now t args a)) ->
  a + 1 <= n <= r + 1.
Proof.
  induction fuel as [|fuel IH]; intros a n m; [intros []|].
  rewrite retryLoop_events. cbv zeta.
  destruct (a <=? r) eqn:Ea; [|intros []]. apply Z.leb_le in Ea.
  assert (Hnext : In (SpanEvent (id t) n m)
                     (scriptEvents (retryLoop fuel now t args (a + 1))) ->
                  a + 2 <= n <= r + 1).
  { intros H. apply IH in H. lia. }
  destruct (logArgsThrows args).
  - apply catchBlock_span_events; assumption.
  - intros [H|H]; [discriminate|].
    destruct (action t a args) as [v|m0|n0].
    + destruct H as [H|[H|[H|H]]]; try discriminate.
      destruct (logThrows v); [|destruct H].
      eapply catchBlock_span_events; eassumption.
    + destruct H as [H|H]; [discriminate|].
      eapply catchBlock_span_events; eassumption.
    + destruct H as [H|H]; [discriminate|].
      eapply catchBlock_span_events; eassumption.
Qed.

(** The runner marks the task failed only when it throws. *)
Lemma retryLoop_failed_throws (fuel : nat) :
  forall a,
  In (SetStatus (id t) Failed) (scriptEvents (retryLoop fuel now t args a)) ->
  exists e, scriptResult (retryLoop fuel now t args a) = inr e.
Proof.
  assert (Hcatch : forall a e next,
            (In (SetStatus (id t) Failed) (scriptEvents next) ->
             exists e', scriptResult next = inr e') ->
            In (SetStatus (id t) Failed)
               (scriptEvents (catchBlock t a e next)) ->
            exists e', scriptResult (catchBlock t a e next) = inr e').
  { intros a e next Hnext. rewrite catchBlock_events, catchBlock_result.
    destruct (messageOf e) as [m|te]; [|eauto].
    intros [H|H]; [discriminate|].
    destruct (r <? a + 1); [eauto|].
    destruct H as [H|H]; [discriminate|auto]. }
  induction fuel as [|fuel IH]; intros a H; [destruct H|].
  rewrite retryLoop_events in H. rewrite retryLoop_result. cbv zeta in *.
  destruct (a <=? r); [|destruct H].
  destruct (logArgsThrows args); [apply Hcatch; auto|].
  destruct H as [H|H]; [discriminate|].
  destruct (action t a args) as [v|m|n].
  - destruct H as [H|[H|[H|H]]]; try discriminate.
    destruct (logThrows v); [apply Hcatch; auto|destruct H].
  - destruct H as [H|H]; [discriminate|]. apply Hcatch; auto.
  - destruct H as [H|H]; [discriminate|]. apply Hcatch; auto.
Qed.

(** The clock is only read for the metrics: the result does not depend on
    it. *)
Lemma retryLoop_result_any_clock (now' : Clock) (fuel : nat) :
  forall a, scriptResult (retryLoop fuel now t args a)
            = scriptResult (retryLoop fuel now' t args a).
Proof.
  induction fuel as [|fuel IH]; intros a; [reflexivity|].
  cbn [retryLoop].
  destruct (a <=? orElse (retryCount t) 0); [|reflexivity].
  cbv zeta. destruct (logArgsThrows args).
  - rewrite !catchBlock_result. simpl. rewrite IH. reflexivity.
  - cbn [scriptResult].
    destruct (action t a args) as [v|m|n]; cbn [scriptResult].
    + destruct (logThrows v); [|reflexivity].
      rewrite !catchBlock_result. simpl. rewrite IH. reflexivity.
    + rewrite !catchBlock_result. simpl. rewrite IH. reflexivity.
    + rewrite !catchBlock_result. reflexivity.
Qed.

Lemma cons_split_neq {A : Type} (x y : A) (es l1 l2 : list A) :
  x <> y -> x :: es = l1 ++ y :: l2 ->
  exists l1', l1 = x :: l1' /\ es = l1' ++ y :: l2.
Proof.
  intros Hne E. destruct l1 as [|z l1]; simpl in E.
  - injection E as E1 _. contradiction.
  - injection E as -> E. eauto.
Qed.

(** After a failed attempt that is not the last and whose error has a
    message, the runner records the attempt, calls [delay(retryDelay)] and
    calls the action again. *)
Lemma retryLoop_delays (fuel : nat) :
  forall a, r + 1 - a <= Z.of_nat fuel ->
  forall l1 l2 a' m,
  scriptEvents (retryLoop fuel now t args a)
  = l1 ++ Settle (id t) a' (Rejected m) :: l2 ->
  a' < r ->
  exists l3, l2 = SpanEvent (id t) (a' + 1) m :: Delay (id t) d ::
                  Invoke (id t) (a' + 1) args :: l3.
Proof.
  induction fuel as [|fuel IH]; intros a Hf l1 l2 a' m E Ha'.
  - destruct l1; discriminate.
  - rewrite retryLoop_events in E. cbv zeta in E.
    destruct (a <=? r) eqn:Ea; [|destruct l1; discriminate E].
    apply Z.leb_le in Ea.
    assert (Hcatch : forall e l1' ,
              scriptEvents (catchBlock t a e
                              (retryLoop fuel now t args (a + 1)))
              = l1' ++ Settle (id t) a' (Rejected m) :: l2 ->
              exists l3, l2 = SpanEvent (id t) (a' + 1) m :: Delay (id t) d ::
                              Invoke (id t) (a' + 1) args :: l3).
    { intros e l1' E'. rewrite catchBlock_events in E'.
      destruct (messageOf e) as [m0|te]; [|destruct l1'; discriminate E'].
      apply cons_split_neq in E'; [|discriminate].
      destruct E' as (l1'' & _ & E').
      destruct (r <? a + 1).
      - apply cons_split_neq in E'; [|discriminate].
        destruct E' as (l3 & _ & E'). destruct l3; discriminate E'.
      - apply cons_split_neq in E'; [|discriminate].
        destruct E' as (l3 & _ & E').
        eapply (IH (a + 1)); [lia|exact E'|exact Ha']. }
    destruct (logArgsThrows args) eqn:Elog; [eapply Hcatch; exact E|].
    apply cons_split_neq in E; [|discriminate].
    destruct E as (l1a & _ & E).
    destruct (action t a args) as [v|m0|n].
    + do 3 (apply cons_split_neq in E; [|discriminate];
            destruct E as (? & _ & E)).
      destruct (logThrows v); [eapply Hcatch; exact E|].
      match type of E with [] = ?l ++ _ => destruct l; discriminate E end.
    + destruct l1a as [|e2 l1a]; cbn [app] in E.
      * rewrite catchBlock_events in E. simpl messageOf in E.
        cbv iota in E.
        assert (Ha0 : a = a') by (injection E as E1 _; exact E1).
        subst a'.
        assert (Hlt : (r <? a + 1) = false) by (apply Z.ltb_ge; lia).
        rewrite Hlt in E. injection E as E2 E3. subst m l2.
        destruct fuel as [|fuel]; [lia|].
        rewrite retryLoop_events. cbv zeta.
        assert (Hle : (a + 1 <=? r) = true) by (apply Z.leb_le; lia).
        rewrite Hle, Elog. eauto.
      * apply (Hcatch (ActionError m0) l1a).
        injection E as _ E. exact E.
    + apply cons_split_neq in E; [|discriminate].
      destruct E as (l3 & _ & E). rewrite catchBlock_events in E.
      simpl in E. destruct l3; discriminate E.
Qed.

(** When the arguments can be logged and every attempt fails with an error
    that has a message, the action is called [r + 1] times, the task is
    marked failed and the last error is thrown. *)
Lemma retryLoop_exhausted (fuel : nat) :
  logArgsThrows args = false ->
  forall a, a <= r -> Z.of_nat fuel = r + 1 - a ->
  (forall a', a <= a' <= r -> exists m, action t a' args = Rejected m) ->
  List.length (invocations (scriptEvents (retryLoop fuel now t args a)))
  = fuel /\
  In (SetStatus (id t) Failed) (scriptEvents (retryLoop fuel now t args a)) /\
  exists m, action t r args = Rejected m /\
            scriptResult (retryLoop fuel now t args a)
            = inr (ActionError m).
Proof.
  intros Hlog.
  induction fuel as [|fuel IH]; intros a Ha Hf Hall; [lia|].
  rewrite retryLoop_events, retryLoop_result. cbv zeta.
  assert (Hle : (a <=? r) = true) by (apply Z.leb_le; lia).
  rewrite Hle, Hlog.
  destruct (Hall a) as [m Em]; [lia|]. rewrite Em.
  rewrite catchBlock_events, catchBlock_result. simpl messageOf. cbv iota.
  destruct (r <? a + 1) eqn:El.
  - apply Z.ltb_lt in El. assert (a = r) by lia. subst a.
    assert (fuel = 0%nat) by lia. subst fuel.
    split; [reflexivity|]. split; [simpl; auto|]. eauto.
  - apply Z.ltb_ge in El.
    destruct (IH (a + 1)) as (H1 & H2 & H3); [lia|lia| |].
    + intros a' Ha'. apply Hall. lia.
    + split; [unfold invocations in *; simpl; rewrite H1; reflexivity|].
      split; [simpl; auto|exact H3].
Qed.

(** The metrics of a run whose arguments and results can be logged and
    whose rejections have a message: written once, for the attempt that
    resolved, when the run returns; never written when it throws. *)
Lemma retryLoop_metrics (fuel : nat) :
  logArgsThrows args = false ->
  (forall a v, action t a args = Resolved v -> logThrows v = false) ->
  (forall a n, action t a args <> RejectedNullish n) ->
  forall a, a <= r -> Z.of_nat fuel = r + 1 - a ->
  match scriptResult (retryLoop fuel now t args a) with
  | inl v =>
      exists k, a <= k <= r /\ action t k args = Resolved v /\
        (forall j, a <= j < k -> exists m, action t j args = Rejected m) /\
        metricsWrites (scriptEvents (retryLoop fuel now t args a))
        = [SetMetrics (id t)
             {| startTime := fst (now k); endTime := snd (now k);
                duration := snd (now k) - fst (now k) |}] /\
        In (SetStatus (id t) Success)
           (scriptEvents (retryLoop fuel now t args a))
  | inr e =>
      (exists m, e = ActionError m /\ action t r args = Rejected m) /\
      (forall j, a <= j <= r -> exists m, action t j args = Rejected m) /\
      metricsWrites (scriptEvents (retryLoop fuel now t args a)) = [] /\
      In (SetStatus (id t) Failed)
         (scriptEvents (retryLoop fuel now t args a))
  end.
Proof.
  intros Hlog Hres Hrej.
  induction fuel as [|fuel IH]; intros a Ha Hf; [lia|].
  rewrite retryLoop_events, retryLoop_result. cbv zeta.
  assert (Hle : (a <=? r) = true) by (apply Z.leb_le; lia).
  rewrite Hle, Hlog.
  destruct (action t a args) as [v|m|n] eqn:Ea;
    [|rewrite catchBlock_events, catchBlock_result; simpl messageOf;
      cbv iota|destruct (Hrej a n Ea)].
  - rewrite (Hres a v Ea).
    exists a. split; [lia|]. split; [exact Ea|].
    split; [intros j Hj; lia|]. split; [reflexivity|simpl; auto].
  - destruct (r <? a + 1) eqn:El.
    + apply Z.ltb_lt in El. assert (a = r) by lia. subst a.
      split; [eauto|]. split.
      * intros j Hj. assert (j = r) by lia. subst j. eauto.
      * split; [reflexivity|simpl; auto].
    + apply Z.ltb_ge in El.
      specialize (IH (a + 1)).
      destruct (scriptResult (retryLoop fuel now t args (a + 1))) as [v|e].
      * destruct IH as (k & Hk & Ek & Hrj & Hm & Hs); [lia|lia|].
        exists k. split; [lia|]. split; [exact Ek|]. split.
        -- intros j Hj. destruct (Z.eq_dec j a) as [->|Hne]; [eauto|].
           apply Hrj. lia.
        -- split; [exact Hm|simpl; auto].
      * destruct IH as (He & Hrj & Hm & Hs); [lia|lia|].
        split; [exact He|]. split.
        -- intros j Hj. destruct (Z.eq_dec j a) as [->|Hne]; [eauto|].
           apply Hrj. lia.
        -- split; [exact Hm|simpl; auto].
Qed.

End Runner.

(** ** The runner, turn by turn *)

(** One turn of the loop whose attempt is rejected with a message and is
    not the last. *)
Lemma retryLoop_rejected_turn (now : Clock) (t : Task) (args : list any)
  (fuel : nat) (a : Z) (m : string) :
  logArgsThrows args = false ->
  a < orElse (retryCount t) 0 ->
  action t a args = Rejected m ->
  scriptEvents (retryLoop (S fuel) now t args a)
  = Invoke (id t) a args :: Settle (id t) a (Rejected m) ::
    SpanEvent (id t) (a + 1) m :: Delay (id t) (orElse (retryDelay t) 0) ::
    scriptEvents (retryLoop fuel now t args (a + 1)) /\
  scriptResult (retryLoop (S fuel) now t args a)
  = scriptResult (retryLoop fuel now t args (a + 1)).
Proof.
  intros Hlog Ha Em.
  pose proof (retryLoop_events now t args fuel a) as Ee.
  pose proof (retryLoop_result now t args fuel a) as Er.
  cbv zeta in Ee, Er. rewrite Ee, Er. clear Ee Er.
  assert (E1 : (a <=? orElse (retryCount t) 0) = true)
    by (apply Z.leb_le; lia).
  assert (E2 : (orElse (retryCount t) 0 <? a + 1) = false)
    by (apply Z.ltb_ge; lia).
  rewrite E1, Hlog, Em, catchBlock_events, catchBlock_result.
  simpl messageOf. cbv iota zeta. rewrite E2. split; reflexivity.
Qed.

(** An attempt rejected with [null] or [undefined] ends the loop at once:
    reading the message of the reason throws inside the [catch] block. *)
Lemma retryLoop_nullish (now : Clock) (t : Task) (args : list any)
  (k : Z) (isNull : bool) (fuel : nat) :
  logArgsThrows args = false ->
  forall a, a <= k <= orElse (retryCount t) 0 ->
  orElse (retryCount t) 0 + 1 - a <= Z.of_nat fuel ->
  (forall j, a <= j < k -> exists m, action t j args = Rejected m) ->
  action t k args = RejectedNullish isNull ->
  scriptResult (retryLoop fuel now t args a)
  = inr (TypeError (cannotReadMessage isNull)) /\
  Z.of_nat (List.length
              (invocations (scriptEvents (retryLoop fuel now t args a))))
  = k - a + 1 /\
  Z.of_nat (List.length
              (delays (scriptEvents (retryLoop fuel now t args a))))
  = k - a /\
  (forall s, ~ In (SetStatus (id t) s)
                  (scriptEvents (retryLoop fuel now t args a))) /\
  exists pre,
    scriptEvents (retryLoop fuel now t args a)
    = pre ++ [Invoke (id t) k args;
              Settle (id t) k (RejectedNullish isNull)].
Proof.
  intros Hlog.
  induction fuel as [|fuel IH]; intros a Ha Hfuel Hrej Hnull.
  - simpl in Hfuel. lia.
  - assert (Hturn : forall fuel',
              scriptEvents (retryLoop (S fuel') now t args k)
              = [Invoke (id t) k args;
                 Settle (id t) k (RejectedNullish isNull)] /\
              scriptResult (retryLoop (S fuel') now t args k)
              = inr (TypeError (cannotReadMessage isNull))).
    { intros fuel'.
      pose proof (retryLoop_events now t args fuel' k) as Ee.
      pose proof (retryLoop_result now t args fuel' k) as Er.
      cbv zeta in Ee, Er. rewrite Ee, Er. clear Ee Er.
      assert (E1 : (k <=? orElse (retryCount t) 0) = true)
        by (apply Z.leb_le; lia).
      rewrite E1, Hlog, Hnull, catchBlock_events, catchBlock_result.
      split; reflexivity. }
    destruct (Z.eq_dec a k) as [->|Hne].
    + destruct (Hturn fuel) as [Ee Er]. rewrite Ee, Er.
      split; [reflexivity|]. split; [simpl; lia|]. split; [simpl; lia|].
      split; [intros; simpl; intuition discriminate|].
      exists []. reflexivity.
    + destruct (Hrej a) as [m Em]; [lia|].
      destruct (retryLoop_rejected_turn now t args fuel a m Hlog
                  ltac:(lia) Em) as [Ee Er].
      rewrite Ee, Er.
      destruct (IH (a + 1)) as (H1 & H2 & H3 & H4 & pre & H5);
        [lia|lia|intros j Hj; apply Hrej; lia|exact Hnull|].
      split; [exact H1|].
      unfold invocations, delays in *. cbn [filter isInvoke isDelay].
      cbn [List.length]. rewrite !Nat2Z.inj_succ.
      split; [lia|]. split; [lia|]. split.
      * intros s [H|[H|[H|[H|H]]]]; try discriminate H. exact (H4 s H).
      * rewrite H5.
        exists (Invoke (id t) a args :: Settle (id t) a (Rejected m) ::
                SpanEvent (id t) (a + 1) m ::
                Delay (id t) (orElse (retryDelay t) 0) :: pre).
        reflexivity.
Qed.

(** Every metrics write of the runner belongs to an attempt whose action
    resolved, and holds the two clock readings of that attempt. *)
Lemma retryLoop_metrics_sound (now : Clock) (t : Task) (args : list any)
  (k : string) (m : ExecutionMetrics) (fuel : nat) :
  forall a,
  In (SetMetrics k m) (scriptEvents (retryLoop fuel now t args a)) ->
  k = id t /\
  exists a' v, a <= a' <= orElse (retryCount t) 0 /\
    action t a' args = Resolved v /\
    m = {| startTime := fst (now a'); endTime := snd (now a');
           duration := snd (now a') - fst (now a') |}.
Proof.
  induction fuel as [|fuel IH]; intros a H; [destruct H|].
  pose proof (retryLoop_events now t args fuel a) as Ee.
  cbv zeta in Ee. rewrite Ee in H. clear Ee.
  destruct (a <=? orElse (retryCount t) 0) eqn:Ele; [|destruct H].
  apply Z.leb_le in Ele.
  assert (Hnext : In (SetMetrics k m)
                     (scriptEvents (retryLoop fuel now t args (a + 1))) ->
            k = id t /\
            exists a' v, a <= a' <= orElse (retryCount t) 0 /\
              action t a' args = Resolved v /\
              m = {| startTime := fst (now a'); endTime := snd (now a');
                     duration := snd (now a') - fst (now a') |}).
  { intros H'. destruct (IH _ H') as (Ek & a' & v & Ha' & Ea' & Em).
    split; [exact Ek|]. exists a', v. split; [lia|]. tauto. }
  assert (Hcatch : forall e,
            In (SetMetrics k m)
               (scriptEvents
                  (catchBlock t a e (retryLoop fuel now t args (a + 1)))) ->
            In (SetMetrics k m)
               (scriptEvents (retryLoop fuel now t args (a + 1)))).
  { intros e. rewrite catchBlock_events. cbv zeta.
    destruct (messageOf e) as [msg|te]; [|intros []].
    destruct (orElse (retryCount t) 0 <? a + 1).
    - intros [H'|[H'|[]]]; discriminate H'.
    - intros [H'|[H'|H']]; try discriminate H'. exact H'. }
  destruct (logArgsThrows args); [exact (Hnext (Hcatch _ H))|].
  destruct H as [H|H]; [discriminate H|].
  destruct (action t a args) as [v|msg|n] eqn:Ea.
  - destruct H as [H|[H|[H|H]]]; try discriminate H.
    + injection H as <- <-. split; [reflexivity|].
      exists a, v. split; [lia|]. split; [exact Ea|reflexivity].
    + destruct (logThrows v); [exact (Hnext (Hcatch _ H))|destruct H].
  - destruct H as [H|H]; [discriminate H|]. exact (Hnext (Hcatch _ H)).
  - destruct H as [H|H]; [discriminate H|]. exact (Hnext (Hcatch _ H)).
Qed.


(** When every attempt is rejected with an error, the runner sleeps between
    the attempts only: [r] times. *)
Lemma retryLoop_exhausted_delays (now : Clock) (t : Task) (args : list any)
  (fuel : nat) :
  logArgsThrows args = false ->
  forall a, a <= orElse (retryCount t) 0 ->
  Z.of_nat fuel = orElse (retryCount t) 0 + 1 - a ->
  (forall a', a <= a' <= orElse (retryCount t) 0 ->
     exists m, action t a' args = Rejected m) ->
  Z.of_nat (List.length (delays (scriptEvents (retryLoop fuel now t args a))))
  = orElse (retryCount t) 0 - a.
Proof.
  intros Hlog.
  induction fuel as [|fuel IH]; intros a Ha Hf Hall; [lia|].
  destruct (Hall a) as [m Em]; [lia|].
  destruct (Z.eq_dec a (orElse (retryCount t) 0)) as [E|Hne].
  - pose proof (retryLoop_events now t args fuel a) as Ee.
    cbv zeta in Ee. rewrite Ee. clear Ee.
    assert (Hle : (a <=? orElse (retryCount t) 0) = true)
      by (apply Z.leb_le; lia).
    assert (Hlt : (orElse (retryCount t) 0 <? a + 1) = true)
      by (apply Z.ltb_lt; lia).
    rewrite Hle, Hlog, Em, catchBlock_events. simpl messageOf.
    cbv iota zeta. rewrite Hlt. simpl. lia.
  - destruct (retryLoop_rejected_turn now t args fuel a m Hlog
                ltac:(lia) Em) as [Ee _].
    rewrite Ee. unfold delays in *. cbn [filter isDelay List.length].
    rewrite Nat2Z.inj_succ, (IH (a + 1)); [lia|lia|lia|].
    intros a' Ha'. apply Hall. lia.
Qed.

(** When [log] cannot print the arguments, every turn of the loop fails
    before it calls the action. *)
Lemma retryLoop_unloggable_args (now : Clock) (t : Task) (args : list any)
  (fuel : nat) :
  logArgsThrows args = true ->
  forall a, a <= orElse (retryCount t) 0 ->
  Z.of_nat fuel = orElse (retryCount t) 0 + 1 - a ->
  invocations (scriptEvents (retryLoop fuel now t args a)) = [] /\
  metricsWrites (scriptEvents (retryLoop fuel now t args a)) = [] /\
  Z.of_nat (List.length (delays (scriptEvents (retryLoop fuel now t args a))))
  = orElse (retryCount t) 0 - a /\
  In (SetStatus (id t) Failed) (scriptEvents (retryLoop fuel now t args a)) /\
  scriptResult (retryLoop fuel now t args a)
  = inr (TypeError cannotSerialize).
Proof.
  intros Hlog.
  induction fuel as [|fuel IH]; intros a Ha Hf; [lia|].
  pose proof (retryLoop_events now t args fuel a) as Ee.
  pose proof (retryLoop_result now t args fuel a) as Er.
  cbv zeta in Ee, Er. rewrite Ee, Er. clear Ee Er.
  assert (Hle : (a <=? orElse (retryCount t) 0) = true)
    by (apply Z.leb_le; lia).
  rewrite Hle, Hlog, catchBlock_events, catchBlock_result.
  simpl messageOf. cbv iota zeta.
  destruct (orElse (retryCount t) 0 <? a + 1) eqn:El.
  - apply Z.ltb_lt in El.
    split; [reflexivity|]. split; [reflexivity|].
    split; [simpl; lia|]. split; [simpl; auto|reflexivity].
  - apply Z.ltb_ge in El.
    destruct (IH (a + 1)) as (H1 & H2 & H3 & H4 & H5); [lia|lia|].
    unfold invocations, metricsWrites, delays in *.
    cbn [filter isInvoke isSetMetrics isDelay List.length].
    rewrite H1, H2, Nat2Z.inj_succ, H3.
    split; [reflexivity|]. split; [reflexivity|].
    split; [lia|]. split; [simpl; auto|exact H5].
Qed.

(** ** The semaphore *)

Lemma removeFirst_length (w : string) (l : list string) :
  In w l -> S (List.length (removeFirst w l)) = List.length l.
Proof.
  induction l as [|x l IH]; simpl; [intros []|].
  destruct (String.eqb x w) eqn:E; [reflexivity|].
  apply String.eqb_neq in E. intros [H|H]; [contradiction|].
  simpl. rewrite IH by exact H. reflexivity.
Qed.

Lemma removeFirst_incl (w : string) (l : list string) :
  incl (removeFirst w l) l.
Proof.
  induction l as [|x l IH]; simpl; [apply incl_refl|].
  destruct (String.eqb x w).
  - apply incl_tl, incl_refl.
  - intros y [->|Hy]; [left; reflexivity|right; apply IH; exact Hy].
Qed.

(** [release] with a waiter hands the permit over: the counter is where it
    was, and the waiter served is the head of the queue. *)
Lemma release_hands_over (s : Semaphore) (w : string) (ws : list string) :
  tasks s = w :: ws ->
  release s = ({| tasks := ws; counter := counter s |}, Some w).
Proof.
  intros E. unfold release. rewrite E. f_equal. f_equal. lia.
Qed.

Lemma release_free (s : Semaphore) :
  tasks s = [] ->
  release s = ({| tasks := []; counter := counter s + 1 |}, None).
Proof. intros E. unfold release. rewrite E. reflexivity. Qed.

Lemma newGate_invariant (K : Z) : 0 <= K -> gateInvariant K (newGate K).
Proof.
  intros HK. unfold gateInvariant, newGate, newSemaphore; simpl.
  split; [lia|]. split; [lia|]. split; [congruence|].
  split; [reflexivity|]. split; [constructor|]. intros x [].
Qed.

Lemma gateStep_invariant (K : Z) (g g' : Gate) (op : GateOp) :
  gateInvariant K g -> gateStep g op = Some g' -> gateInvariant K g'.
Proof.
  intros (Hc & Hsum & Hq & Harr & Hnd & Hinc). destruct op as [w|w]; simpl.
  - destruct (memberOf w (arrivals g)) eqn:Em; [discriminate|].
    apply memberOf_not_In in Em. unfold acquire.
    destruct (0 <? counter (gateSemaphore g)) eqn:E0.
    + apply Z.ltb_lt in E0. intros H; inversion H; subst g'; clear H.
      assert (Ht : tasks (gateSemaphore g) = []).
      { destruct (tasks (gateSemaphore g)) eqn:Et; [reflexivity|].
        assert (counter (gateSemaphore g) = 0) by (apply Hq; congruence).
        lia. }
      unfold gateInvariant; simpl. rewrite Ht in *. rewrite app_nil_r in *.
      rewrite length_app. simpl.
      split; [lia|]. split; [lia|]. split; [congruence|].
      split; [congruence|]. split.
      * apply NoDup_app; [exact Hnd|repeat constructor; simpl; tauto|].
        intros x Hx [<-|[]]. contradiction.
      * intros x Hx. apply in_app_or in Hx. apply in_or_app.
        destruct Hx as [Hx|Hx]; [left; apply Hinc|right]; exact Hx.
    + apply Z.ltb_ge in E0. intros H; inversion H; subst g'; clear H.
      unfold gateInvariant; simpl.
      split; [lia|]. split; [lia|]. split; [intros _; lia|].
      split; [rewrite Harr, app_assoc; reflexivity|]. split; [|exact Hinc].
      apply NoDup_app; [exact Hnd|repeat constructor; simpl; tauto|].
      intros x Hx [<-|[]]. contradiction.
  - destruct (memberOf w (permitHolders g)) eqn:Em; [|discriminate].
    apply memberOf_In in Em.
    pose proof (removeFirst_length w _ Em) as Hlen.
    destruct (tasks (gateSemaphore g)) as [|x ws] eqn:Et.
    + rewrite release_free by exact Et.
      intros H; inversion H; subst g'; clear H.
      unfold gateInvariant; simpl. rewrite !app_nil_r.
      split; [lia|]. split; [lia|]. split; [congruence|].
      split; [rewrite Harr, app_nil_r; reflexivity|]. split; [exact Hnd|].
      intros y Hy. apply Hinc. eapply removeFirst_incl. exact Hy.
    + rewrite (release_hands_over _ x ws Et).
      intros H; inversion H; subst g'; clear H.
      assert (H0 : counter (gateSemaphore g) = 0) by (apply Hq; congruence).
      unfold gateInvariant; simpl. rewrite length_app. simpl.
      split; [lia|]. split; [lia|]. split; [intros _; exact H0|].
      split; [rewrite Harr, <- app_assoc; reflexivity|]. split; [exact Hnd|].
      intros y Hy. apply in_app_or in Hy. apply in_or_app.
      destruct Hy as [Hy|Hy]; [left; apply Hinc|right; exact Hy].
      eapply removeFirst_incl. exact Hy.
Qed.

Lemma gateRun_invariant (K : Z) (ops : list GateOp) :
  forall g g', gateInvariant K g -> gateRun ops g = Some g' ->
  gateInvariant K g'.
Proof.
  induction ops as [|op ops IH]; intros g g' Hi; simpl.
  - intros H; inversion H; subst; exact Hi.
  - destruct (gateStep g op) as [g1|] eqn:E; [|discriminate].
    apply IH. eapply gateStep_invariant; eauto.
Qed.

(** ** What no step writes *)

Lemma sameStatic_refl (g : Graph) : sameStatic g g.
Proof. reflexivity. Qed.

Lemma sameStatic_trans (g1 g2 g3 : Graph) :
  sameStatic g1 g2 -> sameStatic g2 g3 -> sameStatic g1 g3.
Proof. unfold sameStatic. congruence. Qed.

Lemma sameStatic_update (g : Graph) (k : string) (f : GraphNode -> GraphNode) :
  (forall n, staticOf (f n) = staticOf n) -> sameStatic g (update g k f).
Proof.
  intros Hf. unfold sameStatic. induction g as [|m g IH]; simpl; [reflexivity|].
  destruct (String.eqb (nodeId m) k); simpl.
  - rewrite Hf. reflexivity.
  - rewrite IH. reflexivity.
Qed.

Lemma sameStatic_get (g : Graph) :
  forall g', sameStatic g g' ->
  forall k, option_map staticOf (get g' k) = option_map staticOf (get g k).
Proof.
  unfold sameStatic. induction g as [|m g IH]; intros [|m' g'] H k;
    simpl in *; try discriminate; [reflexivity|].
  assert (Hm : staticOf m' = staticOf m) by congruence.
  assert (Hg : map staticOf g' = map staticOf g) by congruence.
  assert (Eid : nodeId m' = nodeId m).
  { unfold staticOf in Hm. congruence. }
  rewrite Eid. destruct (String.eqb (nodeId m) k); simpl.
  - rewrite Hm. reflexivity.
  - apply IH. exact Hg.
Qed.

Lemma sameStatic_ids (g g' : Graph) :
  sameStatic g g' -> nodeIds g' = nodeIds g.
Proof.
  unfold sameStatic, nodeIds. intros H.
  assert (E : forall l : Graph, map nodeId l
              = map (fun x => fst (fst (fst (fst (fst (fst (fst (fst x))))))))
                    (map staticOf l)).
  { intros l. rewrite map_map. reflexivity. }
  rewrite (E g), (E g'), H. reflexivity.
Qed.

Lemma sameStatic_length (g g' : Graph) :
  sameStatic g g' -> List.length g' = List.length g.
Proof.
  intros H. apply sameStatic_ids in H. unfold nodeIds in H.
  rewrite <- (length_map nodeId g'), H. apply length_map.
Qed.

(** Reading a static field through [get]. *)
Lemma sameStatic_field {A : Type} (proj : GraphNode -> A) (dflt : A)
  (g g' : Graph) (k : string) :
  (forall n n', staticOf n' = staticOf n -> proj n' = proj n) ->
  sameStatic g g' ->
  match get g' k with Some n => proj n | None => dflt end
  = match get g k with Some n => proj n | None => dflt end.
Proof.
  intros Hp H. pose proof (sameStatic_get g g' H k) as E.
  destruct (get g' k) as [n'|], (get g k) as [n|]; simpl in E;
    try discriminate; [|reflexivity].
  apply Hp. congruence.
Qed.

Lemma sameStatic_dependencies (g g' : Graph) (k : string) :
  sameStatic g g' -> dependenciesOf g' k = dependenciesOf g k.
Proof.
  apply (sameStatic_field nodeDependencies []).
  intros n n' H. unfold staticOf in H. congruence.
Qed.

Lemma sameStatic_dependents (g g' : Graph) (k : string) :
  sameStatic g g' -> dependentsOf g' k = dependentsOf g k.
Proof.
  apply (sameStatic_field dependents []).
  intros n n' H. unfold staticOf in H. congruence.
Qed.

Lemma sameStatic_priority (g g' : Graph) (k : string) :
  sameStatic g g' -> priorityOf g' k = priorityOf g k.
Proof.
  apply (sameStatic_field (fun n => orElse (priority (task n)) 0) 0).
  intros n n' H. unfold staticOf in H. congruence.
Qed.

Lemma sameStatic_policy (g g' : Graph) (k : string) :
  sameStatic g g' -> policyOf g' k = policyOf g k.
Proof.
  apply (sameStatic_field (fun n => onError (task n)) None).
  intros n n' H. unfold staticOf in H. congruence.
Qed.

Lemma sameStatic_cost (g g' : Graph) (k : string) :
  sameStatic g g' -> launchCost g' k = launchCost g k.
Proof.
  apply (sameStatic_field (fun n => S (2 * retryFuel (task n))) 1%nat).
  intros n n' H. unfold staticOf, retryFuel in *.
  assert (retryCount (task n') = retryCount (task n)) by congruence.
  congruence.
Qed.

Lemma sameStatic_edges (g g' : Graph) : sameStatic g g' -> sameEdges g g'.
Proof.
  intros H. unfold sameEdges.
  split; [apply sameStatic_ids; exact H|].
  split; [intros k; apply sameStatic_dependencies; exact H|].
  split; [intros k; apply sameStatic_dependents; exact H|].
  intros k; apply sameStatic_priority; exact H.
Qed.

Lemma sameStatic_taskIds (g g' : Graph) :
  sameStatic g g' -> taskIdsAgree g -> taskIdsAgree g'.
Proof.
  unfold sameStatic, taskIdsAgree. revert g'.
  induction g as [|m g IH]; intros [|m' g'] H Ha n Hn; simpl in *;
    try discriminate; [contradiction|].
  assert (Hm : staticOf m' = staticOf m) by congruence.
  assert (Hg : map staticOf g' = map staticOf g) by congruence.
  destruct Hn as [<-|Hn].
  - unfold staticOf in Hm.
    assert (E1 : nodeId m' = nodeId m) by congruence.
    assert (E2 : id (task m') = id (task m)) by congruence.
    rewrite E1, E2. apply Ha. auto.
  - eapply IH; eauto.
Qed.

Lemma sameStatic_applyEvent (g : Graph) (e : Event) :
  sameStatic g (applyEvent g e).
Proof.
  destruct e; simpl; try apply sameStatic_refl;
    apply sameStatic_update; intros n; reflexivity.
Qed.

Lemma artifactOf_applyEvent_other (g : Graph) (e : Event) (k : string) :
  eventTask e <> k -> artifactOf (applyEvent g e) k = artifactOf g k.
Proof.
  intros Hne. unfold artifactOf.
  destruct e; simpl in *; try reflexivity;
    rewrite get_update_other by auto; reflexivity.
Qed.

Lemma artifactOf_setArtifact (g : Graph) (k : string) (v : any) :
  In k (nodeIds g) -> artifactOf (applyEvent g (SetArtifact k v)) k = v.
Proof.
  intros Hin. apply get_Some_iff in Hin. destruct Hin as [n Hn].
  unfold artifactOf. simpl. rewrite get_update_same by auto.
  rewrite Hn. reflexivity.
Qed.

(** The planner only consumes in-degrees. *)
Lemma visitDependents_static (l : list string) :
  forall g q lg g' q' lg',
  fold_left visitDependent l (g, q, lg) = (g', q', lg') -> sameStatic g g'.
Proof.
  induction l as [|d l IH]; intros g q lg g' q' lg' H.
  - simpl in H. inversion H. apply sameStatic_refl.
  - cbn [fold_left] in H.
    destruct (visitDependent (g, q, lg) d) as [[g1 q1] lg1] eqn:E.
    apply IH in H. eapply sameStatic_trans; [|exact H].
    unfold visitDependent in E.
    assert (Hs : sameStatic g (update g d decrementInDegree))
      by (apply sameStatic_update; intros n; reflexivity).
    destruct (get (update g d decrementInDegree) d) as [n|];
      [destruct (inDegree n =? 0)|]; inversion E; subst; exact Hs.
Qed.

Lemma sortStep_static (st : SortState) :
  sameStatic (sortGraph st) (sortGraph (sortStep st)).
Proof.
  unfold sortStep.
  destruct (sortByPriority (sortGraph st) (queue st)) as [|node rest];
    [apply sameStatic_refl|].
  destruct (fold_left visitDependent _ _) as [[g' q'] lg'] eqn:E.
  simpl. eapply visitDependents_static. exact E.
Qed.

Lemma sortLoop_static (fuel : nat) :
  forall st, sameStatic (sortGraph st) (sortGraph (sortLoop fuel st)).
Proof.
  induction fuel as [|fuel IH]; intros st; simpl; [apply sameStatic_refl|].
  destruct (queue st); [apply sameStatic_refl|].
  eapply sameStatic_trans; [apply sortStep_static|apply IH].
Qed.

Lemma topologicalSort_static (g g' : Graph) (sorted : list string) :
  topologicalSortWithPriority g = inl (g', sorted) -> sameStatic g g'.
Proof.
  unfold topologicalSortWithPriority.
  destruct (_ =? _)%nat; [|discriminate].
  intros H; inversion H; subst.
  apply (sortLoop_static _ (sortInit g)).
Qed.

(** ** The shape of a launch *)

Lemma tryCatch_awaits (s : Script) (onReturn : any -> Script)
  (onThrow : Error -> Script) :
  (forall v, scriptAwaits (onReturn v) = 0%nat) ->
  (forall e, scriptAwaits (onThrow e) = 0%nat) ->
  scriptAwaits (tryCatch s onReturn onThrow) = scriptAwaits s.
Proof.
  intros Hr Ht. induction s; simpl; auto.
Qed.

Lemma catchBlock_awaits (t : Task) (a : Z) (e : Error) (next : Script) :
  (scriptAwaits (catchBlock t a e next) <= S (scriptAwaits next))%nat.
Proof.
  unfold catchBlock. destruct (messageOf e); [|simpl; lia].
  cbn [scriptAwaits].
  destruct (orElse (retryCount t) 0 <? a + 1); simpl; lia.
Qed.

Lemma retryLoop_awaits (now : Clock) (t : Task) (args : list any)
  (fuel : nat) :
  forall a, (scriptAwaits (retryLoop fuel now t args a) <= 2 * fuel)%nat.
Proof.
  induction fuel as [|fuel IH]; intros a; [simpl; lia|].
  cbn [retryLoop].
  destruct (a <=? orElse (retryCount t) 0); [|simpl; lia].
  cbv zeta. specialize (IH (a + 1)).
  pose proof (fun e => catchBlock_awaits t a e
                         (retryLoop fuel now t args (a + 1))) as Hc.
  destruct (logArgsThrows args); [specialize (Hc (TypeError cannotSerialize)); lia|].
  cbn [scriptAwaits]. destruct (action t a args) as [v|m|n];
    cbn [scriptAwaits].
  - destruct (logThrows v); [|simpl; lia].
    specialize (Hc (TypeError cannotSerialize)). lia.
  - specialize (Hc (ActionError m)). lia.
  - specialize (Hc (Nullish n)). lia.
Qed.

Lemma launchBody_awaits (now : string -> Clock) (g : Graph)
  (node : GraphNode) :
  (scriptAwaits (launchBody now g node) <= 2 * retryFuel (task node))%nat.
Proof.
  unfold launchBody. rewrite tryCatch_awaits.
  - apply retryLoop_awaits.
  - intros v. reflexivity.
  - intros e. destruct (onError (task node)) as [[|]|]; reflexivity.
Qed.

Lemma catchBlock_descriptor (t t' : Task) (a : Z) (e : Error)
  (next : Script) :
  id t' = id t -> retryCount t' = retryCount t ->
  retryDelay t' = retryDelay t ->
  catchBlock t' a e next = catchBlock t a e next.
Proof.
  intros E1 E3 E4. unfold catchBlock. rewrite E1, E3, E4. reflexivity.
Qed.

(** The runner reads the descriptor of a task and nothing else. *)
Lemma retryLoop_descriptor (now : Clock) (t t' : Task) (args : list any)
  (fuel : nat) :
  id t' = id t -> action t' = action t -> retryCount t' = retryCount t ->
  retryDelay t' = retryDelay t ->
  forall a, retryLoop fuel now t' args a = retryLoop fuel now t args a.
Proof.
  intros E1 E2 E3 E4. induction fuel as [|fuel IH]; intros a; [reflexivity|].
  cbn [retryLoop]. rewrite E1, E2, E3, IH.
  destruct (a <=? orElse (retryCount t) 0); [|reflexivity].
  cbv zeta.
  destruct (logArgsThrows args);
    [apply catchBlock_descriptor; assumption|].
  destruct (action t a args) as [v|m|n]; [destruct (logThrows v)| |];
    rewrite ?(catchBlock_descriptor t t') by assumption; reflexivity.
Qed.

Lemma executeTaskWithRetries_descriptor (now : Clock) (t t' : Task)
  (args : list any) :
  id t' = id t -> action t' = action t -> retryCount t' = retryCount t ->
  retryDelay t' = retryDelay t ->
  executeTaskWithRetries now t' args = executeTaskWithRetries now t args.
Proof.
  intros E1 E2 E3 E4. unfold executeTaskWithRetries, retryFuel.
  rewrite E3. apply retryLoop_descriptor; assumption.
Qed.

(** The [catch] block inside the closure of a node. *)
Lemma catchBlock_launchOk (t : Task) (args : list any) (k : string)
  (em : list Event) (a : Z) (e : Error) (next : Script) :
  id t = k ->
  ~ In (SetStatus k Failed) em -> (forall v, ~ In (SetArtifact k v) em) ->
  (forall te, messageOf e = inr te -> runnerThrew k em) ->
  launchOk k (onError t) args (valueOf (scriptResult next)) []
    (tryCatch next
       (fun result => Emit (SetArtifact k result) (Return Undefined))
       (fun _ => match onError t with
                 | Some Abort => Throw (AbortingExecution k)
                 | _ => Emit (SetArtifact k Null) (Return Undefined)
                 end)) ->
  launchOk k (onError t) args
    (valueOf (scriptResult (catchBlock t a e next))) em
    (tryCatch (catchBlock t a e next)
       (fun result => Emit (SetArtifact k result) (Return Undefined))
       (fun _ => match onError t with
                 | Some Abort => Throw (AbortingExecution k)
                 | _ => Emit (SetArtifact k Null) (Return Undefined)
                 end)).
Proof.
  intros Hid Hf Ha Hte Hnext.
  assert (Hend : forall em',
            runnerThrew k em' ->
            (forall v, ~ In (SetArtifact k v) em') ->
            launchOk k (onError t) args Null em'
              match onError t with
              | Some Abort => Throw (AbortingExecution k)
              | _ => Emit (SetArtifact k Null) (Return Undefined)
              end).
  { intros em' Hthrew Ha'.
    assert (Hret : onError t <> Some Abort ->
              launchOk k (onError t) args Null em'
                (Emit (SetArtifact k Null) (Return Undefined))).
    { intros Hp. cbn [launchOk eventTask].
      split; [reflexivity|]. split; [intros ? ? E; discriminate|].
      exists em', Null. split; [reflexivity|]. split; [exact Ha'|].
      split; [intros _; split; [exact Hp|reflexivity]|reflexivity]. }
    destruct (onError t) as [[|]|] eqn:Ep;
      [apply Hret; discriminate| |apply Hret; discriminate].
    cbn [launchOk]. split; [reflexivity|]. split; [reflexivity|].
    split; [exact Hthrew|exact Ha']. }
  unfold catchBlock. destruct (messageOf e) as [m|te].
  - cbn [tryCatch launchOk scriptResult eventTask]. rewrite Hid.
    split; [reflexivity|]. split; [intros ? ? E; discriminate|].
    destruct (orElse (retryCount t) 0 <? a + 1).
    + cbn [tryCatch launchOk scriptResult eventTask valueOf].
      split; [reflexivity|]. split; [intros ? ? E; discriminate|].
      apply Hend.
      { left. apply in_or_app. right. left. reflexivity. }
      intros v H. rewrite !in_app_iff in H. simpl in H.
      destruct H as [[H|[H|[]]]|[H|[]]]; try discriminate.
      exact (Ha v H).
    + cbn [tryCatch launchOk scriptResult eventTask].
      split; [reflexivity|]. split; [intros ? ? E; discriminate|].
      split; [|split; [|exact Hnext]].
      * intros H. rewrite !in_app_iff in H. simpl in H.
        destruct H as [[H|[H|[]]]|[H|[]]]; try discriminate. exact (Hf H).
      * intros v H. rewrite !in_app_iff in H. simpl in H.
        destruct H as [[H|[H|[]]]|[H|[]]]; try discriminate.
        exact (Ha v H).
  - cbn [tryCatch scriptResult valueOf].
    apply Hend; [exact (Hte te eq_refl)|exact Ha].
Qed.

(** The closure of a node has the shape of a launch. *)
Lemma retryLoop_launchOk (now : Clock) (t : Task) (args : list any)
  (k : string) (fuel : nat) :
  id t = k ->
  forall a,
  launchOk k (onError t) args
    (valueOf (scriptResult (retryLoop fuel now t args a))) []
    (tryCatch (retryLoop fuel now t args a)
       (fun result => Emit (SetArtifact k result) (Return Undefined))
       (fun _ => match onError t with
                 | Some Abort => Throw (AbortingExecution k)
                 | _ => Emit (SetArtifact k Null) (Return Undefined)
                 end)).
Proof.
  intros Hid.
  assert (Hret : forall em v,
            ~ In (SetStatus k Failed) em ->
            (forall v', ~ In (SetArtifact k v') em) ->
            launchOk k (onError t) args v em
              (Emit (SetArtifact k v) (Return Undefined))).
  { intros em v Hf Ha. cbn [launchOk eventTask].
    split; [reflexivity|]. split; [intros ? ? E; discriminate|].
    exists em, v. split; [reflexivity|]. split; [exact Ha|].
    split; [intros H; destruct (Hf H)|reflexivity]. }
  induction fuel as [|fuel IH]; intros a.
  - apply Hret; [intros []|intros v []].
  - cbn [retryLoop].
    destruct (a <=? orElse (retryCount t) 0);
      [|apply Hret; [intros []|intros v []]].
    cbv zeta. destruct (logArgsThrows args).
    + apply catchBlock_launchOk;
        [exact Hid|intros []|intros v []|intros te E; discriminate E
        |apply IH].
    + cbn [tryCatch launchOk app scriptResult eventTask]. rewrite Hid.
      split; [reflexivity|]. split; [intros a0 args' E; congruence|].
      split; [simpl; intros [H|[]]; discriminate|].
      split; [simpl; intros v [H|[]]; discriminate|].
      destruct (action t a args) as [v|m|n].
      * cbn [tryCatch launchOk app eventTask scriptResult].
        repeat (split; [reflexivity|split; [intros ? ? E; discriminate|]]).
        destruct (logThrows v).
        -- apply catchBlock_launchOk;
             [exact Hid| | |intros te E; discriminate E|apply IH].
           ++ simpl. intros H. intuition discriminate.
           ++ simpl. intros v' H. intuition discriminate.
        -- cbn [tryCatch scriptResult valueOf]. apply Hret.
           ++ simpl. intros H. intuition discriminate.
           ++ simpl. intros v' H. intuition discriminate.
      * cbn [tryCatch launchOk app eventTask scriptResult].
        split; [reflexivity|]. split; [intros ? ? E; discriminate|].
        apply catchBlock_launchOk;
          [exact Hid| | |intros te E; discriminate E|apply IH].
        -- simpl. intros H. intuition discriminate.
        -- simpl. intros v' H. intuition discriminate.
      * cbn [tryCatch launchOk app eventTask scriptResult].
        split; [reflexivity|]. split; [intros ? ? E; discriminate|].
        apply catchBlock_launchOk; [exact Hid| | | |apply IH].
        -- simpl. intros H. intuition discriminate.
        -- simpl. intros v' H. intuition discriminate.
        -- intros te _. right. exists a, n. left. reflexivity.
Qed.

Lemma launchBody_launchOk (now : string -> Clock) (g : Graph)
  (node : GraphNode) :
  id (task node) = nodeId node ->
  launchOk (nodeId node) (onError (task node))
    (map (artifactOf g) (nodeDependencies node))
    (valueOf (scriptResult
                (executeTaskWithRetries (now (nodeId node)) (task node)
                   (map (artifactOf g) (nodeDependencies node))))) []
    (launchBody now g node).
Proof.
  intros Hid. unfold launchBody, executeTaskWithRetries.
  apply retryLoop_launchOk. exact Hid.
Qed.

(** ** Running a launch to its next stop *)

Lemma runSync_launchOk (k : string) (policy : option OnError)
  (args : list any) (expected : any) (s : Script) :
  forall em g tr g' tr' stop,
  launchOk k policy args expected em s ->
  runSync s g tr = (g', tr', stop) ->
  exists es,
    tr' = tr ++ es /\ g' = fold_left applyEvent es g /\
    (forall e, In e es -> eventTask e = k) /\
    (forall a args', In (Invoke k a args') es -> args' = args) /\
    match stop with
    | AtAwait s' =>
        launchOk k policy args expected [] s' /\
        ~ In (SetStatus k Failed) (em ++ es) /\
        (forall v, ~ In (SetArtifact k v) (em ++ es)) /\
        scriptAwaits s = S (scriptAwaits s')
    | AtEnd None =>
        exists pre v, em ++ es = pre ++ [SetArtifact k v] /\
          (forall v', ~ In (SetArtifact k v') pre) /\
          (In (SetStatus k Failed) pre -> policy <> Some Abort /\ v = Null) /\
          v = expected
    | AtEnd (Some e) =>
        e = AbortingExecution k /\ policy = Some Abort /\
        runnerThrew k (em ++ es) /\
        (forall v, ~ In (SetArtifact k v) (em ++ es))
    end.
Proof.
  induction s as [v|e|s IH|e s IH]; intros em g tr g' tr' stop Hok Hrun;
    simpl in Hrun, Hok.
  - inversion Hrun; subst. exists []. rewrite !app_nil_r.
    split; [reflexivity|]. split; [reflexivity|].
    split; [intros ? []|]. split; [intros ? ? []|exact Hok].
  - inversion Hrun; subst. exists []. rewrite !app_nil_r.
    split; [reflexivity|]. split; [reflexivity|].
    split; [intros ? []|]. split; [intros ? ? []|exact Hok].
  - inversion Hrun; subst. exists []. rewrite !app_nil_r.
    split; [reflexivity|]. split; [reflexivity|].
    split; [intros ? []|]. split; [intros ? ? []|].
    destruct Hok as (H1 & H2 & H3). auto.
  - destruct Hok as (He & Hargs & Hok).
    destruct (IH _ _ _ _ _ _ Hok Hrun) as (es & Etr & Eg & Hev & Hinv & Hstop).
    exists (e :: es). rewrite <- app_assoc in Etr, Hstop. simpl in Etr, Hstop.
    split; [exact Etr|]. split; [exact Eg|].
    split; [intros e' [<-|H]; auto|].
    split; [intros a args' [->|H]; eauto|].
    destruct stop as [s'|[err|]]; [|exact Hstop|exact Hstop].
    destruct Hstop as (H1 & H2 & H3 & H4). auto.
Qed.

Lemma fold_applyEvent_static (es : list Event) :
  forall g, sameStatic g (fold_left applyEvent es g).
Proof.
  induction es as [|e es IH]; intros g; simpl; [apply sameStatic_refl|].
  eapply sameStatic_trans; [apply sameStatic_applyEvent|apply IH].
Qed.

Lemma fold_applyEvent_other (es : list Event) (k : string) :
  forall g, (forall e, In e es -> eventTask e <> k) ->
  artifactOf (fold_left applyEvent es g) k = artifactOf g k.
Proof.
  induction es as [|e es IH]; intros g H; simpl; [reflexivity|].
  rewrite IH by (intros e' He'; apply H; simpl; auto).
  apply artifactOf_applyEvent_other. apply H. simpl. auto.
Qed.

Lemma fold_applyEvent_last (pre : list Event) (k : string) (v : any)
  (g : Graph) :
  In k (nodeIds g) ->
  artifactOf (fold_left applyEvent (pre ++ [SetArtifact k v]) g) k = v.
Proof.
  intros Hin. rewrite fold_left_app. simpl.
  apply artifactOf_setArtifact.
  rewrite (sameStatic_ids g _ (fold_applyEvent_static pre g)). exact Hin.
Qed.

Lemma gatheredArgs_stable (g g' : Graph) (k : string) :
  sameStatic g g' ->
  (forall d, In d (dependenciesOf g k) -> artifactOf g' d = artifactOf g d) ->
  gatheredArgs g' k = gatheredArgs g k.
Proof.
  intros Hs H. unfold gatheredArgs.
  rewrite (sameStatic_dependencies g g' k Hs).
  apply map_ext_in. exact H.
Qed.

(** ** The list of launches *)

Lemma setLaunch_keys (ls : list (string * Launch)) (k : string) (l : Launch) :
  map fst (setLaunch ls k l) = map fst ls.
Proof.
  induction ls as [|[k0 l0] ls IH]; simpl; [reflexivity|].
  destruct (String.eqb k0 k); simpl; [reflexivity|]. rewrite IH. reflexivity.
Qed.

Lemma launchOf_split (ls : list (string * Launch)) (k : string)
  (old : Launch) :
  launchOf ls k = Some old ->
  exists l1 l2, ls = l1 ++ (k, old) :: l2 /\ ~ In k (map fst l1) /\
    forall new, setLaunch ls k new = l1 ++ (k, new) :: l2.
Proof.
  induction ls as [|[k0 l0] ls IH]; simpl; [discriminate|].
  destruct (String.eqb k0 k) eqn:E.
  - apply String.eqb_eq in E. subst k0. intros H; inversion H; subst.
    exists [], ls. simpl. auto.
  - apply String.eqb_neq in E. intros H.
    destruct (IH H) as (l1 & l2 & -> & Hn & Hset).
    exists ((k0, l0) :: l1), l2. simpl.
    split; [reflexivity|]. split; [tauto|].
    intros new. rewrite Hset. reflexivity.
Qed.

Lemma launchOf_In (ls : list (string * Launch)) (k : string) (l : Launch) :
  launchOf ls k = Some l -> In (k, l) ls.
Proof.
  intros H. destruct (launchOf_split _ _ _ H) as (l1 & l2 & -> & _).
  apply in_or_app. right. left. reflexivity.
Qed.

Lemma In_launchOf (ls : list (string * Launch)) (k : string) (l : Launch) :
  NoDup (map fst ls) -> In (k, l) ls -> launchOf ls k = Some l.
Proof.
  induction ls as [|[k0 l0] ls IH]; simpl; [intros _ []|].
  intros Hnd H. inversion Hnd as [|? ? Hk Hnd']; subst.
  destruct (String.eqb k0 k) eqn:E.
  - apply String.eqb_eq in E. subst k0.
    destruct H as [H|H]; [congruence|].
    exfalso. apply Hk. apply in_map_iff. exists (k, l). auto.
  - apply String.eqb_neq in E.
    destruct H as [H|H]; [congruence|auto].
Qed.

Lemma launchOf_None (ls : list (string * Launch)) (k : string) :
  ~ In k (map fst ls) -> launchOf ls k = None.
Proof.
  induction ls as [|[k0 l0] ls IH]; simpl; [reflexivity|].
  intros H. destruct (String.eqb k0 k) eqn:E.
  - apply String.eqb_eq in E. exfalso. auto.
  - apply IH. auto.
Qed.

Lemma resumableOf_app (l1 l2 : list (string * Launch)) :
  resumableOf (l1 ++ l2) = resumableOf l1 ++ resumableOf l2.
Proof. unfold resumableOf. rewrite filter_app, map_app. reflexivity. Qed.

Lemma parked_app (l1 l2 : list (string * Launch)) :
  parked (l1 ++ l2) = parked l1 ++ parked l2.
Proof. unfold parked. rewrite filter_app, map_app. reflexivity. Qed.

Lemma resumableOf_cons (k : string) (l : Launch) (ls : list (string * Launch)) :
  resumableOf ((k, l) :: ls)
  = (if isResumable l then [k] else []) ++ resumableOf ls.
Proof. unfold resumableOf. simpl. destruct (isResumable l); reflexivity. Qed.

Lemma parked_cons (k : string) (l : Launch) (ls : list (string * Launch)) :
  parked ((k, l) :: ls) = (if isParked l then [k] else []) ++ parked ls.
Proof. unfold parked. simpl. destruct (isParked l); reflexivity. Qed.

Lemma parked_keys (ls : list (string * Launch)) :
  incl (parked ls) (map fst ls).
Proof.
  intros k H. unfold parked in H. apply in_map_iff in H.
  destruct H as (kl & <- & H). apply filter_In in H.
  apply in_map. tauto.
Qed.

Lemma resumableOf_In (ls : list (string * Launch)) (k : string) :
  In k (resumableOf ls) ->
  exists l, In (k, l) ls /\ isResumable l = true.
Proof.
  unfold resumableOf. intros H. apply in_map_iff in H.
  destruct H as ([k0 l] & E & H). simpl in E. subst k0.
  apply filter_In in H. exists l. tauto.
Qed.

Lemma parked_In (ls : list (string * Launch)) (k : string) :
  In k (parked ls) -> In (k, Parked) ls.
Proof.
  unfold parked. intros H. apply in_map_iff in H.
  destruct H as ([k0 l] & E & H). simpl in E. subst k0.
  apply filter_In in H. destruct H as [H1 H2]. simpl in H2.
  destruct l; try discriminate. exact H1.
Qed.

(** A launch that goes on and stays able to go on. *)
Lemma permits_await (K : Z) (s : Semaphore) (ls : list (string * Launch))
  (k : string) (old new : Launch) :
  permitsInvariant K s ls -> launchOf ls k = Some old ->
  isResumable old = true -> isResumable new = true ->
  permitsInvariant K s (setLaunch ls k new).
Proof.
  intros (Hc & Hsum & Hq & Ht) Hk Ho Hn.
  destruct (launchOf_split _ _ _ Hk) as (l1 & l2 & -> & _ & Hset).
  rewrite Hset. unfold permitsInvariant in *.
  rewrite resumableOf_app, resumableOf_cons, parked_app, parked_cons in *.
  rewrite Ho in Hsum. rewrite Hn.
  assert (Po : isParked old = false) by (destruct old; simpl in *; congruence).
  assert (Pn : isParked new = false) by (destruct new; simpl in *; congruence).
  rewrite Po in Ht. rewrite Pn. auto.
Qed.

(** A launch that ends: its permit goes back, or to the oldest waiter. *)
Lemma permits_end (K : Z) (s : Semaphore) (ls : list (string * Launch))
  (k : string) (old : Launch) (r : option Error) :
  permitsInvariant K s ls -> NoDup (map fst ls) ->
  launchOf ls k = Some old -> isResumable old = true ->
  permitsInvariant K (fst (release s))
    (match snd (release s) with
     | Some w => setLaunch (setLaunch ls k (Finished r)) w Granted
     | None => setLaunch ls k (Finished r)
     end) /\
  match snd (release s) with
  | Some w => In (w, Parked) ls /\ w <> k
  | None => True
  end.
Proof.
  intros (Hc & Hsum & Hq & Ht) Hnd Hk Ho.
  destruct (launchOf_split _ _ _ Hk) as (l1 & l2 & E & Hk1 & Hset).
  assert (Po : isParked old = false) by (destruct old; simpl in *; congruence).
  assert (Hfin : permitsInvariant (K - 1) s (setLaunch ls k (Finished r))).
  { rewrite Hset. subst ls. unfold permitsInvariant.
    rewrite resumableOf_app, resumableOf_cons, parked_app, parked_cons in *.
    rewrite Ho in Hsum. rewrite Po in Ht. simpl in *.
    rewrite length_app in *. simpl in Hsum.
    split; [intros HK; apply Hc; lia|]. split; [lia|].
    split; [exact Hq|exact Ht]. }
  destruct (tasks s) as [|w ws] eqn:Ets.
  - rewrite release_free by exact Ets. simpl. split; [|exact I].
    destruct Hfin as (F1 & F2 & F3 & F4). unfold permitsInvariant; simpl.
    split; [intros HK; specialize (Hc HK); lia|]. split; [lia|].
    split; [congruence|]. congruence.
  - rewrite (release_hands_over s w ws Ets). simpl.
    destruct Hfin as (F1 & F2 & F3 & F4).
    assert (H0 : counter s <= 0) by (apply Hq; congruence).
    assert (Hw : In (w, Parked) ls).
    { apply parked_In. rewrite <- Ht. left. reflexivity. }
    assert (Hwk : w <> k).
    { intros ->. apply (In_launchOf _ _ _ Hnd) in Hw.
      rewrite Hk in Hw. inversion Hw; subst. discriminate. }
    split; [|auto].
    set (ls' := setLaunch ls k (Finished r)) in *.
    assert (Hnd' : NoDup (map fst ls')).
    { unfold ls'. rewrite setLaunch_keys. exact Hnd. }
    assert (Hw' : launchOf ls' w = Some Parked).
    { apply In_launchOf; [exact Hnd'|].
      apply parked_In. rewrite <- F4, Ets. left. reflexivity. }
    destruct (launchOf_split _ _ _ Hw') as (m1 & m2 & E' & Hw1 & Hset').
    rewrite Hset'. rewrite E' in F2, F4. rewrite Ets in F4.
    rewrite resumableOf_app, resumableOf_cons, length_app in F2.
    rewrite parked_app, parked_cons in F4. simpl in F2, F4.
    assert (Hp1 : parked m1 = []).
    { destruct (parked m1) as [|x xs] eqn:Ep; [reflexivity|].
      simpl in F4. injection F4 as F4a F4b. subst x.
      exfalso. apply Hw1. apply parked_keys. rewrite Ep. left. reflexivity. }
    rewrite Hp1 in F4. simpl in F4. injection F4 as F4.
    unfold permitsInvariant; simpl.
    rewrite resumableOf_app, resumableOf_cons, length_app.
    rewrite parked_app, parked_cons, Hp1. simpl.
    split; [exact Hc|]. split; [lia|]. split; [intros _; exact H0|exact F4].
Qed.

(** The closures of a level up to their [acquire]. *)
Lemma startLaunches_spec (nodes : list string) :
  forall s s' ls,
  startLaunches nodes s = (s', ls) ->
  (tasks s <> [] -> counter s <= 0) ->
  map fst ls = nodes /\
  (0 <= counter s -> 0 <= counter s') /\
  counter s' + Z.of_nat (List.length (resumableOf ls)) = counter s /\
  tasks s' = tasks s ++ parked ls /\
  (tasks s' <> [] -> counter s' <= 0) /\
  (forall k l, In (k, l) ls -> l = Parked \/ l = Granted).
Proof.
  induction nodes as [|node nodes IH]; intros s s' ls H Hq.
  - simpl in H. inversion H; subst. simpl. rewrite app_nil_r.
    split; [reflexivity|]. split; [auto|]. split; [lia|].
    split; [reflexivity|]. split; [exact Hq|]. intros k l [].
  - simpl in H. unfold acquire in H.
    destruct (0 <? counter s) eqn:E0.
    + apply Z.ltb_lt in E0.
      destruct (startLaunches nodes _) as [s2 ls2] eqn:E2.
      inversion H; subst s' ls; clear H.
      destruct (IH _ _ _ E2) as (A1 & A2 & A3 & A4 & A5 & A6);
        [simpl; intros Hne; specialize (Hq Hne); lia|].
      simpl in A2, A3, A4.
      rewrite resumableOf_cons, parked_cons. simpl.
      split; [congruence|]. split; [intros _; apply A2; lia|]. split; [lia|].
      split; [exact A4|]. split; [exact A5|].
      intros k l [H|H]; [inversion H; auto|eauto].
    + apply Z.ltb_ge in E0.
      destruct (startLaunches nodes _) as [s2 ls2] eqn:E2.
      inversion H; subst s' ls; clear H.
      destruct (IH _ _ _ E2) as (A1 & A2 & A3 & A4 & A5 & A6);
        [simpl; intros _; lia|].
      simpl in A2, A3, A4.
      rewrite resumableOf_cons, parked_cons. simpl.
      split; [congruence|]. split; [exact A2|]. split; [lia|].
      split; [rewrite A4, <- app_assoc; reflexivity|]. split; [exact A5|].
      intros k l [H|H]; [inversion H; auto|eauto].
Qed.

(** ** The levels of a plan *)

Lemma levelsGet_In (lv : Levels) (k : string) (v : JsNumber) :
  NoDup (map fst lv) -> In (k, v) lv -> levelsGet lv k = Some v.
Proof.
  induction lv as [|[k0 v0] lv IH]; simpl; [intros _ []|].
  intros Hnd H. inversion Hnd as [|? ? Hk Hnd']; subst.
  destruct (String.eqb k0 k) eqn:E.
  - apply String.eqb_eq in E. subst k0.
    destruct H as [H|H]; [congruence|].
    exfalso. apply Hk. apply in_map_iff. exists (k, v). auto.
  - apply String.eqb_neq in E. destruct H as [H|H]; [congruence|auto].
Qed.

Lemma levelled_entries (g : Graph) (lv : Levels) (sorted : list string) :
  NoDup sorted -> levelled g lv sorted ->
  exists zs, map snd lv = map Int zs /\
    List.length zs = List.length sorted /\
    forall k z, levelOf lv k = Some z -> In z zs.
Proof.
  intros Hnd [Hkeys Hlv].
  assert (Hall : forall kv, In kv lv -> exists z, snd kv = Int z).
  { intros [k v] Hin. simpl.
    assert (Hk : In k sorted).
    { rewrite <- Hkeys. apply in_map_iff. exists (k, v). auto. }
    destruct (Hlv k Hk) as (lc & E & _). unfold levelOf in E.
    rewrite (levelsGet_In lv k v) in E;
      [|rewrite Hkeys; exact Hnd|exact Hin].
    destruct v; try discriminate. eauto. }
  assert (Hget : forall k z, levelOf lv k = Some z -> In (k, Int z) lv).
  { intros k z. unfold levelOf. clear. induction lv as [|[k0 v0] lv IH];
      simpl; [discriminate|].
    destruct (String.eqb k0 k) eqn:E.
    - apply String.eqb_eq in E. subst.
      destruct v0; try discriminate. intros H; inversion H. auto.
    - intros H. right. apply IH. exact H. }
  rewrite <- Hkeys. clear Hkeys Hlv Hnd.
  induction lv as [|[k v] lv IH].
  - exists []. simpl. split; [reflexivity|]. split; [reflexivity|].
    intros k z H. apply Hget in H. contradiction.
  - destruct (Hall (k, v)) as [z Ez]; [left; reflexivity|]. simpl in Ez.
    subst v.
    assert (Hall' : forall kv, In kv lv -> exists z, snd kv = Int z).
    { intros kv H. apply Hall. right. exact H. }
    assert (Hzs : exists zs, map snd lv = map Int zs /\
              List.length zs = List.length lv /\
              forall k z, In (k, Int z) lv -> In z zs).
    { clear - Hall'. induction lv as [|[k v] lv IH].
      - exists []. simpl. auto.
      - destruct (Hall' (k, v)) as [z Ez]; [left; reflexivity|].
        simpl in Ez. subst v.
        destruct IH as (zs & E1 & E2 & E3).
        { intros kv H. apply Hall'. right. exact H. }
        exists (z :: zs). simpl. rewrite E1, E2.
        split; [reflexivity|]. split; [reflexivity|].
        intros k' z' [H|H]; [inversion H; auto|eauto]. }
    destruct Hzs as (zs & E1 & E2 & E3).
    exists (z :: zs). simpl. rewrite E1, E2, length_map.
    split; [reflexivity|]. split; [reflexivity|].
    intros k' z' H. apply Hget in H.
    destruct H as [H|H]; [inversion H; auto|eauto].
Qed.

(** The facts about levels the driver relies on. *)
Lemma plan_levels (g : Graph) (sorted : list string) :
  planned g sorted ->
  (forall k, In k sorted ->
     exists z, levelOf (assignLevels g sorted) k = Some z /\ 0 <= z /\
               z <= topLevel (assignLevels g sorted)) /\
  (forall c d, In c sorted -> In d (dependenciesOf g c) ->
     levelAt (assignLevels g sorted) d < levelAt (assignLevels g sorted) c) /\
  (sorted <> [] ->
   mathMax (map snd (assignLevels g sorted))
   = Int (topLevel (assignLevels g sorted)) /\
   0 <= topLevel (assignLevels g sorted)) /\
  (sorted = [] -> assignLevels g sorted = []).
Proof.
  intros [Hnd _ Htopo Hclosed _].
  pose proof (assignLevels_levelled g sorted Hnd Htopo) as Hl.
  destruct (levelled_entries g _ sorted Hnd Hl) as (zs & Ezs & Hlen & Hin).
  destruct Hl as [Hkeys Hlv].
  assert (Htop : sorted <> [] ->
            mathMax (map snd (assignLevels g sorted))
            = Int (topLevel (assignLevels g sorted)) /\
            forall z, In z zs -> z <= topLevel (assignLevels g sorted)).
  { intros Hne. destruct (mathMax_ints zs) as (m & Em & Hm).
    { intros ->. destruct sorted; [congruence|discriminate]. }
    unfold topLevel. rewrite Ezs, Em. auto. }
  split.
  { intros k Hk. destruct (Hlv k Hk) as (z & E & Hz & _).
    exists z. split; [exact E|]. split; [exact Hz|].
    apply Htop; [intros ->; contradiction|]. eapply Hin; eauto. }
  split.
  { intros c d Hc Hd. destruct (Hlv c Hc) as (z & E & Hz & Hdeps).
    destruct (Hdeps d Hd) as (ld & Eld & Hlt).
    unfold levelAt. rewrite E, Eld. exact Hlt. }
  split.
  { intros Hne. destruct (Htop Hne) as [E Hm]. split; [exact E|].
    destruct sorted as [|k sorted']; [congruence|].
    destruct (Hlv k) as (z & Ez & Hz & _); [left; reflexivity|].
    specialize (Hm z (Hin _ _ Ez)). lia. }
  intros ->. reflexivity.
Qed.

Lemma nodesAtLevel_In (sorted : list string) (lv : Levels) (l : Z)
  (k : string) :
  In k (nodesAtLevel sorted lv l)
  <-> In k sorted /\ levelOf lv k = Some l.
Proof.
  unfold nodesAtLevel, levelOf. rewrite filter_In.
  destruct (levelsGet lv k) as [[| |z]|]; split; intros [H1 H2];
    try discriminate; split; auto.
  - apply Z.eqb_eq in H2. congruence.
  - inversion H2. apply Z.eqb_refl.
Qed.

Lemma nodesAtLevel_NoDup (sorted : list string) (lv : Levels) (l : Z) :
  NoDup sorted -> NoDup (nodesAtLevel sorted lv l).
Proof. apply NoDup_filter. Qed.

Lemma levelAt_Some (lv : Levels) (k : string) (z : Z) :
  levelOf lv k = Some z -> levelAt lv k = z.
Proof. unfold levelAt. intros ->. reflexivity. Qed.

Lemma levelRange_spec (g : Graph) (sorted : list string) :
  planned g sorted ->
  let lv := assignLevels g sorted in
  levelRange (mathMax (map snd lv))
  = map Z.of_nat (seq 0 (List.length (levelRange (mathMax (map snd lv))))) /\
  (sorted <> [] ->
   Z.of_nat (List.length (levelRange (mathMax (map snd lv))))
   = topLevel lv + 1).
Proof.
  intros Hp lv. destruct (plan_levels g sorted Hp) as (_ & _ & Htop & Hnil).
  destruct sorted as [|k sorted'].
  - subst lv. rewrite (Hnil eq_refl). simpl. split; [reflexivity|congruence].
  - destruct Htop as [E Hpos]; [discriminate|]. fold lv in E, Hpos.
    rewrite E. unfold levelRange. rewrite length_map, length_seq.
    split; [reflexivity|]. intros _. lia.
Qed.

(** ** Entering a level *)

Lemma startLaunches_nil (s : Semaphore) : startLaunches [] s = (s, []).
Proof. reflexivity. Qed.

Lemma firstRejection_fresh (ls : list (string * Launch)) :
  (forall k l, In (k, l) ls -> l = Parked \/ l = Granted) ->
  firstRejection ls = None.
Proof.
  induction ls as [|[k l] ls IH]; intros H; simpl; [reflexivity|].
  destruct (H k l) as [->| ->]; [left; reflexivity| |];
    apply IH; intros k' l' Hin; apply (H k' l'); right; exact Hin.
Qed.

Lemma firstRejection_Some (ls : list (string * Launch)) (e : Error) :
  firstRejection ls = Some e -> exists k, In (k, Finished (Some e)) ls.
Proof.
  induction ls as [|[k l] ls IH]; simpl; [discriminate|].
  destruct l as [| |s|[e'|]];
    try (intros H; destruct (IH H) as [k' Hk']; exists k'; auto).
  intros H; inversion H; subst. exists k. auto.
Qed.

Lemma firstRejection_None (ls : list (string * Launch)) (k : string)
  (e : Error) :
  firstRejection ls = None -> ~ In (k, Finished (Some e)) ls.
Proof.
  induction ls as [|[k0 l] ls IH]; simpl; [auto|].
  destruct l as [| |s|[e'|]]; try discriminate;
    intros H [H1|H1]; try discriminate; try (inversion H1; fail);
    eapply IH; eauto.
Qed.

Lemma allFulfilled_In (ls : list (string * Launch)) (k : string) (l : Launch) :
  forallb (fun kl => isFulfilled (snd kl)) ls = true ->
  In (k, l) ls -> l = Finished None.
Proof.
  rewrite forallb_forall. intros H Hin. specialize (H _ Hin). simpl in H.
  destruct l as [| |s|[e|]]; try discriminate. reflexivity.
Qed.

Lemma allFulfilled_no_resumable (ls : list (string * Launch)) :
  forallb (fun kl => isFulfilled (snd kl)) ls = true ->
  resumableOf ls = [] /\ parked ls = [].
Proof.
  induction ls as [|[k l] ls IH]; simpl; [auto|].
  intros H. apply andb_true_iff in H. destruct H as [H1 H2].
  destruct (IH H2) as [E1 E2].
  rewrite resumableOf_cons, parked_cons, E1, E2.
  destruct l as [| |s|[e|]]; try discriminate. auto.
Qed.

Section Entering.

Variable now : string -> Clock.
Variable g : Graph.
Variable sorted : list string.
Variable K : Z.
Hypothesis Hplanned : planned g sorted.

(** The head of the loop with at least one level to go leads to a state of
    the driver that satisfies its invariant. *)
Lemma enterLevels_invariant (ls : list Z) :
  forall b st, ls <> [] -> headInvariant now g sorted K b ls st ->
  driverInvariant now g sorted K (enterLevels ls st).
Proof.
  induction ls as [|l rest IH]; intros b st Hne Hh; [congruence|].
  destruct Hh as [Hplan Hlevels Hstatic Hb Hrange Htop Hsem Htl Hto Hbelow
                  Hargs].
  simpl in Hrange. injection Hrange as Hl Hrest.
  rewrite Z2Nat.id in Hl by exact Hb. subst l.
  cbn [enterLevels]. rewrite Hplan, Hlevels.
  destruct (startLaunches (nodesAtLevel sorted (assignLevels g sorted) b) (semaphore st))
    as [s' started] eqn:Es.
  destruct (startLaunches_spec _ _ _ _ Es)
    as (Skeys & Sc & Ssum & Stasks & Sq & Sfresh).
  { rewrite Hsem. simpl. congruence. }
  rewrite Hsem in Sc, Ssum, Stasks. simpl in Sc, Ssum, Stasks.
  assert (Hlater : rest = map Z.of_nat (seq (S (Z.to_nat b)) (List.length rest)))
    by exact Hrest.
  destruct started as [|[k0 l0] started'] eqn:Est.
  - (* an empty level *)
    assert (Hnodes : nodesAtLevel sorted (assignLevels g sorted) b = []) by (symmetry; exact Skeys).
    rewrite Hnodes, startLaunches_nil in Es.
    injection Es as Es. subst s'.
    destruct rest as [|l' rest'] eqn:Erest.
    + (* the last level *)
      cbn [enterLevels]. constructor; simpl; [|discriminate|intros k e []].
      constructor; simpl.
      * first [exact Hplan|reflexivity].
      * first [exact Hlevels|reflexivity].
      * exact Hstatic.
      * symmetry. exact Hnodes.
      * exact Hb.
      * exists 0%nat. split; [reflexivity|]. intros Hs.
        specialize (Htop Hs). simpl in Htop. lia.
      * rewrite Hsem. unfold permitsInvariant; simpl.
        split; [auto|]. split; [lia|]. split; [congruence|reflexivity].
      * intros k l [].
      * intros e He. destruct (Htl e He). split; [assumption|].
        lia.
      * exact Hto.
      * intros k Hk Hlt. apply Hbelow; assumption.
      * exact Hargs.
      * auto.
      * discriminate.
    + (* more levels *)
      rewrite <- Erest in *. apply (IH (b + 1)); [subst rest; discriminate|].
      constructor; simpl.
      * first [exact Hplan|reflexivity].
      * first [exact Hlevels|reflexivity].
      * exact Hstatic.
      * lia.
      * rewrite Z2Nat.inj_add by lia. rewrite Nat.add_1_r. exact Hlater.
      * intros Hs. specialize (Htop Hs). cbn [List.length] in Htop.
        rewrite Nat2Z.inj_succ in Htop. lia.
      * exact Hsem.
      * intros e He. destruct (Htl e He). split; [assumption|lia].
      * exact Hto.
      * intros k Hk Hlt.
        destruct (Z.eq_dec (levelAt (assignLevels g sorted) k) b) as [E|E].
        -- exfalso.
           assert (Hin : In k (nodesAtLevel sorted (assignLevels g sorted) b)).
           { apply nodesAtLevel_In. split; [exact Hk|].
             destruct (plan_levels g sorted Hplanned) as (Hlev & _).
             destruct (Hlev k Hk) as (z & Ez & _). 
             rewrite (levelAt_Some _ _ _ Ez) in E. congruence. }
           rewrite Hnodes in Hin. exact Hin.
        -- apply Hbelow; [exact Hk|]. lia.
      * exact Hargs.
  - (* a level with launches *)
    rewrite <- Est in *.
    assert (Hstarted : started <> []) by (subst started; discriminate).
    clear Est k0 l0 started'.
    assert (Hat : forall k l, In (k, l) started -> levelAt (assignLevels g sorted) k = b).
    { intros k l Hin. apply levelAt_Some.
      apply (nodesAtLevel_In sorted (assignLevels g sorted) b k). rewrite <- Skeys.
      apply in_map_iff. exists (k, l). auto. }
    destruct started as [|x xs] eqn:Est; [congruence|].
    rewrite <- Est in *.
    constructor; simpl.
    + constructor; simpl.
      * first [exact Hplan|reflexivity].
      * first [exact Hlevels|reflexivity].
      * exact Hstatic.
      * exact Skeys.
      * exact Hb.
      * exists (List.length rest). split; [exact Hlater|].
        intros Hs. specialize (Htop Hs). cbn [List.length] in Htop.
        rewrite Nat2Z.inj_succ in Htop. lia.
      * unfold permitsInvariant. auto.
      * intros k l Hin. destruct (Sfresh k l Hin) as [->| ->]; simpl;
          intros e He Hek; destruct (Htl e He) as [_ Hlt];
          rewrite Hek, (Hat _ _ Hin) in Hlt; lia.
      * intros e He. destruct (Htl e He). split; [assumption|].
        lia.
      * exact Hto.
      * intros k Hk Hlt. apply Hbelow; assumption.
      * exact Hargs.
      * discriminate.
      * discriminate.
    + intros _. split; [apply firstRejection_fresh; exact Sfresh|].
      rewrite Est. simpl. destruct x as [k l].
      destruct (Sfresh k l) as [->| ->]; [rewrite Est; left; reflexivity| |];
        reflexivity.
    + intros k e Hin. destruct (Sfresh _ _ Hin); discriminate.
Qed.

End Entering.

(** ** Resuming a launch *)

Lemma In_setLaunch (ls : list (string * Launch)) (k k' : string)
  (new l' : Launch) :
  NoDup (map fst ls) -> In (k', l') (setLaunch ls k new) ->
  (k' = k /\ l' = new) \/ (k' <> k /\ In (k', l') ls).
Proof.
  induction ls as [|[k0 l0] ls IH]; simpl; [intros _ []|].
  intros Hnd H. inversion Hnd as [|? ? Hk Hnd']; subst.
  destruct (String.eqb k0 k) eqn:E.
  - apply String.eqb_eq in E. subst k0. destruct H as [H|H].
    + inversion H; subst. auto.
    + right. split; [|auto]. intros ->. apply Hk.
      apply in_map_iff. exists (k, l'). auto.
  - apply String.eqb_neq in E. destruct H as [H|H].
    + inversion H; subst. right. auto.
    + destruct (IH Hnd' H) as [H1|[H1 H2]]; auto.
Qed.

Lemma In_setLaunch_other (ls : list (string * Launch)) (k k' : string)
  (new l' : Launch) :
  k' <> k -> In (k', l') ls -> In (k', l') (setLaunch ls k new).
Proof.
  intros Hne. induction ls as [|[k0 l0] ls IH]; simpl; [auto|].
  destruct (String.eqb k0 k) eqn:E.
  - apply String.eqb_eq in E. subst k0.
    intros [H|H]; [inversion H; subst; congruence|right; exact H].
  - intros [H|H]; [left; exact H|right; auto].
Qed.

Lemma expectedArtifact_stable (now : string -> Clock) (g graph graph' : Graph)
  (k : string) :
  gatheredArgs graph' k = gatheredArgs graph k ->
  expectedArtifact now g graph' k = expectedArtifact now g graph k.
Proof. intros E. unfold expectedArtifact. rewrite E. reflexivity. Qed.

(** The facts about a node survive the events of another launch. *)
Lemma doneInvariant_frame (now : string -> Clock) (g : Graph)
  (st st' : Driver) (k' : string) (es : list Event) :
  doneInvariant now g st k' ->
  trace st' = trace st ++ es ->
  (forall e, In e es -> eventTask e <> k') ->
  gatheredArgs (graph st') k' = gatheredArgs (graph st) k' ->
  artifactOf (graph st') k' = artifactOf (graph st) k' ->
  doneInvariant now g st' k'.
Proof.
  intros ([v Hv] & H2 & H3) Etr Hes Eargs Eart. unfold doneInvariant.
  rewrite Eart, (expectedArtifact_stable now g _ _ k' Eargs), Etr.
  split; [exists v; apply in_or_app; auto|]. split; [|exact H3].
  intros H. apply in_app_or in H. destruct H as [H|H]; [auto|].
  exfalso. exact (Hes _ H eq_refl).
Qed.

Lemma launchInvariant_frame (now : string -> Clock) (g : Graph)
  (st st' : Driver) (k' : string) (l : Launch) (es : list Event) :
  launchInvariant now g st k' l ->
  trace st' = trace st ++ es ->
  (forall e, In e es -> eventTask e <> k') ->
  gatheredArgs (graph st') k' = gatheredArgs (graph st) k' ->
  artifactOf (graph st') k' = artifactOf (graph st) k' ->
  launchInvariant now g st' k' l.
Proof.
  intros Hl Etr Hes Eargs Eart.
  assert (Hold : forall e, In e (trace st') -> eventTask e = k' ->
                           In e (trace st)).
  { intros e He Hk. rewrite Etr in He. apply in_app_or in He.
    destruct He as [He|He]; [exact He|]. exfalso. exact (Hes e He Hk). }
  assert (Hnew : forall e, In e (trace st) -> In e (trace st')).
  { intros e He. rewrite Etr. apply in_or_app. auto. }
  destruct l as [| |s|[e|]]; simpl in *.
  - intros e He Hk. exact (Hl e (Hold e He Hk) Hk).
  - intros e He Hk. exact (Hl e (Hold e He Hk) Hk).
  - destruct Hl as (H1 & H2 & H3).
    rewrite Eargs, (expectedArtifact_stable now g _ _ k' Eargs).
    split; [exact H1|]. split.
    + intros H. apply H2. apply Hold; [exact H|reflexivity].
    + intros v H. apply (H3 v). apply Hold; [exact H|reflexivity].
  - destruct Hl as (H1 & H2 & [H3|(a & n & H3)]).
    + split; [exact H1|]. split; [exact H2|]. left. auto.
    + split; [exact H1|]. split; [exact H2|]. right. exists a, n. auto.
  - eapply doneInvariant_frame; eauto.
Qed.

Section Resuming.

Variable now : string -> Clock.
Variable g : Graph.
Variable sorted : list string.
Variable K : Z.
Hypothesis Hplanned : planned g sorted.

(** Running the rest [s] of launch [k] to its next stop keeps what holds
    of the driver; the promise of the driver is not touched. *)
Lemma continueLaunch_core (st : Driver) (k : string) (old : Launch)
  (s : Script) :
  coreInvariant now g sorted K st ->
  launchOf (launches st) k = Some old -> isResumable old = true ->
  launchOk k (policyOf g k) (gatheredArgs (graph st) k)
    (expectedArtifact now g (graph st) k) [] s ->
  ~ In (SetStatus k Failed) (trace st) ->
  (forall v, ~ In (SetArtifact k v) (trace st)) ->
  coreInvariant now g sorted K (continueLaunch k s st) /\
  promise (continueLaunch k s st) = promise st.
Proof.
  intros Hc Hk Hres Hok Hnf Hna.
  destruct Hc as [Hplan Hlevels Hstatic Hkeys Hlevel Hlater Hpermits Hlaunch
                  Htl Hto Hbelow Hargs Hful Hrej].
  destruct (plan_levels g sorted Hplanned) as (Hlev & Hedge & _ & _).
  destruct Hplanned as [Pnd [Pgnd Pnodes] Porder Pclosed Pids].
  assert (Hnd : NoDup (map fst (launches st))).
  { rewrite Hkeys. apply nodesAtLevel_NoDup. exact Pnd. }
  assert (Hcur : forall k' l', In (k', l') (launches st) ->
            In k' sorted /\ levelAt (assignLevels g sorted) k' = level st).
  { intros k' l' Hin.
    assert (Hin' : In k' (nodesAtLevel sorted (assignLevels g sorted)
                                       (level st))).
    { rewrite <- Hkeys. apply in_map_iff. exists (k', l'). auto. }
    apply nodesAtLevel_In in Hin'. destruct Hin' as [H1 H2].
    split; [exact H1|apply levelAt_Some; exact H2]. }
  pose proof (launchOf_In _ _ _ Hk) as Hkin.
  destruct (Hcur _ _ Hkin) as [Hks Hkl].
  unfold continueLaunch.
  destruct (runSync s (graph st) (trace st)) as [[g' tr'] stop] eqn:Er.
  destruct (runSync_launchOk _ _ _ _ _ _ _ _ _ _ _ Hok Er)
    as (es & Etr & Eg & Hev & Hinv & Hstop).
  simpl app in Hstop.
  assert (Sg : sameStatic (graph st) g').
  { rewrite Eg. apply fold_applyEvent_static. }
  assert (Sg0 : sameStatic g g') by (eapply sameStatic_trans; eauto).
  assert (Hart : forall k', k' <> k ->
            artifactOf g' k' = artifactOf (graph st) k').
  { intros k' Hne. rewrite Eg. apply fold_applyEvent_other.
    intros e He. rewrite (Hev e He). auto. }
  assert (Hgath : forall c, In c sorted ->
            levelAt (assignLevels g sorted) c <= level st ->
            gatheredArgs g' c = gatheredArgs (graph st) c).
  { intros c Hc Hle. apply gatheredArgs_stable; [exact Sg|].
    intros d Hd. apply Hart. intros ->.
    rewrite (sameStatic_dependencies g (graph st) c Hstatic) in Hd.
    specialize (Hedge c k Hc Hd). lia. }
  assert (Htl' : forall e, In e (trace st ++ es) ->
            In (eventTask e) sorted /\
            levelAt (assignLevels g sorted) (eventTask e) <= level st).
  { intros e He. apply in_app_or in He. destruct He as [He|He]; [auto|].
    rewrite (Hev e He). split; [exact Hks|lia]. }
  assert (Hto' : forall e1 e2, before (trace st ++ es) e1 e2 ->
            levelAt (assignLevels g sorted) (eventTask e1)
            <= levelAt (assignLevels g sorted) (eventTask e2)).
  { intros e1 e2 Hb. apply before_app_inv in Hb.
    destruct Hb as [Hb|[Hb|[H1 H2]]].
    - apply Hto. exact Hb.
    - apply before_In in Hb. destruct Hb as [H1 H2].
      rewrite (Hev e1 H1), (Hev e2 H2). lia.
    - rewrite (Hev e2 H2), Hkl. apply Htl. exact H1. }
  assert (Hbelow' : forall st', trace st' = trace st ++ es ->
            graph st' = g' ->
            forall k', In k' sorted ->
            levelAt (assignLevels g sorted) k' < level st ->
            doneInvariant now g st' k').
  { intros st' E1 E2 k' Hk' Hlt.
    assert (Hne : k' <> k) by (intros ->; lia).
    eapply doneInvariant_frame; [apply Hbelow; eassumption|exact E1| | |].
    - intros e He. rewrite (Hev e He). auto.
    - rewrite E2. apply Hgath; [exact Hk'|lia].
    - rewrite E2. apply Hart. exact Hne. }
  assert (Hargs' : forall c a args, In (Invoke c a args) (trace st ++ es) ->
            args = gatheredArgs g' c).
  { intros c a args H. apply in_app_or in H. destruct H as [H|H].
    - destruct (Htl _ H) as [H1 H2]. simpl in H1, H2.
      rewrite (Hgath c H1 H2). eapply Hargs. exact H.
    - pose proof (Hev _ H) as Ec. simpl in Ec. subst c.
      rewrite (Hgath k Hks) by lia. eapply Hinv. exact H. }
  assert (Hothers : forall k' l', k' <> k -> In (k', l') (launches st) ->
            forall st', trace st' = trace st ++ es -> graph st' = g' ->
            launchInvariant now g st' k' l').
  { intros k' l' Hne Hin st' E1 E2.
    destruct (Hcur _ _ Hin) as [Hs' Hl'].
    eapply launchInvariant_frame; [apply Hlaunch; exact Hin|exact E1| | |].
    - intros e He. rewrite (Hev e He). auto.
    - rewrite E2. apply Hgath; [exact Hs'|lia].
    - rewrite E2. apply Hart. exact Hne. }
  assert (Hnotful : promise st = Fulfilled -> False).
  { intros Hp. destruct (Hful Hp) as [_ Hall].
    rewrite (allFulfilled_In _ _ _ Hall Hkin) in Hres. discriminate. }
  destruct stop as [rest|r]; subst tr'.
  - (* the launch waits again *)
    destruct Hstop as (Hok' & Hnf' & Hna' & _).
    split; [|reflexivity].
    constructor; simpl.
    + exact Hplan.
    + exact Hlevels.
    + exact Sg0.
    + rewrite setLaunch_keys. exact Hkeys.
    + exact Hlevel.
    + exact Hlater.
    + eapply permits_await; eauto.
    + intros k' l' Hin. apply In_setLaunch in Hin; [|exact Hnd].
      destruct Hin as [[-> ->]|[Hne Hin]].
      * simpl. rewrite (Hgath k Hks) by lia.
        rewrite (expectedArtifact_stable now g (graph st) g' k
                   (Hgath k Hks ltac:(lia))).
        split; [exact Hok'|]. split.
        -- intros H. apply in_app_or in H. destruct H; [auto|tauto].
        -- intros v H. apply in_app_or in H.
           destruct H as [H|H]; [exact (Hna v H)|exact (Hna' v H)].
      * eapply Hothers; eauto.
    + exact Htl'.
    + exact Hto'.
    + apply Hbelow'; reflexivity.
    + exact Hargs'.
    + intros Hp. exfalso. auto.
    + intros e Hp. destruct (Hrej e Hp) as [k0 Hk0]. exists k0.
      apply In_setLaunch_other; [|exact Hk0].
      intros ->. apply (In_launchOf _ _ _ Hnd) in Hk0.
      rewrite Hk in Hk0. inversion Hk0; subst. discriminate.
  - (* the launch ends *)
    destruct (permits_end K (semaphore st) (launches st) k old r
                Hpermits Hnd Hk Hres) as [Hperm Hnext].
    destruct (release (semaphore st)) as [sem' nextTask] eqn:Erel.
    simpl in Hperm, Hnext.
    assert (Hself : forall st', trace st' = trace st ++ es -> graph st' = g' ->
              launchInvariant now g st' k (Finished r)).
    { intros st' E1 E2. destruct r as [e|]; simpl.
      - rewrite E1. destruct Hstop as (H1 & H2 & H3 & H4).
        split; [exact H1|]. split; [exact H2|].
        destruct H3 as [H3|(a & n & H3)].
        + left. apply in_or_app. auto.
        + right. exists a, n. apply in_or_app. auto.
      - destruct Hstop as (pre & v & Ees & Hpre & Hfail & Hexp).
        assert (Hv : artifactOf g' k = v).
        { rewrite Eg, Ees. apply fold_applyEvent_last.
          rewrite (sameStatic_ids g (graph st) Hstatic).
          apply Pnodes. exact Hks. }
        unfold doneInvariant. rewrite E1, E2, Hv.
        split; [exists v; apply in_or_app; right; rewrite Ees;
                apply in_or_app; right; left; reflexivity|].
        split.
        + intros H. apply in_app_or in H. destruct H as [H|H]; [tauto|].
          rewrite Ees in H. apply in_app_or in H.
          destruct H as [H|[H|[]]]; [|discriminate].
          exact (Hfail H).
        + rewrite (expectedArtifact_stable now g (graph st) g' k
                     (Hgath k Hks ltac:(lia))). exact Hexp. }
    set (finished := setLaunch (launches st) k (Finished r)) in *.
    assert (Hndf : NoDup (map fst finished)).
    { unfold finished. rewrite setLaunch_keys. exact Hnd. }
    assert (Hfin : forall k' l' st', In (k', l') finished ->
              trace st' = trace st ++ es -> graph st' = g' ->
              launchInvariant now g st' k' l').
    { intros k' l' st' Hin E1 E2. unfold finished in Hin.
      apply In_setLaunch in Hin; [|exact Hnd].
      destruct Hin as [[-> ->]|[Hne Hin]]; [apply Hself; auto|].
      eapply Hothers; eauto. }
    assert (Hrej' : forall e, promise st = RejectedWith e ->
              exists k0, In (k0, Finished (Some e)) finished).
    { intros e Hp. destruct (Hrej e Hp) as [k0 Hk0]. exists k0.
      apply In_setLaunch_other; [|exact Hk0].
      intros ->. apply (In_launchOf _ _ _ Hnd) in Hk0.
      rewrite Hk in Hk0. inversion Hk0; subst. discriminate. }
    split; [|reflexivity].
    constructor; simpl.
    + exact Hplan.
    + exact Hlevels.
    + exact Sg0.
    + destruct nextTask; rewrite ?setLaunch_keys; unfold finished;
        rewrite setLaunch_keys; exact Hkeys.
    + exact Hlevel.
    + exact Hlater.
    + exact Hperm.
    + intros k' l' Hin. destruct nextTask as [w|].
      * destruct Hnext as [Hw Hwk].
        apply In_setLaunch in Hin; [|exact Hndf].
        destruct Hin as [[-> ->]|[Hne Hin]].
        -- simpl. intros e He Hek. apply in_app_or in He.
           destruct He as [He|He].
           ++ exact (Hlaunch w Parked Hw e He Hek).
           ++ rewrite (Hev e He) in Hek. congruence.
        -- eapply Hfin; eauto.
      * eapply Hfin; eauto.
    + exact Htl'.
    + exact Hto'.
    + apply Hbelow'; reflexivity.
    + exact Hargs'.
    + intros Hp. exfalso. auto.
    + intros e Hp. destruct (Hrej' e Hp) as [k0 Hk0]. exists k0.
      destruct nextTask as [w|]; [|exact Hk0].
      destruct Hnext as [Hw Hwk].
      apply In_setLaunch_other; [|exact Hk0].
      intros ->.
      assert (Hw' : In (w, Parked) finished).
      { apply In_setLaunch_other; auto. }
      apply (In_launchOf _ _ _ Hndf) in Hw'.
      apply (In_launchOf _ _ _ Hndf) in Hk0. congruence.
Qed.

End Resuming.

(** ** One move of the environment *)

Lemma taskIdsAgree_update (g : Graph) (k : string)
  (f : GraphNode -> GraphNode) :
  (forall n, id (task (f n)) = id (task n) /\ nodeId (f n) = nodeId n) ->
  taskIdsAgree g -> taskIdsAgree (update g k f).
Proof.
  intros Hf. unfold taskIdsAgree.
  induction g as [|m g IH]; intros Ha n Hn; simpl in *; [contradiction|].
  destruct (String.eqb (nodeId m) k).
  - destruct Hn as [<-|Hn]; [|apply Ha; auto].
    destruct (Hf m) as [E1 E2]. rewrite E1, E2. apply Ha. auto.
  - destruct Hn as [<-|Hn]; [apply Ha; auto|].
    apply IH; [intros n' Hn'; apply Ha; auto|exact Hn].
Qed.

Lemma linkDependency_taskIds (taskId depId : string) (g g' : Graph) :
  taskIdsAgree g -> linkDependency taskId g depId = inl g' ->
  taskIdsAgree g'.
Proof.
  unfold linkDependency. destruct (get g depId); [|discriminate].
  intros Ha H; inversion H; subst.
  apply taskIdsAgree_update; [intros n; split; reflexivity|].
  apply taskIdsAgree_update; [intros n; split; reflexivity|exact Ha].
Qed.

Lemma linkAll_taskIds (taskId : string) (deps : list string) :
  forall g g', taskIdsAgree g ->
  forEachM (linkDependency taskId) deps g = inl g' -> taskIdsAgree g'.
Proof.
  induction deps as [|d deps IH]; intros g g' Ha; simpl.
  - intros H; inversion H; subst; exact Ha.
  - destruct (linkDependency taskId g d) as [g1|e] eqn:E; [|discriminate].
    apply IH. eapply linkDependency_taskIds; eauto.
Qed.

Lemma addTask_taskIds (g g' : Graph) (t : Task) :
  taskIdsAgree g -> addTask g t = inl g' -> taskIdsAgree g'.
Proof.
  intros Ha. unfold addTask.
  assert (Ha' : taskIdsAgree
                  match get g (id t) with
                  | Some _ => g
                  | None => g ++ [newGraphNode t]
                  end).
  { destruct (get g (id t)); [exact Ha|].
    intros n Hn. apply in_app_or in Hn.
    destruct Hn as [Hn|[<-|[]]]; [apply Ha; exact Hn|reflexivity]. }
  destruct (dependencies t) as [deps|].
  - apply linkAll_taskIds. exact Ha'.
  - intros H; inversion H; subst. exact Ha'.
Qed.

Lemma buildGraph_taskIds (tasks : list Task) (g : Graph) :
  buildGraph tasks = inl g -> taskIdsAgree g.
Proof.
  unfold buildGraph.
  assert (H0 : taskIdsAgree emptyGraph) by (intros n []).
  revert H0. generalize emptyGraph as g0. revert g.
  induction tasks as [|t tasks IH]; intros g g0 Ha; simpl.
  - intros H; inversion H; subst; exact Ha.
  - destruct (addTask g0 t) as [g1|e] eqn:E; [|discriminate].
    apply IH. eapply addTask_taskIds; eauto.
Qed.

(** What [Sequence.build] hands to the driver is a plan. *)
Lemma build_planned (tasks : list Task) (g0 g : Graph)
  (sorted : list string) :
  buildGraph tasks = inl g0 ->
  topologicalSortWithPriority g0 = inl (g, sorted) ->
  planned g sorted /\ sameStatic g0 g /\ linked g0 /\
  Permutation sorted (nodeIds g0).
Proof.
  intros Hb Hs.
  pose proof (buildGraph_linked _ _ Hb) as Hl.
  pose proof (buildGraph_taskIds _ _ Hb) as Hi.
  pose proof (topologicalSort_static _ _ _ Hs) as St.
  destruct (topologicalSort_sound _ _ _ Hl Hs) as (Hp & Hnd & Hto & He).
  pose proof (sameStatic_ids _ _ St) as Eids.
  destruct Hl as (Gnd & Gdeg & Gcnt & Gdeps & Gdpts).
  split; [|split; [exact St|split; [unfold linked; auto|exact Hp]]].
  constructor.
  - exact Hnd.
  - rewrite Eids. split; [exact Gnd|].
    intros k Hk. eapply Permutation_in; eauto.
  - intros l1 x l2 E d Hd.
    rewrite (sameStatic_dependencies g0 g x St) in Hd. eapply Hto; eauto.
  - intros k d Hk Hd. rewrite (sameStatic_dependencies g0 g k St) in Hd.
    eapply Permutation_in; [apply Permutation_sym; exact Hp|].
    eapply Gdeps. exact Hd.
  - eapply sameStatic_taskIds; eauto.
Qed.

Section Stepping.

Variable now : string -> Clock.
Variable g : Graph.
Variable sorted : list string.
Variable K : Z.
Hypothesis Hplanned : planned g sorted.

Lemma resumeLaunch_core (st : Driver) (k : string) :
  coreInvariant now g sorted K st -> In k (resumableOf (launches st)) ->
  coreInvariant now g sorted K (resumeLaunch now k st) /\
  promise (resumeLaunch now k st) = promise st.
Proof.
  intros Hc Hin.
  pose proof Hc as [Hplan Hlevels Hstatic Hkeys Hlevel Hlater Hpermits
                    Hlaunch Htl Hto Hbelow Hargs Hful Hrej].
  pose proof Hplanned as [Pnd [Pgnd Pnodes] Porder Pclosed Pids].
  assert (Hnd : NoDup (map fst (launches st))).
  { rewrite Hkeys. apply nodesAtLevel_NoDup. exact Pnd. }
  destruct (resumableOf_In _ _ Hin) as (l & Hl & Hres).
  pose proof (In_launchOf _ _ _ Hnd Hl) as Hk.
  pose proof (Hlaunch _ _ Hl) as Hinv.
  unfold resumeLaunch. rewrite Hk.
  destruct l as [| |s|r]; try discriminate.
  - (* the body starts *)
    assert (Hks : In k sorted).
    { assert (H : In k (map fst (launches st))).
      { apply in_map_iff. exists (k, Granted). auto. }
      rewrite Hkeys in H. apply nodesAtLevel_In in H. tauto. }
    assert (Hkg : In k (nodeIds (graph st))).
    { rewrite (sameStatic_ids g (graph st) Hstatic). auto. }
    apply get_Some_iff in Hkg. destruct Hkg as [node Hnode].
    rewrite Hnode.
    destruct (get_Some_id _ _ _ Hnode) as [Eid Hnin].
    assert (Htid : id (task node) = nodeId node).
    { apply (sameStatic_taskIds g (graph st) Hstatic Pids). exact Hnin. }
    pose proof (launchBody_launchOk now (graph st) node Htid) as Hok.
    rewrite Eid in Hok.
    assert (Epol : onError (task node) = policyOf g k).
    { rewrite <- (sameStatic_policy g (graph st) k Hstatic).
      unfold policyOf. rewrite Hnode. reflexivity. }
    assert (Eargs : map (artifactOf (graph st)) (nodeDependencies node)
                    = gatheredArgs (graph st) k).
    { unfold gatheredArgs, dependenciesOf. rewrite Hnode. reflexivity. }
    rewrite Epol, Eargs in Hok. simpl in Hinv.
    assert (Eexp : valueOf (scriptResult
                      (executeTaskWithRetries (now k) (task node)
                         (gatheredArgs (graph st) k)))
                   = expectedArtifact now g (graph st) k).
    { unfold expectedArtifact.
      pose proof (sameStatic_get g (graph st) Hstatic k) as Est.
      rewrite Hnode in Est. destruct (get g k) as [n0|]; [|discriminate].
      simpl in Est. injection Est as Est. unfold staticOf in Est.
      rewrite (executeTaskWithRetries_descriptor (now k) n0.(task)
                 node.(task)); congruence. }
    rewrite Eexp in Hok.
    eapply continueLaunch_core; [exact Hplanned|exact Hc|exact Hk|reflexivity
                                |exact Hok| |].
    + intros H. exact (Hinv _ H eq_refl).
    + intros v H. exact (Hinv _ H eq_refl).
  - (* the runner goes on *)
    simpl in Hinv. destruct Hinv as (H1 & H2 & H3).
    eapply continueLaunch_core; eauto.
Qed.

(** Looking at [Promise.all] after a resumption restores the invariant. *)
Lemma awaitAll_invariant (st : Driver) :
  coreInvariant now g sorted K st -> driverInvariant now g sorted K (awaitAll st).
Proof.
  intros Hc.
  pose proof Hc as [Hplan Hlevels Hstatic Hkeys Hlevel Hlater Hpermits
                    Hlaunch Htl Hto Hbelow Hargs Hful Hrej].
  unfold awaitAll. destruct (promise st) as [| |e0] eqn:Ep.
  - destruct (firstRejection (launches st)) as [e|] eqn:Ef.
    + (* the first rejection *)
      constructor; simpl; [|discriminate|eauto].
      constructor; simpl; auto; [discriminate|].
      intros e' H. inversion H; subst. apply firstRejection_Some. exact Ef.
    + destruct (forallb _ (launches st)) eqn:Eall.
      * (* the level is over *)
        destruct Hlater as (n & Elater & Htop).
        destruct (laterLevels st) as [|l rest] eqn:El.
        -- simpl. constructor; simpl; [|discriminate|].
           ++ constructor; simpl; auto; [|discriminate].
              exists n. auto.
           ++ intros k e Hin.
              pose proof (allFulfilled_In _ _ _ Eall Hin). discriminate.
        -- rewrite <- El. apply (enterLevels_invariant now g sorted K Hplanned
                                   _ (level st + 1)); [rewrite El; discriminate|].
           destruct (allFulfilled_no_resumable _ Eall) as [Er Epk].
           destruct Hpermits as (P1 & P2 & P3 & P4).
           rewrite Er in P2. rewrite Epk in P4. simpl in P2.
           assert (Elen : List.length (laterLevels st) = n).
           { rewrite El, Elater, length_map, length_seq. reflexivity. }
           constructor; simpl.
           ++ exact Hplan.
           ++ exact Hlevels.
           ++ exact Hstatic.
           ++ lia.
           ++ rewrite Elen, El, Elater. rewrite Z2Nat.inj_add by lia.
              rewrite Nat.add_1_r. reflexivity.
           ++ intros Hs. rewrite Elen. specialize (Htop Hs). lia.
           ++ destruct (semaphore st) as [ts c]; simpl in *.
              subst ts. f_equal. lia.
           ++ intros e He. destruct (Htl e He). split; [assumption|lia].
           ++ exact Hto.
           ++ intros k Hk Hlt.
              destruct (Z.eq_dec (levelAt (assignLevels g sorted) k)
                                 (level st)) as [E|E];
                [|apply Hbelow; [exact Hk|lia]].
              assert (Hin : In k (map fst (launches st))).
              { rewrite Hkeys. apply nodesAtLevel_In. split; [exact Hk|].
                destruct (plan_levels g sorted Hplanned) as (Hlev & _).
                destruct (Hlev k Hk) as (z & Ez & _).
                rewrite (levelAt_Some _ _ _ Ez) in E. congruence. }
              apply in_map_iff in Hin. destruct Hin as ([k' l'] & Ek & Hin).
              simpl in Ek. subst k'.
              pose proof (allFulfilled_In _ _ _ Eall Hin). subst l'.
              pose proof (Hlaunch _ _ Hin) as Hdone. simpl in Hdone.
              eapply doneInvariant_frame with (es := []);
                [exact Hdone|simpl; rewrite app_nil_r; reflexivity
                |intros e []|reflexivity|reflexivity].
           ++ exact Hargs.
      * (* the level goes on *)
        constructor; [exact Hc|auto|].
        intros k e Hin. exfalso.
        exact (firstRejection_None _ k e Ef Hin).
  - constructor; [exact Hc|rewrite Ep; discriminate|].
    intros k e Hin. destruct (Hful eq_refl) as [_ Hall].
    pose proof (allFulfilled_In _ _ _ Hall Hin). discriminate.
  - constructor; [exact Hc|rewrite Ep; discriminate|eauto].
Qed.

Lemma step_invariant (choice : nat) (st : Driver) :
  driverInvariant now g sorted K st ->
  driverInvariant now g sorted K (step now choice st).
Proof.
  intros Hd. unfold step.
  destruct (resumable st) as [|k ks] eqn:Er; [exact Hd|].
  apply awaitAll_invariant. apply resumeLaunch_core; [apply Hd|].
  change (resumableOf (launches st)) with (resumable st). rewrite Er.
  apply nth_In. apply Nat.mod_upper_bound. discriminate.
Qed.

Lemma runSchedule_invariant (schedule : list nat) :
  forall st, driverInvariant now g sorted K st ->
  driverInvariant now g sorted K (runSchedule now schedule st).
Proof.
  induction schedule as [|c schedule IH]; intros st Hd; [exact Hd|].
  simpl. apply IH. apply step_invariant. exact Hd.
Qed.

(** The driver starts in a state that satisfies the invariant. *)
Lemma startDriver_invariant :
  driverInvariant now g sorted K (startDriver g sorted K).
Proof.
  unfold startDriver.
  destruct (levelRange_spec g sorted Hplanned) as [Erange Elen].
  destruct (plan_levels g sorted Hplanned) as (_ & _ & _ & Hnil).
  destruct sorted as [|k0 sorted'] eqn:Es.
  - rewrite (Hnil eq_refl). simpl.
    constructor; simpl; [|discriminate|intros k e []].
    constructor; simpl.
    + reflexivity.
    + rewrite (Hnil eq_refl). reflexivity.
    + apply sameStatic_refl.
    + reflexivity.
    + lia.
    + exists 0%nat. split; [reflexivity|congruence].
    + unfold permitsInvariant; simpl.
      split; [auto|]. split; [lia|]. split; [congruence|reflexivity].
    + intros k l [].
    + intros e [].
    + intros e1 e2 (l1 & l2 & E & _). destruct l1; discriminate.
    + intros k [].
    + intros c a args [].
    + auto.
    + discriminate.
  - rewrite <- Es in *.
    assert (Hne : sorted <> []) by (rewrite Es; discriminate).
    specialize (Elen Hne).
    apply (enterLevels_invariant now g sorted K Hplanned _ 0).
    + intros E. rewrite E in Elen. simpl in Elen.
      destruct (plan_levels g sorted Hplanned) as (_ & _ & Htop & _).
      destruct (Htop Hne). lia.
    + constructor; simpl.
      * reflexivity.
      * reflexivity.
      * apply sameStatic_refl.
      * lia.
      * exact Erange.
      * intros _. lia.
      * reflexivity.
      * intros e [].
      * intros e1 e2 (l1 & l2 & E & _). destruct l1; discriminate.
      * intros k Hk Hlt. exfalso.
        destruct (plan_levels g sorted Hplanned) as (Hlev & _).
        destruct (Hlev k Hk) as (z & Ez & Hz & _).
        rewrite (levelAt_Some _ _ _ Ez) in Hlt. lia.
      * intros c a args [].
Qed.

(** Every state of a run of the driver satisfies the invariant. *)
Lemma driver_invariant (schedule : list nat) :
  driverInvariant now g sorted K
    (executeTasksWithConcurrencyLimit now g sorted K schedule).
Proof.
  unfold executeTasksWithConcurrencyLimit.
  apply runSchedule_invariant, startDriver_invariant.
Qed.

End Stepping.

(** ** The run settles *)

Lemma sumOf_app {A : Type} (f : A -> nat) (l1 l2 : list A) :
  sumOf f (l1 ++ l2) = (sumOf f l1 + sumOf f l2)%nat.
Proof.
  induction l1 as [|x l1 IH]; simpl; [reflexivity|]. rewrite IH. lia.
Qed.

Lemma runSync_awaits (s : Script) :
  forall g tr g' tr' rest,
  runSync s g tr = (g', tr', AtAwait rest) ->
  scriptAwaits s = S (scriptAwaits rest).
Proof.
  induction s as [v|e|s IH|e s IH]; intros g tr g' tr' rest H; simpl in H.
  - discriminate.
  - discriminate.
  - inversion H; subst. reflexivity.
  - simpl. eapply IH. exact H.
Qed.

Lemma setLaunch_remaining (g : Graph) (ls : list (string * Launch))
  (k : string) (old new : Launch) :
  launchOf ls k = Some old ->
  (sumOf (launchRemaining g) (setLaunch ls k new)
   + launchRemaining g (k, old)
   = sumOf (launchRemaining g) ls + launchRemaining g (k, new))%nat.
Proof.
  intros Hk. destruct (launchOf_split _ _ _ Hk) as (l1 & l2 & -> & _ & Hset).
  rewrite Hset, !sumOf_app. simpl. lia.
Qed.

Lemma startLaunches_remaining (g : Graph) (nodes : list string) :
  forall s s' ls, startLaunches nodes s = (s', ls) ->
  sumOf (launchRemaining g) ls = sumOf (launchCost g) nodes.
Proof.
  induction nodes as [|node nodes IH]; intros s s' ls H; simpl in H.
  - inversion H; subst. reflexivity.
  - destruct (acquire s node) as [s1 granted].
    destruct (startLaunches nodes s1) as [s2 ls2] eqn:E.
    inversion H; subst. simpl. rewrite (IH _ _ _ E).
    destruct granted; reflexivity.
Qed.

Lemma enterLevels_remaining (g : Graph) (ls : list Z) :
  forall st, sumOf (launchRemaining g) (launches st) = 0%nat ->
  driverRemaining g (enterLevels ls st)
  = sumOf (fun l => sumOf (launchCost g)
                      (nodesAtLevel (plan st) (nodeLevels st) l)) ls.
Proof.
  induction ls as [|l rest IH]; intros st H0.
  - unfold driverRemaining. simpl. lia.
  - cbn [enterLevels].
    destruct (startLaunches _ (semaphore st)) as [s' started] eqn:Es.
    pose proof (startLaunches_remaining g _ _ _ _ Es) as Hsum.
    destruct started as [|x xs] eqn:Est.
    + rewrite IH by reflexivity. simpl. simpl in Hsum. lia.
    + rewrite <- Est in *. unfold driverRemaining. simpl. lia.
Qed.

Lemma allFulfilled_remaining (g : Graph) (ls : list (string * Launch)) :
  forallb (fun kl => isFulfilled (snd kl)) ls = true ->
  sumOf (launchRemaining g) ls = 0%nat.
Proof.
  induction ls as [|[k l] ls IH]; simpl; [reflexivity|].
  intros H. apply andb_true_iff in H. destruct H as [H1 H2].
  rewrite (IH H2). destruct l as [| |s|[e|]]; try discriminate. reflexivity.
Qed.

Lemma awaitAll_remaining (g : Graph) (st : Driver) :
  driverRemaining g (awaitAll st) = driverRemaining g st.
Proof.
  unfold awaitAll. destruct (promise st); try reflexivity.
  destruct (firstRejection (launches st)); [reflexivity|].
  destruct (forallb _ (launches st)) eqn:E; [|reflexivity].
  rewrite enterLevels_remaining by (apply allFulfilled_remaining; exact E).
  unfold driverRemaining. rewrite (allFulfilled_remaining g _ E). reflexivity.
Qed.

Lemma continueLaunch_remaining (g : Graph) (K : Z) (st : Driver)
  (k : string) (old : Launch) (s : Script) :
  NoDup (map fst (launches st)) ->
  permitsInvariant K (semaphore st) (launches st) ->
  launchOf (launches st) k = Some old -> isResumable old = true ->
  (S (scriptAwaits s) <= launchRemaining g (k, old))%nat ->
  (driverRemaining g (continueLaunch k s st) < driverRemaining g st)%nat.
Proof.
  intros Hnd Hperm Hk Hres Hcost. unfold continueLaunch, driverRemaining.
  destruct (runSync s (graph st) (trace st)) as [[g' tr'] stop] eqn:Er.
  destruct stop as [rest|r]; simpl.
  - pose proof (runSync_awaits _ _ _ _ _ _ Er) as Ha.
    pose proof (setLaunch_remaining g _ k old (Active rest) Hk) as Hs.
    change (launchRemaining g (k, Active rest))
      with (S (scriptAwaits rest)) in Hs. lia.
  - destruct (permits_end _ (semaphore st) (launches st) k old r
                Hperm Hnd Hk Hres) as [_ Hnext].
    destruct (release (semaphore st)) as [sem' nextTask]. simpl in *.
    pose proof (setLaunch_remaining g _ k old (Finished r) Hk) as Hs.
    change (launchRemaining g (k, Finished r)) with 0%nat in Hs.
    destruct nextTask as [w|]; [|lia].
    destruct Hnext as [Hw Hwk].
    assert (Hw' : launchOf (setLaunch (launches st) k (Finished r)) w
                  = Some Parked).
    { apply In_launchOf; [rewrite setLaunch_keys; exact Hnd|].
      apply In_setLaunch_other; auto. }
    pose proof (setLaunch_remaining g _ w Parked Granted Hw') as Hs'.
    change (launchRemaining g (w, Parked)) with (launchCost g w) in Hs'.
    change (launchRemaining g (w, Granted)) with (launchCost g w) in Hs'.
    lia.
Qed.

Section Settling.

Variable now : string -> Clock.
Variable g : Graph.
Variable sorted : list string.
Variable K : Z.
Hypothesis Hplanned : planned g sorted.
Hypothesis HK : 1 <= K.

Lemma invariant_NoDup (st : Driver) :
  coreInvariant now g sorted K st -> NoDup (map fst (launches st)).
Proof.
  intros Hc. rewrite (inv_keys _ _ _ _ _ Hc).
  apply nodesAtLevel_NoDup. apply Hplanned.
Qed.

Lemma resumeLaunch_remaining (st : Driver) (k : string) :
  coreInvariant now g sorted K st -> In k (resumableOf (launches st)) ->
  (driverRemaining g (resumeLaunch now k st) < driverRemaining g st)%nat.
Proof.
  intros Hc Hin.
  pose proof (invariant_NoDup st Hc) as Hnd.
  destruct (resumableOf_In _ _ Hin) as (l & Hl & Hres).
  pose proof (In_launchOf _ _ _ Hnd Hl) as Hk.
  pose proof (inv_permits _ _ _ _ _ Hc) as Hperm.
  unfold resumeLaunch. rewrite Hk.
  destruct l as [| |s|r]; try discriminate.
  - assert (Hkg : In k (nodeIds (graph st))).
    { rewrite (sameStatic_ids g (graph st) (inv_static _ _ _ _ _ Hc)).
      apply Hplanned.
      assert (H : In k (map fst (launches st))).
      { apply in_map_iff. exists (k, Granted). auto. }
      rewrite (inv_keys _ _ _ _ _ Hc) in H. apply nodesAtLevel_In in H. tauto. }
    apply get_Some_iff in Hkg. destruct Hkg as [node Hnode]. rewrite Hnode.
    eapply continueLaunch_remaining; eauto.
    unfold launchRemaining. simpl.
    rewrite <- (sameStatic_cost g (graph st) k (inv_static _ _ _ _ _ Hc)).
    unfold launchCost. rewrite Hnode.
    pose proof (launchBody_awaits now (graph st) node). lia.
  - eapply continueLaunch_remaining; eauto.
Qed.

(** A move of the environment uses up some of what is left to do. *)
Lemma step_remaining (choice : nat) (st : Driver) :
  driverInvariant now g sorted K st -> resumable st <> [] ->
  (driverRemaining g (step now choice st) < driverRemaining g st)%nat.
Proof.
  intros Hd Hne. unfold step.
  destruct (resumable st) as [|k ks] eqn:Er; [congruence|].
  rewrite awaitAll_remaining. apply resumeLaunch_remaining; [apply Hd|].
  change (resumableOf (launches st)) with (resumable st). rewrite Er.
  apply nth_In. apply Nat.mod_upper_bound. discriminate.
Qed.

(** While the driver is pending, some launch can go on: the semaphore
    never leaves every launch parked. *)
Lemma pending_resumable (st : Driver) :
  driverInvariant now g sorted K st -> promise st = Pending ->
  resumable st <> [].
Proof.
  intros [Hc Hpend _] Hp. destruct (Hpend Hp) as [Hrej Hall].
  destruct (inv_permits _ _ _ _ _ Hc) as (P1 & P2 & P3 & P4).
  change (resumable st) with (resumableOf (launches st)).
  intros Er. rewrite Er in P2. simpl in P2.
  assert (Hpk : parked (launches st) <> []).
  { clear - Hrej Hall Er. induction (launches st) as [|[k l] ls IH];
      simpl in *; [discriminate|].
    rewrite resumableOf_cons in Er. rewrite parked_cons.
    destruct l as [| |s|[e|]]; simpl in *; try discriminate.
    apply IH; auto. }
  rewrite <- P4 in Hpk. specialize (P3 Hpk). lia.
Qed.

Lemma step_settled (choice : nat) (st : Driver) :
  driverInvariant now g sorted K st -> promise st <> Pending ->
  promise (step now choice st) = promise st.
Proof.
  intros Hd Hp. unfold step.
  destruct (resumable st) as [|k ks] eqn:Er; [reflexivity|].
  destruct (resumeLaunch_core now g sorted K Hplanned st
              (nth (choice mod List.length (k :: ks)) (k :: ks) k))
    as [_ E].
  { apply Hd. }
  { change (resumableOf (launches st)) with (resumable st). rewrite Er.
    apply nth_In. apply Nat.mod_upper_bound. discriminate. }
  unfold awaitAll. rewrite E.
  destruct (promise st); [congruence|exact E|exact E].
Qed.

Lemma runSchedule_settled (schedule : list nat) :
  forall st, driverInvariant now g sorted K st -> promise st <> Pending ->
  promise (runSchedule now schedule st) = promise st.
Proof.
  induction schedule as [|c schedule IH]; intros st Hd Hp; [reflexivity|].
  simpl. rewrite IH.
  - apply step_settled; assumption.
  - apply step_invariant; assumption.
  - rewrite step_settled by assumption. exact Hp.
Qed.

(** A schedule at least as long as what is left to do settles the
    driver. *)
Lemma runSchedule_settles (schedule : list nat) :
  forall st, driverInvariant now g sorted K st ->
  (driverRemaining g st <= List.length schedule)%nat ->
  promise (runSchedule now schedule st) <> Pending.
Proof.
  induction schedule as [|c schedule IH]; intros st Hd Hlen.
  - simpl. intros Hp.
    pose proof (pending_resumable st Hd Hp) as Hne.
    pose proof (step_remaining 0 st Hd Hne). simpl in Hlen. lia.
  - simpl. destruct (promise st) eqn:Ep.
    + apply IH; [apply step_invariant; assumption|].
      pose proof (pending_resumable st Hd Ep) as Hne.
      pose proof (step_remaining c st Hd Hne). simpl in Hlen. lia.
    + rewrite runSchedule_settled;
        [|apply step_invariant; assumption|];
        rewrite step_settled by (try assumption; congruence); congruence.
    + rewrite runSchedule_settled;
        [|apply step_invariant; assumption|];
        rewrite step_settled by (try assumption; congruence); congruence.
Qed.

Lemma startDriver_remaining :
  driverRemaining g (startDriver g sorted K) = driverBudget g sorted.
Proof.
  unfold startDriver. rewrite enterLevels_remaining by reflexivity.
  reflexivity.
Qed.

(** With at least one permit, a schedule of [driverBudget] moves settles
    [executeTasksWithConcurrencyLimit]. *)
Lemma driver_settles (schedule : list nat) :
  (driverBudget g sorted <= List.length schedule)%nat ->
  promise (executeTasksWithConcurrencyLimit now g sorted K schedule)
  <> Pending.
Proof.
  intros Hlen. unfold executeTasksWithConcurrencyLimit.
  apply runSchedule_settles.
  - apply startDriver_invariant. exact Hplanned.
  - rewrite startDriver_remaining. exact Hlen.
Qed.

End Settling.

(** ** [Sequence.build] and the driver *)

Lemma build_driver (now : string -> Clock) (config : SequenceConfig)
  (tasks : list Task) (schedule : list nat) (d : Driver) :
  driver (build now config tasks schedule) = Some d ->
  exists g0,
    buildGraph tasks = inl g0 /\
    topologicalSortWithPriority g0
    = inl (plannedGraph tasks, plannedOrder tasks) /\
    d = executeTasksWithConcurrencyLimit now (plannedGraph tasks)
          (plannedOrder tasks) (concurrencyOf config) schedule.
Proof.
  unfold build, plannedGraph, plannedOrder, concurrencyOf.
  destruct (buildGraph tasks) as [g0|e]; [|discriminate].
  destruct (topologicalSortWithPriority g0) as [[g sorted]|e] eqn:Es;
    [|discriminate].
  intros H. exists g0. split; [reflexivity|]. split; [exact Es|].
  destruct (promise _); simpl in H; congruence.
Qed.

(** Every state [Sequence.build] can leave the driver in satisfies the
    invariant of the driver. *)
Lemma build_invariant (now : string -> Clock) (config : SequenceConfig)
  (tasks : list Task) (schedule : list nat) (d : Driver) :
  driver (build now config tasks schedule) = Some d ->
  planned (plannedGraph tasks) (plannedOrder tasks) /\
  Permutation (plannedOrder tasks) (nodeIds (plannedGraph tasks)) /\
  d = executeTasksWithConcurrencyLimit now (plannedGraph tasks)
        (plannedOrder tasks) (concurrencyOf config) schedule /\
  driverInvariant now (plannedGraph tasks) (plannedOrder tasks)
    (concurrencyOf config) d.
Proof.
  intros H. destruct (build_driver _ _ _ _ _ H) as (g0 & Hb & Hs & ->).
  destruct (build_planned _ _ _ _ Hb Hs) as (Hp & St & Hl & Hperm).
  split; [exact Hp|]. split.
  - rewrite (sameStatic_ids _ _ St). exact Hperm.
  - split; [reflexivity|]. apply driver_invariant. exact Hp.
Qed.

(** The outcome of [build] once the plan is made: it never rejects. *)
Lemma build_outcome (now : string -> Clock) (config : SequenceConfig)
  (tasks : list Task) (schedule : list nat) (d : Driver) :
  driver (build now config tasks schedule) = Some d ->
  match promise d with
  | Pending =>
      buildPromise (build now config tasks schedule) = Pending
  | Fulfilled =>
      buildPromise (build now config tasks schedule) = Fulfilled /\
      mainSpan (build now config tasks schedule) = Some SpanOk
  | RejectedWith e =>
      buildPromise (build now config tasks schedule) = Fulfilled /\
      mainSpan (build now config tasks schedule)
      = Some (SpanError (errorMessage e))
  end.
Proof.
  unfold build.
  destruct (buildGraph tasks) as [g0|e]; [|discriminate].
  destruct (topologicalSortWithPriority g0) as [[g sorted]|e]; [|discriminate].
  destruct (promise (executeTasksWithConcurrencyLimit _ _ _ _ _)) eqn:Ep;
    simpl; intros H; inversion H; subst d; rewrite Ep; auto.
Qed.

(** A build that fails before the driver starts fails with one of the two
    errors of the builder and the planner. *)
Lemma forEachM_addTask_error (tasks : list Task) :
  forall g e, forEachM addTask tasks g = inr e ->
  exists dep k, e = DependencyNotFound dep k.
Proof.
  induction tasks as [|t tasks IH]; intros g e; simpl; [discriminate|].
  destruct (addTask g t) as [g1|e1] eqn:E; [apply IH|].
  intros H; inversion H; subst e1; clear H.
  unfold addTask in E. destruct (dependencies t) as [deps|]; [|discriminate].
  revert E. generalize (match get g (id t) with
                        | Some _ => g
                        | None => g ++ [newGraphNode t]
                        end).
  induction deps as [|x deps IHd]; intros g2; simpl; [discriminate|].
  destruct (linkDependency (id t) g2 x) as [g3|e3] eqn:El; [apply IHd|].
  intros H; inversion H; subst.
  apply linkDependency_error in El. destruct El as [-> _]. eauto.
Qed.

Lemma build_rejection (now : string -> Clock) (config : SequenceConfig)
  (tasks : list Task) (schedule : list nat) (e : Error) :
  buildPromise (build now config tasks schedule) = RejectedWith e ->
  driver (build now config tasks schedule) = None /\
  ((exists dep k, e = DependencyNotFound dep k) \/ e = GraphHasCycle).
Proof.
  unfold build.
  destruct (buildGraph tasks) as [g0|e0] eqn:Eb.
  - destruct (topologicalSortWithPriority g0) as [[g sorted]|e1] eqn:Es.
    + destruct (promise _); simpl; discriminate.
    + simpl. intros H; inversion H; subst.
      split; [reflexivity|]. right. eapply topologicalSort_error; eauto.
  - simpl. intros H; inversion H; subst. split; [reflexivity|]. left.
    eapply forEachM_addTask_error. exact Eb.
Qed.

(** When the driver is fulfilled every node of the plan is done. *)
Lemma fulfilled_all_done (now : string -> Clock) (g : Graph)
  (sorted : list string) (K : Z) (st : Driver) :
  planned g sorted -> driverInvariant now g sorted K st ->
  promise st = Fulfilled ->
  forall k, In k sorted -> doneInvariant now g st k.
Proof.
  intros Hp [Hc _ _] Hf k Hk.
  destruct (inv_fulfilled _ _ _ _ _ Hc Hf) as [Hlater Hall].
  destruct (inv_later _ _ _ _ _ Hc) as (n & En & Htop).
  rewrite Hlater in En.
  assert (n = 0%nat) by (destruct n; [reflexivity|discriminate]). subst n.
  destruct (plan_levels g sorted Hp) as (Hlev & _).
  destruct (Hlev k Hk) as (z & Ez & Hz & Hle).
  assert (Hne : sorted <> []) by (intros ->; contradiction).
  specialize (Htop Hne).
  destruct (Z.eq_dec z (level st)) as [E|E].
  - assert (Hin : In k (map fst (launches st))).
    { rewrite (inv_keys _ _ _ _ _ Hc). apply nodesAtLevel_In.
      split; [exact Hk|congruence]. }
    apply in_map_iff in Hin. destruct Hin as ([k' l] & Ek & Hin).
    simpl in Ek. subst k'.
    pose proof (allFulfilled_In _ _ _ Hall Hin). subst l.
    exact (inv_launch _ _ _ _ _ Hc _ _ Hin).
  - apply (inv_below _ _ _ _ _ Hc); [exact Hk|].
    rewrite (levelAt_Some _ _ _ Ez). lia.
Qed.

(** A task marked failed under the abort policy has made its closure
    reject, and the driver with it. *)
Lemma abort_rejects (now : string -> Clock) (g : Graph)
  (sorted : list string) (K : Z) (st : Driver) (k : string) :
  planned g sorted -> driverInvariant now g sorted K st ->
  In (SetStatus k Failed) (trace st) -> policyOf g k = Some Abort ->
  In (k, Finished (Some (AbortingExecution k))) (launches st) /\
  levelAt (assignLevels g sorted) k = level st /\
  exists e, promise st = RejectedWith e.
Proof.
  intros Hp [Hc _ Habort] Hf Hpol.
  destruct (inv_trace_level _ _ _ _ _ Hc _ Hf) as [Hks Hle]. simpl in Hks, Hle.
  destruct (plan_levels g sorted Hp) as (Hlev & _).
  destruct (Hlev k Hks) as (z & Ez & Hz & _).
  rewrite (levelAt_Some _ _ _ Ez) in *.
  destruct (Z.eq_dec z (level st)) as [E|E].
  - assert (Hin : In k (map fst (launches st))).
    { rewrite (inv_keys _ _ _ _ _ Hc). apply nodesAtLevel_In.
      split; [exact Hks|congruence]. }
    apply in_map_iff in Hin. destruct Hin as ([k' l] & Ek & Hin).
    simpl in Ek. subst k'.
    pose proof (inv_launch _ _ _ _ _ Hc _ _ Hin) as Hl.
    destruct l as [| |s|[e|]]; simpl in Hl.
    + exfalso. exact (Hl _ Hf eq_refl).
    + exfalso. exact (Hl _ Hf eq_refl).
    + exfalso. tauto.
    + destruct Hl as (-> & _). split; [exact Hin|]. split; [exact E|].
      eapply Habort. exact Hin.
    + exfalso. destruct Hl as (_ & Hl & _). destruct (Hl Hf). contradiction.
  - exfalso.
    assert (Hd : doneInvariant now g st k).
    { apply (inv_below _ _ _ _ _ Hc); [exact Hks|].
      rewrite (levelAt_Some _ _ _ Ez). lia. }
    destruct Hd as (_ & Hd & _). destruct (Hd Hf). contradiction.
Qed.

(** What a rejection of the driver means. *)
Lemma rejection_is_abort (now : string -> Clock) (g : Graph)
  (sorted : list string) (K : Z) (st : Driver) (e : Error) :
  planned g sorted -> driverInvariant now g sorted K st ->
  promise st = RejectedWith e ->
  exists k, e = AbortingExecution k /\ policyOf g k = Some Abort /\
    runnerThrew k (trace st) /\
    In k sorted /\ levelAt (assignLevels g sorted) k = level st.
Proof.
  intros Hp [Hc _ _] Hr.
  destruct (inv_rejected _ _ _ _ _ Hc _ Hr) as [k Hin].
  pose proof (inv_launch _ _ _ _ _ Hc _ _ Hin) as Hl. simpl in Hl.
  destruct Hl as (-> & Hpol & Hf).
  exists k. split; [reflexivity|]. split; [exact Hpol|]. split; [exact Hf|].
  cut (In k sorted /\ levelAt (assignLevels g sorted) k = level st);
    [tauto|].
  assert (Hk : In k (nodesAtLevel sorted (assignLevels g sorted) (level st))).
  { rewrite <- (inv_keys _ _ _ _ _ Hc). apply in_map_iff.
    exists (k, Finished (Some (AbortingExecution k))). auto. }
  apply nodesAtLevel_In in Hk. destruct Hk as [Hk Hl].
  split; [exact Hk|]. apply levelAt_Some. exact Hl.
Qed.

(** ** What [addTask] records of the declarations *)

Lemma linkAll_dependencies (taskId : string) (deps : list string) :
  forall g g', In taskId (nodeIds g) ->
  forEachM (linkDependency taskId) deps g = inl g' ->
  nodeIds g' = nodeIds g /\
  forall k, dependenciesOf g' k
            = if String.eqb k taskId then dependenciesOf g k ++ deps
              else dependenciesOf g k.
Proof.
  induction deps as [|d deps IH]; intros g g' Hin; simpl.
  - intros H; inversion H; subst. split; [reflexivity|].
    intros k. destruct (String.eqb k taskId); [rewrite app_nil_r|]; reflexivity.
  - destruct (linkDependency taskId g d) as [g1|e] eqn:E; [|discriminate].
    intros H.
    destruct (linkDependency_spec _ _ _ _ Hin E) as (_ & Hids & Hdeps & _).
    destruct (IH g1 g') as [Hids' Hdeps']; [rewrite Hids; exact Hin|exact H|].
    split; [congruence|].
    intros k. rewrite Hdeps', Hdeps.
    destruct (String.eqb k taskId); [rewrite <- app_assoc|]; reflexivity.
Qed.

Lemma linkAll_success (taskId : string) (deps : list string) :
  forall g, In taskId (nodeIds g) ->
  (forall d, In d deps -> In d (nodeIds g)) ->
  exists g', forEachM (linkDependency taskId) deps g = inl g'.
Proof.
  induction deps as [|d deps IH]; intros g Hin Hall; simpl.
  - eauto.
  - destruct (linkDependency taskId g d) as [g1|e] eqn:E.
    + destruct (linkDependency_spec _ _ _ _ Hin E) as (_ & Hids & _).
      apply IH; rewrite Hids; [exact Hin|].
      intros d' Hd'. apply Hall. right. exact Hd'.
    + apply linkDependency_error in E. destruct E as [_ E].
      exfalso. apply E. apply Hall. left. reflexivity.
Qed.

Lemma dependenciesOf_new (g : Graph) (t : Task) (k : string) :
  dependenciesOf (g ++ [newGraphNode t]) k = dependenciesOf g k.
Proof.
  unfold dependenciesOf. rewrite get_app.
  destruct (get g k); [reflexivity|]. simpl.
  destruct (String.eqb (id t) k); reflexivity.
Qed.

Lemma addTask_dependencies (g g' : Graph) (t : Task) :
  addTask g t = inl g' ->
  forall k, dependenciesOf g' k
            = dependenciesOf g k
              ++ (if String.eqb (id t) k then orElse (dependencies t) []
                  else []).
Proof.
  unfold addTask. intros H k.
  set (g1 := match get g (id t) with
             | Some _ => g
             | None => g ++ [newGraphNode t]
             end) in H.
  assert (H1 : forall k, dependenciesOf g1 k = dependenciesOf g k).
  { intros k'. unfold g1. destruct (get g (id t)); [reflexivity|].
    apply dependenciesOf_new. }
  assert (Hin : In (id t) (nodeIds g1)).
  { unfold g1. destruct (get g (id t)) eqn:E.
    - apply get_Some_iff. eauto.
    - unfold nodeIds. rewrite map_app. apply in_or_app. right. left.
      reflexivity. }
  destruct (dependencies t) as [deps|]; simpl.
  - destruct (linkAll_dependencies _ _ _ _ Hin H) as [_ Hd].
    rewrite Hd, H1. rewrite (String.eqb_sym (id t) k).
    destruct (String.eqb k (id t)); [reflexivity|].
    rewrite app_nil_r. reflexivity.
  - inversion H; subst. rewrite H1.
    destruct (String.eqb (id t) k); rewrite app_nil_r; reflexivity.
Qed.

Lemma forEachM_addTask_dependencies (tasks : list Task) :
  forall g g', forEachM addTask tasks g = inl g' ->
  forall k, dependenciesOf g' k
            = dependenciesOf g k ++ declaredDependencies tasks k.
Proof.
  induction tasks as [|t tasks IH]; intros g g'; simpl.
  - intros H k; inversion H; subst. rewrite app_nil_r. reflexivity.
  - destruct (addTask g t) as [g1|e] eqn:E; [|discriminate].
    intros H k. rewrite (IH _ _ H), (addTask_dependencies _ _ _ E).
    rewrite <- app_assoc. reflexivity.
Qed.

Lemma buildGraph_dependencies (tasks : list Task) (g : Graph) :
  buildGraph tasks = inl g ->
  forall k, dependenciesOf g k = declaredDependencies tasks k.
Proof.
  intros H k. rewrite (forEachM_addTask_dependencies _ _ _ H). reflexivity.
Qed.

Lemma declaredDependencies_absent (tasks : list Task) (k : string) :
  ~ In k (map id tasks) -> declaredDependencies tasks k = [].
Proof.
  induction tasks as [|t tasks IH]; simpl; intros H; [reflexivity|].
  destruct (String.eqb_spec (id t) k) as [E|E]; [tauto|].
  apply IH. tauto.
Qed.

Lemma declaredDependencies_distinct (tasks : list Task) (t : Task) :
  NoDup (map id tasks) -> In t tasks ->
  declaredDependencies tasks (id t) = orElse (dependencies t) [].
Proof.
  induction tasks as [|t' tasks IH]; simpl; intros Hnd Hin; [contradiction|].
  inversion Hnd as [|? ? Hnot Hnd']; subst.
  destruct Hin as [->|Hin].
  - rewrite String.eqb_refl, (declaredDependencies_absent _ _ Hnot).
    apply app_nil_r.
  - destruct (String.eqb_spec (id t') (id t)) as [E|E].
    + exfalso. apply Hnot. rewrite E. apply in_map. exact Hin.
    + apply IH; assumption.
Qed.

(** ** What [addTask] keeps of the descriptors *)

Lemma taskOf_update (g : Graph) (k k' : string)
  (f : GraphNode -> GraphNode) :
  keepsId f -> (forall n, task (f n) = task n) ->
  taskOf (update g k f) k' = taskOf g k'.
Proof.
  intros Hf Ht. unfold taskOf.
  destruct (String.eqb_spec k k') as [->|E].
  - rewrite get_update_same by exact Hf.
    destruct (get g k'); simpl; [rewrite Ht|]; reflexivity.
  - rewrite get_update_other by auto. reflexivity.
Qed.

Lemma linkAll_tasks (taskId : string) (deps : list string) :
  forall g g', forEachM (linkDependency taskId) deps g = inl g' ->
  forall k, taskOf g' k = taskOf g k.
Proof.
  induction deps as [|d deps IH]; intros g g'; simpl.
  - intros H k; inversion H; reflexivity.
  - unfold linkDependency at 1. destruct (get g d); [|discriminate].
    intros H k. rewrite (IH _ _ H).
    rewrite !taskOf_update; auto.
Qed.

Lemma addTask_tasks (g g' : Graph) (t : Task) :
  addTask g t = inl g' ->
  forall k, taskOf g' k
            = match taskOf g k with
              | Some t0 => Some t0
              | None => if String.eqb (id t) k then Some t else None
              end.
Proof.
  unfold addTask. intros H k.
  assert (H1 : taskOf (match get g (id t) with
                       | Some _ => g
                       | None => g ++ [newGraphNode t]
                       end) k
               = match taskOf g k with
                 | Some t0 => Some t0
                 | None => if String.eqb (id t) k then Some t else None
                 end).
  { unfold taskOf. destruct (get g (id t)) as [n|] eqn:E.
    - destruct (get g k) eqn:Ek; [reflexivity|].
      destruct (String.eqb_spec (id t) k) as [<-|]; congruence.
    - rewrite get_app. destruct (get g k); [reflexivity|]. simpl.
      destruct (String.eqb (id t) k); reflexivity. }
  destruct (dependencies t) as [deps|].
  - rewrite (linkAll_tasks _ _ _ _ H). exact H1.
  - inversion H; subst. exact H1.
Qed.

Lemma forEachM_addTask_tasks (tasks : list Task) :
  forall g g', forEachM addTask tasks g = inl g' ->
  forall k, taskOf g' k
            = match taskOf g k with
              | Some t0 => Some t0
              | None => firstDescriptor tasks k
              end.
Proof.
  induction tasks as [|t tasks IH]; intros g g'; simpl.
  - intros H k; inversion H; subst. destruct (taskOf g' k); reflexivity.
  - destruct (addTask g t) as [g1|e] eqn:E; [|discriminate].
    intros H k. rewrite (IH _ _ H), (addTask_tasks _ _ _ E).
    destruct (taskOf g k); [reflexivity|].
    destruct (String.eqb (id t) k); reflexivity.
Qed.

(** The node of an id carries the first descriptor with that id. *)
Lemma buildGraph_tasks (tasks : list Task) (g : Graph) :
  buildGraph tasks = inl g ->
  forall k, taskOf g k = firstDescriptor tasks k.
Proof.
  intros H k. rewrite (forEachM_addTask_tasks _ _ _ H). reflexivity.
Qed.

Lemma firstDescriptor_In (tasks : list Task) (k : string) :
  (exists t, firstDescriptor tasks k = Some t) <-> In k (map id tasks).
Proof.
  unfold firstDescriptor. induction tasks as [|t tasks IH]; simpl.
  - split; [intros [t H]; discriminate|contradiction].
  - destruct (String.eqb_spec (id t) k) as [E|E].
    + split; eauto.
    + rewrite IH. tauto.
Qed.

(** One node for each id that occurs in the list. *)
Lemma buildGraph_ids (tasks : list Task) (g : Graph) :
  buildGraph tasks = inl g ->
  NoDup (nodeIds g) /\
  forall k, In k (nodeIds g) <-> In k (map id tasks).
Proof.
  intros H. split; [apply (buildGraph_linked _ _ H)|].
  intros k. rewrite <- firstDescriptor_In, <- get_Some_iff.
  pose proof (buildGraph_tasks _ _ H k) as Ht. unfold taskOf in Ht.
  destruct (get g k) as [n|].
  - split; eauto.
  - rewrite <- Ht. split; intros [x Hx]; discriminate.
Qed.

(** ** Descriptors listed after their parents *)

Lemma addTask_ordered (g : Graph) (t : Task) :
  linked g -> insertedInOrder g -> ~ In (id t) (nodeIds g) ->
  (forall d, In d (orElse (dependencies t) []) -> In d (nodeIds g)) ->
  exists g', addTask g t = inl g' /\ linked g' /\ insertedInOrder g' /\
             nodeIds g' = nodeIds g ++ [id t].
Proof.
  intros Hl Hord Hnew Hdeps.
  assert (Hex : exists g', addTask g t = inl g').
  { unfold addTask. apply get_None_iff in Hnew. rewrite Hnew.
    destruct (dependencies t) as [deps|]; [|eauto].
    apply linkAll_success.
    - unfold nodeIds. rewrite map_app. apply in_or_app. right. left.
      reflexivity.
    - intros d Hd. unfold nodeIds. rewrite map_app. apply in_or_app. left.
      apply Hdeps. exact Hd. }
  destruct Hex as [g' E]. exists g'. split; [exact E|].
  destruct (addTask_linked _ _ _ Hl E) as [Hl' Hids].
  rewrite (proj2 (memberOf_not_In _ _) Hnew) in Hids.
  split; [exact Hl'|]. split; [|exact Hids].
  unfold insertedInOrder, dependencyRespecting. rewrite Hids.
  intros l1 x l2 Hsplit d Hd.
  rewrite (addTask_dependencies _ _ _ E) in Hd.
  destruct (app_snoc_split _ _ _ _ _ Hsplit) as [(-> & -> & ->)|(l2' & -> & Hg)].
  - rewrite String.eqb_refl in Hd. apply in_app_or in Hd.
    destruct Hd as [Hd|Hd]; [|apply Hdeps; exact Hd].
    destruct Hl as (_ & _ & _ & Hin & _). eapply Hin. exact Hd.
  - destruct (String.eqb_spec (id t) x) as [Ex|Ex].
    + exfalso. apply Hnew. rewrite Hg, Ex. apply in_or_app. right. left.
      reflexivity.
    + rewrite app_nil_r in Hd. eapply Hord; [exact Hg|exact Hd].
Qed.

Lemma forEachM_addTask_ordered (tasks : list Task) :
  forall g, linked g -> insertedInOrder g ->
  declaredInOrder (nodeIds g) tasks ->
  exists g', forEachM addTask tasks g = inl g' /\ linked g' /\
             insertedInOrder g' /\ nodeIds g' = nodeIds g ++ map id tasks.
Proof.
  induction tasks as [|t tasks IH]; intros g Hl Hord Hdecl; simpl.
  - exists g. rewrite app_nil_r. auto.
  - destruct Hdecl as (Hnew & Hdeps & Hrest).
    destruct (addTask_ordered g t Hl Hord Hnew Hdeps)
      as (g1 & E & Hl1 & Hord1 & Hids1).
    rewrite E. rewrite <- Hids1 in Hrest.
    destruct (IH g1 Hl1 Hord1 Hrest) as (g' & E' & Hl' & Hord' & Hids').
    exists g'. split; [exact E'|]. split; [exact Hl'|].
    split; [exact Hord'|].
    rewrite Hids', Hids1, <- app_assoc. reflexivity.
Qed.

Lemma buildGraph_ordered (tasks : list Task) :
  declaredInOrder [] tasks ->
  exists g, buildGraph tasks = inl g /\ linked g /\ insertedInOrder g /\
            nodeIds g = map id tasks.
Proof.
  intros H. apply (forEachM_addTask_ordered tasks emptyGraph).
  - apply linked_empty.
  - intros l1 x l2 E. destruct l1; discriminate.
  - exact H.
Qed.

(** On a graph whose nodes come after their dependencies the planner
    consumes every node. *)
Lemma sort_complete (g : Graph) :
  linked g -> insertedInOrder g ->
  exists g' sorted, topologicalSortWithPriority g = inl (g', sorted).
Proof.
  intros Hl Hord. unfold topologicalSortWithPriority.
  set (st := sortLoop (sortMeasure (sortInit g)) (sortInit g)).
  assert (Hq : queue st = []) by (apply sortLoop_finishes; lia).
  pose proof (sortLoop_reaches_invariant g (sortMeasure (sortInit g)) Hl)
    as Hinv.
  fold st in Hinv.
  destruct Hinv as (_ & Hnd & Hincl & Hdeg & Hzero & _).
  rewrite Hq, app_nil_r in *.
  assert (Hall : forall l1 l2, nodeIds g = l1 ++ l2 ->
                 incl l1 (sortedNodes st)).
  { induction l1 as [|x l1 IH] using rev_ind; intros l2 E.
    - intros y [].
    - rewrite <- app_assoc in E. simpl in E.
      pose proof (IH _ E) as Hpre.
      intros y Hy. apply in_app_or in Hy. destruct Hy as [Hy|[<-|[]]].
      + apply Hpre. exact Hy.
      + assert (Hx : In x (nodeIds g)).
        { rewrite E. apply in_or_app. right. left. reflexivity. }
        apply Hzero; [exact Hx|]. rewrite (Hdeg x Hx).
        rewrite all_done_pending_empty; [reflexivity|].
        intros d Hd. apply Hpre. eapply Hord; [exact E|exact Hd]. }
  assert (Hsub : incl (nodeIds g) (sortedNodes st)).
  { apply (Hall (nodeIds g) []). rewrite app_nil_r. reflexivity. }
  assert (Hlen : List.length (sortedNodes st) = List.length g).
  { destruct Hl as (Hndg & _).
    apply Nat.le_antisymm.
    - rewrite <- (length_map nodeId g). apply NoDup_incl_length; assumption.
    - rewrite <- (length_map nodeId g). apply NoDup_incl_length; assumption. }
  rewrite Hlen, Nat.eqb_refl. eauto.
Qed.

(** If some order of the nodes respects the dependencies, the planner
    consumes every node. *)
Lemma sort_complete_general (g : Graph) (l : list string) :
  linked g -> incl (nodeIds g) l -> dependencyRespecting g l ->
  exists g' sorted, topologicalSortWithPriority g = inl (g', sorted).
Proof.
  intros Hl Hincl Hord. unfold topologicalSortWithPriority.
  set (st := sortLoop (sortMeasure (sortInit g)) (sortInit g)).
  assert (Hq : queue st = []) by (apply sortLoop_finishes; lia).
  pose proof (sortLoop_reaches_invariant g (sortMeasure (sortInit g)) Hl)
    as Hinv.
  fold st in Hinv.
  destruct Hinv as (_ & Hnd & Hsub & Hdeg & Hzero & _).
  rewrite Hq, app_nil_r in *.
  assert (Hall : forall l1 l2, l = l1 ++ l2 ->
                 forall y, In y l1 -> In y (nodeIds g) ->
                 In y (sortedNodes st)).
  { induction l1 as [|x l1 IH] using rev_ind; intros l2 E y Hy Hyg.
    - contradiction.
    - rewrite <- app_assoc in E. simpl in E.
      apply in_app_or in Hy. destruct Hy as [Hy|[<-|[]]].
      + apply (IH _ E); assumption.
      + apply Hzero; [exact Hyg|]. rewrite (Hdeg x Hyg).
        rewrite all_done_pending_empty; [reflexivity|].
        intros d Hd. apply (IH _ E).
        * eapply Hord; [exact E|exact Hd].
        * destruct Hl as (_ & _ & _ & Hin & _). eapply Hin. exact Hd. }
  assert (Hfull : incl (nodeIds g) (sortedNodes st)).
  { intros y Hy. apply (Hall l []); [rewrite app_nil_r; reflexivity| |exact Hy].
    apply Hincl. exact Hy. }
  assert (Hlen : List.length (sortedNodes st) = List.length g).
  { destruct Hl as (Hndg & _).
    apply Nat.le_antisymm; rewrite <- (length_map nodeId g);
      apply NoDup_incl_length; assumption. }
  rewrite Hlen, Nat.eqb_refl. eauto.
Qed.

(** The queue of the loop is the ready pool: the nodes not yet in the
    output all of whose dependencies are. *)
Lemma queue_is_ready (g0 : Graph) (st : SortState) (y : string) :
  linked g0 -> sortInvariant g0 st ->
  (In y (queue st) <->
   In y (nodeIds g0) /\ ~ In y (sortedNodes st) /\
   forall d, In d (dependenciesOf g0 y) -> In d (sortedNodes st)).
Proof.
  intros Hl (_ & Hnd & Hincl & Hdeg & Hzero & _). split.
  - intros Hy.
    assert (Hg : In y (nodeIds g0)) by (apply Hincl, in_or_app; auto).
    split; [exact Hg|]. split.
    + intros Hs.
      apply in_split in Hy. destruct Hy as (q1 & q2 & Eq).
      rewrite Eq, app_assoc in Hnd. apply NoDup_remove_2 in Hnd.
      apply Hnd. apply in_or_app. left. apply in_or_app. left. exact Hs.
    + apply pending_empty_all_done.
      assert (H0 : inDegreeOf (sortGraph st) y = 0)
        by (apply Hzero; [exact Hg|apply in_or_app; auto]).
      rewrite (Hdeg y Hg) in H0. lia.
  - intros (Hg & Hns & Hdeps).
    assert (H0 : In y (sortedNodes st ++ queue st)).
    { apply Hzero; [exact Hg|]. rewrite (Hdeg y Hg).
      rewrite all_done_pending_empty; [reflexivity|exact Hdeps]. }
    apply in_app_or in H0. destruct H0 as [H0|H0]; [contradiction|exact H0].
Qed.

(** ** Dependencies that name no earlier descriptor *)

Lemma buildGraph_unknown (pre post : list Task) (t : Task) (p : string) :
  In p (orElse (dependencies t) []) ->
  ~ In p (map id (pre ++ [t])) ->
  exists dep k, buildGraph (pre ++ t :: post) = inr (DependencyNotFound dep k).
Proof.
  intros Hp Hnot. unfold buildGraph. rewrite forEachM_app.
  destruct (forEachM addTask pre emptyGraph) as [g1|e] eqn:Epre.
  - assert (Hfail : exists e, addTask g1 t = inr e).
    { destruct (addTask g1 t) as [g2|e] eqn:E; [|eauto]. exfalso.
      pose proof (forEachM_addTask_linked _ _ _ linked_empty Epre) as Hl1.
      destruct (addTask_linked _ _ _ Hl1 E) as [Hl2 Hids].
      destruct Hl2 as (_ & _ & _ & Hin & _).
      assert (Hd : In p (dependenciesOf g2 (id t))).
      { rewrite (addTask_dependencies _ _ _ E), String.eqb_refl.
        apply in_or_app. right. exact Hp. }
      apply Hin in Hd. apply Hnot. rewrite map_app. simpl.
      destruct (buildGraph_ids pre g1 Epre) as [_ Hpre].
      destruct (memberOf (id t) (nodeIds g1)); rewrite Hids in Hd.
      - apply in_or_app. left. apply Hpre. exact Hd.
      - apply in_app_or in Hd. apply in_or_app.
        destruct Hd as [Hd|Hd]; [left; apply Hpre; exact Hd|right; exact Hd]. }
    destruct Hfail as [e E].
    destruct (forEachM_addTask_error [t] g1 e) as (dep & k & ->).
    { simpl. rewrite E. reflexivity. }
    exists dep, k. simpl. rewrite E. reflexivity.
  - destruct (forEachM_addTask_error _ _ _ Epre) as (dep & k & ->).
    eauto.
Qed.

Lemma build_unstarted (now : string -> Clock) (config : SequenceConfig)
  (tasks : list Task) (schedule : list nat) (e : Error) :
  buildGraph tasks = inr e ->
  build now config tasks schedule
  = {| buildPromise := RejectedWith e; mainSpan := None; driver := None |}.
Proof.
  intros H. unfold build. rewrite H. reflexivity.
Qed.

(** A list whose descriptors come after their parents is planned and
    handed to the driver. *)
Lemma build_ordered (now : string -> Clock) (config : SequenceConfig)
  (tasks : list Task) (schedule : list nat) :
  declaredInOrder [] tasks ->
  exists d, driver (build now config tasks schedule) = Some d.
Proof.
  intros H. destruct (buildGraph_ordered tasks H) as (g & Eb & Hl & Ho & _).
  destruct (sort_complete g Hl Ho) as (g' & sorted & Es).
  unfold build. rewrite Eb, Es.
  destruct (promise _); simpl; eauto.
Qed.

(** ** Plans that start, permits and serial runs *)

Lemma build_started (now : string -> Clock) (config : SequenceConfig)
  (tasks : list Task) (schedule : list nat) :
  isPlanned tasks = true ->
  planned (plannedGraph tasks) (plannedOrder tasks) /\
  driver (build now config tasks schedule)
  = Some (executeTasksWithConcurrencyLimit now (plannedGraph tasks)
            (plannedOrder tasks) (concurrencyOf config) schedule).
Proof.
  unfold isPlanned, plannedGraph, plannedOrder, build, concurrencyOf.
  destruct (buildGraph tasks) as [g0|e] eqn:Eb; [|discriminate].
  destruct (topologicalSortWithPriority g0) as [[g sorted]|e] eqn:Es;
    [|discriminate].
  intros _. split.
  - apply (build_planned _ _ _ _ Eb Es).
  - destruct (promise _); reflexivity.
Qed.

Lemma filter_length_le {A : Type} (p q : A -> bool) (l : list A) :
  (forall x, p x = true -> q x = true) ->
  (List.length (filter p l) <= List.length (filter q l))%nat.
Proof.
  intros H. induction l as [|x l IH]; simpl; [lia|].
  destruct (p x) eqn:Ep.
  - rewrite (H x Ep). simpl. lia.
  - destruct (q x); simpl; lia.
Qed.

(** The launches that hold a permit, and among them the launches whose
    action is running, are never more than the capacity. *)
Lemma permits_bound (now : string -> Clock) (g : Graph)
  (sorted : list string) (K : Z) (st : Driver) :
  driverInvariant now g sorted K st -> 0 <= K ->
  Z.of_nat (List.length (running st)) <= Z.of_nat (List.length (holders st))
  /\ Z.of_nat (List.length (holders st)) <= K.
Proof.
  intros [Hc _ _] HK.
  destruct (inv_permits _ _ _ _ _ Hc) as (Hpos & Hsum & _).
  specialize (Hpos HK).
  unfold running, holders, resumable. unfold resumableOf in Hsum.
  rewrite !length_map in *. split; [|lia].
  apply inj_le. apply filter_length_le.
  intros [k l]; simpl. destruct l; simpl; congruence.
Qed.

Lemma step_serial (now : string -> Clock) (choice : nat) (st : Driver) :
  (List.length (resumable st) <= 1)%nat ->
  step now choice st = step now 0 st.
Proof.
  unfold step. destruct (resumable st) as [|k [|k' ks]].
  - reflexivity.
  - intros _. cbn [List.length]. rewrite Nat.mod_1_r. reflexivity.
  - simpl. lia.
Qed.

Lemma runSchedule_stuck (now : string -> Clock) (schedule : list nat) :
  forall st, resumable st = [] -> runSchedule now schedule st = st.
Proof.
  unfold runSchedule.
  induction schedule as [|c schedule IH]; intros st H; simpl; [reflexivity|].
  unfold step at 2. rewrite H. apply IH. exact H.
Qed.

(** With one permit the schedule has no choice to make. *)
Lemma runSchedule_serial (now : string -> Clock) (g : Graph)
  (sorted : list string) (schedule : list nat) :
  planned g sorted ->
  forall st, driverInvariant now g sorted 1 st ->
  runSchedule now schedule st
  = runSchedule now (repeat 0%nat (List.length schedule)) st.
Proof.
  intros Hp. unfold runSchedule.
  induction schedule as [|c schedule IH]; intros st Hinv; simpl;
    [reflexivity|].
  rewrite (step_serial now c st).
  - apply IH. apply step_invariant; assumption.
  - destruct (permits_bound _ _ _ _ _ Hinv) as [_ H]; [lia|].
    unfold holders in H. lia.
Qed.

(** Once no launch can go on, a longer schedule changes nothing. *)
Lemma runSchedule_serial_from (now : string -> Clock) (g : Graph)
  (sorted : list string) (n : nat) (schedule : list nat) :
  planned g sorted ->
  resumable (runSchedule now (repeat 0%nat n) (startDriver g sorted 1)) = [] ->
  (n <= List.length schedule)%nat ->
  executeTasksWithConcurrencyLimit now g sorted 1 schedule
  = runSchedule now (repeat 0%nat n) (startDriver g sorted 1).
Proof.
  intros Hp Hstuck Hlen. unfold executeTasksWithConcurrencyLimit.
  rewrite (runSchedule_serial now g sorted schedule Hp)
    by (apply startDriver_invariant; exact Hp).
  replace (List.length schedule) with (n + (List.length schedule - n))%nat
    by lia.
  rewrite repeat_app. unfold runSchedule at 1. rewrite fold_left_app.
  apply (runSchedule_stuck now). exact Hstuck.
Qed.

(** ** The sample sequences *)

Lemma expectedArtifact_eval (now : string -> Clock) (g graph : Graph)
  (k : string) (n : GraphNode) (deps : list string) :
  get g k = Some n -> dependenciesOf graph k = deps ->
  expectedArtifact now g graph k
  = valueOf (scriptResult
               (executeTaskWithRetries (now k) (task n)
                  (map (artifactOf graph) deps))).
Proof.
  intros Hg Hd. unfold expectedArtifact, gatheredArgs. rewrite Hg, Hd.
  reflexivity.
Qed.

(** A plan none of whose tasks aborts settles fulfilled once the schedule
    is long enough. *)
Lemma continuing_plan_fulfilled (now : string -> Clock) (g : Graph)
  (sorted : list string) (K : Z) (schedule : list nat) :
  planned g sorted -> 1 <= K ->
  (forall k, In k sorted -> policyOf g k <> Some Abort) ->
  (driverBudget g sorted <= List.length schedule)%nat ->
  promise (executeTasksWithConcurrencyLimit now g sorted K schedule)
  = Fulfilled.
Proof.
  intros Hp HK Hpol Hlen.
  pose proof (driver_settles now g sorted K Hp HK schedule Hlen) as Hset.
  pose proof (driver_invariant now g sorted K Hp schedule) as Hinv.
  destruct (promise _) as [| |e] eqn:E; [congruence|reflexivity|].
  exfalso.
  destruct (rejection_is_abort _ _ _ _ _ _ Hp Hinv E)
    as (k & _ & Hab & _ & Hk & _).
  exact (Hpol k Hk Hab).
Qed.

Lemma chain_run (now : string -> Clock) (schedule : list nat) :
  (9 <= List.length schedule)%nat ->
  let r := build now defaultConfig chainTasks schedule in
  buildPromise r = Fulfilled /\
  artifactOf (graph (driverOf r)) "A" = Str "a" /\
  artifactOf (graph (driverOf r)) "B" = Str "ab" /\
  artifactOf (graph (driverOf r)) "C" = Str "abc".
Proof.
  intros Hlen r.
  assert (Hpl : isPlanned chainTasks = true) by (vm_compute; reflexivity).
  destruct (build_started now defaultConfig chainTasks schedule Hpl)
    as [Hp Hd].
  fold r in Hd.
  assert (Hf : promise (executeTasksWithConcurrencyLimit now
                          (plannedGraph chainTasks) (plannedOrder chainTasks)
                          (concurrencyOf defaultConfig) schedule)
               = Fulfilled).
  { apply continuing_plan_fulfilled; [exact Hp|vm_compute; discriminate| |].
    - intros k Hk. vm_compute in Hk.
      destruct Hk as [<-|[<-|[<-|[]]]]; vm_compute; discriminate.
    - vm_compute. exact Hlen. }
  pose proof (driver_invariant now _ _ (concurrencyOf defaultConfig) Hp
                schedule) as Hinv.
  pose proof (build_outcome _ _ _ _ _ Hd) as Hout. fold r in Hout.
  unfold driverOf. rewrite Hd.
  revert Hf Hinv Hout.
  generalize (executeTasksWithConcurrencyLimit now (plannedGraph chainTasks)
                (plannedOrder chainTasks) (concurrencyOf defaultConfig)
                schedule).
  intros d Hf Hinv Hout. rewrite Hf in Hout. destruct Hout as [Hb Hs].
  split; [exact Hb|].
  pose proof (fulfilled_all_done _ _ _ _ _ Hp Hinv Hf) as Hdone.
  pose proof (inv_static _ _ _ _ _ (inv_core _ _ _ _ _ Hinv)) as Hst.
  assert (HA : artifactOf (graph d) "A" = Str "a").
  { destruct (Hdone "A") as (_ & _ & E); [vm_compute; auto|].
    rewrite E. erewrite expectedArtifact_eval;
      [|vm_compute; reflexivity
       |rewrite (sameStatic_dependencies _ _ "A" Hst); vm_compute; reflexivity].
    vm_compute. reflexivity. }
  assert (HB : artifactOf (graph d) "B" = Str "ab").
  { destruct (Hdone "B") as (_ & _ & E); [vm_compute; auto|].
    rewrite E. erewrite expectedArtifact_eval;
      [|vm_compute; reflexivity
       |rewrite (sameStatic_dependencies _ _ "B" Hst); vm_compute; reflexivity].
    cbn [map]. rewrite HA. vm_compute. reflexivity. }
  split; [exact HA|]. split; [exact HB|].
  destruct (Hdone "C") as (_ & _ & E); [vm_compute; auto|].
  rewrite E. erewrite expectedArtifact_eval;
    [|vm_compute; reflexivity
     |rewrite (sameStatic_dependencies _ _ "C" Hst); vm_compute; reflexivity].
  cbn [map]. rewrite HB. vm_compute. reflexivity.
Qed.

(** When an action of [c] has been invoked, every dependency of [c] is
    done. *)
Lemma parent_done_at_invocation (now : string -> Clock)
  (config : SequenceConfig) (tasks : list Task) (schedule : list nat)
  (d : Driver) (p c : string) (a : Z) (args : list any) :
  driver (build now config tasks schedule) = Some d ->
  In p (dependenciesOf (graph d) c) ->
  In (Invoke c a args) (trace d) ->
  doneInvariant now (plannedGraph tasks) d p.
Proof.
  intros Hd Hedge Hinv.
  destruct (build_invariant _ _ _ _ _ Hd) as (Hp & Hperm & _ & [Hc _ _]).
  pose proof (inv_static _ _ _ _ _ Hc) as Hst.
  rewrite (sameStatic_dependencies _ _ c Hst) in Hedge.
  destruct (inv_trace_level _ _ _ _ _ Hc _ Hinv) as [Hcs Hle].
  simpl in Hcs, Hle.
  destruct (plan_levels _ _ Hp) as (_ & Hlt & _).
  specialize (Hlt c p Hcs Hedge).
  apply (inv_below _ _ _ _ _ Hc); [|lia].
  eapply planned_closed; eauto.
Qed.

(* ===================================================================== *)
(** * Properties of the engine *)
(* ===================================================================== *)

(** C1.  For every edge [p -> c] of the graph the driver runs, [c] has a
    strictly larger level than [p], and at the moment an action of [c] is
    invoked the closure of [p] has finished (its artifact is stored) and
    every event of [p], its attempts and its retry delays among them, is in
    the past: none comes after the invocation. *)
Theorem C1_parent_finishes_before_child_starts
  (now : string -> Clock) (config : SequenceConfig) (tasks : list Task)
  (schedule : list nat) (d : Driver) (p c : string) :
  driver (build now config tasks schedule) = Some d ->
  In p (dependenciesOf (graph d) c) ->
  levelAt (nodeLevels d) p < levelAt (nodeLevels d) c /\
  forall t1 t2 a args, trace d = t1 ++ Invoke c a args :: t2 ->
    (exists v, In (SetArtifact p v) t1) /\
    (forall e, In e (trace d) -> eventTask e = p -> In e t1).
Proof.
  intros Hd Hedge.
  destruct (build_invariant _ _ _ _ _ Hd) as (Hp & Hperm & _ & [Hc _ _]).
  set (g := plannedGraph tasks) in *. set (sorted := plannedOrder tasks) in *.
  pose proof (inv_static _ _ _ _ _ Hc) as Hst.
  rewrite (sameStatic_dependencies _ _ c Hst) in Hedge.
  assert (Hcs : In c sorted).
  { apply (Permutation_in _ (Permutation_sym Hperm)).
    apply get_Some_iff. unfold dependenciesOf in Hedge.
    destruct (get g c) as [n|]; [eauto|contradiction]. }
  destruct (plan_levels g sorted Hp) as (_ & Hlt & _).
  specialize (Hlt c p Hcs Hedge).
  rewrite (inv_levels _ _ _ _ _ Hc).
  split; [exact Hlt|].
  intros t1 t2 a args Htr.
  assert (Hinv : In (Invoke c a args) (trace d)).
  { rewrite Htr. apply in_or_app. right. left. reflexivity. }
  destruct (inv_trace_level _ _ _ _ _ Hc _ Hinv) as [_ Hle]. simpl in Hle.
  assert (Hpast : forall e, In e (trace d) -> eventTask e = p -> In e t1).
  { intros e He Ep. rewrite Htr in He. apply in_app_or in He.
    destruct He as [He|[<-|He]]; [exact He| |].
    - simpl in Ep. subst p. lia.
    - exfalso.
      assert (Hb : before (trace d) (Invoke c a args) e)
        by (exists t1, t2; auto).
      apply (inv_trace_order _ _ _ _ _ Hc) in Hb. simpl in Hb.
      rewrite Ep in Hb. lia. }
  split; [|exact Hpast].
  assert (Hdone : doneInvariant now g d p).
  { apply (inv_below _ _ _ _ _ Hc); [|lia].
    eapply planned_closed; eauto. }
  destruct Hdone as ([v Hv] & _). exists v. apply Hpast; [exact Hv|reflexivity].
Qed.

Lemma C1_witness :
  let d := executeTasksWithConcurrencyLimit sampleClock
             (plannedGraph chainTasks) (plannedOrder chainTasks) 2
             [0; 0; 0; 0]%nat in
  levelAt (nodeLevels d) "A" < levelAt (nodeLevels d) "B" /\
  forall t1 t2 a args, trace d = t1 ++ Invoke "B" a args :: t2 ->
    (exists v, In (SetArtifact "A" v) t1) /\
    (forall e, In e (trace d) -> eventTask e = "A" -> In e t1).
Proof.
  intros d.
  apply (C1_parent_finishes_before_child_starts sampleClock defaultConfig
           chainTasks [0; 0; 0; 0]%nat d "A" "B").
  - vm_compute. reflexivity.
  - vm_compute. left. reflexivity.
Defined.

(** C2.  Whenever the driver invokes the action of [c], the arguments are
    the artifacts of the dependencies of [c], position by position, in the
    order the descriptors of [c] declare them, and each of them is the
    artifact its parent has stored by then, the value the run of the
    parent produced; and the chain A, B on A, C on B
    with the actions returning "a", x+"b" and x+"c" ends fulfilled with the
    artifacts "a", "ab" and "abc", whatever the interleaving. *)
Theorem C2_arguments_are_parent_artifacts_in_order :
  (forall (now : string -> Clock) (config : SequenceConfig)
          (tasks : list Task) (schedule : list nat) (d : Driver)
          (c : string) (a : Z) (args : list any),
     driver (build now config tasks schedule) = Some d ->
     In (Invoke c a args) (trace d) ->
     args = map (artifactOf (graph d)) (dependenciesOf (graph d) c) /\
     dependenciesOf (graph d) c = declaredDependencies tasks c /\
     (forall t, NoDup (map id tasks) -> In t tasks -> id t = c ->
        dependenciesOf (graph d) c = orElse (dependencies t) []) /\
     (forall p, In p (dependenciesOf (graph d) c) ->
        (exists v, In (SetArtifact p v) (trace d)) /\
        artifactOf (graph d) p
        = expectedArtifact now (plannedGraph tasks) (graph d) p)) /\
  (forall (now : string -> Clock) (schedule : list nat),
     (9 <= List.length schedule)%nat ->
     let r := build now defaultConfig chainTasks schedule in
     buildPromise r = Fulfilled /\
     artifactOf (graph (driverOf r)) "A" = Str "a" /\
     artifactOf (graph (driverOf r)) "B" = Str "ab" /\
     artifactOf (graph (driverOf r)) "C" = Str "abc").
Proof.
  split.
  - intros now config tasks schedule d c a args Hd Hinv.
    destruct (build_invariant _ _ _ _ _ Hd) as (Hp & Hperm & _ & [Hc _ _]).
    destruct (build_driver _ _ _ _ _ Hd) as (g0 & Hb & Hs & _).
    destruct (build_planned _ _ _ _ Hb Hs) as (_ & Hst0 & _).
    pose proof (inv_static _ _ _ _ _ Hc) as Hst.
    assert (Hdeps : dependenciesOf (graph d) c = declaredDependencies tasks c).
    { rewrite (sameStatic_dependencies _ _ c Hst).
      rewrite (sameStatic_dependencies _ _ c Hst0).
      apply buildGraph_dependencies. exact Hb. }
    split; [exact (inv_args _ _ _ _ _ Hc _ _ _ Hinv)|].
    split; [exact Hdeps|]. split.
    + intros t Hnd Hin <-. rewrite Hdeps.
      apply declaredDependencies_distinct; assumption.
    + intros p Hpin.
      destruct (parent_done_at_invocation now config tasks schedule d p c a
                  args Hd Hpin Hinv) as (Hv & _ & Hart).
      split; assumption.
  - intros now schedule Hlen r.
    destruct (chain_run now schedule Hlen) as (H1 & H2 & H3 & H4).
    auto.
Qed.

Lemma C2_witness :
  let schedule := [0; 0; 0; 0; 0; 0; 0; 0; 0]%nat in
  let r := build sampleClock defaultConfig chainTasks schedule in
  (buildPromise r = Fulfilled /\
   artifactOf (graph (driverOf r)) "A" = Str "a" /\
   artifactOf (graph (driverOf r)) "B" = Str "ab" /\
   artifactOf (graph (driverOf r)) "C" = Str "abc") /\
  [Str "ab"] = map (artifactOf (graph (driverOf r)))
                   (dependenciesOf (graph (driverOf r)) "C").
Proof.
  intros schedule r. split.
  - apply (proj2 C2_arguments_are_parent_artifacts_in_order sampleClock
             schedule).
    simpl. lia.
  - apply (proj1 C2_arguments_are_parent_artifacts_in_order sampleClock
             defaultConfig chainTasks schedule (driverOf r) "C" 0
             [Str "ab"]).
    + vm_compute. reflexivity.
    + vm_compute. repeat (first [left; reflexivity | right]).
Defined.

(** C3, as the code has it.  A task that exhausts its retries under the
    abort policy makes the driver, [executeTasksWithConcurrencyLimit],
    reject with the error "Aborting execution due to failure in task k'"
    for a task k' of the same level that has the abort policy and whose
    runner threw, and no event of a later level ever happens; but
    [Sequence.build] catches that error, records its message on the span
    and resolves.  When no task whose runner threw has the abort policy the
    driver does not reject; with at least one permit and a schedule as long
    as the budget it is fulfilled, [build] resolves and every descriptor
    has been run to its end.  Whenever a child of a failed task is invoked,
    the argument in the position of that parent is [null]. *)
Theorem C3_abort_stops_the_driver_and_build_resolves
  (now : string -> Clock) (config : SequenceConfig) (tasks : list Task)
  (schedule : list nat) (d : Driver) :
  driver (build now config tasks schedule) = Some d ->
  (forall k, In (SetStatus k Failed) (trace d) ->
     policyOf (graph d) k = Some Abort ->
     exists k',
       promise d = RejectedWith (AbortingExecution k') /\
       policyOf (graph d) k' = Some Abort /\
       runnerThrew k' (trace d) /\
       levelAt (nodeLevels d) k' = levelAt (nodeLevels d) k /\
       (forall e, In e (trace d) ->
          levelAt (nodeLevels d) (eventTask e) <= levelAt (nodeLevels d) k) /\
       buildPromise (build now config tasks schedule) = Fulfilled /\
       mainSpan (build now config tasks schedule)
       = Some (SpanError (errorMessage (AbortingExecution k')))) /\
  (forall e, promise d = RejectedWith e ->
     exists k', e = AbortingExecution k' /\
       policyOf (graph d) k' = Some Abort /\ runnerThrew k' (trace d)) /\
  ((forall k, runnerThrew k (trace d) ->
      policyOf (graph d) k <> Some Abort) ->
   (forall e, promise d <> RejectedWith e) /\
   (1 <= concurrencyOf config ->
    (driverBudget (plannedGraph tasks) (plannedOrder tasks)
     <= List.length schedule)%nat ->
    promise d = Fulfilled /\
    buildPromise (build now config tasks schedule) = Fulfilled /\
    forall t, In t tasks -> exists v, In (SetArtifact (id t) v) (trace d))) /\
  (forall p c a args i,
     In (SetStatus p Failed) (trace d) -> In (Invoke c a args) (trace d) ->
     nth_error (dependenciesOf (graph d) c) i = Some p ->
     nth_error args i = Some Null).
Proof.
  intros Hd.
  destruct (build_invariant _ _ _ _ _ Hd) as (Hp & Hperm & Ed & Hinv).
  pose proof (inv_core _ _ _ _ _ Hinv) as Hc.
  pose proof (inv_static _ _ _ _ _ Hc) as Hst.
  pose proof (build_outcome _ _ _ _ _ Hd) as Hout.
  rewrite (inv_levels _ _ _ _ _ Hc).
  assert (Hrej : forall e, promise d = RejectedWith e ->
            exists k', e = AbortingExecution k' /\
              policyOf (graph d) k' = Some Abort /\
              runnerThrew k' (trace d)).
  { intros e He.
    destruct (rejection_is_abort _ _ _ _ _ _ Hp Hinv He)
      as (k' & -> & Hab' & Hf' & _).
    exists k'. split; [reflexivity|].
    split; [rewrite (sameStatic_policy _ _ k' Hst); exact Hab'|exact Hf']. }
  split; [|split; [exact Hrej|split]].
  - intros k Hf Hab. rewrite (sameStatic_policy _ _ k Hst) in Hab.
    destruct (abort_rejects _ _ _ _ _ _ Hp Hinv Hf Hab) as (_ & Hk & [e He]).
    destruct (rejection_is_abort _ _ _ _ _ _ Hp Hinv He)
      as (k' & -> & Hab' & Hf' & _ & Hk').
    exists k'. rewrite He in Hout. destruct Hout as [Hb Hs].
    split; [exact He|].
    split; [rewrite (sameStatic_policy _ _ k' Hst); exact Hab'|].
    split; [exact Hf'|]. split; [congruence|].
    split; [|split; assumption].
    intros e Hin. rewrite Hk. apply (inv_trace_level _ _ _ _ _ Hc _ Hin).
  - intros Hnone.
    assert (Hnr : forall e, promise d <> RejectedWith e).
    { intros e He. destruct (Hrej e He) as (k' & _ & Hab' & Hf').
      exact (Hnone k' Hf' Hab'). }
    split; [exact Hnr|]. intros HK Hlen.
    assert (Hf : promise d = Fulfilled).
    { pose proof (driver_settles now _ _ _ Hp HK schedule Hlen) as Hset.
      rewrite <- Ed in Hset.
      destruct (promise d) as [| |e] eqn:E;
        [congruence|reflexivity|destruct (Hnr e eq_refl)]. }
    rewrite Hf in Hout. destruct Hout as [Hb Hs].
    split; [exact Hf|]. split; [exact Hb|].
    intros t Ht.
    destruct (build_driver _ _ _ _ _ Hd) as (g0 & Eb & Es & _).
    destruct (build_planned _ _ _ _ Eb Es) as (_ & Hst0 & _).
    assert (Hk : In (id t) (plannedOrder tasks)).
    { apply (Permutation_in _ (Permutation_sym Hperm)).
      rewrite (sameStatic_ids _ _ Hst0).
      apply (buildGraph_ids _ _ Eb). apply in_map. exact Ht. }
    destruct (fulfilled_all_done _ _ _ _ _ Hp Hinv Hf _ Hk) as (Hv & _).
    exact Hv.
  - intros p c a args i Hf Hi Hnth.
    rewrite (inv_args _ _ _ _ _ Hc _ _ _ Hi). unfold gatheredArgs.
    rewrite nth_error_map, Hnth. simpl. f_equal.
    apply nth_error_In in Hnth.
    destruct (parent_done_at_invocation now config tasks schedule d p c a
                args Hd Hnth Hi) as (_ & Hnull & _).
    apply Hnull. exact Hf.
Qed.

(** A task that fails under the abort policy, and a [build] that resolves
    all the same: the error of the driver ends on the span. *)
Lemma C3_counterexample :
  let r := build sampleClock defaultConfig abortTasks [0; 0]%nat in
  In (SetStatus "A" Failed) (trace (driverOf r)) /\
  policyOf (graph (driverOf r)) "A" = Some Abort /\
  promise (driverOf r) = RejectedWith (AbortingExecution "A") /\
  buildPromise r = Fulfilled /\
  (forall e, buildPromise r <> RejectedWith e).
Proof.
  vm_compute.
  split; [repeat (first [left; reflexivity | right])|].
  split; [reflexivity|]. split; [reflexivity|]. split; [reflexivity|].
  intros e H. discriminate H.
Qed.

Lemma C3_witness :
  let r := build sampleClock defaultConfig abortTasks [0; 0]%nat in
  let r' := build sampleClock defaultConfig continueTasks
              [0; 0; 0; 0]%nat in
  (exists k',
     promise (driverOf r) = RejectedWith (AbortingExecution k') /\
     buildPromise r = Fulfilled) /\
  nth_error [Null] 0 = Some Null /\
  buildPromise r' = Fulfilled.
Proof.
  intros r r'. split; [|split].
  - destruct (C3_abort_stops_the_driver_and_build_resolves sampleClock
                defaultConfig abortTasks [0; 0]%nat (driverOf r))
      as (Habort & _).
    + vm_compute. reflexivity.
    + destruct (Habort "A") as (k' & H1 & _ & _ & _ & _ & H2 & _).
      * vm_compute. repeat (first [left; reflexivity | right]).
      * vm_compute. reflexivity.
      * exists k'. split; assumption.
  - destruct (C3_abort_stops_the_driver_and_build_resolves sampleClock
                defaultConfig continueTasks [0; 0; 0; 0]%nat (driverOf r'))
      as (_ & _ & _ & Hnull).
    + vm_compute. reflexivity.
    + apply (Hnull "A" "B" 0 [Null] 0%nat).
      * vm_compute. repeat (first [left; reflexivity | right]).
      * vm_compute. repeat (first [left; reflexivity | right]).
      * vm_compute. reflexivity.
  - vm_compute. reflexivity.
Defined.

(** C4, where the code departs from it.  When attempt [k] of a task, after
    [k] attempts rejected with an error, is rejected with [null] or
    [undefined] (as [Promise.reject()] does), reading [error.message] in
    the [catch] block throws: the runner has made [k + 1] calls and [k]
    sleeps and stops there, however many retries are left; it sets no
    status, and it throws that [TypeError], not the reason of the
    rejection. *)
Theorem C4_rejection_without_reason_ends_the_retries
  (now : Clock) (t : Task) (args : list any) (k : Z) (isNull : bool) :
  let r := orElse (retryCount t) 0 in
  let es := scriptEvents (executeTaskWithRetries now t args) in
  logArgsThrows args = false ->
  0 <= k <= r ->
  (forall j, 0 <= j < k -> exists m, action t j args = Rejected m) ->
  action t k args = RejectedNullish isNull ->
  scriptResult (executeTaskWithRetries now t args)
  = inr (TypeError (cannotReadMessage isNull)) /\
  Z.of_nat (List.length (invocations es)) = k + 1 /\
  Z.of_nat (List.length (delays es)) = k /\
  (forall s, ~ In (SetStatus (id t) s) es) /\
  exists pre,
    es = pre ++ [Invoke (id t) k args;
                 Settle (id t) k (RejectedNullish isNull)].
Proof.
  intros r es Hlog Hk Hrej Hnull.
  unfold es, executeTaskWithRetries, retryFuel.
  destruct (retryLoop_nullish now t args k isNull
              (Z.to_nat (orElse (retryCount t) 0 + 1)) Hlog 0)
    as (H1 & H2 & H3 & H4 & H5);
    [exact Hk|fold r; lia|exact Hrej|exact Hnull|].
  split; [exact H1|]. split; [lia|]. split; [lia|].
  split; [exact H4|exact H5].
Qed.

(** The task [nullishTask] has two retries and a delay of 10 ms, and its
    action rejects without a reason: one call, no sleep, no status. *)
Lemma C4_witness :
  let es := scriptEvents (executeTaskWithRetries (sampleClock "T")
                            nullishTask []) in
  scriptResult (executeTaskWithRetries (sampleClock "T") nullishTask [])
  = inr (TypeError
           "Cannot read properties of undefined (reading 'message')") /\
  Z.of_nat (List.length (invocations es)) = 1 /\
  Z.of_nat (List.length (delays es)) = 0 /\
  ~ In (SetStatus "T" Failed) es /\
  es = [Invoke "T" 0 []; Settle "T" 0 (RejectedNullish false)].
Proof.
  intros es.
  destruct (C4_rejection_without_reason_ends_the_retries (sampleClock "T")
              nullishTask [] 0 false) as (H1 & H2 & H3 & H4 & _).
  - reflexivity.
  - simpl. lia.
  - intros j Hj. lia.
  - reflexivity.
  - split; [exact H1|]. split; [exact H2|]. split; [exact H3|].
    split; [exact (H4 Failed)|reflexivity].
Defined.

(** C7, as the code has it.  Every metrics write of the runner is made by
    an attempt whose action resolved, with the start time read at the
    beginning of that attempt, so the duration covers that attempt alone
    and none of the failed attempts or retry delays before it.  When the
    arguments and the results can be logged and every rejection carries an
    error, the metrics are written exactly once by a run that returns, by
    the attempt that succeeded, and a task that fails after its retries
    gets the status failed and no metrics at all. *)
Theorem C7_metrics_cover_the_successful_attempt_only
  (now : Clock) (t : Task) (args : list any) :
  let r := orElse (retryCount t) 0 in
  let es := scriptEvents (executeTaskWithRetries now t args) in
  0 <= r ->
  (forall k m, In (SetMetrics k m) es ->
     k = id t /\
     exists a v, 0 <= a <= r /\ action t a args = Resolved v /\
       m = {| startTime := fst (now a); endTime := snd (now a);
              duration := snd (now a) - fst (now a) |}) /\
  (logArgsThrows args = false ->
   (forall a v, action t a args = Resolved v -> logThrows v = false) ->
   (forall a n, action t a args <> RejectedNullish n) ->
   match scriptResult (executeTaskWithRetries now t args) with
   | inl v =>
       exists k, 0 <= k <= r /\ action t k args = Resolved v /\
         (forall j, 0 <= j < k -> exists m, action t j args = Rejected m) /\
         metricsWrites es
         = [SetMetrics (id t)
              {| startTime := fst (now k); endTime := snd (now k);
                 duration := snd (now k) - fst (now k) |}] /\
         In (SetStatus (id t) Success) es /\
         ~ In (SetStatus (id t) Failed) es
   | inr e =>
       (exists m, e = ActionError m /\ action t r args = Rejected m) /\
       (forall j, 0 <= j <= r -> exists m, action t j args = Rejected m) /\
       metricsWrites es = [] /\
       In (SetStatus (id t) Failed) es
   end).
Proof.
  intros r es Hr. split.
  - intros k m H. unfold es, executeTaskWithRetries in H.
    exact (retryLoop_metrics_sound now t args k m _ 0 H).
  - intros Hlog Hres Hrej.
    pose proof (retryLoop_metrics now t args (Z.to_nat (r + 1)) Hlog Hres
                  Hrej 0) as H.
    cbv zeta in H. fold r in H.
    specialize (H Hr ltac:(lia)).
    unfold es, executeTaskWithRetries, retryFuel. fold r.
    destruct (scriptResult (retryLoop (Z.to_nat (r + 1)) now t args 0))
      as [v|e] eqn:E.
    + destruct H as (k & Hk & Hact & Hrj & Hm & Hs).
      exists k. repeat (split; [assumption|]).
      intros Hf. apply retryLoop_failed_throws in Hf.
      destruct Hf as [e Hf]. congruence.
    + exact H.
Qed.

(** A task whose two attempts fail reaches the status failed without any
    metrics write; and the metrics of a task that succeeds on its second
    attempt start at that attempt, 15 ms after the first one began. *)
Lemma C7_counterexample :
  let failed := scriptEvents (executeTaskWithRetries (sampleClock "T")
                                exhaustedTask []) in
  let retried := scriptEvents (executeTaskWithRetries (sampleClock "T")
                                 recoveringTask []) in
  (In (SetStatus "T" Failed) failed /\
   List.length (metricsWrites failed) <> 1%nat) /\
  (In (Invoke "T" 0 []) retried /\
   fst (sampleClock "T" 0) = 0 /\
   metricsWrites retried
   = [SetMetrics "T" {| startTime := 15; endTime := 18; duration := 3 |}]).
Proof.
  vm_compute. split; split.
  - repeat (first [left; reflexivity | right]).
  - discriminate.
  - left. reflexivity.
  - split; reflexivity.
Qed.

Lemma C7_witness :
  let es := scriptEvents (executeTaskWithRetries (sampleClock "T")
                            recoveringTask []) in
  exists k, 0 <= k <= 1 /\
    failingFirst 1 "boom" (Str "ok") k [] = Resolved (Str "ok") /\
    (forall j, 0 <= j < k ->
       exists m, failingFirst 1 "boom" (Str "ok") j [] = Rejected m) /\
    metricsWrites es
    = [SetMetrics "T"
         {| startTime := fst (sampleClock "T" k);
            endTime := snd (sampleClock "T" k);
            duration := snd (sampleClock "T" k) - fst (sampleClock "T" k) |}]
    /\
    In (SetStatus "T" Success) es /\
    ~ In (SetStatus "T" Failed) es.
Proof.
  intros es.
  apply (proj2 (C7_metrics_cover_the_successful_attempt_only
                  (sampleClock "T") recoveringTask [] ltac:(simpl; lia))).
  - reflexivity.
  - intros a v. unfold recoveringTask, failingFirst. simpl.
    destruct (a <? 1); intros E; [discriminate E|].
    injection E as <-. reflexivity.
  - intros a n. unfold recoveringTask, failingFirst. simpl.
    destruct (a <? 1); discriminate.
Defined.


(** C9.  On a semaphore of capacity [K >= 1] used by the protocol of the
    driver, in every reachable state at most [K] permits are out, the
    callers admitted so far are a prefix of the callers in the order of
    their [acquire] calls, and [release] with a waiter hands the permit to
    the longest-waiting one while the counter stays at 0; and in every
    state of a run of the driver with capacity [K] at most [K] launches
    hold a permit, so at most [K] actions are running. *)
Theorem C9_at_most_K_permits_and_fifo_admission (K : Z) :
  1 <= K ->
  (forall ops gt, gateRun ops (newGate K) = Some gt ->
     Z.of_nat (List.length (permitHolders gt)) <= K /\
     arrivals gt = admissions gt ++ tasks (gateSemaphore gt) /\
     forall w ws, tasks (gateSemaphore gt) = w :: ws ->
       release (gateSemaphore gt)
       = ({| tasks := ws; counter := 0 |}, Some w)) /\
  (forall now config descriptors schedule d,
     concurrencyOf config = K ->
     driver (build now config descriptors schedule) = Some d ->
     Z.of_nat (List.length (running d)) <= Z.of_nat (List.length (holders d))
     /\ Z.of_nat (List.length (holders d)) <= K /\
     tasks (semaphore d) = parked (launches d)).
Proof.
  intros HK. split.
  - intros ops gt Hrun.
    assert (Hinv : gateInvariant K gt).
    { eapply gateRun_invariant; [|exact Hrun].
      apply newGate_invariant. lia. }
    destruct Hinv as (Hpos & Hsum & Hzero & Hfifo & _).
    split; [lia|]. split; [exact Hfifo|].
    intros w ws Hq. rewrite (release_hands_over _ _ _ Hq).
    rewrite Hzero; [reflexivity|]. rewrite Hq. discriminate.
  - intros now config descriptors schedule d <- Hd.
    destruct (build_invariant _ _ _ _ _ Hd) as (_ & _ & _ & Hinv).
    destruct (permits_bound _ _ _ _ _ Hinv) as [H1 H2]; [lia|].
    split; [exact H1|]. split; [exact H2|].
    apply (inv_permits _ _ _ _ _ (inv_core _ _ _ _ _ Hinv)).
Qed.

Lemma C9_witness :
  let gt := {| gateSemaphore := {| tasks := ["C"]; counter := 0 |};
               permitHolders := ["B"]; arrivals := ["A"; "B"; "C"];
               admissions := ["A"; "B"] |} in
  Z.of_nat (List.length (permitHolders gt)) <= 1 /\
  arrivals gt = admissions gt ++ tasks (gateSemaphore gt) /\
  forall w ws, tasks (gateSemaphore gt) = w :: ws ->
    release (gateSemaphore gt) = ({| tasks := ws; counter := 0 |}, Some w).
Proof.
  intros gt.
  apply (proj1 (C9_at_most_K_permits_and_fifo_admission 1 ltac:(lia))
           [Acquire "A"; Acquire "B"; Acquire "C"; Release "A"] gt).
  vm_compute. reflexivity.
Defined.

(** C10.  A configuration without [maxConcurrency] runs exactly as one with
    [maxConcurrency = 2]: never more than two launches hold a permit, and
    of three independent tasks two can have their action running at once
    while the third waits in the queue of the semaphore. *)
Theorem C10_default_concurrency_is_two :
  (forall now v tasks schedule,
     build now {| verbose := v; maxConcurrency := None |} tasks schedule
     = build now {| verbose := v; maxConcurrency := Some 2 |} tasks schedule)
  /\
  (forall now v tasks schedule,
     (List.length
        (holders
           (driverOf
              (build now {| verbose := v; maxConcurrency := None |}
                 tasks schedule))) <= 2)%nat) /\
  (let d := driverOf (build sampleClock defaultConfig rootTasks
                        [0; 1]%nat) in
   running d = ["B"; "C"] /\ tasks (semaphore d) = ["A"] /\
   launchOrder (trace d) = ["B"; "C"]).
Proof.
  split; [|split].
  - intros now v tasks schedule. reflexivity.
  - intros now v tasks schedule. unfold driverOf.
    destruct (driver _) as [d|] eqn:Hd; [|simpl; lia].
    destruct (build_invariant _ _ _ _ _ Hd) as (_ & _ & _ & Hinv).
    destruct (permits_bound _ _ _ _ _ Hinv) as [_ H2].
    + unfold concurrencyOf. simpl. lia.
    + unfold concurrencyOf in H2. simpl in H2. lia.
  - vm_compute. auto.
Qed.

(** C5, as the code has it.  [addTask] looks a parent up at the moment the
    child is added, so the order matters: when the ids are distinct and
    every descriptor comes after the descriptors of its parents the build
    succeeds and the driver is started; a dependency that names neither an
    earlier descriptor nor the descriptor itself makes [build] reject with
    "Dependency ... not found for task ..." before the driver exists, so
    before any action is run. *)
Theorem C5_parents_must_be_added_first
  (now : string -> Clock) (config : SequenceConfig) (schedule : list nat) :
  (forall tasks, declaredInOrder [] tasks ->
     exists d, driver (build now config tasks schedule) = Some d) /\
  (forall pre t post p,
     In p (orElse (dependencies t) []) -> ~ In p (map id (pre ++ [t])) ->
     exists dep k,
       build now config (pre ++ t :: post) schedule
       = {| buildPromise := RejectedWith (DependencyNotFound dep k);
            mainSpan := None; driver := None |}).
Proof.
  split.
  - intros tasks H. apply build_ordered. exact H.
  - intros pre t post p Hp Hnot.
    destruct (buildGraph_unknown pre post t p Hp Hnot) as (dep & k & E).
    exists dep, k. apply build_unstarted. exact E.
Qed.

(** B is listed before the A it depends on: every parent names a
    descriptor of the list and the graph has no cycle, yet the build
    fails. *)
Lemma C5_counterexample :
  (forall t p, In t childFirstTasks -> In p (orElse (dependencies t) []) ->
     In p (map id childFirstTasks)) /\
  isPlanned (rev childFirstTasks) = true /\
  build sampleClock defaultConfig childFirstTasks []
  = {| buildPromise := RejectedWith (DependencyNotFound "A" "B");
       mainSpan := None; driver := None |}.
Proof.
  split; [|split].
  - intros t p [<-|[<-|[]]]; simpl; [intros [<-|[]]; auto|intros []].
  - vm_compute. reflexivity.
  - vm_compute. reflexivity.
Qed.

Lemma C5_witness :
  (exists d, driver (build sampleClock defaultConfig chainTasks [0%nat])
             = Some d) /\
  (exists dep k,
     build sampleClock defaultConfig childFirstTasks [0%nat]
     = {| buildPromise := RejectedWith (DependencyNotFound dep k);
          mainSpan := None; driver := None |}).
Proof.
  split.
  - apply (proj1 (C5_parents_must_be_added_first sampleClock defaultConfig
                    [0%nat]) chainTasks).
    simpl. split; [tauto|]. split; [intros d []|].
    split; [intros [H|[]]; discriminate H|].
    split; [intros d [<-|[]]; left; reflexivity|].
    split; [intros [H|[H|[]]]; discriminate H|].
    split; [intros d [<-|[]]; right; left; reflexivity|].
    exact I.
  - apply (proj2 (C5_parents_must_be_added_first sampleClock defaultConfig
                    [0%nat])
             [] (descriptor "B" ["A"] (appendTo "b") 0 0 Continue 0)
             [descriptor "A" [] (constant (Str "a")) 0 0 Continue 0] "A").
    + simpl. auto.
    + simpl. intros [H|[]]. discriminate H.
Defined.

(** C6, as the code has it.  [addTask] has no duplicate check: a descriptor
    whose id is already in the graph reuses the node of the first
    descriptor with that id, only its dependencies are added to that node.
    So the graph has one node for each id of the list, carrying the first
    descriptor of that id and the dependencies of all of them; a repeated
    descriptor without dependencies leaves the graph as it is; and the only
    errors [build] can reject with are the missing dependency and the
    cycle. *)
Theorem C6_repeated_id_reuses_the_first_node
  (now : string -> Clock) (config : SequenceConfig) (tasks : list Task)
  (schedule : list nat) :
  (forall g, buildGraph tasks = inl g ->
     NoDup (nodeIds g) /\
     (forall k, In k (nodeIds g) <-> In k (map id tasks)) /\
     (forall k, taskOf g k = firstDescriptor tasks k) /\
     (forall k, dependenciesOf g k = declaredDependencies tasks k)) /\
  (forall g t n, get g (id t) = Some n ->
     orElse (dependencies t) [] = [] -> addTask g t = inl g) /\
  (forall e, buildPromise (build now config tasks schedule) = RejectedWith e ->
     driver (build now config tasks schedule) = None /\
     ((exists dep k, e = DependencyNotFound dep k) \/ e = GraphHasCycle)).
Proof.
  split; [|split].
  - intros g Hb.
    destruct (buildGraph_ids _ _ Hb) as [Hnd Hids].
    split; [exact Hnd|]. split; [exact Hids|].
    split; [apply buildGraph_tasks; exact Hb|].
    apply buildGraph_dependencies; exact Hb.
  - intros g t n Hg Hdeps. unfold addTask. rewrite Hg.
    destruct (dependencies t) as [deps|]; [|reflexivity].
    simpl in Hdeps. subst deps. reflexivity.
  - intros e. apply build_rejection.
Qed.

(** Two descriptors named A: the build goes through, the run is fulfilled,
    and the one node runs the action of the first descriptor. *)
Lemma C6_counterexample :
  let r := build sampleClock defaultConfig duplicateTasks [0; 0]%nat in
  map id duplicateTasks = ["A"; "A"] /\
  buildPromise r = Fulfilled /\
  launchOrder (trace (driverOf r)) = ["A"] /\
  artifactOf (graph (driverOf r)) "A" = Str "first".
Proof.
  vm_compute. auto.
Qed.

Lemma C6_witness :
  let g := match buildGraph duplicateTasks with
           | inl g => g
           | inr _ => []
           end in
  NoDup (nodeIds g) /\
  (forall k, In k (nodeIds g) <-> In k (map id duplicateTasks)) /\
  (forall k, taskOf g k = firstDescriptor duplicateTasks k) /\
  (forall k, dependenciesOf g k = declaredDependencies duplicateTasks k).
Proof.
  intros g.
  apply (proj1 (C6_repeated_id_reuses_the_first_node sampleClock
                  defaultConfig duplicateTasks [0%nat]) g).
  vm_compute. reflexivity.
Defined.

(** C8.  On the graph [addTask] builds, the planner succeeds whenever some
    order of the nodes puts every node after its dependencies, and its
    output is then a total order of the nodes in which every node comes
    after its dependencies.  At every turn of its loop the queue is the
    ready pool, the nodes not in the output all of whose dependencies are;
    the turn extracts a member of the queue of highest priority and, among
    those of that priority, the one pushed first, which is also the first
    of them in the queue, and appends it to the output; the loop ends
    within its bound.  For the three roots A (priority 1), B (priority 5)
    and C (priority 3) the plan is B, C, A, and with one permit the actions
    are launched in that order; for the diamond A, B (priority 1) and C
    (priority 5) on A, D on both, the plan and the launch order are A, C,
    B, D. *)
Theorem C8_highest_priority_first_then_earliest :
  (forall tasks g, buildGraph tasks = inl g ->
     (forall g' sorted, topologicalSortWithPriority g = inl (g', sorted) ->
        Permutation sorted (nodeIds g) /\ NoDup sorted /\
        dependencyRespecting g sorted) /\
     (forall l, incl (nodeIds g) l -> dependencyRespecting g l ->
        exists g' sorted, topologicalSortWithPriority g = inl (g', sorted)) /\
     (forall turns,
        let st := sortLoop turns (sortInit g) in
        forall y, In y (queue st) <->
          In y (nodeIds g) /\ ~ In y (sortedNodes st) /\
          forall d, In d (dependenciesOf g y) -> In d (sortedNodes st)) /\
     (forall turns node rest,
        let st := sortLoop turns (sortInit g) in
        sortByPriority (sortGraph st) (queue st) = node :: rest ->
        sortedNodes (sortStep st) = sortedNodes st ++ [node] /\
        In node (queue st) /\
        (forall y, In y (queue st) -> priorityOf g y <= priorityOf g node) /\
        (forall y, In y rest -> priorityOf g y = priorityOf g node ->
           before (pushLog st) node y) /\
        (forall y, In y rest -> priorityOf g y = priorityOf g node ->
           before (queue st) node y)) /\
     queue (sortLoop (sortMeasure (sortInit g)) (sortInit g)) = []) /\
  plannedOrder rootTasks = ["B"; "C"; "A"] /\
  (forall now schedule, (6 <= List.length schedule)%nat ->
     launchOrder (trace (driverOf (build now serialConfig rootTasks schedule)))
     = ["B"; "C"; "A"]) /\
  plannedOrder diamondTasks = ["A"; "C"; "B"; "D"] /\
  (forall now schedule, (8 <= List.length schedule)%nat ->
     launchOrder
       (trace (driverOf (build now serialConfig diamondTasks schedule)))
     = ["A"; "C"; "B"; "D"]).
Proof.
  split; [|split; [|split; [|split]]].
  - intros tasks g Hb. pose proof (buildGraph_linked _ _ Hb) as Hl.
    split; [|split; [|split; [|split]]].
    + intros g' sorted Hs.
      destruct (topologicalSort_sound _ _ _ Hl Hs) as (H1 & H2 & H3 & _).
      auto.
    + intros l Hincl Hresp.
      exact (sort_complete_general g l Hl Hincl Hresp).
    + intros turns st y. apply queue_is_ready; [exact Hl|].
      apply sortLoop_reaches_invariant. exact Hl.
    + intros turns node rest st Es.
      pose proof (sortLoop_reaches_invariant g turns Hl) as Hinv.
      fold st in Hinv.
      split.
      { unfold sortStep. rewrite Es.
        destruct (fold_left visitDependent _ _) as [[g' q'] lg'].
        reflexivity. }
      destruct (extraction_highest_earliest _ _ _ _ Hinv Es)
        as (H1 & H2 & H3).
      split; [exact H1|]. split; [exact H2|]. split; [exact H3|].
      intros y Hy Hpr.
      destruct Hinv as ((_ & _ & _ & Eprio) & _).
      apply (sortByPriority_stable (sortGraph st)).
      * rewrite Es. apply before_head. exact Hy.
      * rewrite !Eprio. auto.
    + apply sortLoop_finishes. lia.
  - vm_compute. reflexivity.
  - intros now schedule Hlen.
    assert (Hpl : isPlanned rootTasks = true) by (vm_compute; reflexivity).
    destruct (build_started now serialConfig rootTasks schedule Hpl)
      as [Hp Hd].
    unfold driverOf. rewrite Hd.
    change (concurrencyOf serialConfig) with 1.
    rewrite (runSchedule_serial_from now _ _ 6 schedule Hp);
      [|vm_compute; reflexivity|exact Hlen].
    vm_compute. reflexivity.
  - vm_compute. reflexivity.
  - intros now schedule Hlen.
    assert (Hpl : isPlanned diamondTasks = true) by (vm_compute; reflexivity).
    destruct (build_started now serialConfig diamondTasks schedule Hpl)
      as [Hp Hd].
    unfold driverOf. rewrite Hd.
    change (concurrencyOf serialConfig) with 1.
    rewrite (runSchedule_serial_from now _ _ 8 schedule Hp);
      [|vm_compute; reflexivity|exact Hlen].
    vm_compute. reflexivity.
Qed.

(** The two sample plans under one schedule each, and the planner on the
    diamond: it succeeds because the order of declaration respects the
    dependencies, and its output does too. *)
Lemma C8_witness :
  launchOrder
    (trace (driverOf (build sampleClock serialConfig rootTasks
                        [0; 1; 2; 0; 1; 2]%nat)))
  = ["B"; "C"; "A"] /\
  launchOrder
    (trace (driverOf (build sampleClock serialConfig diamondTasks
                        [0; 0; 0; 0; 0; 0; 0; 0]%nat)))
  = ["A"; "C"; "B"; "D"] /\
  exists g' sorted,
    topologicalSortWithPriority (builtGraph diamondTasks)
    = inl (g', sorted) /\
    dependencyRespecting (builtGraph diamondTasks) sorted.
Proof.
  pose proof C8_highest_priority_first_then_earliest
    as (Hgraph & _ & Hroots & _ & Hdiamond).
  split; [apply Hroots; simpl; lia|].
  split; [apply Hdiamond; simpl; lia|].
  destruct (Hgraph diamondTasks (builtGraph diamondTasks))
    as (Hsound & Hcomplete & _); [vm_compute; reflexivity|].
  destruct (Hcomplete ["A"; "B"; "C"; "D"]) as (g' & sorted & Es).
  - vm_compute. tauto.
  - intros l1 x l2 E d Hd.
    do 4 (destruct l1 as [|? l1]; simpl in E; injection E as <- E;
          [vm_compute in Hd |- *; tauto|]).
    destruct l1; discriminate E.
  - exists g', sorted. split; [exact Es|].
    exact (proj2 (proj2 (Hsound g' sorted Es))).
Defined.

(** ** The level of a node, exactly *)

Lemma levelsGet_fold_other (g : Graph) (l : list string) :
  forall lv x, ~ In x l ->
  levelsGet (fold_left (assignLevel g) l lv) x = levelsGet lv x.
Proof.
  induction l as [|a l IH]; intros lv x Hx; simpl; [reflexivity|].
  rewrite IH by (intros H; apply Hx; right; exact H).
  unfold assignLevel. rewrite levelsGet_set.
  destruct (String.eqb_spec a x) as [->|E]; [|reflexivity].
  exfalso. apply Hx. left. reflexivity.
Qed.

(** The equation the level-assigning loop solves. *)
Lemma assignLevels_exact (g : Graph) (sorted : list string) (k : string) :
  NoDup sorted -> dependencyRespecting g sorted -> In k sorted ->
  levelsGet (assignLevels g sorted) k
  = Some match dependenciesOf g k with
         | [] => Int 0
         | deps =>
             plusOne
               (mathMax
                  (map (fun dep =>
                          orElse (levelsGet (assignLevels g sorted) dep) NaN)
                       deps))
         end.
Proof.
  intros Hnd Htopo Hk.
  destruct (in_split _ _ Hk) as (l1 & l2 & E).
  assert (Hk2 : ~ In k l2).
  { rewrite E in Hnd. apply NoDup_remove_2 in Hnd.
    intros H. apply Hnd. apply in_or_app. right. exact H. }
  assert (Hfin : forall x, ~ In x (k :: l2) ->
            levelsGet (assignLevels g sorted) x
            = levelsGet (fold_left (assignLevel g) l1 []) x).
  { intros x Hx. unfold assignLevels. rewrite E, fold_left_app. simpl.
    rewrite levelsGet_fold_other by (intros H; apply Hx; right; exact H).
    unfold assignLevel. rewrite levelsGet_set.
    destruct (String.eqb_spec k x) as [->|_]; [|reflexivity].
    exfalso. apply Hx. left. reflexivity. }
  assert (Hdeps : forall d, In d (dependenciesOf g k) ->
            levelsGet (assignLevels g sorted) d
            = levelsGet (fold_left (assignLevel g) l1 []) d).
  { intros d Hd. apply Hfin. intros Hin.
    assert (Hd1 : In d l1) by (eapply Htopo; eauto).
    rewrite E in Hnd. eapply NoDup_app_disjoint; eauto. }
  assert (Hk' : levelsGet (assignLevels g sorted) k
                = levelsGet (assignLevel g (fold_left (assignLevel g) l1 []) k)
                    k).
  { unfold assignLevels. rewrite E, fold_left_app. cbn [fold_left].
    apply levelsGet_fold_other. exact Hk2. }
  rewrite Hk'. unfold assignLevel. rewrite levelsGet_set, String.eqb_refl.
  f_equal. destruct (dependenciesOf g k) as [|d ds] eqn:Ed; [reflexivity|].
  f_equal. f_equal. apply map_ext_in. intros x Hx.
  rewrite Hdeps by exact Hx. reflexivity.
Qed.

Lemma fold_max2_attained (zs : list Z) :
  forall a, exists m,
    fold_left max2 (map Int zs) (Int a) = Int m /\ (m = a \/ In m zs).
Proof.
  induction zs as [|z zs IH]; intros a; simpl.
  - exists a. auto.
  - destruct (IH (Z.max a z)) as (m & E & Hm).
    exists m. split; [exact E|].
    destruct Hm as [Hm|Hm]; [|auto].
    destruct (Z.max_spec a z) as [[_ Hx]|[_ Hx]]; rewrite Hx in Hm; auto.
Qed.

Lemma mathMax_attained (zs : list Z) :
  zs <> [] -> exists m, mathMax (map Int zs) = Int m /\ In m zs.
Proof.
  destruct zs as [|z zs]; [congruence|]. intros _.
  unfold mathMax. simpl.
  destruct (fold_max2_attained zs z) as (m & E & Hm).
  exists m. split; [exact E|]. destruct Hm as [->|Hm]; [left|right]; auto.
Qed.

(** A root is at level 0; any other node is exactly one level above the
    highest of its dependencies. *)
Lemma level_tight (g : Graph) (sorted : list string) (c : string) :
  planned g sorted -> In c sorted ->
  (dependenciesOf g c = [] -> levelAt (assignLevels g sorted) c = 0) /\
  (dependenciesOf g c <> [] ->
   exists d, In d (dependenciesOf g c) /\
     levelAt (assignLevels g sorted) c
     = levelAt (assignLevels g sorted) d + 1).
Proof.
  intros Hp Hc.
  pose proof (assignLevels_exact g sorted c (planned_nodup _ _ Hp)
                (planned_order _ _ Hp) Hc) as Ex.
  destruct (plan_levels g sorted Hp) as (Hlev & _).
  split.
  - intros E. rewrite E in Ex. unfold levelAt, levelOf. rewrite Ex.
    reflexivity.
  - intros Hne.
    assert (Hmap : map (fun dep =>
                          orElse (levelsGet (assignLevels g sorted) dep) NaN)
                       (dependenciesOf g c)
                   = map Int (map (levelAt (assignLevels g sorted))
                                  (dependenciesOf g c))).
    { rewrite map_map. apply map_ext_in. intros d Hd.
      destruct (Hlev d) as (z & Ez & _);
        [eapply planned_closed; eauto|].
      rewrite (levelAt_Some _ _ _ Ez). unfold levelOf in Ez.
      destruct (levelsGet (assignLevels g sorted) d) as [[| |z']|];
        try discriminate.
      simpl. congruence. }
    destruct (dependenciesOf g c) as [|d0 ds] eqn:Ed; [congruence|].
    rewrite Hmap in Ex.
    destruct (mathMax_attained
                (map (levelAt (assignLevels g sorted)) (d0 :: ds)))
      as (m & Em & Hin); [discriminate|].
    rewrite Em in Ex. simpl plusOne in Ex.
    apply in_map_iff in Hin. destruct Hin as (d & Hd & Hin).
    exists d. split; [exact Hin|].
    unfold levelAt at 1, levelOf. rewrite Ex. lia.
Qed.

(** Below the level of a node every level has a node. *)
Lemma levels_inhabited_below (g : Graph) (sorted : list string) :
  planned g sorted ->
  forall n c l, In c sorted ->
  levelAt (assignLevels g sorted) c = Z.of_nat n -> 0 <= l <= Z.of_nat n ->
  exists k, In k sorted /\ levelAt (assignLevels g sorted) k = l.
Proof.
  intros Hp. induction n as [|n IH]; intros c l Hc Hn Hl.
  - exists c. split; [exact Hc|lia].
  - destruct (Z.eq_dec l (Z.of_nat (S n))) as [->|Hne].
    + exists c. auto.
    + destruct (level_tight g sorted c Hp Hc) as [Hroot Hstep].
      destruct (dependenciesOf g c) as [|d0 ds] eqn:Ed.
      * specialize (Hroot eq_refl). lia.
      * destruct Hstep as (d & Hd & Hlv); [discriminate|].
        apply (IH d l); [|lia|lia].
        apply (planned_closed _ _ Hp c d Hc). rewrite Ed. exact Hd.
Qed.

(** The highest level is the level of some node. *)
Lemma topLevel_attained (g : Graph) (sorted : list string) :
  planned g sorted -> sorted <> [] ->
  exists k, In k sorted /\
    levelAt (assignLevels g sorted) k = topLevel (assignLevels g sorted).
Proof.
  intros Hp Hne.
  pose proof (assignLevels_levelled g sorted (planned_nodup _ _ Hp)
                (planned_order _ _ Hp)) as Hl.
  destruct (levelled_entries g _ sorted (planned_nodup _ _ Hp) Hl)
    as (zs & Ezs & Hlen & _).
  destruct Hl as [Hkeys _].
  assert (Hz : zs <> []).
  { intros ->. destruct sorted; [congruence|discriminate]. }
  destruct (mathMax_attained zs Hz) as (m & Em & Hin).
  assert (Hent : In (Int m) (map snd (assignLevels g sorted))).
  { rewrite Ezs. apply in_map. exact Hin. }
  apply in_map_iff in Hent. destruct Hent as ([k v] & Ev & Hkv).
  simpl in Ev. subst v.
  exists k. split.
  - rewrite <- Hkeys. apply in_map_iff. exists (k, Int m). auto.
  - unfold topLevel. rewrite Ezs, Em.
    apply levelAt_Some. unfold levelOf.
    rewrite (levelsGet_In _ k (Int m));
      [reflexivity|rewrite Hkeys; apply (planned_nodup _ _ Hp)|exact Hkv].
Qed.

(** ** Sorting a graph whose in-degrees are used up *)

Lemma get_In (g : Graph) (n : GraphNode) :
  NoDup (nodeIds g) -> In n g -> get g (nodeId n) = Some n.
Proof.
  induction g as [|m g IH]; simpl; intros Hnd Hin; [contradiction|].
  inversion Hnd as [|? ? Hm Hnd']; subst.
  destruct Hin as [->|Hin]; [rewrite String.eqb_refl; reflexivity|].
  destruct (String.eqb_spec (nodeId m) (nodeId n)) as [E|E]; [|auto].
  exfalso. apply Hm. rewrite E. apply in_map. exact Hin.
Qed.

Lemma insertByPriority_ext (g g' : Graph) (x : string) (l : list string) :
  (forall k, priorityOf g' k = priorityOf g k) ->
  insertByPriority g' x l = insertByPriority g x l.
Proof.
  intros H. induction l as [|y l IH]; simpl; [reflexivity|].
  rewrite !H, IH. reflexivity.
Qed.

Lemma sortByPriority_ext (g g' : Graph) (l : list string) :
  (forall k, priorityOf g' k = priorityOf g k) ->
  sortByPriority g' l = sortByPriority g l.
Proof.
  intros H. induction l as [|x l IH]; simpl; [reflexivity|].
  rewrite IH. apply insertByPriority_ext. exact H.
Qed.

(** Sorting a queue that is in descending order leaves it as it is. *)
Lemma descending_sort_id (g : Graph) (l : list string) :
  descending g l -> sortByPriority g l = l.
Proof.
  induction 1 as [|x l Hs IH Hx]; simpl; [reflexivity|].
  rewrite IH. destruct l as [|y l']; [reflexivity|]. simpl.
  inversion Hx as [|? ? Hy _]; subst.
  destruct (priorityOf g x <? priorityOf g y) eqn:E; [|reflexivity].
  apply Z.ltb_lt in E. lia.
Qed.

(** Decrementing counters that are not positive never reaches 0: nothing
    is pushed. *)
Lemma visitDependents_nonpositive (l : list string) :
  forall (g : Graph) (q lg : list string),
  (forall k, inDegreeOf g k <= 0) ->
  (forall k, In k l -> In k (nodeIds g)) ->
  exists g', fold_left visitDependent l (g, q, lg) = (g', q, lg) /\
             (forall k, inDegreeOf g' k <= 0) /\ sameEdges g g'.
Proof.
  induction l as [|d l IH]; intros g q lg Hdeg Hin; cbn [fold_left].
  - exists g. split; [reflexivity|]. split; [exact Hdeg|].
    apply sameEdges_refl.
  - assert (Hd : In d (nodeIds g)) by (apply Hin; left; reflexivity).
    rewrite (visitDependent_spec g q lg d Hd).
    assert (E : (inDegreeOf g d - 1 =? 0) = false).
    { apply Z.eqb_neq. specialize (Hdeg d). lia. }
    rewrite E.
    assert (He : sameEdges g (update g d decrementInDegree)).
    { apply sameEdges_update; auto; intros n; reflexivity. }
    destruct (IH (update g d decrementInDegree) q lg)
      as (g' & Ef & Hdeg' & He').
    + intros k. rewrite (inDegreeOf_decrement g d k Hd).
      specialize (Hdeg k). destruct (String.eqb d k); lia.
    + intros k Hk. destruct He as (-> & _). apply Hin. right. exact Hk.
    + exists g'. split; [exact Ef|]. split; [exact Hdeg'|].
      eapply sameEdges_trans; eauto.
Qed.

Lemma sortLoop_priority_only (fuel : nat) :
  forall st,
  (forall k, inDegreeOf (sortGraph st) k <= 0) ->
  (forall k c, In c (dependentsOf (sortGraph st) k) ->
               In c (nodeIds (sortGraph st))) ->
  (List.length (queue st) <= fuel)%nat ->
  sortedNodes (sortLoop fuel st)
  = sortedNodes st ++ sortByPriority (sortGraph st) (queue st).
Proof.
  induction fuel as [|fuel IH]; intros st Hdeg Hdpt Hlen.
  - destruct (queue st); [|simpl in Hlen; lia].
    simpl. rewrite app_nil_r. reflexivity.
  - simpl. destruct (queue st) as [|a q] eqn:Eq.
    + simpl. rewrite app_nil_r. reflexivity.
    + rewrite <- Eq.
      pose proof (sortByPriority_length (sortGraph st) (queue st)) as Hl.
      pose proof (sortByPriority_descending (sortGraph st) (queue st)) as Hs.
      unfold sortStep.
      destruct (sortByPriority (sortGraph st) (queue st)) as [|node rest]
        eqn:Es; [rewrite Eq in Hl; discriminate|].
      destruct (visitDependents_nonpositive
                  (dependentsOf (sortGraph st) node) (sortGraph st) rest
                  (pushLog st) Hdeg (Hdpt node))
        as (g' & Ef & Hdeg' & He).
      rewrite Ef.
      rewrite IH; simpl.
      * rewrite <- app_assoc. simpl. f_equal. f_equal.
        destruct He as (_ & _ & _ & Hprio).
        rewrite (sortByPriority_ext (sortGraph st) g' rest Hprio).
        apply descending_sort_id. inversion Hs; assumption.
      * exact Hdeg'.
      * destruct He as (Hids & _ & Hd & _). intros k c Hc.
        rewrite Hids. rewrite Hd in Hc. eapply Hdpt. exact Hc.
      * rewrite Eq in Hl. simpl in Hl, Hlen. lia.
Qed.

Lemma filter_all {A : Type} (p : A -> bool) (l : list A) :
  (forall x, In x l -> p x = true) -> filter p l = l.
Proof.
  induction l as [|x l IH]; simpl; intros H; [reflexivity|].
  rewrite (H x) by auto. rewrite IH by auto. reflexivity.
Qed.

(** With every counter at 0 the planner returns the nodes by priority
    alone. *)
Lemma sort_priority_only (g : Graph) :
  (forall n, In n g -> inDegree n = 0) ->
  (forall k c, In c (dependentsOf g k) -> In c (nodeIds g)) ->
  exists g', topologicalSortWithPriority g
             = inl (g', sortByPriority g (nodeIds g)).
Proof.
  intros Hzero Hdpt. unfold topologicalSortWithPriority.
  assert (Hinit : queue (sortInit g) = nodeIds g).
  { unfold sortInit. simpl. rewrite filter_all; [reflexivity|].
    intros n Hn. rewrite (Hzero n Hn). reflexivity. }
  assert (Hdeg : forall k, inDegreeOf (sortGraph (sortInit g)) k <= 0).
  { intros k. unfold inDegreeOf. simpl.
    destruct (get g k) as [n|] eqn:E; [|lia].
    apply get_Some_id in E. rewrite (Hzero n); [lia|tauto]. }
  pose proof (sortLoop_priority_only (sortMeasure (sortInit g)) (sortInit g)
                Hdeg Hdpt) as Hs.
  rewrite Hinit in Hs. simpl in Hs.
  rewrite Hs.
  - rewrite sortByPriority_length. unfold nodeIds. rewrite length_map.
    rewrite Nat.eqb_refl. eauto.
  - unfold sortMeasure. rewrite Hinit. lia.
Qed.

(** A sort that succeeds leaves every counter at 0. *)
Lemma sort_consumes_inDegree (g g' : Graph) (sorted : list string) :
  linked g -> topologicalSortWithPriority g = inl (g', sorted) ->
  sameEdges g g' /\ forall n, In n g' -> inDegree n = 0.
Proof.
  intros Hl Hs.
  destruct (topologicalSort_sound _ _ _ Hl Hs) as (Hperm & _ & _ & He).
  split; [exact He|].
  unfold topologicalSortWithPriority in Hs.
  pose proof (sortLoop_reaches_invariant g (sortMeasure (sortInit g)) Hl)
    as Hinv.
  destruct (Nat.eqb _ _); [|discriminate].
  injection Hs as <- <-.
  destruct Hinv as (_ & _ & _ & Hdeg & _).
  intros n Hn.
  assert (Hnd : NoDup (nodeIds (sortGraph
                  (sortLoop (sortMeasure (sortInit g)) (sortInit g))))).
  { destruct He as (-> & _). apply Hl. }
  pose proof (get_In _ _ Hnd Hn) as Hg.
  assert (Hk : In (nodeId n) (nodeIds g)).
  { destruct He as (<- & _). apply in_map. exact Hn. }
  specialize (Hdeg _ Hk). unfold inDegreeOf in Hdeg. rewrite Hg in Hdeg.
  rewrite Hdeg, all_done_pending_empty; [reflexivity|].
  intros d Hd. apply (Permutation_in _ (Permutation_sym Hperm)).
  destruct Hl as (_ & _ & _ & Hin & _). eapply Hin. exact Hd.
Qed.

(** ** When the planner reports a cycle *)

(** With distinct ids and no task depending on itself, the descriptors
    [addTask] accepts are listed after their parents. *)
Lemma accepted_distinct_ordered (tasks : list Task) :
  forall g g', forEachM addTask tasks g = inl g' -> linked g ->
  NoDup (nodeIds g ++ map id tasks) ->
  (forall t, In t tasks -> ~ In (id t) (orElse (dependencies t) [])) ->
  declaredInOrder (nodeIds g) tasks.
Proof.
  induction tasks as [|t tasks IH]; intros g g' H Hl Hnd Hself; simpl;
    [exact I|].
  simpl in H. destruct (addTask g t) as [g1|e] eqn:E; [|discriminate].
  assert (Hnew : ~ In (id t) (nodeIds g)).
  { simpl in Hnd. apply NoDup_remove_2 in Hnd. intros Hin. apply Hnd.
    apply in_or_app. left. exact Hin. }
  destruct (addTask_linked _ _ _ Hl E) as [Hl1 Hids].
  rewrite (proj2 (memberOf_not_In _ _) Hnew) in Hids.
  split; [exact Hnew|]. split.
  - intros d Hd.
    assert (Hd1 : In d (nodeIds g1)).
    { destruct Hl1 as (_ & _ & _ & Hin & _). apply (Hin (id t)).
      rewrite (addTask_dependencies _ _ _ E), String.eqb_refl.
      apply in_or_app. right. exact Hd. }
    rewrite Hids in Hd1. apply in_app_or in Hd1.
    destruct Hd1 as [Hd1|[<-|[]]]; [exact Hd1|].
    exfalso. apply (Hself t); [left; reflexivity|exact Hd].
  - rewrite <- Hids. apply (IH g1 g' H Hl1).
    + rewrite Hids, <- app_assoc. exact Hnd.
    + intros t' Ht'. apply Hself. right. exact Ht'.
Qed.

(** A node that depends on itself is never consumed. *)
Lemma self_dependency_cycle (g : Graph) (k : string) :
  linked g -> In k (dependenciesOf g k) ->
  topologicalSortWithPriority g = inr GraphHasCycle.
Proof.
  intros Hl Hk.
  destruct (topologicalSortWithPriority g) as [[g' sorted]|e] eqn:Es.
  - exfalso.
    destruct (topologicalSort_sound _ _ _ Hl Es) as (Hperm & Hnd & Hord & _).
    assert (Hin : In k sorted).
    { apply (Permutation_in _ (Permutation_sym Hperm)).
      destruct Hl as (_ & _ & _ & Hin & _). eapply Hin. exact Hk. }
    destruct (in_split _ _ Hin) as (l1 & l2 & E).
    pose proof (Hord _ _ _ E k Hk) as H1.
    rewrite E in Hnd. apply NoDup_remove_2 in Hnd. apply Hnd.
    apply in_or_app. left. exact H1.
  - rewrite (topologicalSort_error _ _ Es). reflexivity.
Qed.

(** ** More on the runner *)

(** The clock is only read for the metrics: the result does not depend on
    it. *)
Lemma retryLoop_result_clock (now now' : Clock) (t : Task) (args : list any)
  (fuel : nat) :
  forall a, scriptResult (retryLoop fuel now t args a)
            = scriptResult (retryLoop fuel now' t args a).
Proof.
  exact (retryLoop_result_any_clock now t args now' fuel).
Qed.

(** The loop ends with the first attempt that succeeds, when the arguments
    and the result can be logged. *)
Lemma retryLoop_first_success (now : Clock) (t : Task) (args : list any)
  (k : Z) (v : any) (fuel : nat) :
  logArgsThrows args = false -> logThrows v = false ->
  forall a, a <= k <= orElse (retryCount t) 0 ->
  orElse (retryCount t) 0 + 1 - a <= Z.of_nat fuel ->
  (forall j, a <= j < k -> exists m, action t j args = Rejected m) ->
  action t k args = Resolved v ->
  scriptResult (retryLoop fuel now t args a) = inl v /\
  Z.of_nat (List.length
              (invocations (scriptEvents (retryLoop fuel now t args a))))
  = k - a + 1 /\
  Z.of_nat (List.length
              (delays (scriptEvents (retryLoop fuel now t args a))))
  = k - a.
Proof.
  intros Hlog Hv.
  induction fuel as [|fuel IH]; intros a Ha Hfuel Hrej Hok.
  - simpl in Hfuel. lia.
  - destruct (Z.eq_dec a k) as [->|Hne].
    + pose proof (retryLoop_events now t args fuel k) as Ee.
      pose proof (retryLoop_result now t args fuel k) as Er.
      cbv zeta in Ee, Er. rewrite Ee, Er. clear Ee Er.
      assert (E1 : (k <=? orElse (retryCount t) 0) = true)
        by (apply Z.leb_le; lia).
      rewrite E1, Hlog, Hok, Hv. simpl.
      split; [reflexivity|]. split; lia.
    + destruct (Hrej a) as [m Em]; [lia|].
      destruct (retryLoop_rejected_turn now t args fuel a m Hlog
                  ltac:(lia) Em) as [Ee Er].
      rewrite Ee, Er.
      destruct (IH (a + 1)) as (H1 & H2 & H3);
        [lia|lia|intros j Hj; apply Hrej; lia|exact Hok|].
      split; [exact H1|].
      unfold invocations, delays in *. cbn [filter isInvoke isDelay].
      cbn [List.length]. rewrite !Nat2Z.inj_succ. split; lia.
Qed.


(** ** More on the driver *)

(** The artifacts of a fulfilled run are the same whatever the
    interleaving, the clock and the number of permits. *)
Lemma artifacts_schedule_independent (now1 now2 : string -> Clock)
  (g : Graph) (sorted : list string) (K1 K2 : Z) (d1 d2 : Driver) :
  planned g sorted ->
  driverInvariant now1 g sorted K1 d1 -> driverInvariant now2 g sorted K2 d2 ->
  promise d1 = Fulfilled -> promise d2 = Fulfilled ->
  forall k, In k sorted -> artifactOf (graph d1) k = artifactOf (graph d2) k.
Proof.
  intros Hp Hi1 Hi2 Hf1 Hf2.
  pose proof (fulfilled_all_done _ _ _ _ _ Hp Hi1 Hf1) as Hd1.
  pose proof (fulfilled_all_done _ _ _ _ _ Hp Hi2 Hf2) as Hd2.
  pose proof (inv_static _ _ _ _ _ (inv_core _ _ _ _ _ Hi1)) as Hs1.
  pose proof (inv_static _ _ _ _ _ (inv_core _ _ _ _ _ Hi2)) as Hs2.
  assert (Hall : forall l1 l2, sorted = l1 ++ l2 ->
            forall k, In k l1 ->
            artifactOf (graph d1) k = artifactOf (graph d2) k).
  { induction l1 as [|x l1 IH] using rev_ind; intros l2 E k Hk;
      [contradiction|].
    rewrite <- app_assoc in E. simpl in E.
    apply in_app_or in Hk. destruct Hk as [Hk|[<-|[]]]; [eapply IH; eauto|].
    assert (Hx : In x sorted).
    { rewrite E. apply in_or_app. right. left. reflexivity. }
    destruct (Hd1 x Hx) as (_ & _ & E1).
    destruct (Hd2 x Hx) as (_ & _ & E2).
    rewrite E1, E2. unfold expectedArtifact.
    destruct (get g x) as [n|]; [|reflexivity].
    unfold gatheredArgs.
    rewrite (sameStatic_dependencies _ _ x Hs1).
    rewrite (sameStatic_dependencies _ _ x Hs2).
    rewrite (map_ext_in (artifactOf (graph d1)) (artifactOf (graph d2))).
    - unfold executeTaskWithRetries.
      rewrite (retryLoop_result_clock (now1 x) (now2 x)). reflexivity.
    - intros d Hd. apply (IH _ E).
      eapply (planned_order _ _ Hp); [exact E|exact Hd]. }
  intros k Hk. apply (Hall sorted []); [rewrite app_nil_r; reflexivity|].
  exact Hk.
Qed.

(** Without a free permit every closure parks. *)
Lemma startLaunches_no_permit (nodes : list string) :
  forall s, counter s <= 0 ->
  startLaunches nodes s
  = ({| tasks := tasks s ++ nodes; counter := counter s |},
     map (fun k => (k, Parked)) nodes).
Proof.
  induction nodes as [|k nodes IH]; intros s Hs; simpl.
  - rewrite app_nil_r. destruct s; reflexivity.
  - unfold acquire.
    assert (E : (0 <? counter s) = false) by (apply Z.ltb_ge; lia).
    rewrite E. rewrite IH by (simpl; exact Hs). simpl.
    rewrite <- app_assoc. reflexivity.
Qed.

Lemma resumable_parked (nodes : list string) (st : Driver) :
  launches st = map (fun k => (k, Parked)) nodes -> resumable st = [].
Proof.
  intros E. unfold resumable. rewrite E. clear E.
  induction nodes as [|k nodes IH]; simpl; [reflexivity|exact IH].
Qed.

(** A plan that is not empty has a node at level 0. *)
Lemma level_zero_inhabited (g : Graph) (sorted : list string) :
  planned g sorted -> sorted <> [] ->
  nodesAtLevel sorted (assignLevels g sorted) 0 <> [].
Proof.
  intros Hp Hne. destruct sorted as [|c sorted'] eqn:Es; [congruence|].
  rewrite <- Es in *.
  assert (Hc : In c sorted) by (rewrite Es; left; reflexivity).
  destruct (plan_levels g sorted Hp) as (Hlev & _).
  destruct (Hlev c Hc) as (z & Ez & Hz & _).
  destruct (levels_inhabited_below g sorted Hp (Z.to_nat z) c 0 Hc)
    as (k & Hk & Hk0); [rewrite (levelAt_Some _ _ _ Ez); lia|lia|].
  destruct (Hlev k Hk) as (zk & Ezk & _).
  rewrite (levelAt_Some _ _ _ Ezk) in Hk0. subst zk.
  intros Hnil.
  assert (Hin : In k (nodesAtLevel sorted (assignLevels g sorted) 0))
    by (apply nodesAtLevel_In; auto).
  rewrite Hnil in Hin. contradiction.
Qed.

(** With no permit to give, the driver parks the first level and nothing
    ever runs. *)
Lemma no_permit_hang (now : string -> Clock) (g : Graph)
  (sorted : list string) (K : Z) (schedule : list nat) :
  planned g sorted -> sorted <> [] -> K <= 0 ->
  let d := executeTasksWithConcurrencyLimit now g sorted K schedule in
  promise d = Pending /\ trace d = [] /\
  tasks (semaphore d) = nodesAtLevel sorted (assignLevels g sorted) 0 /\
  launches d
  = map (fun k => (k, Parked))
        (nodesAtLevel sorted (assignLevels g sorted) 0).
Proof.
  intros Hp Hne HK d.
  destruct (levelRange_spec g sorted Hp) as [Hrange Htop].
  destruct (plan_levels g sorted Hp) as (_ & _ & Hmax & _).
  destruct (Hmax Hne) as [_ Hpos]. specialize (Htop Hne).
  pose proof (level_zero_inhabited g sorted Hp Hne) as Hzero.
  assert (Hstart : exists rest,
            startDriver g sorted K
            = {| graph := g; plan := sorted;
                 nodeLevels := assignLevels g sorted;
                 semaphore :=
                   {| tasks := nodesAtLevel sorted (assignLevels g sorted) 0;
                      counter := K |};
                 level := 0; laterLevels := rest;
                 launches :=
                   map (fun k => (k, Parked))
                       (nodesAtLevel sorted (assignLevels g sorted) 0);
                 promise := Pending; trace := [] |}).
  { unfold startDriver.
    destruct (levelRange (mathMax (map snd (assignLevels g sorted))))
      as [|l rest] eqn:El.
    - simpl in Htop. lia.
    - simpl in Hrange. injection Hrange as Hl _.
      subst l. exists rest. cbn [enterLevels plan nodeLevels semaphore].
      rewrite startLaunches_no_permit by (simpl; exact HK). simpl.
      destruct (nodesAtLevel sorted (assignLevels g sorted) 0) as [|k ks];
        [congruence|]. reflexivity. }
  destruct Hstart as [rest Hstart].
  assert (Hd : d = startDriver g sorted K).
  { unfold d, executeTasksWithConcurrencyLimit. apply runSchedule_stuck.
    eapply resumable_parked. rewrite Hstart. reflexivity. }
  rewrite Hd, Hstart. simpl. auto.
Qed.

(** ** The error of the builder, and the levels [visualizeGraph] uses *)

Lemma forEachM_first_error {A S : Type} (f : S -> A -> S + Error)
  (l : list A) :
  forall s e, forEachM f l s = inr e ->
  exists pre x post s1,
    l = pre ++ x :: post /\ forEachM f pre s = inl s1 /\ f s1 x = inr e.
Proof.
  induction l as [|x l IH]; intros s e H; simpl in H; [discriminate|].
  destruct (f s x) as [s'|e'] eqn:E.
  - destruct (IH _ _ H) as (pre & y & post & s1 & El & Epre & Ey).
    exists (x :: pre), y, post, s1. simpl. rewrite E, El. auto.
  - injection H as <-. exists [], x, l, s. auto.
Qed.

Lemma linkAll_error (taskId : string) (deps : list string) :
  forall g e, forEachM (linkDependency taskId) deps g = inr e ->
  In taskId (nodeIds g) ->
  exists dep, In dep deps /\ e = DependencyNotFound dep taskId /\
              ~ In dep (nodeIds g).
Proof.
  intros g e H Hin.
  destruct (forEachM_first_error _ _ _ _ H)
    as (pre & dep & post & g1 & El & Epre & Ed).
  destruct (linkAll_dependencies _ _ _ _ Hin Epre) as [Hids _].
  apply linkDependency_error in Ed. destruct Ed as [-> Hnot].
  exists dep. split; [rewrite El; apply in_or_app; right; left; reflexivity|].
  split; [reflexivity|]. rewrite <- Hids. exact Hnot.
Qed.

Lemma addTask_error (g : Graph) (t : Task) (e : Error) :
  addTask g t = inr e ->
  exists dep, In dep (orElse (dependencies t) []) /\
              e = DependencyNotFound dep (id t) /\
              ~ In dep (nodeIds g) /\ dep <> id t.
Proof.
  unfold addTask. intros H.
  destruct (dependencies t) as [deps|]; [|discriminate].
  set (g1 := match get g (id t) with
             | Some _ => g
             | None => g ++ [newGraphNode t]
             end) in H.
  assert (Hsub : forall k, In k (nodeIds g) \/ k = id t -> In k (nodeIds g1)).
  { intros k Hk. unfold g1. destruct (get g (id t)) eqn:E.
    - destruct Hk as [Hk| ->]; [exact Hk|]. apply get_Some_iff. eauto.
    - unfold nodeIds. rewrite map_app. apply in_or_app.
      destruct Hk as [Hk| ->]; [left; exact Hk|right; left; reflexivity]. }
  destruct (linkAll_error _ _ _ _ H) as (dep & Hd & -> & Hnot);
    [apply Hsub; right; reflexivity|].
  exists dep. simpl. split; [exact Hd|]. split; [reflexivity|].
  split; intros Hk; apply Hnot, Hsub; auto.
Qed.

(** The error of the builder names a dependency that is really missing where
    the child is added. *)
Lemma buildGraph_error_precise (tasks : list Task) (e : Error) :
  buildGraph tasks = inr e ->
  exists pre t post dep,
    tasks = pre ++ t :: post /\ e = DependencyNotFound dep (id t) /\
    In dep (orElse (dependencies t) []) /\
    ~ In dep (map id (pre ++ [t])) /\
    exists g1, buildGraph pre = inl g1.
Proof.
  intros H.
  destruct (forEachM_first_error _ _ _ _ H)
    as (pre & t & post & g1 & El & Epre & Et).
  destruct (addTask_error _ _ _ Et) as (dep & Hd & -> & Hnot & Hne).
  exists pre, t, post, dep. split; [exact El|]. split; [reflexivity|].
  split; [exact Hd|]. split; [|exists g1; exact Epre].
  rewrite map_app. simpl. intros Hin. apply in_app_or in Hin.
  destruct Hin as [Hin|[Hin|[]]]; [|congruence].
  apply Hnot. apply (buildGraph_ids pre g1 Epre). exact Hin.
Qed.

Lemma max2_plusOne (a b : JsNumber) :
  max2 (plusOne a) (plusOne b) = plusOne (max2 a b).
Proof.
  destruct a as [| |x], b as [| |y]; simpl; try reflexivity.
  f_equal. lia.
Qed.

Lemma mathMax_plusOne (xs : list JsNumber) :
  mathMax (map plusOne xs) = plusOne (mathMax xs).
Proof.
  unfold mathMax. change NegInfinity with (plusOne NegInfinity) at 1.
  generalize NegInfinity. induction xs as [|x xs IH]; intros a; simpl;
    [reflexivity|].
  rewrite max2_plusOne. apply IH.
Qed.

Lemma assignLevelById_eq (g : Graph) (lv : Levels) (k : string) :
  assignLevelById g lv k = assignLevel g lv k.
Proof.
  unfold assignLevelById, assignLevel.
  destruct (dependenciesOf g k) as [|d ds]; [reflexivity|].
  cbv zeta. f_equal.
  rewrite <- mathMax_plusOne, map_map. reflexivity.
Qed.

Lemma assignLevelsOf_fold (g : Graph) (l : list string) :
  forall lv, fold_left (assignLevelById g) l lv
             = fold_left (assignLevel g) l lv.
Proof.
  induction l as [|k l IH]; intros lv; simpl; [reflexivity|].
  rewrite assignLevelById_eq. apply IH.
Qed.

(* ===================================================================== *)
(** * Further properties of the engine *)
(* ===================================================================== *)

(** X1.  Whatever descriptors [addTask] has accepted, the graph has one
    node per key, the [inDegree] of a node is the number of entries of its
    dependency list, a node occurs in the dependency list of another as
    often as that one occurs in its dependents list, and both lists only
    name nodes of the graph. *)
Theorem X1_addTask_keeps_edges_mirrored (tasks : list Task) (g : Graph) :
  buildGraph tasks = inl g ->
  NoDup (nodeIds g) /\
  (forall k, inDegreeOf g k = Z.of_nat (List.length (dependenciesOf g k))) /\
  (forall a b, count_occ string_dec (dependenciesOf g b) a
               = count_occ string_dec (dependentsOf g a) b) /\
  (forall k d, In d (dependenciesOf g k) -> In d (nodeIds g)) /\
  (forall k c, In c (dependentsOf g k) -> In c (nodeIds g)).
Proof.
  intros H. exact (buildGraph_linked tasks g H).
Qed.

Lemma X1_witness :
  let g := builtGraph chainTasks in
  NoDup (nodeIds g) /\
  (forall k, inDegreeOf g k = Z.of_nat (List.length (dependenciesOf g k))) /\
  (forall a b, count_occ string_dec (dependenciesOf g b) a
               = count_occ string_dec (dependentsOf g a) b) /\
  (forall k d, In d (dependenciesOf g k) -> In d (nodeIds g)) /\
  (forall k c, In c (dependentsOf g k) -> In c (nodeIds g)).
Proof.
  intros g. apply (X1_addTask_keeps_edges_mirrored chainTasks g).
  vm_compute. reflexivity.
Defined.

(** X2.  When [build] rejects with "Dependency dep not found for task k",
    some descriptor with id [k] declares [dep], [dep] is neither [k] nor the
    id of a descriptor listed before it, and every descriptor before it was
    added without error. *)
Theorem X2_missing_dependency_error_is_precise
  (now : string -> Clock) (config : SequenceConfig) (tasks : list Task)
  (schedule : list nat) (dep k : string) :
  buildPromise (build now config tasks schedule)
  = RejectedWith (DependencyNotFound dep k) ->
  exists pre t post,
    tasks = pre ++ t :: post /\ id t = k /\
    In dep (orElse (dependencies t) []) /\
    ~ In dep (map id (pre ++ [t])) /\
    exists g1, buildGraph pre = inl g1.
Proof.
  unfold build.
  destruct (buildGraph tasks) as [g0|e] eqn:Eb.
  - destruct (topologicalSortWithPriority g0) as [[g sorted]|e] eqn:Es.
    + destruct (promise _); simpl; discriminate.
    + simpl. rewrite (topologicalSort_error _ _ Es). discriminate.
  - simpl. intros H. injection H as ->.
    destruct (buildGraph_error_precise _ _ Eb)
      as (pre & t & post & dep' & El & Ee & Hd & Hnot & Hpre).
    injection Ee as -> ->.
    exists pre, t, post. auto.
Qed.

Lemma X2_witness :
  exists pre t post,
    childFirstTasks = pre ++ t :: post /\ id t = "B" /\
    In "A" (orElse (dependencies t) []) /\
    ~ In "A" (map id (pre ++ [t])) /\
    exists g1, buildGraph pre = inl g1.
Proof.
  apply (X2_missing_dependency_error_is_precise sampleClock defaultConfig
           childFirstTasks [] "A" "B").
  vm_compute. reflexivity.
Defined.

(** X3.  On a graph built by [addTask] the planner returns a plan exactly
    when some order of all the nodes puts every node after its
    dependencies; otherwise it throws "Graph has at least one cycle", and
    it throws nothing else. *)
Theorem X3_cycle_error_exactly_when_no_order (tasks : list Task) (g : Graph) :
  buildGraph tasks = inl g ->
  ((exists g' sorted, topologicalSortWithPriority g = inl (g', sorted)) <->
   (exists l, Permutation l (nodeIds g) /\ dependencyRespecting g l)) /\
  (forall e, topologicalSortWithPriority g = inr e -> e = GraphHasCycle).
Proof.
  intros Hb. pose proof (buildGraph_linked _ _ Hb) as Hl. split.
  - split.
    + intros (g' & sorted & Hs).
      destruct (topologicalSort_sound _ _ _ Hl Hs) as (Hperm & _ & Hord & _).
      exists sorted. auto.
    + intros (l & Hperm & Hord).
      apply (sort_complete_general g l Hl); [|exact Hord].
      intros k Hk. apply (Permutation_in _ (Permutation_sym Hperm)). exact Hk.
  - intros e. apply topologicalSort_error.
Qed.

Lemma X3_witness :
  let g := builtGraph chainTasks in
  ((exists g' sorted, topologicalSortWithPriority g = inl (g', sorted)) <->
   (exists l, Permutation l (nodeIds g) /\ dependencyRespecting g l)) /\
  (forall e, topologicalSortWithPriority g = inr e -> e = GraphHasCycle).
Proof.
  intros g. apply (X3_cycle_error_exactly_when_no_order chainTasks g).
  vm_compute. reflexivity.
Defined.

Lemma declaredDependencies_In (tasks : list Task) (t : Task) (d : string) :
  In t tasks -> In d (orElse (dependencies t) []) ->
  In d (declaredDependencies tasks (id t)).
Proof.
  intros Ht Hd. unfold declaredDependencies. apply in_flat_map.
  exists t. split; [exact Ht|]. rewrite String.eqb_refl. exact Hd.
Qed.

Lemma declaredDependencies_none (tasks : list Task) (k : string) :
  (forall t, In t tasks -> orElse (dependencies t) [] = []) ->
  declaredDependencies tasks k = [].
Proof.
  intros H. induction tasks as [|t tasks IH]; simpl; [reflexivity|].
  rewrite IH by (intros t' Ht'; apply H; right; exact Ht').
  rewrite (H t) by (left; reflexivity).
  destruct (String.eqb (id t) k); reflexivity.
Qed.

Lemma forEachM_addTask_nodeps (tasks : list Task) :
  (forall t, In t tasks -> orElse (dependencies t) [] = []) ->
  forall g, exists g', forEachM addTask tasks g = inl g'.
Proof.
  induction tasks as [|t tasks IH]; intros H g; simpl; [eauto|].
  assert (E : exists g1, addTask g t = inl g1).
  { unfold addTask. pose proof (H t (or_introl eq_refl)) as Ht.
    destruct (dependencies t) as [deps|]; [|eauto].
    simpl in Ht. subst deps. simpl. eauto. }
  destruct E as [g1 E]. rewrite E. apply IH.
  intros t' Ht'. apply H. right. exact Ht'.
Qed.

(** X4.  When the ids are distinct and no descriptor lists itself as a
    dependency, [build] never rejects with the cycle error: once [addTask]
    has accepted every descriptor the plan is made and the driver
    starts. *)
Theorem X4_distinct_ids_never_cycle
  (now : string -> Clock) (config : SequenceConfig) (tasks : list Task)
  (schedule : list nat) :
  NoDup (map id tasks) ->
  (forall t, In t tasks -> ~ In (id t) (orElse (dependencies t) [])) ->
  buildPromise (build now config tasks schedule) <> RejectedWith GraphHasCycle
  /\
  (forall g, buildGraph tasks = inl g ->
     exists d, driver (build now config tasks schedule) = Some d).
Proof.
  intros Hnd Hself.
  assert (Hstart : forall g, buildGraph tasks = inl g ->
            exists d, driver (build now config tasks schedule) = Some d).
  { intros g Hb. apply build_ordered.
    apply (accepted_distinct_ordered tasks emptyGraph g Hb linked_empty);
      assumption. }
  split; [|exact Hstart].
  destruct (buildGraph tasks) as [g|e] eqn:Eb.
  - destruct (Hstart g eq_refl) as [d Hd].
    pose proof (build_outcome _ _ _ _ _ Hd) as Hout.
    destruct (promise d); [rewrite Hout; discriminate| |];
      destruct Hout as [-> _]; discriminate.
  - rewrite (build_unstarted now config tasks schedule e Eb). simpl.
    destruct (forEachM_addTask_error _ _ _ Eb) as (dep & k & ->).
    discriminate.
Qed.

Lemma X4_witness :
  buildPromise (build sampleClock defaultConfig chainTasks [0%nat])
  <> RejectedWith GraphHasCycle /\
  (forall g, buildGraph chainTasks = inl g ->
     exists d, driver (build sampleClock defaultConfig chainTasks [0%nat])
               = Some d).
Proof.
  apply (X4_distinct_ids_never_cycle sampleClock defaultConfig chainTasks
           [0%nat]).
  - simpl. repeat constructor; simpl; intros H;
      repeat (destruct H as [H|H]; [discriminate H|]); exact H.
  - intros t [<-|[<-|[<-|[]]]]; simpl; intros H;
      repeat (destruct H as [H|H]; [discriminate H|]); exact H.
Defined.

(** X5.  A descriptor that lists its own id as a dependency stops [build]
    before the driver exists: when [addTask] accepts the list the planner
    throws the cycle error, and no action is run. *)
Theorem X5_self_dependency_is_a_cycle
  (now : string -> Clock) (config : SequenceConfig) (tasks : list Task)
  (schedule : list nat) (t : Task) :
  In t tasks -> In (id t) (orElse (dependencies t) []) ->
  driver (build now config tasks schedule) = None /\
  exists e, buildPromise (build now config tasks schedule) = RejectedWith e /\
    (forall g, buildGraph tasks = inl g -> e = GraphHasCycle).
Proof.
  intros Ht Hself. unfold build.
  destruct (buildGraph tasks) as [g|e] eqn:Eb.
  - assert (Hs : topologicalSortWithPriority g = inr GraphHasCycle).
    { apply (self_dependency_cycle g (id t) (buildGraph_linked _ _ Eb)).
      rewrite (buildGraph_dependencies _ _ Eb).
      apply declaredDependencies_In; assumption. }
    rewrite Hs. simpl. split; [reflexivity|].
    exists GraphHasCycle. auto.
  - simpl. split; [reflexivity|]. exists e. split; [reflexivity|].
    intros g H. discriminate H.
Qed.

Lemma X5_witness :
  let selfTasks := [descriptor "A" ["A"] (constant (Str "a")) 0 0 Continue 0]
  in
  driver (build sampleClock defaultConfig selfTasks [0%nat]) = None /\
  exists e,
    buildPromise (build sampleClock defaultConfig selfTasks [0%nat])
    = RejectedWith e /\
    (forall g, buildGraph selfTasks = inl g -> e = GraphHasCycle).
Proof.
  intros selfTasks.
  apply (X5_self_dependency_is_a_cycle sampleClock defaultConfig selfTasks
           [0%nat] (descriptor "A" ["A"] (constant (Str "a")) 0 0 Continue 0)).
  - left. reflexivity.
  - simpl. left. reflexivity.
Defined.

(** X6.  The planner uses up the [inDegree] counters: in the graph a
    successful call leaves, every counter is 0, and a second call on that
    graph returns all the nodes ordered by priority alone, in map order
    among equals, whatever the dependencies are. *)
Theorem X6_second_sort_ignores_dependencies
  (tasks : list Task) (g g' : Graph) (sorted : list string) :
  buildGraph tasks = inl g ->
  topologicalSortWithPriority g = inl (g', sorted) ->
  (forall n, In n g' -> inDegree n = 0) /\
  (forall k, dependenciesOf g' k = dependenciesOf g k) /\
  exists g'', topologicalSortWithPriority g'
              = inl (g'', sortByPriority g (nodeIds g)).
Proof.
  intros Hb Hs. pose proof (buildGraph_linked _ _ Hb) as Hl.
  destruct (sort_consumes_inDegree _ _ _ Hl Hs) as [He Hzero].
  split; [exact Hzero|].
  destruct He as (Hids & Hdeps & Hdpts & Hprio).
  split; [exact Hdeps|].
  destruct (sort_priority_only g' Hzero) as [g'' E].
  - intros k c Hc. rewrite Hids. rewrite Hdpts in Hc.
    destruct Hl as (_ & _ & _ & _ & Hin). eapply Hin. exact Hc.
  - exists g''. rewrite E, Hids.
    rewrite (sortByPriority_ext g g' _ Hprio). reflexivity.
Qed.

Lemma X6_witness :
  let g := builtGraph chainTasks in
  let g' := plannedGraph chainTasks in
  (forall n, In n g' -> inDegree n = 0) /\
  (forall k, dependenciesOf g' k = dependenciesOf g k) /\
  exists g'', topologicalSortWithPriority g'
              = inl (g'', sortByPriority g (nodeIds g)).
Proof.
  intros g g'.
  apply (X6_second_sort_ignores_dependencies chainTasks g g'
           (plannedOrder chainTasks)).
  - vm_compute. reflexivity.
  - vm_compute. reflexivity.
Defined.

(** X7.  Descriptors without dependencies are always accepted and planned,
    and their plan is their map order sorted by descending priority: a
    higher priority comes first, and of two nodes of equal priority the one
    added first. *)
Theorem X7_independent_tasks_run_by_priority (tasks : list Task) :
  (forall t, In t tasks -> orElse (dependencies t) [] = []) ->
  let g := builtGraph tasks in
  isPlanned tasks = true /\
  plannedOrder tasks = sortByPriority g (nodeIds g) /\
  descending g (plannedOrder tasks) /\
  (forall x y, before (plannedOrder tasks) x y ->
     priorityOf g x = priorityOf g y -> before (nodeIds g) x y).
Proof.
  intros Hnone g.
  destruct (forEachM_addTask_nodeps tasks Hnone emptyGraph) as [g0 Eb].
  assert (Eg : g = g0) by (unfold g, builtGraph, buildGraph; rewrite Eb;
                           reflexivity).
  pose proof (buildGraph_linked tasks g0 Eb) as Hl.
  assert (Hzero : forall n, In n g0 -> inDegree n = 0).
  { intros n Hn. destruct Hl as (Hnd & Hdeg & _).
    pose proof (Hdeg (nodeId n)) as H. unfold inDegreeOf in H.
    rewrite (get_In _ _ Hnd Hn) in H. rewrite H.
    rewrite (buildGraph_dependencies _ _ Eb).
    rewrite declaredDependencies_none by exact Hnone. reflexivity. }
  destruct (sort_priority_only g0 Hzero) as [g' Es].
  { destruct Hl as (_ & _ & _ & _ & Hin). exact Hin. }
  assert (Ep : plannedOrder tasks = sortByPriority g0 (nodeIds g0)).
  { unfold plannedOrder, buildGraph. rewrite Eb, Es. reflexivity. }
  rewrite Eg, Ep. split.
  - unfold isPlanned, buildGraph. rewrite Eb, Es. reflexivity.
  - split; [reflexivity|]. split; [apply sortByPriority_descending|].
    apply sortByPriority_stable.
Qed.

Lemma X7_witness :
  let g := builtGraph rootTasks in
  isPlanned rootTasks = true /\
  plannedOrder rootTasks = sortByPriority g (nodeIds g) /\
  descending g (plannedOrder rootTasks) /\
  (forall x y, before (plannedOrder rootTasks) x y ->
     priorityOf g x = priorityOf g y -> before (nodeIds g) x y).
Proof.
  apply (X7_independent_tasks_run_by_priority rootTasks).
  intros t [<-|[<-|[<-|[]]]]; reflexivity.
Defined.

(** X8.  The level the driver gives a node is fixed by its dependencies: a
    node without dependencies is at level 0; any other node is exactly one
    level above the highest of its dependencies, that is, every dependency
    is at a lower level and one of them is at the level just below; and
    every level from 0 up to the level of a node has a node, so the [for]
    loop of the driver meets no empty level. *)
Theorem X8_level_is_one_above_highest_parent
  (now : string -> Clock) (config : SequenceConfig) (tasks : list Task)
  (schedule : list nat) (d : Driver) (c : string) :
  driver (build now config tasks schedule) = Some d ->
  In c (plan d) ->
  (dependenciesOf (graph d) c = [] -> levelAt (nodeLevels d) c = 0) /\
  (dependenciesOf (graph d) c <> [] ->
   exists p, In p (dependenciesOf (graph d) c) /\
     levelAt (nodeLevels d) c = levelAt (nodeLevels d) p + 1) /\
  (forall p, In p (dependenciesOf (graph d) c) ->
     levelAt (nodeLevels d) p + 1 <= levelAt (nodeLevels d) c) /\
  (forall l, 0 <= l <= levelAt (nodeLevels d) c ->
     nodesAtLevel (plan d) (nodeLevels d) l <> []).
Proof.
  intros Hd Hc.
  destruct (build_invariant _ _ _ _ _ Hd) as (Hp & _ & _ & [Hcore _ _]).
  rewrite (inv_plan _ _ _ _ _ Hcore) in *.
  rewrite (inv_levels _ _ _ _ _ Hcore).
  rewrite (sameStatic_dependencies _ _ c (inv_static _ _ _ _ _ Hcore)).
  destruct (level_tight _ _ c Hp Hc) as [Hroot Hstep].
  split; [exact Hroot|]. split; [exact Hstep|].
  split.
  { intros p Hedge. destruct (plan_levels _ _ Hp) as (_ & Hlt & _).
    specialize (Hlt c p Hc Hedge). lia. }
  intros l Hl.
  destruct (plan_levels _ _ Hp) as (Hlev & _).
  destruct (Hlev c Hc) as (z & Ez & Hz & _).
  rewrite (levelAt_Some _ _ _ Ez) in Hl.
  destruct (levels_inhabited_below _ _ Hp (Z.to_nat z) c l Hc)
    as (k & Hk & Hkl); [rewrite (levelAt_Some _ _ _ Ez); lia|lia|].
  destruct (Hlev k Hk) as (zk & Ezk & _).
  rewrite (levelAt_Some _ _ _ Ezk) in Hkl. subst zk.
  intros Hnil.
  assert (Hin : In k (nodesAtLevel (plannedOrder tasks)
                        (assignLevels (plannedGraph tasks)
                           (plannedOrder tasks)) l))
    by (apply nodesAtLevel_In; auto).
  rewrite Hnil in Hin. contradiction.
Qed.

Lemma X8_witness :
  let d := driverOf (build sampleClock defaultConfig chainTasks [0%nat]) in
  (dependenciesOf (graph d) "C" = [] -> levelAt (nodeLevels d) "C" = 0) /\
  (dependenciesOf (graph d) "C" <> [] ->
   exists p, In p (dependenciesOf (graph d) "C") /\
     levelAt (nodeLevels d) "C" = levelAt (nodeLevels d) p + 1) /\
  (forall p, In p (dependenciesOf (graph d) "C") ->
     levelAt (nodeLevels d) p + 1 <= levelAt (nodeLevels d) "C") /\
  (forall l, 0 <= l <= levelAt (nodeLevels d) "C" ->
     nodesAtLevel (plan d) (nodeLevels d) l <> []).
Proof.
  intros d.
  apply (X8_level_is_one_above_highest_parent sampleClock defaultConfig
           chainTasks [0%nat] d "C").
  - vm_compute. reflexivity.
  - vm_compute. auto.
Defined.

(** X9.  The function [assignLevels] that [visualizeGraph] calls throws
    exactly when the planner does, and on a freshly built graph the levels
    it returns are the levels the driver of [build] works with. *)
Theorem X9_assignLevels_agrees_with_driver (tasks : list Task) (g : Graph) :
  buildGraph tasks = inl g ->
  (forall e, assignLevelsOf g = inr e <->
             topologicalSortWithPriority g = inr e) /\
  (forall g' lv, assignLevelsOf g = inl (g', lv) ->
     (exists sorted, topologicalSortWithPriority g = inl (g', sorted) /\
                     lv = assignLevels g' sorted) /\
     (forall now config schedule d,
        driver (build now config tasks schedule) = Some d ->
        nodeLevels d = lv)).
Proof.
  intros Hb. unfold assignLevelsOf.
  destruct (topologicalSortWithPriority g) as [[g1 sorted]|e0] eqn:Es.
  - split; [intros e; split; discriminate|].
    intros g' lv Ha. injection Ha as <- <-. rewrite assignLevelsOf_fold.
    split; [exists sorted; split; reflexivity|].
    intros now config schedule d Hd.
    destruct (build_invariant _ _ _ _ _ Hd) as (_ & _ & _ & [Hcore _ _]).
    rewrite (inv_levels _ _ _ _ _ Hcore).
    unfold plannedGraph, plannedOrder. rewrite Hb, Es. reflexivity.
  - split.
    + intros e; split; intros H; injection H as ->; reflexivity.
    + intros g' lv Ha. discriminate Ha.
Qed.

Lemma X9_witness :
  let g := builtGraph chainTasks in
  let lv := [("A", Int 0); ("B", Int 1); ("C", Int 2)] in
  (exists sorted,
     topologicalSortWithPriority g = inl (plannedGraph chainTasks, sorted) /\
     lv = assignLevels (plannedGraph chainTasks) sorted) /\
  (forall now config schedule d,
     driver (build now config chainTasks schedule) = Some d ->
     nodeLevels d = lv).
Proof.
  intros g lv.
  apply (proj2 (X9_assignLevels_agrees_with_driver chainTasks g
                  ltac:(vm_compute; reflexivity))
           (plannedGraph chainTasks) lv).
  vm_compute. reflexivity.
Defined.

(** X10.  On a semaphore of capacity [K >= 0] used by the protocol of the
    driver the counter stays between 0 and [K], and nobody waits while a
    permit is free: when the queue is not empty the counter is 0 and all
    [K] permits are out. *)
Theorem X10_nobody_waits_while_a_permit_is_free
  (K : Z) (ops : list GateOp) (gt : Gate) :
  0 <= K -> gateRun ops (newGate K) = Some gt ->
  0 <= counter (gateSemaphore gt) <= K /\
  (tasks (gateSemaphore gt) <> [] ->
   counter (gateSemaphore gt) = 0 /\
   Z.of_nat (List.length (permitHolders gt)) = K).
Proof.
  intros HK Hrun.
  assert (Hinv : gateInvariant K gt).
  { eapply gateRun_invariant; [|exact Hrun]. apply newGate_invariant.
    exact HK. }
  destruct Hinv as (Hpos & Hsum & Hzero & _).
  split; [lia|]. intros Hq. specialize (Hzero Hq). lia.
Qed.

Lemma X10_witness :
  let gt := {| gateSemaphore := {| tasks := ["C"]; counter := 0 |};
               permitHolders := ["B"]; arrivals := ["A"; "B"; "C"];
               admissions := ["A"; "B"] |} in
  0 <= counter (gateSemaphore gt) <= 1 /\
  (tasks (gateSemaphore gt) <> [] ->
   counter (gateSemaphore gt) = 0 /\
   Z.of_nat (List.length (permitHolders gt)) = 1).
Proof.
  intros gt.
  apply (X10_nobody_waits_while_a_permit_is_free 1
           [Acquire "A"; Acquire "B"; Acquire "C"; Release "A"] gt).
  - lia.
  - vm_compute. reflexivity.
Defined.

(** X11.  With [maxConcurrency] 0 or negative, which [?? 2] does not
    replace, a sequence with at least one task never settles: every closure
    of the first level waits on the semaphore, no action is ever called,
    and the promise of [build] stays pending whatever the environment
    does. *)
Theorem X11_no_permit_never_settles
  (now : string -> Clock) (config : SequenceConfig) (tasks : list Task)
  (schedule : list nat) :
  isPlanned tasks = true -> tasks <> [] -> concurrencyOf config <= 0 ->
  buildPromise (build now config tasks schedule) = Pending /\
  trace (driverOf (build now config tasks schedule)) = [] /\
  running (driverOf (build now config tasks schedule)) = [].
Proof.
  intros Hpl Hne HK.
  destruct (build_started now config tasks schedule Hpl) as [Hp Hd].
  assert (Hs : plannedOrder tasks <> []).
  { unfold isPlanned in Hpl. unfold plannedOrder.
    destruct (buildGraph tasks) as [g0|e] eqn:Eb; [|discriminate].
    destruct (topologicalSortWithPriority g0) as [[g sorted]|e] eqn:Es;
      [|discriminate].
    destruct (topologicalSort_sound _ _ _ (buildGraph_linked _ _ Eb) Es)
      as (Hperm & _).
    intros ->. apply Permutation_nil in Hperm.
    destruct tasks as [|t tasks']; [congruence|].
    assert (Hin : In (id t) (nodeIds g0))
      by (apply (buildGraph_ids _ _ Eb); left; reflexivity).
    rewrite Hperm in Hin. contradiction. }
  destruct (no_permit_hang now _ _ (concurrencyOf config) schedule Hp Hs HK)
    as (H1 & H2 & _ & H4).
  pose proof (build_outcome _ _ _ _ _ Hd) as Hout. rewrite H1 in Hout.
  split; [exact Hout|]. unfold driverOf. rewrite Hd.
  split; [exact H2|]. unfold running. rewrite H4. clear H4.
  induction (nodesAtLevel _ _ _) as [|k ks IH]; simpl; [reflexivity|exact IH].
Qed.

Lemma X11_witness :
  let config := {| verbose := None; maxConcurrency := Some 0 |} in
  buildPromise (build sampleClock config chainTasks [0; 1; 2]%nat) = Pending /\
  trace (driverOf (build sampleClock config chainTasks [0; 1; 2]%nat)) = [] /\
  running (driverOf (build sampleClock config chainTasks [0; 1; 2]%nat)) = [].
Proof.
  intros config.
  apply (X11_no_permit_never_settles sampleClock config chainTasks
           [0; 1; 2]%nat).
  - vm_compute. reflexivity.
  - discriminate.
  - vm_compute. discriminate.
Defined.

(** X12.  Once the plan is made the promise of [build] never rejects, and
    with at least one permit it is fulfilled as soon as the environment has
    made as many moves as the budget of the plan (one move per task and two
    per attempt its retry count allows): [build] cannot hang. *)
Theorem X12_build_resolves_within_budget
  (now : string -> Clock) (config : SequenceConfig) (tasks : list Task)
  (schedule : list nat) :
  isPlanned tasks = true ->
  (forall e, buildPromise (build now config tasks schedule)
             <> RejectedWith e) /\
  (1 <= concurrencyOf config ->
   (driverBudget (plannedGraph tasks) (plannedOrder tasks)
    <= List.length schedule)%nat ->
   buildPromise (build now config tasks schedule) = Fulfilled).
Proof.
  intros Hpl.
  destruct (build_started now config tasks schedule Hpl) as [Hp Hd].
  pose proof (build_outcome _ _ _ _ _ Hd) as Hout.
  split.
  - intros e. destruct (promise _); [rewrite Hout; discriminate| |];
      destruct Hout as [-> _]; discriminate.
  - intros HK Hlen.
    pose proof (driver_settles now _ _ _ Hp HK schedule Hlen) as Hset.
    destruct (promise _); [congruence| |]; destruct Hout as [-> _];
      reflexivity.
Qed.

Lemma X12_witness :
  (forall e, buildPromise (build sampleClock defaultConfig abortTasks
                             [0; 0; 0; 0; 0; 0]%nat)
             <> RejectedWith e) /\
  buildPromise (build sampleClock defaultConfig abortTasks
                  [0; 0; 0; 0; 0; 0]%nat) = Fulfilled.
Proof.
  destruct (X12_build_resolves_within_budget sampleClock defaultConfig
              abortTasks [0; 0; 0; 0; 0; 0]%nat) as [H1 H2].
  - vm_compute. reflexivity.
  - split; [exact H1|]. apply H2.
    + vm_compute. discriminate.
    + vm_compute. repeat constructor.
Defined.

(** X13.  The artifacts of a fulfilled run do not depend on the
    interleaving: two runs of the same descriptors that are both fulfilled,
    under any two schedules, clocks and concurrency limits, leave the same
    artifact on every task. *)
Theorem X13_artifacts_do_not_depend_on_the_schedule
  (now1 now2 : string -> Clock) (config1 config2 : SequenceConfig)
  (tasks : list Task) (schedule1 schedule2 : list nat) (d1 d2 : Driver) :
  driver (build now1 config1 tasks schedule1) = Some d1 ->
  driver (build now2 config2 tasks schedule2) = Some d2 ->
  promise d1 = Fulfilled -> promise d2 = Fulfilled ->
  forall k, artifactOf (graph d1) k = artifactOf (graph d2) k.
Proof.
  intros H1 H2 Hf1 Hf2 k.
  destruct (build_invariant _ _ _ _ _ H1) as (Hp & Hperm & _ & Hi1).
  destruct (build_invariant _ _ _ _ _ H2) as (_ & _ & _ & Hi2).
  destruct (in_dec string_dec k (plannedOrder tasks)) as [Hk|Hk].
  - eapply artifacts_schedule_independent; eauto.
  - pose proof (inv_static _ _ _ _ _ (inv_core _ _ _ _ _ Hi1)) as Hs1.
    pose proof (inv_static _ _ _ _ _ (inv_core _ _ _ _ _ Hi2)) as Hs2.
    assert (Hnone : forall gr, sameStatic (plannedGraph tasks) gr ->
              artifactOf gr k = Undefined).
    { intros gr Hs. unfold artifactOf.
      destruct (get gr k) as [n|] eqn:E; [|reflexivity].
      exfalso. apply Hk. apply (Permutation_in _ (Permutation_sym Hperm)).
      rewrite <- (sameStatic_ids _ _ Hs). apply get_Some_iff. eauto. }
    rewrite (Hnone _ Hs1), (Hnone _ Hs2). reflexivity.
Qed.

Lemma X13_witness :
  let d1 := driverOf (build sampleClock defaultConfig rootTasks
                        [0; 0; 0; 0; 0; 0]%nat) in
  let d2 := driverOf (build sampleClock serialConfig rootTasks
                        [2; 1; 0; 1; 0; 0]%nat) in
  artifactOf (graph d1) "A" = artifactOf (graph d2) "A" /\
  artifactOf (graph d1) "B" = artifactOf (graph d2) "B" /\
  artifactOf (graph d1) "C" = artifactOf (graph d2) "C".
Proof.
  intros d1 d2.
  assert (H : forall k, artifactOf (graph d1) k = artifactOf (graph d2) k).
  { apply (X13_artifacts_do_not_depend_on_the_schedule sampleClock
             sampleClock defaultConfig serialConfig rootTasks
             [0; 0; 0; 0; 0; 0]%nat [2; 1; 0; 1; 0; 0]%nat d1 d2).
    - vm_compute. reflexivity.
    - vm_compute. reflexivity.
    - vm_compute. reflexivity.
    - vm_compute. reflexivity. }
  split; [apply H|]. split; apply H.
Defined.

(** X14.  With arguments that can be logged, the runner stops at the first
    attempt that resolves with a value that can be logged: when the
    attempts before attempt [k <= retryCount] are rejected with an error
    and attempt [k] resolves with such a [v], the action is called exactly
    [k + 1] times, the runner sleeps exactly [k] times and returns [v]. *)
Theorem X14_runner_stops_at_first_success
  (now : Clock) (t : Task) (args : list any) (k : Z) (v : any) :
  logArgsThrows args = false -> logThrows v = false ->
  0 <= k <= orElse (retryCount t) 0 ->
  (forall j, 0 <= j < k -> exists m, action t j args = Rejected m) ->
  action t k args = Resolved v ->
  let es := scriptEvents (executeTaskWithRetries now t args) in
  scriptResult (executeTaskWithRetries now t args) = inl v /\
  Z.of_nat (List.length (invocations es)) = k + 1 /\
  Z.of_nat (List.length (delays es)) = k.
Proof.
  intros Hlog Hv Hk Hrej Hok es.
  unfold es, executeTaskWithRetries, retryFuel.
  destruct (retryLoop_first_success now t args k v
              (Z.to_nat (orElse (retryCount t) 0 + 1)) Hlog Hv 0)
    as (H1 & H2 & H3); [lia|lia|exact Hrej|exact Hok|].
  split; [exact H1|]. split; lia.
Qed.

Lemma X14_witness :
  let es := scriptEvents (executeTaskWithRetries (sampleClock "T")
                            recoveringTask []) in
  scriptResult (executeTaskWithRetries (sampleClock "T") recoveringTask [])
  = inl (Str "ok") /\
  Z.of_nat (List.length (invocations es)) = 1 + 1 /\
  Z.of_nat (List.length (delays es)) = 1.
Proof.
  apply (X14_runner_stops_at_first_success (sampleClock "T") recoveringTask
           [] 1 (Str "ok")).
  - reflexivity.
  - reflexivity.
  - simpl. lia.
  - intros j Hj. exists "boom". assert (j = 0) by lia. subst j. reflexivity.
  - reflexivity.
Defined.

(** X15.  A negative retry count skips the task: the loop is not entered,
    the action is never called, no status and no metrics are written, and
    the runner returns [undefined], which the driver stores as the
    artifact. *)
Theorem X15_negative_retryCount_skips_the_action
  (now : string -> Clock) (g : Graph) (node : GraphNode) (args : list any) :
  orElse (retryCount (task node)) 0 < 0 ->
  scriptEvents (executeTaskWithRetries (now (nodeId node)) (task node) args)
  = [] /\
  scriptResult (executeTaskWithRetries (now (nodeId node)) (task node) args)
  = inl Undefined /\
  scriptEvents (launchBody now g node) = [SetArtifact (nodeId node) Undefined]
  /\ scriptResult (launchBody now g node) = inl Undefined.
Proof.
  intros Hr.
  assert (E : forall a, executeTaskWithRetries (now (nodeId node)) (task node) a
                        = Return Undefined).
  { intros a. unfold executeTaskWithRetries, retryFuel.
    replace (Z.to_nat (orElse (retryCount (task node)) 0 + 1)) with 0%nat
      by lia.
    reflexivity. }
  rewrite E. split; [reflexivity|]. split; [reflexivity|].
  unfold launchBody. rewrite E. simpl. auto.
Qed.

Lemma X15_witness :
  let t := descriptor "T" [] (constant (Str "never")) (-1) 0 Continue 0 in
  scriptEvents (executeTaskWithRetries (sampleClock "T") t []) = [] /\
  scriptResult (executeTaskWithRetries (sampleClock "T") t [])
  = inl Undefined /\
  scriptEvents (launchBody sampleClock [] (newGraphNode t))
  = [SetArtifact "T" Undefined] /\
  scriptResult (launchBody sampleClock [] (newGraphNode t)) = inl Undefined.
Proof.
  intros t.
  apply (X15_negative_retryCount_skips_the_action sampleClock []
           (newGraphNode t) []).
  simpl. lia.
Defined.

(** X16.  The levels are barriers for all tasks, related or not: the
    events of a run are ordered by level, and when an action of [c] is
    called every task of a lower level has already finished and stored its
    artifact, also a task [c] does not depend on. *)
Theorem X16_levels_are_barriers_for_unrelated_tasks
  (now : string -> Clock) (config : SequenceConfig) (tasks : list Task)
  (schedule : list nat) (d : Driver) :
  driver (build now config tasks schedule) = Some d ->
  (forall e1 e2, before (trace d) e1 e2 ->
     levelAt (nodeLevels d) (eventTask e1)
     <= levelAt (nodeLevels d) (eventTask e2)) /\
  (forall t1 t2 c a args k,
     trace d = t1 ++ Invoke c a args :: t2 -> In k (plan d) ->
     levelAt (nodeLevels d) k < levelAt (nodeLevels d) c ->
     exists v, In (SetArtifact k v) t1).
Proof.
  intros Hd.
  destruct (build_invariant _ _ _ _ _ Hd) as (Hp & _ & _ & [Hc _ _]).
  rewrite (inv_levels _ _ _ _ _ Hc), (inv_plan _ _ _ _ _ Hc).
  split; [exact (inv_trace_order _ _ _ _ _ Hc)|].
  intros t1 t2 c a args k Htr Hk Hlt.
  assert (Hinv : In (Invoke c a args) (trace d)).
  { rewrite Htr. apply in_or_app. right. left. reflexivity. }
  destruct (inv_trace_level _ _ _ _ _ Hc _ Hinv) as [_ Hle]. simpl in Hle.
  destruct (inv_below _ _ _ _ _ Hc k Hk) as ([v Hv] & _); [lia|].
  exists v. rewrite Htr in Hv. apply in_app_or in Hv.
  destruct Hv as [Hv|[Hv|Hv]]; [exact Hv|discriminate Hv|].
  exfalso.
  assert (Hb : before (trace d) (Invoke c a args) (SetArtifact k v))
    by (exists t1, t2; auto).
  apply (inv_trace_order _ _ _ _ _ Hc) in Hb. simpl in Hb. lia.
Qed.

Lemma X16_witness :
  let d := driverOf (build sampleClock defaultConfig chainTasks
                       [0; 0; 0; 0]%nat) in
  (forall e1 e2, before (trace d) e1 e2 ->
     levelAt (nodeLevels d) (eventTask e1)
     <= levelAt (nodeLevels d) (eventTask e2)) /\
  (forall t1 t2 c a args k,
     trace d = t1 ++ Invoke c a args :: t2 -> In k (plan d) ->
     levelAt (nodeLevels d) k < levelAt (nodeLevels d) c ->
     exists v, In (SetArtifact k v) t1).
Proof.
  intros d.
  apply (X16_levels_are_barriers_for_unrelated_tasks sampleClock
           defaultConfig chainTasks [0; 0; 0; 0]%nat d).
  vm_compute. reflexivity.
Defined.

(** X17.  A sequence without tasks: the graph and the plan are empty,
    [Math.max()] of no level is [-Infinity], the [for] loop is not entered
    and the driver is fulfilled at once, so [build] resolves without
    calling anything, whatever the configuration. *)
Theorem X17_empty_sequence_resolves_at_once
  (now : string -> Clock) (config : SequenceConfig) (schedule : list nat) :
  buildPromise (build now config [] schedule) = Fulfilled /\
  trace (driverOf (build now config [] schedule)) = [] /\
  launches (driverOf (build now config [] schedule)) = [] /\
  mathMax (map snd (nodeLevels (driverOf (build now config [] schedule))))
  = NegInfinity.
Proof.
  assert (E : executeTasksWithConcurrencyLimit now [] []
                (orElse (maxConcurrency config) 2) schedule
              = startDriver [] [] (orElse (maxConcurrency config) 2)).
  { unfold executeTasksWithConcurrencyLimit. apply runSchedule_stuck.
    reflexivity. }
  assert (Eb : build now config [] schedule
               = {| buildPromise := Fulfilled; mainSpan := Some SpanOk;
                    driver := Some (startDriver [] []
                                      (orElse (maxConcurrency config) 2)) |}).
  { unfold build.
    change (buildGraph []) with (@inl Graph Error []).
    cbv beta iota.
    change (topologicalSortWithPriority []) with
      (@inl (Graph * list string) Error ([], [])).
    cbv beta iota zeta. rewrite E. reflexivity. }
  rewrite Eb. simpl. auto.
Qed.

(** X18.  No permit is lost: in every state of a run the free permits and
    the permits held by launches add up to the capacity, and when the
    driver is fulfilled, also after tasks that failed and continued, every
    permit is back and nobody waits. *)
Theorem X18_every_permit_is_returned
  (now : string -> Clock) (config : SequenceConfig)
  (descriptors : list Task) (schedule : list nat) (d : Driver) :
  driver (build now config descriptors schedule) = Some d ->
  counter (semaphore d) + Z.of_nat (List.length (holders d))
  = concurrencyOf config /\
  (promise d = Fulfilled ->
   counter (semaphore d) = concurrencyOf config /\
   tasks (semaphore d) = [] /\ holders d = []).
Proof.
  intros Hd.
  destruct (build_invariant _ _ _ _ _ Hd) as (_ & _ & _ & [Hc _ _]).
  destruct (inv_permits _ _ _ _ _ Hc) as (_ & Hsum & _ & Hq).
  split; [exact Hsum|].
  intros Hf. destruct (inv_fulfilled _ _ _ _ _ Hc Hf) as [_ Hall].
  destruct (allFulfilled_no_resumable _ Hall) as [E1 E2].
  rewrite E1 in Hsum. simpl in Hsum.
  split; [lia|]. split; [rewrite Hq; exact E2|exact E1].
Qed.

Lemma X18_witness :
  let d := driverOf (build sampleClock defaultConfig continueTasks
                       [0; 0; 0; 0]%nat) in
  counter (semaphore d) + Z.of_nat (List.length (holders d))
  = concurrencyOf defaultConfig /\
  counter (semaphore d) = concurrencyOf defaultConfig /\
  tasks (semaphore d) = [] /\ holders d = [].
Proof.
  intros d.
  destruct (X18_every_permit_is_returned sampleClock defaultConfig
              continueTasks [0; 0; 0; 0]%nat d) as [H1 H2].
  - vm_compute. reflexivity.
  - split; [exact H1|]. apply H2. vm_compute. reflexivity.
Defined.

(** X19.  The retries of a task with retry count [r >= 0] and retry delay
    [d]: the action is invoked at most [r + 1] times; an attempt rejected
    with an error that is not the last is followed by the span event, a
    sleep of [d] ms and the next attempt with the same arguments; when the
    arguments can be logged and all [r + 1] attempts are rejected with an
    error, the action is invoked [r + 1] times, the status becomes failed
    and the error of the last attempt is thrown; and the attempt numbers
    the runner records lie between 1 and [r + 1]. *)
Theorem X19_retries_after_rejections_with_an_error
  (now : Clock) (t : Task) (args : list any) :
  let r := orElse (retryCount t) 0 in
  let d := orElse (retryDelay t) 0 in
  let es := scriptEvents (executeTaskWithRetries now t args) in
  0 <= r ->
  Z.of_nat (List.length (invocations es)) <= r + 1 /\
  (forall l1 l2 a m,
     es = l1 ++ Settle (id t) a (Rejected m) :: l2 -> a < r ->
     exists l3, l2 = SpanEvent (id t) (a + 1) m :: Delay (id t) d ::
                     Invoke (id t) (a + 1) args :: l3) /\
  (logArgsThrows args = false ->
   (forall a, 0 <= a <= r -> exists m, action t a args = Rejected m) ->
   Z.of_nat (List.length (invocations es)) = r + 1 /\
   Z.of_nat (List.length (delays es)) = r /\
   In (SetStatus (id t) Failed) es /\
   exists m, action t r args = Rejected m /\
             scriptResult (executeTaskWithRetries now t args)
             = inr (ActionError m)) /\
  (forall n m, In (SpanEvent (id t) n m) es -> 1 <= n <= r + 1).
Proof.
  intros r d es Hr. unfold es, executeTaskWithRetries, retryFuel.
  fold r.
  split; [|split; [|split]].
  - pose proof (retryLoop_invocations now t args (Z.to_nat (r + 1)) 0) as H.
    cbv zeta in H. lia.
  - intros l1 l2 a m E Ha.
    apply (retryLoop_delays now t args (Z.to_nat (r + 1)) 0) with (l1 := l1);
      [fold r; lia|exact E|exact Ha].
  - intros Hlog Hall.
    destruct (retryLoop_exhausted now t args (Z.to_nat (r + 1)) Hlog 0)
      as (H1 & H2 & H3); [exact Hr|fold r; lia|exact Hall|].
    split; [rewrite H1; lia|]. split; [|split; [exact H2|exact H3]].
    rewrite (retryLoop_exhausted_delays now t args (Z.to_nat (r + 1)) Hlog 0);
      [fold r; lia|exact Hr|fold r; lia|exact Hall].
  - intros n m H.
    pose proof (retryLoop_span_events now t args _ _ _ _ H) as H'.
    cbv zeta in H'. fold r in H'. lia.
Qed.

Lemma X19_witness :
  let es := scriptEvents (executeTaskWithRetries (sampleClock "T")
                            exhaustedTask []) in
  Z.of_nat (List.length (invocations es)) = 2 /\
  Z.of_nat (List.length (delays es)) = 1 /\
  In (SetStatus "T" Failed) es /\
  exists m, failing "boom" 1 [] = Rejected m /\
            scriptResult (executeTaskWithRetries (sampleClock "T")
                            exhaustedTask [])
            = inr (ActionError m).
Proof.
  intros es.
  destruct (X19_retries_after_rejections_with_an_error (sampleClock "T")
              exhaustedTask []) as (_ & _ & H & _).
  - simpl. lia.
  - apply H; [reflexivity|]. intros a _. exists "boom". reflexivity.
Defined.



(** X21.  Arguments that [log] cannot print keep the action from being
    called at all: [log("info", ..., args)] is the first statement of the
    [try].  For a task with retry count [r >= 0] whose arguments hold a
    BigInt (the artifact [0n] of a parent is one that reaches a child) the
    action is never invoked and no metrics are written; the runner sleeps
    [r] times, sets the status failed and throws the [TypeError] of
    [JSON.stringify]. *)
Theorem X21_unloggable_arguments_skip_the_action
  (now : Clock) (t : Task) (args : list any) :
  let r := orElse (retryCount t) 0 in
  let es := scriptEvents (executeTaskWithRetries now t args) in
  0 <= r ->
  logArgsThrows args = true ->
  invocations es = [] /\
  metricsWrites es = [] /\
  Z.of_nat (List.length (delays es)) = r /\
  In (SetStatus (id t) Failed) es /\
  scriptResult (executeTaskWithRetries now t args)
  = inr (TypeError cannotSerialize).
Proof.
  intros r es Hr Hlog. unfold es, executeTaskWithRetries, retryFuel.
  fold r.
  destruct (retryLoop_unloggable_args now t args (Z.to_nat (r + 1)) Hlog 0)
    as (H1 & H2 & H3 & H4 & H5); [exact Hr|fold r; lia|].
  fold r in H3. split; [exact H1|]. split; [exact H2|].
  split; [lia|]. split; [exact H4|exact H5].
Qed.

Lemma X21_witness :
  let es := scriptEvents (executeTaskWithRetries (sampleClock "T")
                            recoveringTask [BigInt 0]) in
  logThrows (BigInt 0) = false /\
  invocations es = [] /\
  metricsWrites es = [] /\
  Z.of_nat (List.length (delays es)) = 1 /\
  In (SetStatus "T" Failed) es /\
  scriptResult (executeTaskWithRetries (sampleClock "T") recoveringTask
                  [BigInt 0])
  = inr (TypeError "Do not know how to serialize a BigInt").
Proof.
  intros es. split; [reflexivity|].
  apply (X21_unloggable_arguments_skip_the_action (sampleClock "T")
           recoveringTask [BigInt 0]).
  - simpl. lia.
  - reflexivity.
Defined.
